(** * Boundary-tag allocators of the malloc lab: implicit list and segregated fits

    A shallow embedding of [mm-baseline.c] (implicit free list) and
    [mm-segregated.c] (segregated fits) over a byte-addressed memory, and the
    properties of the specification checked against it.

    Conventions.
    - [size_t] values are integers reduced modulo [2^64], [word_t] and
      [uint32_t] values modulo [2^32]; every wrap-around is written where the
      C code can wrap.
    - An address is an integer.  A memory access is checked against the
      backing region: an access outside of [[mem_start_brk, mem_brk)] (a null
      pointer in particular) is a [Fault].
    - The target is LP64: pointers are 8 bytes, [sizeof(block_t)] is 32 in the
      segregated variant. *)

From Stdlib Require Import ZArith List Lia Bool FunctionalExtensionality.
Import ListNotations.
Local Open Scope Z_scope.

(** ** Machine integers *)

Definition wrap64 (x : Z) : Z := x mod 2 ^ 64.
Definition wrap32 (x : Z) : Z := x mod 2 ^ 32.

Definition NULL : Z := 0.

(** ** Byte-addressed memory, little endian *)

Definition mem : Type := Z -> Z.

Fixpoint load_bytes (n : nat) (m : mem) (a : Z) : Z :=
  match n with
  | O => 0
  | S k => m a mod 256 + 256 * load_bytes k m (a + 1)
  end.

Definition store_bytes (w : Z) (m : mem) (a v : Z) : mem :=
  fun x => if (a <=? x) && (x <? a + w) then (v / 2 ^ (8 * (x - a))) mod 256 else m x.

Definition load32 : mem -> Z -> Z := load_bytes 4.
Definition load64 : mem -> Z -> Z := load_bytes 8.
Definition store32 : mem -> Z -> Z -> mem := store_bytes 4.
Definition store64 : mem -> Z -> Z -> mem := store_bytes 8.

Definition copy_bytes (m : mem) (dst src n : Z) : mem :=
  fun x => if (dst <=? x) && (x <? dst + n) then m (src + (x - dst)) else m x.

Definition fill_bytes (m : mem) (dst c n : Z) : mem :=
  fun x => if (dst <=? x) && (x <? dst + n) then c mod 256 else m x.

(** ** The backing region *)

(** Modelled from the spec: [memlib] is not among the sources.  The region
    is the byte range [[mem_start_brk, mem_brk)], it grows at its high end
    only and never beyond [mem_max_addr].  [requests] records, latest first,
    every amount that was asked of [mem_sbrk]. *)
Record region : Type := mkRegion {
  bytes : mem;
  mem_start_brk : Z;
  mem_brk : Z;
  mem_max_addr : Z;
  requests : list Z
}.

Definition set_bytes (r : region) (m : mem) : region :=
  mkRegion m (mem_start_brk r) (mem_brk r) (mem_max_addr r) (requests r).

Definition valid (r : region) (a w : Z) : bool :=
  (mem_start_brk r <=? a) && (a + w <=? mem_brk r).

(** [(void * )-1], the failure value of [mem_sbrk]. *)
Definition sbrk_failed : Z := 2 ^ 64 - 1.

(** ** The state monad of the allocator

    [G] is the record of the allocator's global variables. *)

Section Machine.
Context {G : Type}.

Record state : Type := mkState { heap : region; globals : G }.

Inductive result (A : Type) : Type :=
| Ret (a : A) (s : state)
| Fault
| Diverge.
Arguments Ret {A} a s.
Arguments Fault {A}.
Arguments Diverge {A}.

Definition M (A : Type) : Type := state -> result A.

Definition ret {A} (a : A) : M A := fun s => Ret a s.

Definition bind {A B} (c : M A) (k : A -> M B) : M B :=
  fun s => match c s with
           | Ret a s' => k a s'
           | Fault => Fault
           | Diverge => Diverge
           end.

Definition fault {A} : M A := fun _ => Fault.
Definition diverge {A} : M A := fun _ => Diverge.

Definition get_globals : M G := fun s => Ret (globals s) s.
Definition set_globals (g : G) : M unit := fun s => Ret tt (mkState (heap s) g).

Definition ld32 (a : Z) : M Z :=
  fun s => if valid (heap s) a 4 then Ret (load32 (bytes (heap s)) a) s else Fault.

Definition ld64 (a : Z) : M Z :=
  fun s => if valid (heap s) a 8 then Ret (load64 (bytes (heap s)) a) s else Fault.

Definition st32 (a v : Z) : M unit :=
  fun s => if valid (heap s) a 4
           then Ret tt (mkState (set_bytes (heap s) (store32 (bytes (heap s)) a v)) (globals s))
           else Fault.

Definition st64 (a v : Z) : M unit :=
  fun s => if valid (heap s) a 8
           then Ret tt (mkState (set_bytes (heap s) (store64 (bytes (heap s)) a v)) (globals s))
           else Fault.

(** Modelled from the spec: [extend(n)] grows the region by exactly [n]
    bytes and returns the old top, or signals failure. *)
Definition mem_sbrk (incr : Z) : M Z :=
  fun s =>
    let r := heap s in
    if mem_brk r + incr <=? mem_max_addr r
    then Ret (mem_brk r)
             (mkState (mkRegion (bytes r) (mem_start_brk r) (mem_brk r + incr)
                                (mem_max_addr r) (incr :: requests r)) (globals s))
    else Ret sbrk_failed
             (mkState (mkRegion (bytes r) (mem_start_brk r) (mem_brk r)
                                (mem_max_addr r) (incr :: requests r)) (globals s)).

(** Modelled from the spec: [heap_hi()] is the current top of the region,
    inclusive, that is the address of its last byte. *)
Definition mem_heap_hi : M Z := fun s => Ret (mem_brk (heap s) - 1) s.

(** [memcpy]: both ranges must lie in the region and must not overlap. *)
Definition memcpy (dst src n : Z) : M unit :=
  fun s =>
    let r := heap s in
    if (n =? 0) then Ret tt s
    else if valid r dst n && valid r src n && ((dst + n <=? src) || (src + n <=? dst))
    then Ret tt (mkState (set_bytes r (copy_bytes (bytes r) dst src n)) (globals s))
    else Fault.

Definition memset (dst c n : Z) : M unit :=
  fun s =>
    let r := heap s in
    if (n =? 0) then Ret tt s
    else if valid r dst n
    then Ret tt (mkState (set_bytes r (fill_bytes (bytes r) dst c n)) (globals s))
    else Fault.
End Machine.

Arguments state G : clear implicits.
Arguments result G A : clear implicits.
Arguments M G A : clear implicits.
Arguments Ret {G A} a s.
Arguments Fault {G A}.
Arguments Diverge {G A}.

Declare Scope alloc_scope.
Notation "x <- c ;; k" := (bind c (fun x => k))
  (at level 61, c at next level, right associativity) : alloc_scope.
Notation "c ;;; k" := (bind c (fun _ => k))
  (at level 61, right associativity) : alloc_scope.
Local Open Scope alloc_scope.

(** ** The implicit-free-list allocator ([mm-baseline.c]) *)

Module Implicit.

(** The only global variable is [heap_listp]. *)
Definition st : Type := state Z.
Definition Mi : Type -> Type := M Z.

Definition wsize : Z := 4.
Definition dsize : Z := 2 * wsize.
Definition min_block_size : Z := 2 * dsize.
Definition chunksize : Z := Z.shiftl 1 12.
Definition alloc_mask : Z := 1.
Definition size_mask : Z := wrap32 (Z.lnot 7).

(** [offsetof(block_t, payload)] *)
Definition payload_offset : Z := 4.

Definition max (x y : Z) : Z := if x >? y then x else y.

Definition round_up (size n : Z) : Z :=
  wrap64 (n * (wrap64 (size + (n - 1)) / n)).

Definition pack (size : Z) (alloc : bool) : Z :=
  wrap32 (if alloc then Z.lor size 1 else size).

Definition extract_size (word : Z) : Z := Z.land word size_mask.

Definition extract_alloc (word : Z) : bool :=
  negb (Z.land word alloc_mask =? 0).

Definition get_size (block : Z) : Mi Z :=
  h <- ld32 block ;; ret (extract_size h).

Definition get_payload_size (block : Z) : Mi Z :=
  asize <- get_size block ;; ret (wrap64 (asize - dsize)).

Definition get_alloc (block : Z) : Mi bool :=
  h <- ld32 block ;; ret (extract_alloc h).

Definition write_header (block size : Z) (alloc : bool) : Mi unit :=
  st32 block (pack size alloc).

Definition write_footer (block size : Z) (alloc : bool) : Mi unit :=
  sz <- get_size block ;;
  st32 (block + payload_offset + sz - dsize) (pack size alloc).

Definition find_next (block : Z) : Mi Z :=
  sz <- get_size block ;; ret (block + sz).

Definition find_prev_footer (block : Z) : Z := block - wsize.

Definition find_prev (block : Z) : Mi Z :=
  f <- ld32 (find_prev_footer block) ;; ret (block - extract_size f).

Definition payload_to_header (pp : Z) : Z := pp - payload_offset.
Definition header_to_payload (block : Z) : Z := block + payload_offset.

Definition coalesce (block : Z) : Mi Z :=
  block_next <- find_next block ;;
  block_prev <- find_prev block ;;
  prev_alloc <- get_alloc block_prev ;;
  next_alloc <- get_alloc block_next ;;
  size <- get_size block ;;
  if prev_alloc && next_alloc then ret block
  else if prev_alloc && negb next_alloc then
    nsz <- get_size block_next ;;
    let size := wrap64 (size + nsz) in
    write_header block size false ;;;
    write_footer block size false ;;;
    ret block
  else if negb prev_alloc && next_alloc then
    psz <- get_size block_prev ;;
    let size := wrap64 (size + psz) in
    write_header block_prev size false ;;;
    write_footer block_prev size false ;;;
    ret block_prev
  else
    nsz <- get_size block_next ;;
    psz <- get_size block_prev ;;
    let size := wrap64 (size + wrap64 (nsz + psz)) in
    write_header block_prev size false ;;;
    write_footer block_prev size false ;;;
    ret block_prev.

Definition extend_heap (size : Z) : Mi Z :=
  let size := round_up size dsize in
  bp <- mem_sbrk size ;;
  if bp =? sbrk_failed then ret NULL
  else
    let block := payload_to_header bp in
    write_header block size false ;;;
    write_footer block size false ;;;
    block_next <- find_next block ;;
    write_header block_next 0 true ;;;
    coalesce block.

Definition mm_init : Mi Z :=
  start <- mem_sbrk (4 * wsize) ;;
  if start =? sbrk_failed then ret (-1)
  else
    st32 (start + 1 * wsize) (pack dsize true) ;;;
    st32 (start + 2 * wsize) (pack dsize true) ;;;
    st32 (start + 3 * wsize) (pack 0 true) ;;;
    set_globals (start + 1 * wsize) ;;;
    b <- extend_heap chunksize ;;
    if b =? NULL then ret (-1) else ret 0.

Definition place (block asize : Z) : Mi unit :=
  csize <- get_size block ;;
  if wrap64 (csize - asize) >=? min_block_size then
    write_header block asize true ;;;
    write_footer block asize true ;;;
    block_next <- find_next block ;;
    write_header block_next (wrap64 (csize - asize)) false ;;;
    write_footer block_next (wrap64 (csize - asize)) false
  else
    write_header block csize true ;;;
    write_footer block csize true.

(** The [for] loop of [find_fit].  Every iteration moves [block] up by a
    positive multiple of 8 and reads its header inside the region, so a
    fuel of the region's size in bytes is never used up. *)
Fixpoint find_fit_loop (fuel : nat) (asize block : Z) : Mi Z :=
  match fuel with
  | O => diverge
  | S fuel' =>
      sz <- get_size block ;;
      if sz >? 0 then
        al <- get_alloc block ;;
        sz' <- (if al then ret 0 else get_size block) ;;
        if negb al && (asize <=? sz') then ret block
        else
          nxt <- find_next block ;;
          find_fit_loop fuel' asize nxt
      else ret NULL
  end.

Definition heap_fuel : Mi nat :=
  fun s => Ret (S (Z.to_nat (mem_brk (heap s) - mem_start_brk (heap s)))) s.

Definition find_fit (asize : Z) : Mi Z :=
  fuel <- heap_fuel ;;
  hp <- get_globals ;;
  find_fit_loop fuel asize hp.

Definition malloc (size : Z) : Mi Z :=
  if size =? 0 then ret NULL
  else
    hp <- get_globals ;;
    (if hp =? NULL then mm_init else ret 0) ;;;
    let asize := wrap64 (round_up size dsize + dsize) in
    block <- find_fit asize ;;
    block <- (if block =? NULL
              then extend_heap (max asize chunksize)
              else ret block) ;;
    if block =? NULL then ret NULL
    else
      place block asize ;;;
      ret (header_to_payload block).

Definition free (bp : Z) : Mi unit :=
  if bp =? NULL then ret tt
  else
    let block := payload_to_header bp in
    size <- get_size block ;;
    write_header block size false ;;;
    write_footer block size false ;;;
    coalesce block ;;;
    ret tt.

Definition realloc (ptr size : Z) : Mi Z :=
  let block := payload_to_header ptr in
  if size =? 0 then free ptr ;;; ret NULL
  else if ptr =? NULL then malloc size
  else
    newptr <- malloc size ;;
    if newptr =? NULL then ret NULL
    else
      copysize <- get_payload_size block ;;
      let copysize := if size <? copysize then size else copysize in
      memcpy newptr ptr copysize ;;;
      free ptr ;;;
      ret newptr.

(** [asize / nmemb] with [nmemb = 0] is a division by zero. *)
Definition calloc (nmemb size : Z) : Mi Z :=
  let asize := wrap64 (nmemb * size) in
  if nmemb =? 0 then fault
  else if negb (asize / nmemb =? size) then ret NULL
  else
    bp <- malloc asize ;;
    if bp =? NULL then ret NULL
    else
      memset bp 0 asize ;;;
      ret bp.

(** [sizeof(block_t)]: the header only, [payload] is an array of size 0. *)
Definition block_size : Z := 4.

(** The [while] loop of [mm_checkheap]; [next + 1] is the address one
    [block_t] above [next].  A block of size 0 whose header is the word
    below it keeps the loop at this block forever; any other iteration
    moves [curr] up by 8 bytes at least and reads its header inside the
    region, so a fuel of the region's size in bytes is used up by such a
    block only.  The messages that are printed are left out. *)
Fixpoint checkheap_loop (fuel : nat) (hi curr : Z) : Mi bool :=
  match fuel with
  | O => diverge
  | S fuel' =>
      next <- find_next curr ;;
      if next + block_size <? hi then
        hdr <- ld32 curr ;;
        ftr <- ld32 (find_prev_footer next) ;;
        if negb (hdr =? ftr) then ret false
        else checkheap_loop fuel' hi next
      else ret true
  end.

Definition mm_checkheap (lineno : Z) : Mi bool :=
  hp <- get_globals ;;
  if hp =? NULL then ret false
  else
    hi <- mem_heap_hi ;;
    fuel <- heap_fuel ;;
    checkheap_loop fuel hi hp.

End Implicit.

(** ** The segregated-fits allocator ([mm-segregated.c]) *)

Module Segregated.

(** The global variables [heap_listp] and [seglist]. *)
Record vars : Type := mkVars { heap_listp : Z; seglist : Z }.

Definition st : Type := state vars.
Definition Ms : Type -> Type := M vars.

Definition chunksize : Z := Z.shiftl 1 12.
Definition wsize : Z := 4.
Definition dsize : Z := 2 * wsize.
Definition tsize : Z := 3 * wsize.
Definition ptr_size : Z := 8.
Definition size_class_cnt : Z := 16.
Definition min_block_size : Z := 2 * wsize + 2 * ptr_size + 2 * wsize.
Definition prologue_size : Z := min_block_size.
Definition epilogue_size : Z := dsize.
Definition alloc_mask : Z := 1.
Definition size_mask : Z := wrap32 (Z.lnot 7).

(** [struct block]: [header] at 0, [_dummy1] at 4, [payload] at 8, which
    is also where [pred] lies; [succ] at 16, [_dummy2] at 24 and four
    bytes of tail padding. *)
Definition payload_offset : Z := 8.
Definition pred_offset : Z := 8.
Definition succ_offset : Z := 16.
Definition block_size : Z := 32.

Definition max (x y : Z) : Z := if x >? y then x else y.

Definition round_up (size n : Z) : Z :=
  wrap64 (n * (wrap64 (size + (n - 1)) / n)).

Definition pack (size : Z) (alloc : bool) : Z :=
  wrap32 (if alloc then Z.lor size 1 else size).

Definition extract_size (word : Z) : Z := Z.land word size_mask.

Definition extract_alloc (word : Z) : bool :=
  negb (Z.land word alloc_mask =? 0).

Definition get_size (block : Z) : Ms Z :=
  h <- ld32 block ;; ret (extract_size h).

Definition get_payload_size (block : Z) : Ms Z :=
  asize <- get_size block ;; ret (wrap64 (asize - tsize)).

Definition get_alloc (block : Z) : Ms bool :=
  h <- ld32 block ;; ret (extract_alloc h).

Definition write_header (block size : Z) (alloc : bool) : Ms unit :=
  st32 block (pack size alloc).

Definition get_footer (block : Z) : Ms Z :=
  ps <- get_payload_size block ;; ret (block + payload_offset + ps).

Definition write_footer (block size : Z) (alloc : bool) : Ms unit :=
  footer_ptr <- get_footer block ;;
  st32 footer_ptr (pack size alloc).

Definition find_next (block : Z) : Ms Z :=
  sz <- get_size block ;; ret (block + sz).

Definition find_prev_footer (block : Z) : Z := block - wsize.

Definition find_prev (block : Z) : Ms Z :=
  f <- ld32 (find_prev_footer block) ;; ret (block - extract_size f).

Definition payload_to_header (pp : Z) : Z := pp - payload_offset.
Definition header_to_payload (block : Z) : Z := block + payload_offset.

(** The fields [pred] and [succ] of a block. *)
Definition get_pred (b : Z) : Ms Z := ld64 (b + pred_offset).
Definition get_succ (b : Z) : Ms Z := ld64 (b + succ_offset).
Definition set_pred (b v : Z) : Ms unit := st64 (b + pred_offset) v.
Definition set_succ (b v : Z) : Ms unit := st64 (b + succ_offset) v.

(** The [do ... while] loop of [get_highest_1bit_idx]; a 32-bit number is
    exhausted after at most 32 shifts. *)
Fixpoint highest_1bit_loop (fuel : nat) (num idx : Z) : Z :=
  match fuel with
  | O => idx
  | S fuel' =>
      let num := Z.shiftr num 1 in
      let idx := wrap32 (idx + 1) in
      if num >? 0 then highest_1bit_loop fuel' num idx else idx
  end.

(** The argument is converted to [uint32_t]. *)
Definition get_highest_1bit_idx (num : Z) : Z :=
  highest_1bit_loop 32 (wrap32 num) 0.

(** [(size_t)(1 << k)]: the shift is done on [int]; bit 31 is the sign
    bit, and the conversion to [size_t] extends the sign. *)
Definition int_shl1_as_size_t (k : Z) : Z :=
  let v := wrap32 (Z.shiftl 1 k) in
  wrap64 (if v <? 2 ^ 31 then v else v - 2 ^ 32).

Definition get_seglist_idx (size : Z) : Z :=
  let highest_1bit_idx := get_highest_1bit_idx size in
  let highest_1bit_idx :=
    if size =? int_shl1_as_size_t (wrap32 (highest_1bit_idx - 1))
    then wrap32 (highest_1bit_idx - 1)
    else highest_1bit_idx in
  if highest_1bit_idx <=? 5 then 0
  else if highest_1bit_idx >=? 20 then 15
  else wrap32 (highest_1bit_idx - 5).

(** [&(seglist[idx])] *)
Definition seglist_at (idx : Z) : Ms Z :=
  g <- get_globals ;; ret (seglist g + idx * block_size).

Definition insert_free_block (bp : Z) : Ms unit :=
  sz <- get_size bp ;;
  let idx := get_seglist_idx sz in
  head <- seglist_at idx ;;
  set_pred bp head ;;;
  s <- get_succ head ;;
  set_succ bp s ;;;
  p <- get_pred bp ;;
  set_succ p bp ;;;
  s' <- get_succ bp ;;
  set_pred s' bp.

Definition remove_from_free_list (bp : Z) : Ms unit :=
  p <- get_pred bp ;;
  s <- get_succ bp ;;
  set_succ p s ;;;
  s' <- get_succ bp ;;
  p' <- get_pred bp ;;
  set_pred s' p'.

Definition coalesce (block : Z) : Ms Z :=
  block_next <- find_next block ;;
  block_prev <- find_prev block ;;
  prev_alloc <- get_alloc block_prev ;;
  next_alloc <- get_alloc block_next ;;
  size <- get_size block ;;
  block <-
    (if prev_alloc && next_alloc then ret block
     else if prev_alloc && negb next_alloc then
       nsz <- get_size block_next ;;
       let size := wrap64 (size + nsz) in
       write_header block size false ;;;
       write_footer block size false ;;;
       remove_from_free_list block_next ;;;
       ret block
     else if negb prev_alloc && next_alloc then
       psz <- get_size block_prev ;;
       let size := wrap64 (size + psz) in
       write_header block_prev size false ;;;
       write_footer block_prev size false ;;;
       remove_from_free_list block_prev ;;;
       ret block_prev
     else
       nsz <- get_size block_next ;;
       psz <- get_size block_prev ;;
       let size := wrap64 (size + wrap64 (nsz + psz)) in
       write_header block_prev size false ;;;
       write_footer block_prev size false ;;;
       remove_from_free_list block_prev ;;;
       remove_from_free_list block_next ;;;
       ret block_prev) ;;
  insert_free_block block ;;;
  ret block.

Definition extend_heap (size : Z) : Ms Z :=
  let size := round_up size dsize in
  bp <- mem_sbrk size ;;
  if bp =? sbrk_failed then ret NULL
  else
    let old_epi := bp - epilogue_size in
    write_header old_epi size false ;;;
    write_footer old_epi size false ;;;
    new_epi <- find_next old_epi ;;
    write_header new_epi 0 true ;;;
    coalesce old_epi.

(** The body of the [for] loop of [mm_init], for [i = 16 - n .. 15]. *)
Fixpoint init_heads (n : nat) (start i : Z) : Ms unit :=
  match n with
  | O => ret tt
  | S n' =>
      let b := start + i * block_size in
      write_header b block_size true ;;;
      write_footer b block_size true ;;;
      set_pred b b ;;;
      set_succ b b ;;;
      init_heads n' start (i + 1)
  end.

(** The amount that [mm_init] asks of [mem_sbrk]. *)
Definition init_request : Z :=
  wrap64 (wrap64 (size_class_cnt * block_size + prologue_size) + epilogue_size).

Definition mm_init : Ms Z :=
  start <- mem_sbrk init_request ;;
  if start =? sbrk_failed then ret (-1)
  else
    init_heads (Z.to_nat size_class_cnt) start 0 ;;;
    g <- get_globals ;;
    set_globals (mkVars (heap_listp g) start) ;;;
    let prologue := start + size_class_cnt * block_size in
    write_header prologue prologue_size true ;;;
    write_footer prologue prologue_size true ;;;
    let epilogue := prologue + prologue_size in
    write_header epilogue 0 true ;;;
    g <- get_globals ;;
    set_globals (mkVars prologue (seglist g)) ;;;
    b <- extend_heap chunksize ;;
    if b =? NULL then ret (-1) else ret 0.

Definition split_block (bp asize : Z) : Ms unit :=
  csize <- get_size bp ;;
  write_header bp asize true ;;;
  write_footer bp asize true ;;;
  block_next <- find_next bp ;;
  write_header block_next (wrap64 (csize - asize)) false ;;;
  write_footer block_next (wrap64 (csize - asize)) false ;;;
  insert_free_block block_next.

Definition place (block asize : Z) : Ms unit :=
  csize <- get_size block ;;
  remove_from_free_list block ;;;
  if wrap64 (csize - asize) >=? min_block_size then split_block block asize
  else
    write_header block csize true ;;;
    write_footer block csize true.

(** The inner [for] loop of [find_fit] over one size class: the result is
    the first block that fits, or [None] once the walk is back at the
    head.  A list that never comes back to its head makes the loop run
    forever; a well-formed list has fewer nodes than the region has
    bytes. *)
Fixpoint find_fit_list (fuel : nat) (asize head block : Z) : Ms (option Z) :=
  match fuel with
  | O => diverge
  | S fuel' =>
      if block =? head then ret None
      else
        sz <- get_size block ;;
        if asize <=? sz then ret (Some block)
        else
          nxt <- get_succ block ;;
          find_fit_list fuel' asize head nxt
  end.

Definition heap_fuel : Ms nat :=
  fun s => Ret (S (Z.to_nat (mem_brk (heap s) - mem_start_brk (heap s)))) s.

(** The outer [while] loop of [find_fit], with [n] size classes left. *)
Fixpoint find_fit_classes (n : nat) (asize idx : Z) : Ms Z :=
  match n with
  | O => ret NULL
  | S n' =>
      head <- seglist_at idx ;;
      first <- get_succ head ;;
      fuel <- heap_fuel ;;
      r <- find_fit_list fuel asize head first ;;
      match r with
      | Some block => ret block
      | None => find_fit_classes n' asize (wrap32 (idx + 1))
      end
  end.

Definition find_fit (asize : Z) : Ms Z :=
  let idx := get_seglist_idx asize in
  find_fit_classes (Z.to_nat (size_class_cnt - idx)) asize idx.

Definition get_asize (size : Z) : Z :=
  max (round_up (wrap64 (size + tsize)) dsize) min_block_size.

Definition malloc (size : Z) : Ms Z :=
  if size =? 0 then ret NULL
  else
    g <- get_globals ;;
    (if heap_listp g =? NULL then mm_init else ret 0) ;;;
    let asize := get_asize size in
    block <- find_fit asize ;;
    block <- (if block =? NULL
              then extend_heap (max asize chunksize)
              else ret block) ;;
    if block =? NULL then ret NULL
    else
      place block asize ;;;
      ret (header_to_payload block).

Definition free (ptr : Z) : Ms unit :=
  if ptr =? NULL then ret tt
  else
    let block := payload_to_header ptr in
    size <- get_size block ;;
    write_header block size false ;;;
    write_footer block size false ;;;
    coalesce block ;;;
    ret tt.

Definition realloc (oldptr size : Z) : Ms Z :=
  if size =? 0 then free oldptr ;;; ret NULL
  else if oldptr =? NULL then malloc size
  else
    let old_block := payload_to_header oldptr in
    oldsize <- get_size old_block ;;
    let asize := get_asize size in
    if oldsize >=? asize then
      (if wrap64 (oldsize - asize) >=? min_block_size
       then split_block old_block asize
       else ret tt) ;;;
      ret oldptr
    else
      newptr <- malloc size ;;
      if newptr =? NULL then ret NULL
      else
        n <- get_payload_size old_block ;;
        memcpy newptr oldptr n ;;;
        free oldptr ;;;
        ret newptr.

Definition calloc (nmemb size : Z) : Ms Z :=
  let bytes := wrap64 (nmemb * size) in
  newptr <- malloc bytes ;;
  (if negb (newptr =? NULL) then memset newptr 0 bytes else ret tt) ;;;
  ret newptr.

(** The [while] loop of [mm_checkheap]; [next + 1] is the address one
    [block_t], 32 bytes, above [next].  A block of size 0 whose header is
    the word below it keeps the loop at this block forever; any other
    iteration moves [curr] up by 8 bytes at least and reads its header
    inside the region.  The message that is printed is left out. *)
Fixpoint checkheap_loop (fuel : nat) (hi curr : Z) : Ms bool :=
  match fuel with
  | O => diverge
  | S fuel' =>
      next <- find_next curr ;;
      if next + block_size <? hi then
        hdr <- ld32 curr ;;
        ftr <- ld32 (find_prev_footer next) ;;
        if negb (hdr =? ftr) then ret false
        else checkheap_loop fuel' hi next
      else ret true
  end.

Definition mm_checkheap (lineno : Z) : Ms bool :=
  g <- get_globals ;;
  if heap_listp g =? NULL then ret false
  else
    hi <- mem_heap_hi ;;
    fuel <- heap_fuel ;;
    checkheap_loop fuel hi (heap_listp g).

End Segregated.


(** * Vocabulary of the specification *)

(** ** Outcomes of a run *)

Definition returned {G A} (r : result G A) : option A :=
  match r with Ret a _ => Some a | _ => None end.

(** The state [s] with the memory contents [m]: what a store leaves. *)
Definition upd {G} (s : state G) (m : mem) : state G :=
  mkState (set_bytes (heap s) m) (globals s).

(** The byte at an address, as a load sees it. *)
Definition get_byte (m : mem) (x : Z) : Z := m x mod 256.

(** ** Reading the boundary tags *)

(** The word formats of the two variants are the same; the readers below
    are those of [get_size] and [get_alloc] without the access check. *)
Definition size_at (m : mem) (b : Z) : Z := Segregated.extract_size (load32 m b).
Definition alloc_at (m : mem) (b : Z) : bool := Segregated.extract_alloc (load32 m b).

(** Invariant (I3) checked block by block, from [b] up to the epilogue:
    [false] when some free block is followed by a free block. *)
Fixpoint no_adjacent_free (fuel : nat) (m : mem) (b : Z) : bool :=
  match fuel with
  | O => true
  | S k =>
      let sz := size_at m b in
      if sz =? 0 then true
      else if negb (alloc_at m b) && negb (alloc_at m (b + sz)) then false
      else no_adjacent_free k m (b + sz)
  end.

Definition seg_I3 (s : Segregated.st) : bool :=
  no_adjacent_free (Z.to_nat (mem_brk (heap s) - mem_start_brk (heap s)))
                   (bytes (heap s)) (Segregated.heap_listp (globals s)).

(** [a * b] does not fit [size_t]. *)
Definition mul_overflows (a b : Z) : Prop := 2 ^ 64 <= a * b.

(** ** Heaps before the first call *)

(** A region of which nothing was requested yet: it starts at [start],
    may grow up to [limit], and holds zeroes. *)
Definition fresh_region (start limit : Z) : region :=
  mkRegion (fun _ => 0) start start limit [].

Definition seg_boot (start limit : Z) : Segregated.st :=
  mkState (fresh_region start limit) (Segregated.mkVars NULL NULL).

Definition imp_boot (start limit : Z) : Implicit.st :=
  mkState (fresh_region start limit) NULL.

(** The two boot heaps used as concrete inputs: the base [4096] is a
    multiple of 16 and one mebibyte may be requested. *)
Definition seg0 : Segregated.st := seg_boot 4096 (4096 + 2 ^ 20).
Definition imp0 : Implicit.st := imp_boot 4096 (4096 + 2 ^ 20).

(** ** The free lists of the segregated variant *)

(** [&(seglist[idx])] for the size class of the block at [b]. *)
Definition class_head (s : Segregated.st) (b : Z) : Z :=
  Segregated.seglist (globals s)
  + Segregated.get_seglist_idx (size_at (bytes (heap s)) b) * Segregated.block_size.

Definition pred_of (m : mem) (b : Z) : Z := load64 m (b + Segregated.pred_offset).
Definition succ_of (m : mem) (b : Z) : Z := load64 m (b + Segregated.succ_offset).

(** Two block records that do not overlap. *)
Definition apart (x y : Z) : Prop :=
  x + Segregated.block_size <= y \/ y + Segregated.block_size <= x.

(** Invariant (I6) at a list head [h]: the first node of the list, which is
    [h] itself when the list is empty, points back to [h]. *)
Definition head_wf (m : mem) (h : Z) : Prop :=
  pred_of m (succ_of m h) = h /\ (succ_of m h = h \/ apart h (succ_of m h)).

(** The link fields of [b] are those of no node that an insertion at the
    list of [h] touches. *)
Definition off_list (m : mem) (h b : Z) : Prop :=
  apart b h /\ apart b (succ_of m h).

(** The block record at [b] lies in the region. *)
Definition record_valid (s : Segregated.st) (b : Z) : Prop :=
  valid (heap s) b Segregated.block_size = true.

(** Every address of the region is a 64-bit pointer. *)
Definition addressable (r : region) : Prop :=
  0 <= mem_start_brk r /\ mem_brk r <= 2 ^ 64.

(** ** What the list operations do to the memory *)

(** The four stores of [insert_free_block] for the list head [h]. *)
Definition link_front (m : mem) (h b : Z) : mem :=
  let m1 := store64 m (b + Segregated.pred_offset) h in
  let m2 := store64 m1 (b + Segregated.succ_offset) (succ_of m1 h) in
  let m3 := store64 m2 (pred_of m2 b + Segregated.succ_offset) b in
  store64 m3 (succ_of m3 b + Segregated.pred_offset) b.

(** The two stores of [remove_from_free_list]. *)
Definition unlink (m : mem) (b : Z) : mem :=
  let m1 := store64 m (pred_of m b + Segregated.succ_offset) (succ_of m b) in
  store64 m1 (succ_of m1 b + Segregated.pred_offset) (pred_of m1 b).

(** [insert_free_block(b)] followed by [remove_from_free_list(b)] returns
    and restores the lists: no byte outside of the two link fields of [b]
    has changed, hence no [pred] or [succ] of a head or of another node. *)
Definition lists_restored (s : Segregated.st) (b : Z) : Prop :=
  exists s',
    (Segregated.insert_free_block b ;;; Segregated.remove_from_free_list b) s = Ret tt s' /\
    globals s' = globals s /\
    (forall x, ~ (b + 8 <= x < b + 24) ->
               get_byte (bytes (heap s')) x = get_byte (bytes (heap s)) x) /\
    (forall n, n + 16 <= b \/ b + 16 <= n ->
               pred_of (bytes (heap s')) n = pred_of (bytes (heap s)) n /\
               succ_of (bytes (heap s')) n = succ_of (bytes (heap s)) n).

(** The state that a run leaves, or the start state when it does not return. *)
Definition after {G A} (c : M G A) (s : state G) : state G :=
  match c s with Ret _ s' => s' | _ => s end.

(** The size classes, as the lists of [mm-segregated.c] are documented:
    class 0 for the sizes up to 32, class [i] for [(2^(i+4), 2^(i+5)]],
    class 15 for the sizes above [2^19]. *)
Definition in_class (s i : Z) : Prop :=
  (i = 0 /\ s <= 32) \/
  (1 <= i <= 14 /\ 2 ^ (i + 4) < s <= 2 ^ (i + 5)) \/
  (i = 15 /\ 2 ^ 19 < s).


(** * The heap as a sequence of blocks *)

(** A block of the heap: the address of its header, its size and its
    allocation flag. *)
Record blk : Type := mkBlk { b_addr : Z; b_size : Z; b_alloc : bool }.

(** The blocks [bs] lie end to end from [a] to [e]; every size is a
    positive multiple of 8. *)
Fixpoint chain (a : Z) (bs : list blk) (e : Z) : Prop :=
  match bs with
  | [] => a = e
  | b :: bs' =>
      b_addr b = a /\ 8 <= b_size b /\ b_size b mod 8 = 0 /\
      chain (a + b_size b) bs' e
  end.

(** Header and footer of [b] hold its size and flag (I1). *)
Definition tagged (m : mem) (b : blk) : Prop :=
  load32 m (b_addr b) = Segregated.pack (b_size b) (b_alloc b) /\
  load32 m (b_addr b + b_size b - 4) = Segregated.pack (b_size b) (b_alloc b).

(** The boundary tags of a block: what [write_header] followed by
    [write_footer] stores. *)
Definition set_tags (m : mem) (a sz : Z) (al : bool) : mem :=
  store32 (store32 m a (Segregated.pack sz al)) (a + sz - 4) (Segregated.pack sz al).

(** The memories [m] and [m'] hold the same bytes outside of [[lo, hi)]. *)
Definition agree_outside (m m' : mem) (lo hi : Z) : Prop :=
  forall x, x < lo \/ hi <= x -> get_byte m' x = get_byte m x.

(** The bytes of the block [b] are the same in [m] and [m']. *)
Definition same_bytes (m m' : mem) (b : blk) : Prop :=
  forall x, b_addr b <= x < b_addr b + b_size b -> get_byte m' x = get_byte m x.

(** The backing region can be addressed with 64-bit pointers and is small
    enough for every block size to fit a 32-bit tag. *)
Definition region_ok (r : region) : Prop :=
  0 <= mem_start_brk r /\ mem_start_brk r <= mem_brk r /\
  mem_brk r <= mem_max_addr r /\ mem_max_addr r < 2 ^ 64 - 1 /\
  mem_max_addr r - mem_start_brk r < 2 ^ 32.

(** ** The heap of the implicit variant *)

(** [bs] are the blocks between the prologue and the epilogue.  The
    prologue is the 8-byte allocated block at [heap_listp]; the epilogue is
    the last word of the region. *)
Definition imp_prologue (s : Implicit.st) : blk := mkBlk (globals s) 8 true.

Record imp_inv (s : Implicit.st) (bs : list blk) : Prop := mkImpInv {
  ii_region : region_ok (heap s);
  ii_base : mem_start_brk (heap s) + 4 <= globals s;
  ii_align : globals s mod 8 = 4;
  ii_chain : chain (globals s) (imp_prologue s :: bs) (mem_brk (heap s) - 4);
  ii_tags : Forall (tagged (bytes (heap s))) (imp_prologue s :: bs);
  ii_epilogue : load32 (bytes (heap s)) (mem_brk (heap s) - 4) = Implicit.pack 0 true
}.

(** ** The heap of the segregated variant *)

(** [x] is followed by [y] in a doubly linked list. *)
Definition links (m : mem) (x y : Z) : Prop :=
  succ_of m x = y /\ pred_of m y = x.

(** The nodes [l] are linked in this order between [x] and [y]. *)
Fixpoint path (m : mem) (x : Z) (l : list Z) (y : Z) : Prop :=
  match l with
  | [] => links m x y
  | n :: l' => links m x n /\ path m n l' y
  end.

(** [&(seglist[i])] *)
Definition head_of (s : Segregated.st) (i : Z) : Z :=
  Segregated.seglist (globals s) + i * Segregated.block_size.

Definition seg_prologue (s : Segregated.st) : blk :=
  mkBlk (Segregated.heap_listp (globals s)) Segregated.prologue_size true.

(** The free lists [fl], one per size class, with [i] mapped to [l]. *)
Definition set_list (fl : Z -> list Z) (i : Z) (l : list Z) : Z -> list Z :=
  fun j => if j =? i then l else fl j.

(** [bs] are the blocks between the prologue and the epilogue, [fl i] the
    nodes of the list of class [i] from its head on, and [ex] the free
    blocks that are on no list for the moment (none between two calls). *)
Record seg_inv (s : Segregated.st) (bs : list blk) (fl : Z -> list Z) (ex : list Z)
  : Prop := mkSegInv {
  si_region : region_ok (heap s);
  si_base : mem_start_brk (heap s) <= Segregated.seglist (globals s);
  si_align : Segregated.seglist (globals s) mod 8 = 0;
  si_heap_listp :
    Segregated.heap_listp (globals s) =
    Segregated.seglist (globals s) + Segregated.size_class_cnt * Segregated.block_size;
  si_chain :
    chain (Segregated.heap_listp (globals s)) (seg_prologue s :: bs)
          (mem_brk (heap s) - Segregated.epilogue_size);
  si_min : Forall (fun b => Segregated.min_block_size <= b_size b) (seg_prologue s :: bs);
  si_tags : Forall (tagged (bytes (heap s))) (seg_prologue s :: bs);
  si_epilogue :
    load32 (bytes (heap s)) (mem_brk (heap s) - Segregated.epilogue_size) =
    Segregated.pack 0 true;
  si_lists :
    forall i, 0 <= i < Segregated.size_class_cnt ->
      path (bytes (heap s)) (head_of s i) (fl i) (head_of s i) /\ NoDup (fl i);
  si_nodes :
    forall i n, 0 <= i < Segregated.size_class_cnt -> In n (fl i) ->
      exists sz, In (mkBlk n sz false) bs /\ Segregated.get_seglist_idx sz = i /\ ~ In n ex;
  si_free :
    forall b, In b bs -> b_alloc b = false ->
      In (b_addr b) ex \/ In (b_addr b) (fl (Segregated.get_seglist_idx (b_size b)))
}.

(** The heap is well formed: (I1), the tiling between the sentinels, and
    for the segregated variant (I5) and (I6). *)
Definition imp_wf (s : Implicit.st) : Prop := exists bs, imp_inv s bs.
Definition seg_wf (s : Segregated.st) : Prop := exists bs fl, seg_inv s bs fl [].

(** ** Coalescing, on the sequence of blocks *)

(** The four cases of [coalesce] for a free block [b] that follows [p] and
    is followed by the blocks [l2] (by the epilogue when [l2] is empty).
    [next_alloc l2] is the flag that [coalesce] reads at the next header,
    [fused_block] the block that it returns: [b] grown by [p] when [p] is
    free and by the next block when that one is free. *)
Definition next_alloc (l2 : list blk) : bool :=
  match l2 with
  | [] => true
  | n :: _ => b_alloc n
  end.

Definition next_size (l2 : list blk) : Z :=
  match l2 with
  | [] => 0
  | n :: _ => b_size n
  end.

Definition fused_block (p b : blk) (l2 : list blk) : blk :=
  mkBlk (if b_alloc p then b_addr b else b_addr p)
        ((if b_alloc p then 0 else b_size p) + b_size b +
         (if next_alloc l2 then 0 else next_size l2))
        false.

(** The blocks that replace [p :: b :: l2]. *)
Definition coalesce_blocks (p b : blk) (l2 : list blk) : list blk :=
  (if b_alloc p then [p] else []) ++
  fused_block p b l2 :: (if next_alloc l2 then l2 else tl l2).

(** Invariant (I3) on a sequence of blocks. *)
Fixpoint no_adj_free (bs : list blk) : Prop :=
  match bs with
  | [] => True
  | b :: bs' =>
      match bs' with
      | [] => True
      | b' :: _ => b_alloc b = true \/ b_alloc b' = true
      end /\ no_adj_free bs'
  end.

(** ** Splitting, on the sequence of blocks *)

(** The blocks that [place] leaves where the free block [b] was: an
    allocated block of [asize] bytes and a free remainder when the
    remainder would have at least [minsz] bytes, else the whole block. *)
Definition placed (minsz : Z) (b : blk) (asize : Z) : list blk :=
  if b_size b - asize >=? minsz
  then [mkBlk (b_addr b) asize true; mkBlk (b_addr b + asize) (b_size b - asize) false]
  else [mkBlk (b_addr b) (b_size b) true].

(** The tags that [place] writes. *)
Definition place_mem (minsz : Z) (m : mem) (b : blk) (asize : Z) : mem :=
  if b_size b - asize >=? minsz
  then set_tags (set_tags m (b_addr b) asize true) (b_addr b + asize) (b_size b - asize) false
  else set_tags m (b_addr b) (b_size b) true.

(** ** Growing the region *)

(** The state after [mem_sbrk(incr)] was granted, and after it was refused. *)
Definition grown {G} (s : state G) (incr : Z) : state G :=
  mkState (mkRegion (bytes (heap s)) (mem_start_brk (heap s)) (mem_brk (heap s) + incr)
                    (mem_max_addr (heap s)) (incr :: requests (heap s)))
          (globals s).

Definition refused {G} (s : state G) (incr : Z) : state G :=
  mkState (mkRegion (bytes (heap s)) (mem_start_brk (heap s)) (mem_brk (heap s))
                    (mem_max_addr (heap s)) (incr :: requests (heap s)))
          (globals s).

(** Every allocated block of [bs] is a block of [bs'] and holds the same
    bytes in [m'] as in [m]. *)
Definition keeps (m m' : mem) (bs bs' : list blk) : Prop :=
  forall a, In a bs -> b_alloc a = true -> In a bs' /\ same_bytes m m' a.

(** Any two distinct addresses of [l] are those of records that do not
    overlap. *)
Definition sep (l : list Z) : Prop :=
  forall u v, In u l -> In v l -> u = v \/ apart u v.

(** The records with link fields: the list heads and the blocks of the
    heap; [free_entity] leaves out the allocated blocks. *)
Definition entity (s : Segregated.st) (bs : list blk) (u : Z) : Prop :=
  (exists i, 0 <= i < Segregated.size_class_cnt /\ u = head_of s i) \/
  (exists b, In b bs /\ b_addr b = u).

Definition free_entity (s : Segregated.st) (bs : list blk) (u : Z) : Prop :=
  (exists i, 0 <= i < Segregated.size_class_cnt /\ u = head_of s i) \/
  (exists b, In b bs /\ b_addr b = u /\ b_alloc b = false).

(** The memories [m] and [m'] hold the same bytes outside of the link
    fields of the records at [L]. *)
Definition only_fields (m m' : mem) (L : list Z) : Prop :=
  forall x, (forall q, In q L -> x < q + 8 \/ q + 24 <= x) -> get_byte m' x = get_byte m x.

(** The tags of a block and the link fields of a record [q] do not
    overlap. *)
Definition off_tags (q a sz : Z) : Prop :=
  (q + 24 <= a \/ a + 4 <= q + 8) /\ (q + 24 <= a + sz - 4 \/ a + sz <= q + 8).

(** ** The heap that [mm_init] lays out *)

(** The memory after the loop of [mm_init] of the segregated variant, for
    the heads [i .. i + n - 1]. *)
Fixpoint init_heads_mem (n : nat) (start i : Z) (m : mem) : mem :=
  match n with
  | O => m
  | S n' =>
      let b := start + i * Segregated.block_size in
      init_heads_mem n' start (i + 1)
        (store64 (store64 (set_tags m b Segregated.block_size true)
                          (b + Segregated.pred_offset) b)
                 (b + Segregated.succ_offset) b)
  end.

(** The state in which [mm_init] of the segregated variant calls
    [extend_heap]: sixteen heads, the prologue and the epilogue. *)
Definition seg_init_mem (start : Z) (m : mem) : mem :=
  store32 (set_tags (init_heads_mem 16 start 0 m) (start + 512) 32 true)
          (start + 544) (Segregated.pack 0 true).

Definition seg_init_state (s : Segregated.st) : Segregated.st :=
  let r := heap s in
  mkState (mkRegion (seg_init_mem (mem_brk r) (bytes r)) (mem_start_brk r)
                    (mem_brk r + Segregated.init_request) (mem_max_addr r)
                    (Segregated.init_request :: requests r))
          (Segregated.mkVars (mem_brk r + 512) (mem_brk r)).

(** ** Class 0 *)

(** Every node of the list of class 0 is a free block of exactly
    [min_block_size] bytes. *)
Definition class0_exact (s : Segregated.st) : Prop :=
  forall l n,
    path (bytes (heap s)) (head_of s 0) l (head_of s 0) -> ~ In (head_of s 0) l -> In n l ->
    size_at (bytes (heap s)) n = Segregated.min_block_size /\
    alloc_at (bytes (heap s)) n = false.

(** ** Heaps used as examples

    All of them grow out of the region of one megabyte at 4096. *)

(** The heaps that [mm_init] leaves. *)
Definition imp1 : Implicit.st := after Implicit.mm_init imp0.
Definition imp1_blocks : list blk := [mkBlk 4108 4096 false].

Definition seg1 : Segregated.st := after Segregated.mm_init seg0.
Definition seg1_blocks : list blk := [mkBlk 4640 4096 false].
Definition seg1_lists (i : Z) : list Z := if i =? 7 then [4640] else [].

(** One block of 24 bytes is allocated. *)
Definition imp2 : Implicit.st := after (Implicit.malloc 24) imp1.
Definition imp2_blocks : list blk := [mkBlk 4108 32 true; mkBlk 4140 4064 false].

Definition seg2 : Segregated.st := after (Segregated.malloc 24) seg1.
Definition seg2_blocks : list blk := [mkBlk 4640 40 true; mkBlk 4680 4056 false].
Definition seg2_lists (i : Z) : list Z := if i =? 7 then [4680] else [].

(** Two blocks of 16 bytes were allocated and the first one freed: it is
    the only node of class 0. *)
Definition seg3 : Segregated.st :=
  after (a <- Segregated.malloc 16 ;; Segregated.malloc 16 ;;; Segregated.free a) seg1.
Definition seg3_blocks : list blk :=
  [mkBlk 4640 32 false; mkBlk 4672 32 true; mkBlk 4704 4032 false].
Definition seg3_lists (i : Z) : list Z :=
  if i =? 0 then [4640] else if i =? 7 then [4704] else [].

(** The free block of [seg1] taken off its list, as [coalesce] expects the
    block it is given. *)
Definition seg1_off : Segregated.st := after (Segregated.remove_from_free_list 4640) seg1.
Definition no_lists (i : Z) : list Z := [].


(** * Further vocabulary *)

(** Invariant (I3) of the implicit variant, checked block by block from the
    prologue up, as [seg_I3] does for the segregated variant. *)
Definition imp_I3 (s : Implicit.st) : bool :=
  no_adjacent_free (Z.to_nat (mem_brk (heap s) - mem_start_brk (heap s)))
                   (bytes (heap s)) (globals s).

(** The state in which [mm_init] of the implicit variant calls
    [extend_heap]: a word of padding, the prologue and the epilogue. *)
Definition imp_init_mem (start : Z) (m : mem) : mem :=
  store32 (store32 (store32 m (start + 1 * Implicit.wsize) (Implicit.pack Implicit.dsize true))
                   (start + 2 * Implicit.wsize) (Implicit.pack Implicit.dsize true))
          (start + 3 * Implicit.wsize) (Implicit.pack 0 true).

Definition imp_init_state (s : Implicit.st) : Implicit.st :=
  let r := heap s in
  mkState (mkRegion (imp_init_mem (mem_brk r) (bytes r)) (mem_start_brk r)
                    (mem_brk r + 4 * Implicit.wsize) (mem_max_addr r)
                    (4 * Implicit.wsize :: requests r))
          (mem_brk r + 1 * Implicit.wsize).

(** The test of [mm_checkheap] on the block [b]: its header word is its
    footer word. *)
Definition tags_match (m : mem) (b : blk) : bool :=
  load32 m (b_addr b) =? load32 m (b_addr b + b_size b - 4).


(** * The claims settled by running the code *)

(** C1.  [calloc] of the segregated variant multiplies without a check:
    [(2^63 + 1) * 2] overflows [size_t] and wraps to 2, and the call
    returns the payload of a fresh 32-byte block instead of null. *)
Theorem C1_segregated_calloc_overflow_unchecked :
  mul_overflows (2 ^ 63 + 1) 2 /\
  returned (Segregated.calloc (2 ^ 63 + 1) 2 seg0) = Some 4648 /\
  4648 <> NULL.
Proof.
  split; [unfold mul_overflows; lia|].
  split; [vm_compute; reflexivity | discriminate].
Qed.

(** C2.  After [p = malloc(1000); realloc(p, 32)] in the segregated variant
    the call returns [p] and the remainder split off by the shrink is
    followed by the free block that already followed the old block:
    invariant (I3) is broken when [realloc] returns. *)
Theorem C2_segregated_realloc_shrink_leaves_adjacent_free :
  match (p <- Segregated.malloc 1000 ;; q <- Segregated.realloc p 32 ;; ret (p, q)) seg0 with
  | Ret (p, q) s =>
      q = p /\ seg_I3 s = false /\
      alloc_at (bytes (heap s)) 4688 = false /\
      4688 + size_at (bytes (heap s)) 4688 = 5656 /\
      alloc_at (bytes (heap s)) 5656 = false
  | _ => False
  end.
Proof. vm_compute. repeat split; reflexivity. Qed.

(** C8.  With a backing region that grants nothing, [mm_init] fails and
    [malloc], which ignores its result, goes on to read through the null
    [heap_listp] (implicit) or [seglist] (segregated): the call faults
    instead of returning null. *)
Theorem C8_malloc_ignores_failed_init :
  returned (Implicit.mm_init (imp_boot 4096 4096)) = Some (-1) /\
  Implicit.malloc 1 (imp_boot 4096 4096) = Fault /\
  returned (Segregated.mm_init (seg_boot 4096 4096)) = Some (-1) /\
  Segregated.malloc 1 (seg_boot 4096 4096) = Fault.
Proof. repeat split; vm_compute; reflexivity. Qed.


(** [lia] with division and remainder by constants. *)
Ltac mlia := Z.to_euclidean_division_equations; lia.

(** * Words and tags *)

Lemma land_size_mask (w : Z) :
  0 <= w < 2 ^ 32 -> Z.land w 4294967288 = 8 * (w / 8).
Proof.
  intros Hw.
  change 4294967288 with (Z.shiftl (Z.ones 29) 3).
  replace (8 * (w / 8)) with (Z.shiftl (Z.shiftr w 3) 3)
    by (rewrite Z.shiftl_mul_pow2, Z.shiftr_div_pow2 by lia; change (2 ^ 3) with 8; lia).
  apply Z.bits_inj'. intros i Hi.
  rewrite Z.land_spec.
  destruct (Z.ltb_spec i 3).
  - rewrite !Z.shiftl_spec_low by lia. apply andb_false_r.
  - rewrite !Z.shiftl_spec by lia. rewrite Z.shiftr_spec by lia.
    replace (i - 3 + 3) with i by lia.
    destruct (Z.ltb_spec i 32).
    + rewrite Z.ones_spec_low by lia. apply andb_true_r.
    + rewrite Z.ones_spec_high by lia. rewrite andb_false_r.
      symmetry. apply Z.bits_above_log2; try lia.
      destruct (Z.eq_dec w 0) as [->|]; [simpl; lia|].
      apply Z.log2_lt_pow2; try lia.
      apply Z.lt_le_trans with (2 ^ 32); try lia. apply Z.pow_le_mono_r; lia.
Qed.

Lemma land_one (w : Z) : Z.land w 1 = w mod 2.
Proof. change 1 with (Z.ones 1). rewrite Z.land_ones by lia. reflexivity. Qed.

Lemma lor_one (w : Z) : w mod 2 = 0 -> Z.lor w 1 = w + 1.
Proof.
  intros H. pose proof (Z.add_lor_land w 1) as E. rewrite land_one, H in E. lia.
Qed.

Lemma wrap64_small (x : Z) : 0 <= x < 2 ^ 64 -> wrap64 x = x.
Proof. intros. unfold wrap64. apply Z.mod_small. lia. Qed.

Lemma wrap32_small (x : Z) : 0 <= x < 2 ^ 32 -> wrap32 x = x.
Proof. intros. unfold wrap32. apply Z.mod_small. lia. Qed.

Lemma wrap64_range (x : Z) : 0 <= wrap64 x < 2 ^ 64.
Proof. unfold wrap64. apply Z.mod_pos_bound. lia. Qed.

Lemma wrap32_range (x : Z) : 0 <= wrap32 x < 2 ^ 32.
Proof. unfold wrap32. apply Z.mod_pos_bound. lia. Qed.

(** The tag word of a block of size [sz], a multiple of 8 below [2^32]. *)
Lemma pack_value (sz : Z) (al : bool) :
  0 <= sz < 2 ^ 32 -> sz mod 8 = 0 ->
  Segregated.pack sz al = sz + (if al then 1 else 0).
Proof.
  intros Hs H8. unfold Segregated.pack.
  assert (sz mod 2 = 0) by (apply Z.mod_divide in H8; [|lia]; destruct H8 as [k ->];
                            replace (k * 8) with (k * 4 * 2) by lia; apply Z.mod_mul; lia).
  assert (sz <= 2 ^ 32 - 8).
  { apply Z.mod_divide in H8; [|lia]. destruct H8 as [k ->]. lia. }
  destruct al.
  - rewrite lor_one by assumption. apply wrap32_small. lia.
  - rewrite wrap32_small by lia. lia.
Qed.

Lemma extract_size_pack (sz : Z) (al : bool) :
  0 <= sz < 2 ^ 32 -> sz mod 8 = 0 ->
  Segregated.extract_size (Segregated.pack sz al) = sz.
Proof.
  intros Hs H8. rewrite pack_value by assumption.
  assert (sz <= 2 ^ 32 - 8).
  { apply Z.mod_divide in H8; [|lia]. destruct H8 as [k ->]. lia. }
  unfold Segregated.extract_size. change Segregated.size_mask with 4294967288.
  rewrite land_size_mask by (destruct al; lia).
  apply Z.mod_divide in H8; [|lia]. destruct H8 as [k ->].
  destruct al.
  - replace (k * 8 + 1) with (1 + k * 8) by lia. rewrite Z.div_add by lia.
    change (1 / 8) with 0. lia.
  - rewrite Z.add_0_r, Z.div_mul by lia. lia.
Qed.

Lemma extract_alloc_pack (sz : Z) (al : bool) :
  0 <= sz < 2 ^ 32 -> sz mod 8 = 0 ->
  Segregated.extract_alloc (Segregated.pack sz al) = al.
Proof.
  intros Hs H8. rewrite pack_value by assumption.
  unfold Segregated.extract_alloc. change Segregated.alloc_mask with 1.
  rewrite land_one.
  apply Z.mod_divide in H8; [|lia]. destruct H8 as [k ->].
  replace (k * 8) with (k * 4 * 2) by lia.
  destruct al.
  - rewrite Z.add_comm, Z.mod_add by lia. reflexivity.
  - rewrite Z.add_0_r, Z.mod_mul by lia. reflexivity.
Qed.

(** Every size read off a tag is a multiple of 8 below [2^32]. *)
Lemma extract_size_spec (w : Z) :
  0 <= w < 2 ^ 32 ->
  Segregated.extract_size w = 8 * (w / 8).
Proof. intros. apply land_size_mask. assumption. Qed.

(** * Loads and stores *)

Lemma load_bytes_ext (n : nat) (m m' : mem) (a : Z) :
  (forall x, a <= x < a + Z.of_nat n -> get_byte m' x = get_byte m x) ->
  load_bytes n m' a = load_bytes n m a.
Proof.
  revert a. induction n as [|n IH]; intros a H; [reflexivity|].
  cbn [load_bytes]. rewrite IH by (intros; apply H; lia).
  unfold get_byte in H. rewrite (H a) by lia. reflexivity.
Qed.

Lemma load_bytes_range (n : nat) (m : mem) (a : Z) :
  0 <= load_bytes n m a < 2 ^ (8 * Z.of_nat n).
Proof.
  revert a. induction n as [|n IH]; intros a.
  - cbn. lia.
  - cbn [load_bytes].
    replace (8 * Z.of_nat (S n)) with (8 + 8 * Z.of_nat n) by lia.
    rewrite Z.pow_add_r by lia. change (2 ^ 8) with 256.
    pose proof (IH (a + 1)). pose proof (Z.mod_pos_bound (m a) 256). nia.
Qed.

Lemma load32_range (m : mem) (a : Z) : 0 <= load32 m a < 2 ^ 32.
Proof. apply (load_bytes_range 4). Qed.

Lemma load64_range (m : mem) (a : Z) : 0 <= load64 m a < 2 ^ 64.
Proof. apply (load_bytes_range 8). Qed.

(** The bytes that a load reads. *)
Lemma byte_of_load (n : nat) (m : mem) (a i : Z) :
  0 <= i < Z.of_nat n ->
  get_byte m (a + i) = (load_bytes n m a / 2 ^ (8 * i)) mod 256.
Proof.
  revert a i. induction n as [|n IH]; intros a i Hi; [lia|].
  cbn [load_bytes].
  destruct (Z.eq_dec i 0) as [->|Hne].
  - rewrite Z.add_0_r. change (2 ^ (8 * 0)) with 1. rewrite Z.div_1_r.
    rewrite (Z.mul_comm 256), Z.mod_add by lia.
    unfold get_byte. rewrite Z.mod_mod by lia. reflexivity.
  - replace (a + i) with (a + 1 + (i - 1)) by lia.
    rewrite IH by lia.
    replace (8 * i) with (8 + 8 * (i - 1)) by lia.
    rewrite Z.pow_add_r by lia. change (2 ^ 8) with 256.
    rewrite <- Z.div_div by (try lia; apply Z.pow_pos_nonneg; lia).
    f_equal. f_equal.
    rewrite (Z.mul_comm 256), Z.div_add by lia.
    rewrite (Z.div_small (m a mod 256)) by (apply Z.mod_pos_bound; lia). lia.
Qed.

Lemma store_bytes_out (w : Z) (m : mem) (a v x : Z) :
  x < a \/ a + w <= x -> store_bytes w m a v x = m x.
Proof.
  intros H. unfold store_bytes.
  destruct (Z.leb_spec a x), (Z.ltb_spec x (a + w)); cbn; try reflexivity; lia.
Qed.

Lemma store_bytes_in (w : Z) (m : mem) (a v x : Z) :
  a <= x < a + w -> store_bytes w m a v x = (v / 2 ^ (8 * (x - a))) mod 256.
Proof.
  intros H. unfold store_bytes.
  destruct (Z.leb_spec a x), (Z.ltb_spec x (a + w)); cbn; try reflexivity; lia.
Qed.

Lemma load_store_other (n : nat) (w : Z) (m : mem) (a v b : Z) :
  b + Z.of_nat n <= a \/ a + w <= b ->
  load_bytes n (store_bytes w m a v) b = load_bytes n m b.
Proof.
  intros H. apply load_bytes_ext. intros x Hx. unfold get_byte.
  rewrite store_bytes_out by lia. reflexivity.
Qed.

Lemma load_store_part (k : nat) (w : Z) (m : mem) (a v i : Z) :
  0 <= i -> i + Z.of_nat k <= w ->
  load_bytes k (store_bytes w m a v) (a + i) = (v / 2 ^ (8 * i)) mod 2 ^ (8 * Z.of_nat k).
Proof.
  revert i. induction k as [|k IH]; intros i Hi Hk.
  - cbn. rewrite Z.mod_1_r. reflexivity.
  - cbn [load_bytes].
    replace (a + i + 1) with (a + (i + 1)) by lia.
    rewrite IH by lia.
    rewrite store_bytes_in by lia.
    replace (a + i - a) with i by lia.
    rewrite Z.mod_mod by lia.
    replace (8 * Z.of_nat (S k)) with (8 + 8 * Z.of_nat k) by lia.
    rewrite (Z.pow_add_r 2 8) by lia. change (2 ^ 8) with 256.
    rewrite Z.rem_mul_r by (try lia; apply Z.pow_pos_nonneg; lia).
    replace (8 * (i + 1)) with (8 * i + 8) by lia.
    rewrite Z.pow_add_r by lia. change (2 ^ 8) with 256.
    rewrite Z.div_div by (try lia; apply Z.pow_pos_nonneg; lia).
    reflexivity.
Qed.

Lemma load32_store32_same (m : mem) (a v : Z) :
  load32 (store32 m a v) a = wrap32 v.
Proof.
  unfold load32, store32, wrap32.
  pose proof (load_store_part 4 4 m a v 0) as H.
  rewrite Z.add_0_r, Z.div_1_r in H. apply H; lia.
Qed.

Lemma load64_store64_same (m : mem) (a v : Z) :
  load64 (store64 m a v) a = wrap64 v.
Proof.
  unfold load64, store64, wrap64.
  pose proof (load_store_part 8 8 m a v 0) as H.
  rewrite Z.add_0_r, Z.div_1_r in H. apply H; lia.
Qed.

Lemma load32_store32_other (m : mem) (a v b : Z) :
  b + 4 <= a \/ a + 4 <= b -> load32 (store32 m a v) b = load32 m b.
Proof. intros. apply (load_store_other 4 4). lia. Qed.

Lemma load32_store64_other (m : mem) (a v b : Z) :
  b + 4 <= a \/ a + 8 <= b -> load32 (store64 m a v) b = load32 m b.
Proof. intros. apply (load_store_other 4 8). lia. Qed.

Lemma load64_store32_other (m : mem) (a v b : Z) :
  b + 8 <= a \/ a + 4 <= b -> load64 (store32 m a v) b = load64 m b.
Proof. intros. apply (load_store_other 8 4). lia. Qed.

Lemma load64_store64_other (m : mem) (a v b : Z) :
  b + 8 <= a \/ a + 8 <= b -> load64 (store64 m a v) b = load64 m b.
Proof. intros. apply (load_store_other 8 8). lia. Qed.

Lemma copy_bytes_out (m : mem) (dst src n x : Z) :
  x < dst \/ dst + n <= x -> copy_bytes m dst src n x = m x.
Proof.
  intros H. unfold copy_bytes.
  destruct (Z.leb_spec dst x), (Z.ltb_spec x (dst + n)); cbn; try reflexivity; lia.
Qed.

Lemma copy_bytes_in (m : mem) (dst src n x : Z) :
  dst <= x < dst + n -> copy_bytes m dst src n x = m (src + (x - dst)).
Proof.
  intros H. unfold copy_bytes.
  destruct (Z.leb_spec dst x), (Z.ltb_spec x (dst + n)); cbn; try reflexivity; lia.
Qed.

Lemma fill_bytes_out (m : mem) (dst c n x : Z) :
  x < dst \/ dst + n <= x -> fill_bytes m dst c n x = m x.
Proof.
  intros H. unfold fill_bytes.
  destruct (Z.leb_spec dst x), (Z.ltb_spec x (dst + n)); cbn; try reflexivity; lia.
Qed.

Lemma load_copy_other (k : nat) (m : mem) (dst src n b : Z) :
  b + Z.of_nat k <= dst \/ dst + n <= b ->
  load_bytes k (copy_bytes m dst src n) b = load_bytes k m b.
Proof.
  intros H. apply load_bytes_ext. intros x Hx. unfold get_byte.
  rewrite copy_bytes_out by lia. reflexivity.
Qed.

Lemma load_fill_other (k : nat) (m : mem) (dst c n b : Z) :
  b + Z.of_nat k <= dst \/ dst + n <= b ->
  load_bytes k (fill_bytes m dst c n) b = load_bytes k m b.
Proof.
  intros H. apply load_bytes_ext. intros x Hx. unfold get_byte.
  rewrite fill_bytes_out by lia. reflexivity.
Qed.

(** * Running the monad *)

Lemma bind_Ret {G A B} (c : M G A) (k : A -> M G B) (s s' : state G) (a : A) :
  c s = Ret a s' -> bind c k s = k a s'.
Proof. intros H. unfold bind. rewrite H. reflexivity. Qed.

Lemma bind_bind {G A B C} (c : M G A) (f : A -> M G B) (g : B -> M G C) (s : state G) :
  bind (bind c f) g s = bind c (fun x => bind (f x) g) s.
Proof. unfold bind. destruct (c s); reflexivity. Qed.

Lemma ret_bind {G A B} (a : A) (k : A -> M G B) (s : state G) :
  bind (ret a) k s = k a s.
Proof. reflexivity. Qed.

Lemma bind_Ret_inv {G A B} (c : M G A) (k : A -> M G B) (s s' : state G) (b : B) :
  bind c k s = Ret b s' -> exists a s1, c s = Ret a s1 /\ k a s1 = Ret b s'.
Proof.
  unfold bind. destruct (c s) as [a s1| |]; try discriminate.
  intros H. exists a, s1. split; [reflexivity | assumption].
Qed.

Lemma valid_upd {G} (s : state G) (m : mem) (a w : Z) :
  valid (heap (upd s m)) a w = valid (heap s) a w.
Proof. reflexivity. Qed.

Lemma bytes_upd {G} (s : state G) (m : mem) : bytes (heap (upd s m)) = m.
Proof. reflexivity. Qed.

Lemma globals_upd {G} (s : state G) (m : mem) : globals (upd s m) = globals s.
Proof. reflexivity. Qed.

Lemma upd_upd {G} (s : state G) (m m' : mem) : upd (upd s m) m' = upd s m'.
Proof. reflexivity. Qed.

Lemma ld32_ok {G} (s : state G) (a : Z) :
  valid (heap s) a 4 = true -> ld32 a s = Ret (load32 (bytes (heap s)) a) s.
Proof. intros H. unfold ld32. rewrite H. reflexivity. Qed.

Lemma ld64_ok {G} (s : state G) (a : Z) :
  valid (heap s) a 8 = true -> ld64 a s = Ret (load64 (bytes (heap s)) a) s.
Proof. intros H. unfold ld64. rewrite H. reflexivity. Qed.

Lemma st32_ok {G} (s : state G) (a v : Z) :
  valid (heap s) a 4 = true -> st32 a v s = Ret tt (upd s (store32 (bytes (heap s)) a v)).
Proof. intros H. unfold st32. rewrite H. reflexivity. Qed.

Lemma st64_ok {G} (s : state G) (a v : Z) :
  valid (heap s) a 8 = true -> st64 a v s = Ret tt (upd s (store64 (bytes (heap s)) a v)).
Proof. intros H. unfold st64. rewrite H. reflexivity. Qed.

(** An access inside a valid range is valid. *)
Lemma valid_sub (r : region) (a w a' w' : Z) :
  valid r a w = true -> a <= a' -> a' + w' <= a + w -> valid r a' w' = true.
Proof.
  unfold valid. intros H H1 H2.
  apply andb_true_iff in H. destruct H as [Ha Hb].
  apply Z.leb_le in Ha, Hb. apply andb_true_iff. split; apply Z.leb_le; lia.
Qed.


(** * The size classes *)

Lemma highest_1bit_loop_log2 (fuel : nat) (num idx : Z) :
  0 < num < 2 ^ Z.of_nat fuel -> 0 <= idx -> idx + Z.of_nat fuel < 2 ^ 32 ->
  Segregated.highest_1bit_loop fuel num idx = idx + Z.log2 num + 1.
Proof.
  revert num idx. induction fuel as [|fuel IH]; intros num idx Hn Hi Hb.
  - cbn in Hn. lia.
  - cbn [Segregated.highest_1bit_loop].
    rewrite wrap32_small by lia.
    rewrite Z.shiftr_div_pow2 by lia. change (2 ^ 1) with 2.
    destruct (Z.gtb_spec (num / 2) 0) as [Hpos|Hz].
    + rewrite IH; try lia.
      * assert (Z.log2 (num / 2) = Z.log2 num - 1).
        { pose proof (Z.log2_shiftr num 1 ltac:(lia)) as E.
          rewrite Z.shiftr_div_pow2 in E by lia. change (2 ^ 1) with 2 in E.
          assert (1 <= Z.log2 num).
          { apply Z.log2_le_pow2; try lia. change (2 ^ 1) with 2.
            destruct (Z.le_gt_cases 2 num); [assumption|].
            assert (num = 1) by lia. subst num. cbn in Hpos. lia. }
          lia. }
        lia.
      * split; [lia|].
        apply Z.div_lt_upper_bound; [lia|].
        replace (Z.of_nat (S fuel)) with (1 + Z.of_nat fuel) in Hn by lia.
        rewrite Z.pow_add_r in Hn by lia. lia.
    + assert (num = 1).
      { destruct (Z.le_gt_cases 2 num); [|lia].
        assert (1 <= num / 2) by (apply Z.div_le_lower_bound; lia). lia. }
      subst num. cbn. lia.
Qed.

Lemma get_highest_1bit_idx_log2 (s : Z) :
  0 < s < 2 ^ 32 -> Segregated.get_highest_1bit_idx s = Z.log2 s + 1.
Proof.
  intros Hs. unfold Segregated.get_highest_1bit_idx.
  rewrite wrap32_small by lia.
  rewrite highest_1bit_loop_log2; cbn; lia.
Qed.

Lemma log2_cases (s : Z) :
  0 < s < 2 ^ 32 ->
  exists L, Z.log2 s = L /\ 0 <= L <= 31 /\ 2 ^ L <= s < 2 ^ (L + 1).
Proof.
  intros Hs. exists (Z.log2 s). split; [reflexivity|].
  pose proof (Z.log2_spec s ltac:(lia)) as [H1 H2].
  pose proof (Z.log2_nonneg s).
  assert (Z.log2 s < 32) by (apply Z.log2_lt_pow2; lia).
  replace (Z.succ (Z.log2 s)) with (Z.log2 s + 1) in H2 by lia.
  lia.
Qed.

Lemma get_seglist_idx_classes (s : Z) :
  0 < s < 2 ^ 32 ->
  0 <= Segregated.get_seglist_idx s <= 15 /\
  in_class s (Segregated.get_seglist_idx s).
Proof.
  intros Hs. unfold in_class, Segregated.get_seglist_idx.
  rewrite get_highest_1bit_idx_log2 by assumption.
  destruct (log2_cases s Hs) as (L & -> & HL & Hpow).
  replace (L + 1 - 1) with L by lia.
  assert (HLc : L = 0 \/ L = 1 \/ L = 2 \/ L = 3 \/ L = 4 \/ L = 5 \/ L = 6 \/ L = 7 \/
                L = 8 \/ L = 9 \/ L = 10 \/ L = 11 \/ L = 12 \/ L = 13 \/ L = 14 \/
                L = 15 \/ L = 16 \/ L = 17 \/ L = 18 \/ L = 19 \/ L = 20 \/ L = 21 \/
                L = 22 \/ L = 23 \/ L = 24 \/ L = 25 \/ L = 26 \/ L = 27 \/ L = 28 \/
                L = 29 \/ L = 30 \/ L = 31) by lia.
  repeat (destruct HLc as [HLc|HLc]); subst L;
    match goal with
    | |- context [Segregated.int_shl1_as_size_t ?k] =>
        let v := eval vm_compute in (Segregated.int_shl1_as_size_t k) in
        change (Segregated.int_shl1_as_size_t k) with v
    end;
    match goal with
    | |- context [s =? ?v] => destruct (Z.eqb_spec s v)
    end; cbn in Hpow |- *; lia.
Qed.

Lemma in_class_monotone (a b i j : Z) :
  0 < a <= b -> 0 <= i <= 15 -> 0 <= j <= 15 ->
  in_class a i -> in_class b j -> i <= j.
Proof.
  intros Hab Hi Hj Ha Hb.
  destruct (Z.le_gt_cases i j) as [|Hlt]; [assumption|exfalso].
  assert (Hp : 2 ^ (j + 5) <= 2 ^ (i + 4)) by (apply Z.pow_le_mono_r; lia).
  assert (H19 : 2 ^ (i + 4) <= 2 ^ 19) by (apply Z.pow_le_mono_r; lia).
  assert (H5 : 2 ^ 5 <= 2 ^ (i + 4)) by (apply Z.pow_le_mono_r; lia).
  change (2 ^ 5) with 32 in H5.
  unfold in_class in Ha, Hb.
  destruct Ha as [(-> & Ha) | [(Hi' & Ha) | (-> & Ha)]];
    destruct Hb as [(-> & Hb) | [(Hj' & Hb) | (-> & Hb)]]; lia.
Qed.

(** * The list operations, run *)

Tactic Notation "exec" uconstr(H) :=
  (rewrite ?bind_bind; erewrite (bind_Ret _ _ _ _ _ H); cbv beta;
   rewrite ?upd_upd, ?bytes_upd).

Lemma valid_range (r : region) (a w : Z) :
  valid r a w = true -> mem_start_brk r <= a /\ a + w <= mem_brk r.
Proof.
  unfold valid. intros H. apply andb_true_iff in H. destruct H as [Ha Hb].
  apply Z.leb_le in Ha, Hb. lia.
Qed.

Lemma valid_intro (r : region) (a w : Z) :
  mem_start_brk r <= a -> a + w <= mem_brk r -> valid r a w = true.
Proof.
  intros. unfold valid. apply andb_true_iff. split; apply Z.leb_le; lia.
Qed.

Ltac valid_tac := rewrite ?valid_upd; apply valid_intro; lia.

Lemma seg_get_size_ok (s : Segregated.st) (b : Z) :
  valid (heap s) b 4 = true ->
  Segregated.get_size b s = Ret (size_at (bytes (heap s)) b) s.
Proof.
  intros H. unfold Segregated.get_size.
  exec (ld32_ok s b H). reflexivity.
Qed.

Lemma seg_get_alloc_ok (s : Segregated.st) (b : Z) :
  valid (heap s) b 4 = true ->
  Segregated.get_alloc b s = Ret (alloc_at (bytes (heap s)) b) s.
Proof.
  intros H. unfold Segregated.get_alloc.
  exec (ld32_ok s b H). reflexivity.
Qed.

Lemma seglist_at_ok (s : Segregated.st) (idx : Z) :
  Segregated.seglist_at idx s =
  Ret (Segregated.seglist (globals s) + idx * Segregated.block_size) s.
Proof. reflexivity. Qed.

(** [remove_from_free_list] makes the two stores of [unlink] when the four
    link fields it goes through lie in the region. *)
Lemma remove_from_free_list_ok (s : Segregated.st) (b : Z) :
  let m := bytes (heap s) in
  valid (heap s) (b + 8) 16 = true ->
  valid (heap s) (pred_of m b + 16) 8 = true ->
  valid (heap s) (succ_of (store64 m (pred_of m b + 16) (succ_of m b)) b + 8) 8 = true ->
  Segregated.remove_from_free_list b s = Ret tt (upd s (unlink m b)).
Proof.
  intros m Hb Hp Hs.
  assert (Hb1 : valid (heap s) (b + 8) 8 = true) by (eapply valid_sub; [exact Hb|lia|lia]).
  assert (Hb2 : valid (heap s) (b + 16) 8 = true) by (eapply valid_sub; [exact Hb|lia|lia]).
  unfold Segregated.remove_from_free_list, Segregated.get_pred, Segregated.get_succ,
    Segregated.set_pred, Segregated.set_succ,
    Segregated.pred_offset, Segregated.succ_offset.
  exec (ld64_ok s _ Hb1).
  exec (ld64_ok s _ Hb2).
  exec (st64_ok s _ _ Hp).
  exec (ld64_ok (upd s _) _ Hb2).
  exec (ld64_ok (upd s _) _ Hb1).
  rewrite (st64_ok (upd s _) _ _ Hs).
  reflexivity.
Qed.

(** [insert_free_block] makes the four stores of [link_front]. *)
Lemma insert_free_block_ok (s : Segregated.st) (b : Z) :
  let m := bytes (heap s) in
  let h := class_head s b in
  let m1 := store64 m (b + 8) h in
  let m2 := store64 m1 (b + 16) (succ_of m1 h) in
  let m3 := store64 m2 (pred_of m2 b + 16) b in
  valid (heap s) b 4 = true ->
  valid (heap s) (b + 8) 16 = true ->
  valid (heap s) (h + 16) 8 = true ->
  valid (heap s) (pred_of m2 b + 16) 8 = true ->
  valid (heap s) (succ_of m3 b + 8) 8 = true ->
  Segregated.insert_free_block b s = Ret tt (upd s (link_front m h b)).
Proof.
  intros m h m1 m2 m3 Hb0 Hb Hh Hp Hs.
  assert (Hb1 : valid (heap s) (b + 8) 8 = true) by (eapply valid_sub; [exact Hb|lia|lia]).
  assert (Hb2 : valid (heap s) (b + 16) 8 = true) by (eapply valid_sub; [exact Hb|lia|lia]).
  unfold Segregated.insert_free_block, Segregated.get_pred, Segregated.get_succ,
    Segregated.set_pred, Segregated.set_succ,
    Segregated.pred_offset, Segregated.succ_offset.
  exec (seg_get_size_ok s b Hb0).
  exec (seglist_at_ok s _).
  fold (class_head s b). fold h.
  exec (st64_ok s _ _ Hb1).
  exec (ld64_ok (upd s _) _ Hh).
  exec (st64_ok (upd s _) _ _ Hb2).
  exec (ld64_ok (upd s _) _ Hb1).
  exec (st64_ok (upd s _) _ _ Hp).
  exec (ld64_ok (upd s _) _ Hb2).
  rewrite (st64_ok (upd s _) _ _ Hs).
  reflexivity.
Qed.

(** The stores of [link_front], with the addresses read back. *)
Lemma link_front_stores (m : mem) (h b : Z) :
  0 <= h < 2 ^ 64 -> apart b h ->
  link_front m h b =
  store64 (store64 (store64 (store64 m (b + 8) h) (b + 16) (succ_of m h)) (h + 16) b)
          (succ_of m h + 8) b.
Proof.
  intros Hh Hbh. unfold apart, Segregated.block_size in Hbh.
  unfold link_front, succ_of, pred_of, Segregated.pred_offset, Segregated.succ_offset.
  cbv zeta.
  rewrite (load64_store64_other m (b + 8) h (h + 16)) by lia.
  rewrite (load64_store64_other _ (b + 16) _ (b + 8)) by lia.
  rewrite load64_store64_same, (wrap64_small h) by lia.
  rewrite (load64_store64_other _ (h + 16) _ (b + 16)) by lia.
  rewrite load64_store64_same.
  rewrite (wrap64_small (load64 m (h + 16))) by apply load64_range.
  reflexivity.
Qed.

(** The stores of [unlink] when [b] heads the list of [h]. *)
Lemma unlink_after_link_front (m : mem) (h b : Z) :
  0 <= h < 2 ^ 64 -> apart b h -> apart b (succ_of m h) ->
  unlink (link_front m h b) b =
  store64 (store64 (link_front m h b) (h + 16) (succ_of m h)) (succ_of m h + 8) h.
Proof.
  intros Hh Hbh Hbf. unfold apart, Segregated.block_size in Hbh, Hbf.
  rewrite link_front_stores by assumption.
  set (f := succ_of m h) in *.
  assert (Hf : 0 <= f < 2 ^ 64) by apply load64_range.
  unfold unlink, succ_of, pred_of, Segregated.pred_offset, Segregated.succ_offset.
  cbv zeta.
  set (m4 := store64 _ (f + 8) b).
  assert (Ep : load64 m4 (b + 8) = h).
  { unfold m4.
    rewrite (load64_store64_other _ (f + 8)) by lia.
    rewrite (load64_store64_other _ (h + 16)) by lia.
    rewrite (load64_store64_other _ (b + 16)) by lia.
    rewrite load64_store64_same. apply wrap64_small. lia. }
  assert (Es : load64 m4 (b + 16) = f).
  { unfold m4.
    rewrite (load64_store64_other _ (f + 8)) by lia.
    rewrite (load64_store64_other _ (h + 16)) by lia.
    rewrite load64_store64_same. apply wrap64_small. lia. }
  rewrite Ep, Es.
  rewrite (load64_store64_other _ (h + 16) _ (b + 16)) by lia.
  rewrite (load64_store64_other _ (h + 16) _ (b + 8)) by lia.
  rewrite Ep, Es. reflexivity.
Qed.

Lemma get_byte_store_out (w : Z) (m : mem) (a v x : Z) :
  x < a \/ a + w <= x -> get_byte (store_bytes w m a v) x = get_byte m x.
Proof. intros. unfold get_byte. rewrite store_bytes_out by assumption. reflexivity. Qed.

(** Storing back what a load read changes no byte. *)
Lemma get_byte_store_loaded (m m' : mem) (a v x : Z) :
  load64 m a = v -> a <= x < a + 8 ->
  get_byte (store64 m' a v) x = get_byte m x.
Proof.
  intros <- Hx. unfold get_byte, store64. rewrite store_bytes_in by lia.
  rewrite Z.mod_mod by lia.
  pose proof (byte_of_load 8 m a (x - a) ltac:(lia)) as E.
  replace (a + (x - a)) with x in E by lia.
  unfold get_byte in E. rewrite E. reflexivity.
Qed.

(** The memory after an insertion at the front followed by the removal. *)
Lemma unlink_link_front_bytes (m : mem) (h b x : Z) :
  0 <= h < 2 ^ 64 -> head_wf m h -> off_list m h b ->
  ~ (b + 8 <= x < b + 24) ->
  get_byte (unlink (link_front m h b) b) x = get_byte m x.
Proof.
  intros Hh [Hback Hshape] [Hbh Hbf] Hx.
  rewrite unlink_after_link_front by assumption.
  rewrite link_front_stores by assumption.
  unfold apart, Segregated.block_size in *.
  unfold pred_of, Segregated.pred_offset in Hback.
  set (f := succ_of m h) in *.
  assert (Ef : load64 m (h + 16) = f) by reflexivity.
  destruct (Z.le_gt_cases (f + 8) x) as [H1|H1];
    [destruct (Z.lt_ge_cases x (f + 16)) as [H2|H2]|].
  - (* the [pred] field of the first node *)
    apply (get_byte_store_loaded m _ _ _ _ Hback). lia.
  - unfold store64 at 1. rewrite get_byte_store_out by lia.
    destruct (Z.le_gt_cases (h + 16) x) as [H3|H3];
      [destruct (Z.lt_ge_cases x (h + 24)) as [H4|H4]|].
    + apply (get_byte_store_loaded m _ _ _ _ Ef). lia.
    + unfold store64. rewrite !get_byte_store_out by lia. reflexivity.
    + unfold store64. rewrite !get_byte_store_out by lia. reflexivity.
  - unfold store64 at 1. rewrite get_byte_store_out by lia.
    destruct (Z.le_gt_cases (h + 16) x) as [H3|H3];
      [destruct (Z.lt_ge_cases x (h + 24)) as [H4|H4]|].
    + apply (get_byte_store_loaded m _ _ _ _ Ef). lia.
    + unfold store64. rewrite !get_byte_store_out by lia. reflexivity.
    + unfold store64. rewrite !get_byte_store_out by lia. reflexivity.
Qed.

(** C9.  In a state whose list for the class of [b] is well formed at its
    head (I6) and where [b] is on no list, so that its link fields are apart
    from those of the head and of the first node, [insert_free_block(b)]
    followed by [remove_from_free_list(b)] returns and leaves every byte
    outside of the two link fields of [b] as it was: every [pred] and [succ]
    of every head and of every other node is restored. *)
Theorem C9_insert_then_remove_restores_lists (s : Segregated.st) (b : Z) :
  let m := bytes (heap s) in
  let h := class_head s b in
  addressable (heap s) ->
  record_valid s b -> record_valid s h -> record_valid s (succ_of m h) ->
  head_wf m h -> off_list m h b ->
  lists_restored s b.
Proof.
  intros m h [Hlo Hhi] Vb Vh Vf Hwf Hoff.
  unfold record_valid, Segregated.block_size in Vb, Vh, Vf.
  pose proof (valid_range _ _ _ Vh) as Rh.
  assert (Hh : 0 <= h < 2 ^ 64) by lia.
  pose proof Hoff as [Hbh Hbf].
  pose proof Hbh as Hbh'. pose proof Hbf as Hbf'.
  unfold apart, Segregated.block_size in Hbh', Hbf'.
  set (f := succ_of m h) in *.
  assert (Hf : 0 <= f < 2 ^ 64) by apply load64_range.
  exists (upd s (unlink (link_front m h b) b)).
  assert (Ebytes : forall x, ~ (b + 8 <= x < b + 24) ->
                   get_byte (unlink (link_front m h b) b) x = get_byte m x).
  { intros x Hx. apply unlink_link_front_bytes; assumption. }
  split; [|split; [reflexivity|split]].
  - (* the run *)
    assert (E2 : pred_of (store64 (store64 m (b + 8) h) (b + 16)
                            (succ_of (store64 m (b + 8) h) h)) b = h).
    { unfold pred_of, Segregated.pred_offset.
      rewrite (load64_store64_other _ (b + 16)) by lia.
      rewrite load64_store64_same. apply wrap64_small. lia. }
    assert (E1 : succ_of (store64 m (b + 8) h) h = f).
    { unfold succ_of, Segregated.succ_offset.
      rewrite load64_store64_other by lia. reflexivity. }
    assert (E3 : succ_of (store64 (store64 (store64 m (b + 8) h) (b + 16) f) (h + 16) b) b = f).
    { unfold succ_of, Segregated.succ_offset.
      rewrite (load64_store64_other _ (h + 16)) by lia.
      rewrite load64_store64_same. apply wrap64_small. lia. }
    assert (Hins : Segregated.insert_free_block b s = Ret tt (upd s (link_front m h b))).
    { apply insert_free_block_ok; fold m h.
      - eapply valid_sub; [exact Vb|lia|lia].
      - eapply valid_sub; [exact Vb|lia|lia].
      - eapply valid_sub; [exact Vh|lia|lia].
      - rewrite E2. eapply valid_sub; [exact Vh|lia|lia].
      - rewrite E2, E1, E3. eapply valid_sub; [exact Vf|lia|lia]. }
    exec Hins.
    rewrite link_front_stores by assumption. fold f.
    set (m4 := store64 _ (f + 8) b).
    assert (Ep : pred_of m4 b = h).
    { unfold m4, pred_of, Segregated.pred_offset.
      rewrite (load64_store64_other _ (f + 8)) by lia.
      rewrite (load64_store64_other _ (h + 16)) by lia.
      rewrite (load64_store64_other _ (b + 16)) by lia.
      rewrite load64_store64_same. apply wrap64_small. lia. }
    assert (Es : succ_of m4 b = f).
    { unfold m4, succ_of, Segregated.succ_offset.
      rewrite (load64_store64_other _ (f + 8)) by lia.
      rewrite (load64_store64_other _ (h + 16)) by lia.
      rewrite load64_store64_same. apply wrap64_small. lia. }
    rewrite (remove_from_free_list_ok (upd s m4) b).
    + rewrite upd_upd. reflexivity.
    + rewrite valid_upd. eapply valid_sub; [exact Vb|lia|lia].
    + rewrite valid_upd, bytes_upd, Ep. eapply valid_sub; [exact Vh|lia|lia].
    + rewrite valid_upd, bytes_upd, Ep, Es.
      unfold succ_of, Segregated.succ_offset.
      rewrite (load64_store64_other _ (h + 16) _ (b + 16)) by lia.
      change (load64 m4 (b + 16)) with (succ_of m4 b). rewrite Es.
      eapply valid_sub; [exact Vf|lia|lia].
  - exact Ebytes.
  - intros n Hn. rewrite bytes_upd. unfold pred_of, succ_of, load64,
      Segregated.pred_offset, Segregated.succ_offset.
    split; apply load_bytes_ext; intros x Hx; apply Ebytes; cbn in Hx; lia.
Qed.


(** * Blocks laid end to end *)

Lemma chain_app (a : Z) (l1 l2 : list blk) (e : Z) :
  chain a (l1 ++ l2) e <-> exists c, chain a l1 c /\ chain c l2 e.
Proof.
  revert a. induction l1 as [|b l1 IH]; intros a; cbn [app chain].
  - split.
    + intros H. exists a. split; [reflexivity | assumption].
    + intros (c & -> & H). assumption.
  - split.
    + intros (Ha & Hs & H8 & H). apply IH in H. destruct H as (c & H1 & H2).
      exists c. repeat split; assumption.
    + intros (c & (Ha & Hs & H8 & H1) & H2). repeat split; try assumption.
      apply IH. exists c. split; assumption.
Qed.

Lemma chain_le (a : Z) (bs : list blk) (e : Z) : chain a bs e -> a <= e.
Proof.
  revert a. induction bs as [|b bs IH]; intros a; cbn [chain].
  - lia.
  - intros (Ha & Hs & H8 & H). apply IH in H. lia.
Qed.

Lemma chain_end_unique (a : Z) (bs : list blk) (e e' : Z) :
  chain a bs e -> chain a bs e' -> e = e'.
Proof.
  revert a. induction bs as [|b bs IH]; intros a; cbn [chain].
  - lia.
  - intros (_ & _ & _ & H) (_ & _ & _ & H'). eapply IH; eassumption.
Qed.

Lemma chain_split_In (a : Z) (bs : list blk) (e : Z) (b : blk) :
  chain a bs e -> In b bs ->
  exists l1 l2, bs = l1 ++ b :: l2 /\ chain a l1 (b_addr b) /\
                chain (b_addr b + b_size b) l2 e /\
                8 <= b_size b /\ b_size b mod 8 = 0.
Proof.
  revert a. induction bs as [|b0 bs IH]; intros a Hc Hin; [destruct Hin|].
  cbn [chain] in Hc. destruct Hc as (Ha & Hs & H8 & Hc).
  destruct Hin as [->|Hin].
  - exists [], bs. cbn. rewrite Ha. repeat split; try assumption; reflexivity.
  - destruct (IH _ Hc Hin) as (l1 & l2 & -> & H1 & H2 & H3 & H4).
    exists (b0 :: l1), l2. cbn. repeat split; assumption.
Qed.

Lemma chain_bounds (a : Z) (bs : list blk) (e : Z) (b : blk) :
  chain a bs e -> In b bs ->
  a <= b_addr b /\ b_addr b + b_size b <= e /\ 8 <= b_size b /\ b_size b mod 8 = 0.
Proof.
  intros Hc Hin.
  destruct (chain_split_In _ _ _ _ Hc Hin) as (l1 & l2 & _ & H1 & H2 & H3 & H4).
  apply chain_le in H1, H2. lia.
Qed.

Lemma chain_align (a : Z) (bs : list blk) (e : Z) :
  chain a bs e -> (e - a) mod 8 = 0.
Proof.
  revert a. induction bs as [|b bs IH]; intros a; cbn [chain].
  - intros <-. rewrite Z.sub_diag. reflexivity.
  - intros (Ha & Hs & H8 & H). apply IH in H.
    replace (e - a) with ((e - (a + b_size b)) + b_size b) by lia.
    rewrite Z.add_mod, H, H8 by lia. reflexivity.
Qed.

Lemma chain_align_In (a : Z) (bs : list blk) (e : Z) (b : blk) :
  chain a bs e -> In b bs -> (b_addr b - a) mod 8 = 0.
Proof.
  intros Hc Hin.
  destruct (chain_split_In _ _ _ _ Hc Hin) as (l1 & l2 & _ & H1 & _).
  apply chain_align in H1. assumption.
Qed.

Lemma chain_disjoint (a : Z) (bs : list blk) (e : Z) (b b' : blk) :
  chain a bs e -> In b bs -> In b' bs ->
  b = b' \/ b_addr b + b_size b <= b_addr b' \/ b_addr b' + b_size b' <= b_addr b.
Proof.
  intros Hc Hin Hin'.
  destruct (chain_split_In _ _ _ _ Hc Hin) as (l1 & l2 & -> & H1 & H2 & H3 & H4).
  apply in_app_or in Hin'. destruct Hin' as [Hin'|[Hin'|Hin']].
  - right; right. pose proof (chain_bounds _ _ _ _ H1 Hin'). lia.
  - left. assumption.
  - right; left. pose proof (chain_bounds _ _ _ _ H2 Hin'). lia.
Qed.

Lemma chain_addr_inj (a : Z) (bs : list blk) (e : Z) (b b' : blk) :
  chain a bs e -> In b bs -> In b' bs -> b_addr b = b_addr b' -> b = b'.
Proof.
  intros Hc Hin Hin' Heq.
  pose proof (chain_bounds _ _ _ _ Hc Hin).
  pose proof (chain_bounds _ _ _ _ Hc Hin').
  destruct (chain_disjoint _ _ _ _ _ Hc Hin Hin') as [?|[?|?]]; [assumption|lia|lia].
Qed.

Lemma chain_length (a : Z) (bs : list blk) (e : Z) :
  chain a bs e -> 8 * Z.of_nat (length bs) <= e - a.
Proof.
  revert a. induction bs as [|b bs IH]; intros a; cbn [chain length].
  - lia.
  - intros (Ha & Hs & H8 & H). apply IH in H. lia.
Qed.

(** The last block of a chain ends where the chain ends. *)
Lemma chain_snoc (a : Z) (l : list blk) (p : blk) (e : Z) :
  chain a (l ++ [p]) e <->
  chain a l (b_addr p) /\ 8 <= b_size p /\ b_size p mod 8 = 0 /\ b_addr p + b_size p = e.
Proof.
  rewrite chain_app. cbn [chain]. split.
  - intros (c & H1 & Ha & Hs & H8 & He). subst c. repeat split; assumption.
  - intros (H1 & Hs & H8 & He). exists (b_addr p). repeat split; assumption.
Qed.

(** * Boundary tags *)

Lemma agree_outside_load (n : nat) (m m' : mem) (lo hi a : Z) :
  agree_outside m m' lo hi -> a + Z.of_nat n <= lo \/ hi <= a ->
  load_bytes n m' a = load_bytes n m a.
Proof.
  intros H Ha. apply load_bytes_ext. intros x Hx. apply H. lia.
Qed.

Lemma agree_outside_refl (m : mem) (lo hi : Z) : agree_outside m m lo hi.
Proof. intros x _. reflexivity. Qed.

Lemma agree_outside_trans (m1 m2 m3 : mem) (lo hi : Z) :
  agree_outside m1 m2 lo hi -> agree_outside m2 m3 lo hi -> agree_outside m1 m3 lo hi.
Proof. intros H1 H2 x Hx. rewrite H2, H1 by assumption. reflexivity. Qed.

Lemma agree_outside_widen (m m' : mem) (lo hi lo' hi' : Z) :
  agree_outside m m' lo hi -> lo' <= lo -> hi <= hi' -> agree_outside m m' lo' hi'.
Proof. intros H Hl Hh x Hx. apply H. lia. Qed.

Lemma agree_outside_store (w : Z) (m : mem) (a v lo hi : Z) :
  lo <= a -> a + w <= hi -> agree_outside m (store_bytes w m a v) lo hi.
Proof. intros Hl Hh x Hx. apply get_byte_store_out. lia. Qed.

Lemma tagged_agree (m m' : mem) (lo hi : Z) (b : blk) :
  agree_outside m m' lo hi ->
  b_addr b + b_size b <= lo \/ hi <= b_addr b -> 4 <= b_size b ->
  tagged m b -> tagged m' b.
Proof.
  intros H Hd Hs [H1 H2]. unfold tagged, load32.
  rewrite !(agree_outside_load 4 m m' lo hi) by (try assumption; cbn; lia).
  split; assumption.
Qed.

Lemma set_tags_agree (m : mem) (a sz : Z) (al : bool) :
  4 <= sz -> agree_outside m (set_tags m a sz al) a (a + sz).
Proof.
  intros Hs x Hx. unfold set_tags, store32.
  rewrite !get_byte_store_out by lia. reflexivity.
Qed.

Lemma tagged_set_tags (m : mem) (a sz : Z) (al : bool) :
  8 <= sz -> tagged (set_tags m a sz al) (mkBlk a sz al).
Proof.
  intros Hs. unfold tagged, set_tags. cbn [b_addr b_size b_alloc].
  split.
  - rewrite load32_store32_other by lia.
    rewrite load32_store32_same. apply wrap32_small.
    unfold Segregated.pack. apply wrap32_range.
  - rewrite load32_store32_same. apply wrap32_small.
    unfold Segregated.pack. apply wrap32_range.
Qed.

(** What the readers see on a tagged block. *)
Lemma tagged_header (m : mem) (b : blk) :
  tagged m b -> 0 <= b_size b < 2 ^ 32 -> b_size b mod 8 = 0 ->
  size_at m (b_addr b) = b_size b /\ alloc_at m (b_addr b) = b_alloc b.
Proof.
  intros [H _] Hs H8. unfold size_at, alloc_at. rewrite H.
  split; [apply extract_size_pack | apply extract_alloc_pack]; assumption.
Qed.

Lemma tagged_footer (m : mem) (b : blk) :
  tagged m b -> 0 <= b_size b < 2 ^ 32 -> b_size b mod 8 = 0 ->
  size_at m (b_addr b + b_size b - 4) = b_size b /\
  alloc_at m (b_addr b + b_size b - 4) = b_alloc b.
Proof.
  intros [_ H] Hs H8. unfold size_at, alloc_at. rewrite H.
  split; [apply extract_size_pack | apply extract_alloc_pack]; assumption.
Qed.

(** Replacing, in a tiled heap, the blocks of a range by other blocks of
    the same range, tagged in a memory that differs inside of the range
    only. *)
Lemma tiles_replace (m m' : mem) (a e c c' : Z) (l1 mid mid' l2 : list blk) :
  chain a l1 c -> chain c mid c' -> chain c' l2 e ->
  Forall (tagged m) (l1 ++ mid ++ l2) ->
  chain c mid' c' -> Forall (tagged m') mid' ->
  agree_outside m m' c c' ->
  chain a (l1 ++ mid' ++ l2) e /\ Forall (tagged m') (l1 ++ mid' ++ l2).
Proof.
  intros H1 Hm H2 Ht Hm' Ht' Hag. split.
  - apply chain_app. exists c. split; [assumption|].
    apply chain_app. exists c'. split; assumption.
  - apply Forall_app in Ht. destruct Ht as [Ht1 Ht]. apply Forall_app in Ht.
    destruct Ht as [_ Ht2].
    apply Forall_app. split; [|apply Forall_app; split; [assumption|]].
    + rewrite Forall_forall in *. intros b Hb.
      pose proof (chain_bounds _ _ _ _ H1 Hb).
      eapply tagged_agree; [exact Hag| lia | lia | apply Ht1; assumption].
    + rewrite Forall_forall in *. intros b Hb.
      pose proof (chain_bounds _ _ _ _ H2 Hb).
      eapply tagged_agree; [exact Hag| lia | lia | apply Ht2; assumption].
Qed.

(** * Invariant (I3) through [coalesce] *)

Lemma no_adj_free_app (l1 l2 : list blk) (x y : blk) :
  no_adj_free (l1 ++ [x]) -> no_adj_free (y :: l2) ->
  b_alloc x = true \/ b_alloc y = true ->
  no_adj_free (l1 ++ x :: y :: l2).
Proof.
  induction l1 as [|a l1 IH]; intros H1 H2 Hxy.
  - cbn [app no_adj_free] in *. split; [exact Hxy | exact H2].
  - cbn [app] in *. destruct H1 as [Ha H1]. specialize (IH H1 H2 Hxy).
    split; [|exact IH].
    destruct l1 as [|a' l1']; cbn [app] in *; exact Ha.
Qed.

(** Replacing the last block of a sequence whose last block is free. *)
Lemma no_adj_free_replace_last (l1 : list blk) (x z : blk) :
  no_adj_free (l1 ++ [x]) -> b_alloc x = false -> no_adj_free (l1 ++ [z]).
Proof.
  intros H Hx. induction l1 as [|a l1 IH].
  - cbn. split; exact I.
  - cbn [app] in *. destruct H as [Ha H]. split; [|apply IH; exact H].
    destruct l1 as [|a' l1']; cbn [app] in *.
    + destruct Ha as [Ha|Ha]; [left; exact Ha | congruence].
    + exact Ha.
Qed.

Lemma no_adj_free_snoc_cons (l1 l2 : list blk) (x : blk) :
  no_adj_free (l1 ++ [x]) ->
  match l2 with [] => True | y :: _ => b_alloc x = true \/ b_alloc y = true end ->
  no_adj_free l2 ->
  no_adj_free (l1 ++ x :: l2).
Proof.
  intros H1 Hxy H2. destruct l2 as [|y l2]; [exact H1|].
  apply no_adj_free_app; assumption.
Qed.

Lemma no_adj_free_tl (l : list blk) : no_adj_free l -> no_adj_free (tl l).
Proof. destruct l as [|a l]; cbn [tl no_adj_free]; [tauto | intros [_ H]; exact H]. Qed.

(** When no two blocks before the fused ones and no two blocks after them
    are both free, no two blocks of the coalesced heap are. *)
Lemma no_adj_free_coalesce (l1 l2 : list blk) (p b : blk) :
  no_adj_free (l1 ++ [p]) -> no_adj_free l2 ->
  no_adj_free (l1 ++ coalesce_blocks p b l2).
Proof.
  intros H1 H2. unfold coalesce_blocks.
  set (fb := fused_block p b l2).
  assert (Hrest : no_adj_free (if next_alloc l2 then l2 else tl l2))
    by (destruct (next_alloc l2); [exact H2 | apply no_adj_free_tl; exact H2]).
  assert (Hnext : match (if next_alloc l2 then l2 else tl l2) with
                  | [] => True
                  | y :: _ => b_alloc y = true
                  end).
  { destruct l2 as [|n l2']; cbn [next_alloc tl]; [exact I|].
    destruct (b_alloc n) eqn:An; [exact An|].
    destruct l2' as [|n' l2'']; [exact I|].
    cbn [no_adj_free] in H2. destruct H2 as [[H|H] _]; congruence. }
  destruct (b_alloc p) eqn:Ap.
  - cbn [app]. apply no_adj_free_app; [exact H1 | | left; exact Ap].
    cbn [no_adj_free]. split; [|exact Hrest].
    destruct (if next_alloc l2 then l2 else tl l2); [exact I | right; exact Hnext].
  - cbn [app].
    apply no_adj_free_snoc_cons; [| |exact Hrest].
    + apply (no_adj_free_replace_last l1 p fb H1 Ap).
    + destruct (if next_alloc l2 then l2 else tl l2); [exact I | right; exact Hnext].
Qed.

Lemma no_adj_free_app_inv (l1 l2 : list blk) :
  no_adj_free (l1 ++ l2) -> no_adj_free l1 /\ no_adj_free l2.
Proof.
  induction l1 as [|a l1 IH]; intros H.
  - split; [exact I | exact H].
  - cbn [app no_adj_free] in H. destruct H as [Ha H]. destruct (IH H) as [H1 H2].
    split; [|exact H2]. cbn [no_adj_free]. split; [|exact H1].
    destruct l1 as [|a' l1']; [exact I | exact Ha].
Qed.

Lemma no_adj_free_snoc (l1 l2 : list blk) (x : blk) :
  no_adj_free (l1 ++ x :: l2) -> no_adj_free (l1 ++ [x]) /\ no_adj_free (x :: l2).
Proof.
  intros H. split.
  - change (l1 ++ x :: l2) with (l1 ++ [x] ++ l2) in H. rewrite app_assoc in H.
    apply no_adj_free_app_inv in H. tauto.
  - apply no_adj_free_app_inv in H. tauto.
Qed.

(** Splitting a free block leaves no two free blocks side by side. *)
Lemma no_adj_free_placed (minsz : Z) (l1 l2 : list blk) (b : blk) (asize : Z) :
  b_alloc b = false -> no_adj_free (l1 ++ b :: l2) ->
  no_adj_free (l1 ++ placed minsz b asize ++ l2).
Proof.
  intros Hb H. apply no_adj_free_snoc in H. destruct H as [H1 H2].
  cbn [no_adj_free] in H2. destruct H2 as [Hn H2].
  unfold placed. destruct (b_size b - asize >=? minsz).
  - cbn [app].
    apply no_adj_free_app.
    + apply (no_adj_free_replace_last l1 b _ H1 Hb).
    + cbn [no_adj_free]. split; [|exact H2].
      destruct l2 as [|y l2']; [exact I|].
      destruct Hn as [Hn|Hn]; [congruence | right; exact Hn].
    + left. reflexivity.
  - cbn [app].
    apply no_adj_free_snoc_cons.
    + apply (no_adj_free_replace_last l1 b _ H1 Hb).
    + destruct l2; [exact I | left; reflexivity].
    + exact H2.
Qed.


(** * The implicit variant, run *)

Lemma imp_get_size_ok (s : Implicit.st) (b : Z) :
  valid (heap s) b 4 = true ->
  Implicit.get_size b s = Ret (size_at (bytes (heap s)) b) s.
Proof.
  intros H. unfold Implicit.get_size. exec (ld32_ok s b H). reflexivity.
Qed.

Lemma imp_get_alloc_ok (s : Implicit.st) (b : Z) :
  valid (heap s) b 4 = true ->
  Implicit.get_alloc b s = Ret (alloc_at (bytes (heap s)) b) s.
Proof.
  intros H. unfold Implicit.get_alloc. exec (ld32_ok s b H). reflexivity.
Qed.

Lemma imp_find_next_ok (s : Implicit.st) (b : Z) :
  valid (heap s) b 4 = true ->
  Implicit.find_next b s = Ret (b + size_at (bytes (heap s)) b) s.
Proof.
  intros H. unfold Implicit.find_next. exec (imp_get_size_ok s b H). reflexivity.
Qed.

Lemma imp_find_prev_ok (s : Implicit.st) (b : Z) :
  valid (heap s) (b - 4) 4 = true ->
  Implicit.find_prev b s = Ret (b - size_at (bytes (heap s)) (b - 4)) s.
Proof.
  intros H. unfold Implicit.find_prev, Implicit.find_prev_footer, Implicit.wsize.
  exec (ld32_ok s (b - 4) H). reflexivity.
Qed.

Lemma pack_range (sz : Z) (al : bool) : 0 <= Segregated.pack sz al < 2 ^ 32.
Proof. unfold Segregated.pack. apply wrap32_range. Qed.

(** [write_header] then [write_footer] with the same size and flag store
    the two tags of the block. *)
Lemma imp_write_tags_ok {B} (s : Implicit.st) (b sz : Z) (al : bool) (k : Implicit.Mi B) :
  0 <= sz < 2 ^ 32 -> sz mod 8 = 0 ->
  valid (heap s) b 4 = true -> valid (heap s) (b + sz - 4) 4 = true ->
  (Implicit.write_header b sz al ;;; Implicit.write_footer b sz al ;;; k) s =
  k (upd s (set_tags (bytes (heap s)) b sz al)).
Proof.
  intros Hs H8 Vh Vf.
  unfold Implicit.write_header, Implicit.write_footer.
  exec (st32_ok s b _ Vh).
  exec (imp_get_size_ok (upd s _) b Vh).
  assert (E : size_at (store32 (bytes (heap s)) b (Implicit.pack sz al)) b = sz).
  { unfold size_at. rewrite load32_store32_same.
    rewrite wrap32_small by apply pack_range.
    apply extract_size_pack; assumption. }
  rewrite E.
  replace (b + Implicit.payload_offset + sz - Implicit.dsize) with (b + sz - 4)
    by (unfold Implicit.payload_offset, Implicit.dsize, Implicit.wsize; lia).
  exec (st32_ok (upd s _) (b + sz - 4) _ Vf).
  reflexivity.
Qed.

Lemma imp_write_tags_end (s : Implicit.st) (b sz : Z) (al : bool) :
  0 <= sz < 2 ^ 32 -> sz mod 8 = 0 ->
  valid (heap s) b 4 = true -> valid (heap s) (b + sz - 4) 4 = true ->
  (Implicit.write_header b sz al ;;; Implicit.write_footer b sz al) s =
  Ret tt (upd s (set_tags (bytes (heap s)) b sz al)).
Proof.
  intros Hs H8 Vh Vf.
  pose proof (imp_write_tags_ok s b sz al (ret tt) Hs H8 Vh Vf) as H.
  unfold ret in H at 2. rewrite <- H.
  unfold bind, ret. destruct (Implicit.write_header b sz al s) as [[] s1| |]; try reflexivity.
  destruct (Implicit.write_footer b sz al s1) as [[] s2| |]; reflexivity.
Qed.

(** * The invariant of the implicit variant *)

Section ImplicitFacts.
Variable s : Implicit.st.
Variable bs : list blk.
Hypothesis Hinv : imp_inv s bs.

Lemma imp_heap_extent :
  0 <= mem_start_brk (heap s) /\
  mem_start_brk (heap s) + 4 <= globals s /\
  globals s + 8 <= mem_brk (heap s) - 4 /\
  mem_brk (heap s) <= mem_max_addr (heap s) /\
  mem_max_addr (heap s) < 2 ^ 64 - 1 /\
  mem_max_addr (heap s) - mem_start_brk (heap s) < 2 ^ 32.
Proof.
  destruct Hinv as [(R1 & R2 & R3 & R4 & R5) Hb _ Hc _ _].
  pose proof (chain_bounds _ _ _ (imp_prologue s) Hc (or_introl eq_refl)) as H.
  cbn in H. lia.
Qed.

Lemma imp_block_facts (b : blk) :
  In b (imp_prologue s :: bs) ->
  globals s <= b_addr b /\ b_addr b + b_size b <= mem_brk (heap s) - 4 /\
  8 <= b_size b < 2 ^ 32 /\ b_size b mod 8 = 0 /\
  b_addr b mod 8 = 4 /\
  tagged (bytes (heap s)) b /\
  valid (heap s) (b_addr b) 4 = true /\
  valid (heap s) (b_addr b + b_size b - 4) 4 = true.
Proof.
  intros Hin. pose proof imp_heap_extent as He.
  destruct Hinv as [_ Hb Ha Hc Ht _].
  pose proof (chain_bounds _ _ _ _ Hc Hin) as Hbd.
  pose proof (chain_align_In _ _ _ _ Hc Hin) as Hal.
  rewrite Forall_forall in Ht. specialize (Ht _ Hin).
  repeat split; try lia; try assumption.
  - replace (b_addr b) with ((b_addr b - globals s) + globals s) by lia.
    rewrite Z.add_mod, Hal, Ha by lia. reflexivity.
  - apply Ht.
  - apply Ht.
  - apply valid_intro; lia.
  - apply valid_intro; lia.
Qed.

Lemma imp_block_read (b : blk) :
  In b (imp_prologue s :: bs) ->
  size_at (bytes (heap s)) (b_addr b) = b_size b /\
  alloc_at (bytes (heap s)) (b_addr b) = b_alloc b /\
  size_at (bytes (heap s)) (b_addr b + b_size b - 4) = b_size b.
Proof.
  intros Hin. destruct (imp_block_facts b Hin) as (_ & _ & Hs & H8 & _ & Ht & _).
  destruct (tagged_header _ _ Ht ltac:(lia) H8).
  destruct (tagged_footer _ _ Ht ltac:(lia) H8).
  repeat split; assumption.
Qed.

Lemma imp_epilogue_read :
  size_at (bytes (heap s)) (mem_brk (heap s) - 4) = 0 /\
  alloc_at (bytes (heap s)) (mem_brk (heap s) - 4) = true /\
  valid (heap s) (mem_brk (heap s) - 4) 4 = true.
Proof.
  pose proof imp_heap_extent as He.
  destruct Hinv as [_ _ _ _ _ Hepi].
  unfold size_at, alloc_at. rewrite Hepi.
  repeat split; try reflexivity. apply valid_intro; lia.
Qed.

End ImplicitFacts.

(** Replacing the blocks of a range keeps the invariant. *)
Lemma imp_inv_replace (s : Implicit.st) (bs bs' : list blk) (m' : mem)
      (l1 mid mid' l2 : list blk) (c c' : Z) :
  imp_inv s bs ->
  imp_prologue s :: bs = l1 ++ mid ++ l2 ->
  imp_prologue s :: bs' = l1 ++ mid' ++ l2 ->
  chain (globals s) l1 c -> chain c mid c' ->
  chain c mid' c' -> Forall (tagged m') mid' ->
  agree_outside (bytes (heap s)) m' c c' ->
  imp_inv (upd s m') bs'.
Proof.
  intros Hinv E E' H1 Hm Hm' Ht' Hag.
  pose proof (imp_heap_extent s bs Hinv) as He.
  destruct Hinv as [Hr Hb Ha Hc Ht Hepi].
  rewrite E in Hc, Ht.
  assert (H2 : chain c' l2 (mem_brk (heap s) - 4)).
  { apply chain_app in Hc. destruct Hc as (c0 & Hc1 & Hc).
    apply chain_app in Hc. destruct Hc as (c0' & Hcm & Hc2).
    pose proof (chain_end_unique _ _ _ _ H1 Hc1). subst c0.
    pose proof (chain_end_unique _ _ _ _ Hm Hcm). subst c0'. assumption. }
  destruct (tiles_replace _ m' _ _ _ _ _ _ mid' _ H1 Hm H2 Ht Hm' Ht' Hag) as [Hc' Htt].
  pose proof (chain_le _ _ _ H1). pose proof (chain_le _ _ _ Hm).
  pose proof (chain_le _ _ _ H2).
  constructor; cbn [upd heap globals bytes set_bytes mem_start_brk mem_brk mem_max_addr].
  - exact Hr.
  - exact Hb.
  - exact Ha.
  - change (imp_prologue (upd s m')) with (imp_prologue s). rewrite E'. exact Hc'.
  - change (imp_prologue (upd s m')) with (imp_prologue s). rewrite E'. exact Htt.
  - unfold load32. rewrite (agree_outside_load 4 _ _ _ _ _ Hag) by (cbn; lia).
    exact Hepi.
Qed.

(** * Coalescing *)

Lemma head_decomp {A} (x : A) (bs l1 rest : list A) :
  x :: bs = l1 ++ rest ->
  (l1 = [] /\ rest = x :: bs) \/ (exists l1', l1 = x :: l1' /\ bs = l1' ++ rest).
Proof.
  destruct l1 as [|y l1']; cbn; intros H.
  - left. split; [reflexivity | symmetry; assumption].
  - right. injection H as -> ->. exists l1'. split; reflexivity.
Qed.

(** The cut points of a heap around a block and the block before it. *)
Lemma chain_around (a e : Z) (l1 l2 : list blk) (p b : blk) :
  chain a (l1 ++ p :: b :: l2) e ->
  chain a l1 (b_addr p) /\ b_addr b = b_addr p + b_size p /\
  chain (b_addr b + b_size b) l2 e /\
  8 <= b_size p /\ b_size p mod 8 = 0 /\ 8 <= b_size b /\ b_size b mod 8 = 0.
Proof.
  intros H. apply chain_app in H. destruct H as (c & H1 & H).
  cbn [chain] in H. destruct H as (Hp & Hps & Hp8 & Hb & Hbs & Hb8 & H2).
  subst c. rewrite Hb. repeat split; try assumption; try lia.
Qed.

(** The blocks fused by [coalesce] and the block that replaces them cover
    the same range. *)
Lemma chain_eq (a a' e : Z) (l : list blk) :
  chain a l e -> a = a' -> chain a' l e.
Proof. intros H <-. exact H. Qed.

Ltac chain_tac :=
  cbn [app chain b_addr b_size next_alloc next_size tl] in *;
  repeat match goal with
         | H : _ /\ _ |- _ => destruct H
         end;
  repeat split; try lia; try mlia;
  try (eapply chain_eq; [eassumption | lia]).

Lemma chain_fused (p b : blk) (l2 : list blk) (e : Z) :
  b_alloc b = false ->
  chain (b_addr p) (p :: b :: l2) e ->
  chain (b_addr p) (coalesce_blocks p b l2) e.
Proof.
  intros Hfree H.
  unfold coalesce_blocks, fused_block.
  destruct (b_alloc p), l2 as [|n l2']; cbn [next_alloc next_size tl];
    [| destruct (b_alloc n) | | destruct (b_alloc n)]; chain_tac.
Qed.

Lemma upd_self {G} (s : state G) : upd s (bytes (heap s)) = s.
Proof. destruct s as [[m a b c d] g]. reflexivity. Qed.

Lemma fused_block_unchanged (p b : blk) (l2 : list blk) :
  b_alloc b = false -> b_alloc p = true -> next_alloc l2 = true ->
  fused_block p b l2 = b.
Proof.
  intros Hb Hp Hn. unfold fused_block. rewrite Hp, Hn.
  destruct b as [a sz al]. cbn in *. subst al. f_equal. lia.
Qed.

(** What [coalesce] reads around a free block of the heap. *)
Lemma imp_around_read (s : Implicit.st) (bs l1 l2 : list blk) (p b : blk) :
  imp_inv s bs ->
  imp_prologue s :: bs = l1 ++ p :: b :: l2 ->
  let m := bytes (heap s) in
  In p (imp_prologue s :: bs) /\ In b (imp_prologue s :: bs) /\
  b_addr b = b_addr p + b_size p /\
  size_at m (b_addr b - 4) = b_size p /\
  size_at m (b_addr b + b_size b) = next_size l2 /\
  alloc_at m (b_addr b + b_size b) = next_alloc l2 /\
  valid (heap s) (b_addr b + b_size b) 4 = true /\
  (next_alloc l2 = false ->
   b_addr b + b_size b + next_size l2 <= mem_brk (heap s) - 4 /\ 8 <= next_size l2 /\
   next_size l2 mod 8 = 0).
Proof.
  intros Hinv E m.
  assert (Hp : In p (imp_prologue s :: bs)) by (rewrite E; apply in_or_app; right; left; reflexivity).
  assert (Hb : In b (imp_prologue s :: bs))
    by (rewrite E; apply in_or_app; right; right; left; reflexivity).
  pose proof (ii_chain _ _ Hinv) as Hc. rewrite E in Hc.
  destruct (chain_around _ _ _ _ _ _ Hc) as (H1 & Hab & H2 & _).
  destruct (imp_block_read s bs Hinv p Hp) as (_ & _ & Hpf).
  split; [assumption|]. split; [assumption|]. split; [assumption|].
  split; [rewrite Hab; replace (b_addr p + b_size p - 4) with (b_addr p + b_size p - 4) by lia;
          exact Hpf|].
  destruct l2 as [|n l2']; cbn [next_size next_alloc].
  - cbn in H2. rewrite H2.
    destruct (imp_epilogue_read s bs Hinv) as (Hs & Ha & Hv).
    repeat split; try assumption; try discriminate.
  - assert (Hn : In n (imp_prologue s :: bs))
      by (rewrite E; apply in_or_app; right; right; right; left; reflexivity).
    cbn [chain] in H2. destruct H2 as (Hna & _).
    destruct (imp_block_read s bs Hinv n Hn) as (Hs & Ha & _).
    destruct (imp_block_facts s bs Hinv n Hn) as (_ & Hhi & Hsz & H8 & _ & _ & Hv & _).
    rewrite <- Hna. repeat split; try assumption; try lia.
Qed.

Lemma imp_coalesce_run (s : Implicit.st) (bs l1 l2 : list blk) (p b : blk) :
  imp_inv s bs ->
  imp_prologue s :: bs = l1 ++ p :: b :: l2 ->
  b_alloc b = false ->
  let fb := fused_block p b l2 in
  let m := bytes (heap s) in
  Implicit.coalesce (b_addr b) s =
  Ret (b_addr fb)
      (upd s (if b_alloc p && next_alloc l2 then m
              else set_tags m (b_addr fb) (b_size fb) false)).
Proof.
  intros Hinv E Hfree fb m.
  destruct (imp_around_read s bs l1 l2 p b Hinv E) as (Hp & Hb & Hab & Rpf & Rns & Rna & Vn & Hnext).
  destruct (imp_block_facts s bs Hinv p Hp) as (Hplo & Hphi & Hpsz & Hp8 & _ & _ & Vp & Vpf).
  destruct (imp_block_facts s bs Hinv b Hb) as (Hblo & Hbhi & Hbsz & Hb8 & _ & _ & Vb & Vbf).
  destruct (imp_block_read s bs Hinv p Hp) as (Rps & Rpa & _).
  destruct (imp_block_read s bs Hinv b Hb) as (Rbs & Rba & _).
  pose proof (imp_heap_extent s bs Hinv) as He.
  fold m in Rpf, Rns, Rna, Rps, Rpa, Rbs, Rba.
  unfold Implicit.coalesce.
  exec (imp_find_next_ok s (b_addr b) Vb). fold m. rewrite Rbs.
  assert (Vpf' : valid (heap s) (b_addr b - 4) 4 = true).
  { replace (b_addr b - 4) with (b_addr p + b_size p - 4) by lia. exact Vpf. }
  exec (imp_find_prev_ok s (b_addr b) Vpf'). fold m. rewrite Rpf.
  replace (b_addr b - b_size p) with (b_addr p) by lia.
  exec (imp_get_alloc_ok s (b_addr p) Vp). fold m. rewrite Rpa.
  exec (imp_get_alloc_ok s _ Vn). fold m. rewrite Rna.
  exec (imp_get_size_ok s (b_addr b) Vb). fold m. rewrite Rbs.
  unfold fb, fused_block. cbn [b_addr b_size].
  destruct (b_alloc p) eqn:Ap, (next_alloc l2) eqn:An; cbn [andb negb].
  - unfold m. rewrite upd_self. reflexivity.
  - destruct (Hnext eq_refl) as (Hnhi & Hnsz & Hn8).
    exec (imp_get_size_ok s _ Vn). fold m. rewrite Rns.
    rewrite wrap64_small by lia.
    rewrite imp_write_tags_ok; try lia; try mlia; try assumption.
    + unfold ret. fold m. replace (0 + b_size b + next_size l2) with (b_size b + next_size l2) by lia.
      reflexivity.
    + apply valid_intro; lia.
  - exec (imp_get_size_ok s _ Vp). fold m. rewrite Rps.
    rewrite wrap64_small by lia.
    rewrite imp_write_tags_ok; try lia; try mlia; try assumption.
    + unfold ret. fold m. replace (b_size p + b_size b + 0) with (b_size b + b_size p) by lia.
      reflexivity.
    + apply valid_intro; lia.
  - destruct (Hnext eq_refl) as (Hnhi & Hnsz & Hn8).
    exec (imp_get_size_ok s _ Vn). fold m. rewrite Rns.
    exec (imp_get_size_ok s _ Vp). fold m. rewrite Rps.
    rewrite (wrap64_small (next_size l2 + b_size p)) by lia.
    rewrite wrap64_small by lia.
    rewrite imp_write_tags_ok; try lia; try mlia; try assumption.
    + unfold ret. fold m.
      replace (b_size p + b_size b + next_size l2) with (b_size b + (next_size l2 + b_size p)) by lia.
      reflexivity.
    + apply valid_intro; lia.
Qed.

Lemma fused_block_range (p b : blk) (l2 : list blk) (e : Z) :
  chain (b_addr p) (p :: b :: l2) e ->
  let fb := fused_block p b l2 in
  b_addr p <= b_addr fb /\ b_addr fb <= b_addr b /\
  b_addr b + b_size b <= b_addr fb + b_size fb /\ b_addr fb + b_size fb <= e /\
  8 <= b_size fb /\ b_size b <= b_size fb /\
  (b_alloc p = true -> b_addr fb = b_addr b) /\
  (b_alloc p = false -> b_addr fb = b_addr p) /\
  (next_alloc l2 = true -> b_addr fb + b_size fb = b_addr b + b_size b) /\
  (next_alloc l2 = false -> b_addr fb + b_size fb = b_addr b + b_size b + next_size l2).
Proof.
  intros H fb. unfold fb, fused_block.
  pose proof (chain_le _ _ _ H) as Hle.
  destruct (b_alloc p), l2 as [|n l2']; cbn [next_alloc next_size];
    [| destruct (b_alloc n) | | destruct (b_alloc n)]; cbn [b_addr b_size];
    cbn [chain] in H; destruct H as (_ & ? & ? & ? & ? & ? & H);
    try (cbn [chain] in H; destruct H as (? & ? & ? & H); apply chain_le in H);
    repeat split; try lia; try discriminate.
Qed.

Lemma In_fused_block (p b : blk) (l2 : list blk) :
  In (fused_block p b l2) (coalesce_blocks p b l2).
Proof. unfold coalesce_blocks. apply in_or_app. right. left. reflexivity. Qed.

(** [coalesce] keeps every allocated block. *)
Lemma coalesce_blocks_keeps (p b : blk) (l2 : list blk) (a : blk) :
  In a (p :: b :: l2) -> b_alloc a = true -> b_alloc b = false ->
  In a (coalesce_blocks p b l2).
Proof.
  intros Hin Ha Hb. unfold coalesce_blocks.
  destruct Hin as [->|[->|Hin]].
  - rewrite Ha. left. reflexivity.
  - congruence.
  - apply in_or_app. right. right.
    destruct l2 as [|n l2']; [destruct Hin|]. cbn [next_alloc tl].
    destruct (b_alloc n) eqn:An; [assumption|].
    destruct Hin as [->|Hin]; [congruence | assumption].
Qed.

Lemma chain_strict (a e : Z) (x : blk) (l : list blk) (y : blk) :
  chain a (x :: l) e -> In y l -> b_addr x + b_size x <= b_addr y.
Proof.
  cbn [chain]. intros (Hx & _ & _ & H) Hin.
  pose proof (chain_bounds _ _ _ _ H Hin). lia.
Qed.

Lemma tagged_fused (m m' : mem) (p b : blk) (l2 : list blk) (e : Z) :
  chain (b_addr p) (p :: b :: l2) e ->
  Forall (tagged m) (p :: b :: l2) ->
  let fb := fused_block p b l2 in
  tagged m' fb ->
  agree_outside m m' (b_addr fb) (b_addr fb + b_size fb) ->
  Forall (tagged m') (coalesce_blocks p b l2).
Proof.
  intros Hc Ht fb Hfb Hag.
  pose proof (fused_block_range p b l2 e Hc) as R. cbv zeta in R. fold fb in R.
  destruct R as (R1 & R2 & R3 & R4 & R5 & R6 & R7 & R8 & R9 & R10).
  rewrite Forall_forall in *. intros a Ha.
  unfold coalesce_blocks in Ha. apply in_app_or in Ha.
  destruct Ha as [Ha|[<-|Ha]].
  - destruct (b_alloc p) eqn:Ap; [|destruct Ha]. destruct Ha as [<-|[]].
    cbn [chain] in Hc. destruct Hc as (_ & ? & ? & ? & _).
    eapply tagged_agree; [exact Hag | | lia | apply Ht; left; reflexivity].
    left. rewrite (R7 eq_refl). lia.
  - exact Hfb.
  - assert (Hin : In a l2).
    { destruct (next_alloc l2); [assumption|]. destruct l2; [destruct Ha|]. right. assumption. }
    assert (Hlo : b_addr fb + b_size fb <= b_addr a).
    { destruct (next_alloc l2) eqn:An.
      - rewrite (R9 eq_refl).
        cbn [chain] in Hc. destruct Hc as (_ & _ & _ & Hc).
        pose proof (chain_strict _ _ _ _ _ Hc Hin). lia.
      - rewrite (R10 eq_refl).
        destruct l2 as [|n l2']; [destruct Ha|]. cbn [tl next_size] in *.
        cbn [chain] in Hc. destruct Hc as (_ & _ & _ & Hb & _ & _ & Hc).
        pose proof (chain_strict _ _ _ _ _ Hc Ha).
        cbn [chain] in Hc. destruct Hc as (Hn & _). lia. }
    assert (8 <= b_size a).
    { cbn [chain] in Hc. destruct Hc as (_ & _ & _ & _ & _ & _ & Hc).
      pose proof (chain_bounds _ _ _ _ Hc Hin). lia. }
    eapply tagged_agree; [exact Hag | right; lia | lia | ].
    apply Ht. right. right. assumption.
Qed.

Lemma imp_coalesce_spec (s : Implicit.st) (bs l1 l2 : list blk) (p b : blk) :
  imp_inv s bs ->
  imp_prologue s :: bs = l1 ++ p :: b :: l2 ->
  b_alloc b = false ->
  let fb := fused_block p b l2 in
  exists m' bs',
    Implicit.coalesce (b_addr b) s = Ret (b_addr fb) (upd s m') /\
    imp_inv (upd s m') bs' /\
    imp_prologue s :: bs' = l1 ++ coalesce_blocks p b l2 /\
    agree_outside (bytes (heap s)) m' (b_addr fb) (b_addr fb + b_size fb).
Proof.
  intros Hinv E Hfree fb.
  pose proof (imp_coalesce_run s bs l1 l2 p b Hinv E Hfree) as Hrun.
  cbv zeta in Hrun. fold fb in Hrun.
  set (m := bytes (heap s)) in *.
  set (m' := if b_alloc p && next_alloc l2 then m else set_tags m (b_addr fb) (b_size fb) false) in *.
  pose proof (ii_chain _ _ Hinv) as Hc. rewrite E in Hc.
  apply chain_app in Hc. destruct Hc as (c & Hc1 & Hc2).
  assert (c = b_addr p) by (cbn [chain] in Hc2; destruct Hc2 as (? & _); congruence).
  subst c.
  pose proof (fused_block_range p b l2 _ Hc2) as R. cbv zeta in R. fold fb in R.
  destruct R as (R1 & R2 & R3 & R4 & R5 & R6 & R7 & R8 & R9 & R10).
  pose proof (ii_tags _ _ Hinv) as Ht. rewrite E in Ht. fold m in Ht.
  apply Forall_app in Ht. destruct Ht as [Ht1 Ht2].
  assert (Hag : agree_outside m m' (b_addr fb) (b_addr fb + b_size fb)).
  { unfold m'. destruct (b_alloc p && next_alloc l2).
    - apply agree_outside_refl.
    - apply set_tags_agree. lia. }
  assert (Hfb : tagged m' fb).
  { unfold m'. destruct (b_alloc p && next_alloc l2) eqn:Ecase.
    - apply andb_true_iff in Ecase. destruct Ecase as [Ap An].
      unfold fb. rewrite (fused_block_unchanged p b l2 Hfree Ap An).
      rewrite Forall_forall in Ht2. apply Ht2. right. left. reflexivity.
    - pose proof (tagged_set_tags m (b_addr fb) (b_size fb) false ltac:(lia)) as T.
      exact T. }
  assert (Ebs : exists bs', imp_prologue s :: bs' = l1 ++ coalesce_blocks p b l2).
  { destruct (head_decomp _ _ _ _ E) as [[-> Hrest]|(l1' & -> & Hbs)].
    - injection Hrest as Hp _. unfold coalesce_blocks. rewrite Hp.
      change (b_alloc (imp_prologue s)) with true. cbn [app].
      eexists. reflexivity.
    - eexists. cbn [app]. reflexivity. }
  destruct Ebs as (bs' & Ebs).
  exists m', bs'. split; [exact Hrun|]. split; [|split; [exact Ebs | exact Hag]].
  eapply (imp_inv_replace s bs bs' m' l1 (p :: b :: l2) (coalesce_blocks p b l2) [] (b_addr p)).
  - exact Hinv.
  - rewrite app_nil_r. exact E.
  - rewrite app_nil_r. exact Ebs.
  - exact Hc1.
  - exact Hc2.
  - apply chain_fused; assumption.
  - eapply tagged_fused; eassumption.
  - eapply agree_outside_widen; [exact Hag | lia | lia].
Qed.

(** * Placing *)

Lemma chain_placed (minsz : Z) (b : blk) (asize e : Z) :
  0 <= minsz -> 8 <= asize <= b_size b -> asize mod 8 = 0 ->
  (b_size b - asize < minsz \/ 8 <= b_size b - asize) ->
  chain (b_addr b) [b] e ->
  chain (b_addr b) (placed minsz b asize) e.
Proof.
  intros Hm Ha H8 Hr Hc. unfold placed.
  destruct (Z.geb_spec (b_size b - asize) minsz); chain_tac.
Qed.

Lemma tagged_placed (minsz : Z) (m : mem) (b : blk) (asize : Z) :
  8 <= asize <= b_size b ->
  (b_size b - asize < minsz \/ 8 <= b_size b - asize) ->
  Forall (tagged (place_mem minsz m b asize)) (placed minsz b asize).
Proof.
  intros Ha Hr. unfold placed, place_mem.
  destruct (Z.geb_spec (b_size b - asize) minsz).
  - apply Forall_cons; [|apply Forall_cons; [|apply Forall_nil]].
    + eapply tagged_agree.
      * apply set_tags_agree. lia.
      * left. cbn [b_addr b_size]. lia.
      * cbn [b_size]. lia.
      * apply tagged_set_tags. lia.
    + apply tagged_set_tags. lia.
  - apply Forall_cons; [|apply Forall_nil]. apply tagged_set_tags. lia.
Qed.

Lemma place_mem_agree (minsz : Z) (m : mem) (b : blk) (asize : Z) :
  8 <= asize <= b_size b ->
  (b_size b - asize < minsz \/ 8 <= b_size b - asize) ->
  agree_outside m (place_mem minsz m b asize) (b_addr b) (b_addr b + b_size b).
Proof.
  intros Ha Hr. unfold place_mem.
  destruct (Z.geb_spec (b_size b - asize) minsz).
  - apply agree_outside_trans with (set_tags m (b_addr b) asize true).
    + eapply agree_outside_widen; [apply set_tags_agree|..]; lia.
    + eapply agree_outside_widen; [apply set_tags_agree|..]; lia.
  - apply set_tags_agree. lia.
Qed.

Lemma imp_place_run (s : Implicit.st) (bs : list blk) (b : blk) (asize : Z) :
  imp_inv s bs -> In b bs ->
  8 <= asize <= b_size b -> asize mod 8 = 0 ->
  Implicit.place (b_addr b) asize s =
  Ret tt (upd s (place_mem Implicit.min_block_size (bytes (heap s)) b asize)).
Proof.
  intros Hinv Hin Ha H8.
  assert (Hb : In b (imp_prologue s :: bs)) by (right; assumption).
  destruct (imp_block_facts s bs Hinv b Hb) as (Hblo & Hbhi & Hbsz & Hb8 & _ & _ & Vb & Vbf).
  destruct (imp_block_read s bs Hinv b Hb) as (Rbs & Rba & _).
  pose proof (imp_heap_extent s bs Hinv) as He.
  set (m := bytes (heap s)) in *.
  unfold Implicit.place, place_mem.
  exec (imp_get_size_ok s (b_addr b) Vb). fold m. rewrite Rbs.
  rewrite wrap64_small by lia.
  change Implicit.min_block_size with 16.
  destruct (Z.geb_spec (b_size b - asize) 16) as [Hsplit|Hwhole].
  - rewrite imp_write_tags_ok; try lia; try assumption; [|apply valid_intro; lia].
    fold m.
    assert (E : size_at (set_tags m (b_addr b) asize true) (b_addr b) = asize).
    { pose proof (tagged_set_tags m (b_addr b) asize true ltac:(lia)) as T.
      apply (tagged_header _ _ T); cbn [b_size]; [lia | assumption]. }
    exec (imp_find_next_ok (upd s _) (b_addr b) Vb). rewrite E.
    rewrite imp_write_tags_end; try lia; try mlia.
    + reflexivity.
    + valid_tac.
    + valid_tac.
  - rewrite imp_write_tags_end; try lia; try assumption.
    reflexivity.
Qed.

Lemma imp_place_spec (s : Implicit.st) (bs l1 l2 : list blk) (b : blk) (asize : Z) :
  imp_inv s bs -> bs = l1 ++ b :: l2 ->
  8 <= asize <= b_size b -> asize mod 8 = 0 ->
  imp_inv (upd s (place_mem Implicit.min_block_size (bytes (heap s)) b asize))
          (l1 ++ placed Implicit.min_block_size b asize ++ l2).
Proof.
  intros Hinv E Ha H8.
  pose proof (ii_chain _ _ Hinv) as Hc. rewrite E in Hc.
  change (imp_prologue s :: l1 ++ b :: l2) with ((imp_prologue s :: l1) ++ [b] ++ l2) in Hc.
  apply chain_app in Hc. destruct Hc as (c & Hc1 & Hc2).
  apply chain_app in Hc2. destruct Hc2 as (c' & Hcb & Hc2).
  assert (c = b_addr b) by (cbn [chain] in Hcb; destruct Hcb as (? & _); congruence).
  subst c.
  assert (Hr : b_size b - asize < Implicit.min_block_size \/ 8 <= b_size b - asize)
    by (change Implicit.min_block_size with 16; lia).
  eapply (imp_inv_replace s bs _ _ (imp_prologue s :: l1) [b]
            (placed Implicit.min_block_size b asize) l2 (b_addr b) c').
  - exact Hinv.
  - rewrite E. reflexivity.
  - reflexivity.
  - exact Hc1.
  - exact Hcb.
  - assert (c' = b_addr b + b_size b) by (cbn [chain] in Hcb; lia). subst c'.
    apply chain_placed; try assumption. change Implicit.min_block_size with 16. lia.
  - apply tagged_placed; assumption.
  - assert (c' = b_addr b + b_size b) by (cbn [chain] in Hcb; lia). subst c'.
    apply place_mem_agree; assumption.
Qed.

(** * Searching *)

Lemma imp_find_fit_loop_first (s : Implicit.st) (bs : list blk) (asize : Z) :
  imp_inv s bs ->
  forall (l : list blk) (fuel : nat) (a : Z),
    chain a l (mem_brk (heap s) - 4) ->
    (forall b, In b l -> In b (imp_prologue s :: bs)) ->
    (length l < fuel)%nat ->
    (exists l1 b l2,
       l = l1 ++ b :: l2 /\ b_alloc b = false /\ asize <= b_size b /\
       (forall x, In x l1 -> b_alloc x = true \/ b_size x < asize) /\
       Implicit.find_fit_loop fuel asize a s = Ret (b_addr b) s) \/
    ((forall x, In x l -> b_alloc x = true \/ b_size x < asize) /\
     Implicit.find_fit_loop fuel asize a s = Ret NULL s).
Proof.
  intros Hinv. induction l as [|b l IH]; intros fuel a Hc Hsub Hfuel.
  - destruct fuel as [|fuel]; [cbn in Hfuel; lia|].
    cbn in Hc. subst a. cbn [Implicit.find_fit_loop].
    destruct (imp_epilogue_read s bs Hinv) as (Hs & Ha & Hv).
    right. split; [intros x []|].
    exec (imp_get_size_ok s _ Hv). rewrite Hs. reflexivity.
  - destruct fuel as [|fuel]; [cbn in Hfuel; lia|].
    cbn [chain] in Hc. destruct Hc as (Hba & Hbs & Hb8 & Hc).
    assert (Hb : In b (imp_prologue s :: bs)) by (apply Hsub; left; reflexivity).
    destruct (imp_block_facts s bs Hinv b Hb) as (Hblo & Hbhi & Hbsz & _ & _ & _ & Vb & _).
    destruct (imp_block_read s bs Hinv b Hb) as (Rbs & Rba & _).
    subst a. cbn [Implicit.find_fit_loop].
    assert (Hstep :
      b_alloc b = true \/ b_size b < asize ->
      Implicit.find_fit_loop (S fuel) asize (b_addr b) s =
      Implicit.find_fit_loop fuel asize (b_addr b + b_size b) s).
    { intros Hskip. cbn [Implicit.find_fit_loop].
      exec (imp_get_size_ok s _ Vb). rewrite Rbs.
      destruct (Z.gtb_spec (b_size b) 0) as [_|]; [|lia].
      exec (imp_get_alloc_ok s _ Vb). rewrite Rba.
      destruct (b_alloc b) eqn:Ab.
      - rewrite ret_bind. cbn [negb andb].
        exec (imp_find_next_ok s _ Vb). rewrite Rbs. reflexivity.
      - exec (imp_get_size_ok s _ Vb). rewrite Rbs. cbn [negb andb].
        destruct (Z.leb_spec asize (b_size b)) as [Hfit|Hno];
          [destruct Hskip; [discriminate | lia]|].
        exec (imp_find_next_ok s _ Vb). rewrite Rbs. reflexivity. }
    change (Implicit.find_fit_loop (S fuel) asize (b_addr b) s) with
      ((sz <- Implicit.get_size (b_addr b) ;;
        if sz >? 0 then
          al <- Implicit.get_alloc (b_addr b) ;;
          sz' <- (if al then ret 0 else Implicit.get_size (b_addr b)) ;;
          if negb al && (asize <=? sz') then ret (b_addr b)
          else nxt <- Implicit.find_next (b_addr b) ;; Implicit.find_fit_loop fuel asize nxt
        else ret NULL) s) in Hstep.
    destruct (b_alloc b) eqn:Ab.
    + rewrite Hstep by (left; reflexivity).
      destruct (IH fuel (b_addr b + b_size b) Hc
                   (fun x Hx => Hsub x (or_intror Hx)) ltac:(cbn in Hfuel; lia))
        as [(l1 & b0 & l2 & E & H1 & H2 & H3 & H4) | (H1 & H2)].
      * left. exists (b :: l1), b0, l2. rewrite E. split; [reflexivity|].
        repeat split; try assumption.
        intros x [<-|Hx]; [left; assumption | apply H3; assumption].
      * right. split; [|assumption].
        intros x [<-|Hx]; [left; assumption | apply H1; assumption].
    + destruct (Z.le_gt_cases asize (b_size b)) as [Hfit|Hno].
      * left. exists [], b, l. split; [reflexivity|].
        repeat split; try assumption; [intros x []|].
        exec (imp_get_size_ok s _ Vb). rewrite Rbs.
        destruct (Z.gtb_spec (b_size b) 0) as [_|]; [|lia].
        exec (imp_get_alloc_ok s _ Vb). rewrite Rba.
        exec (imp_get_size_ok s _ Vb). rewrite Rbs. cbn [negb andb].
        destruct (Z.leb_spec asize (b_size b)); [reflexivity | lia].
      * rewrite Hstep by (right; assumption).
        destruct (IH fuel (b_addr b + b_size b) Hc
                     (fun x Hx => Hsub x (or_intror Hx)) ltac:(cbn in Hfuel; lia))
          as [(l1 & b0 & l2 & E & H1 & H2 & H3 & H4) | (H1 & H2)].
        -- left. exists (b :: l1), b0, l2. rewrite E. split; [reflexivity|].
           repeat split; try assumption.
           intros x [<-|Hx]; [right; assumption | apply H3; assumption].
        -- right. split; [|assumption].
           intros x [<-|Hx]; [right; assumption | apply H1; assumption].
Qed.

Lemma imp_find_fit_first (s : Implicit.st) (bs : list blk) (asize : Z) :
  imp_inv s bs ->
  (exists l1 b l2,
     bs = l1 ++ b :: l2 /\ b_alloc b = false /\ asize <= b_size b /\
     (forall x, In x l1 -> b_alloc x = true \/ b_size x < asize) /\
     Implicit.find_fit asize s = Ret (b_addr b) s /\ b_addr b <> NULL) \/
  ((forall x, In x bs -> b_alloc x = true \/ b_size x < asize) /\
   Implicit.find_fit asize s = Ret NULL s).
Proof.
  intros Hinv.
  pose proof (imp_heap_extent s bs Hinv) as He.
  pose proof (ii_chain _ _ Hinv) as Hc.
  pose proof (chain_length _ _ _ Hc) as Hlen.
  assert (Hrun : forall r,
            Implicit.find_fit_loop (S (Z.to_nat (mem_brk (heap s) - mem_start_brk (heap s))))
                                   asize (globals s) s = Ret r s ->
            Implicit.find_fit asize s = Ret r s).
  { intros r Hr. unfold Implicit.find_fit, Implicit.heap_fuel.
    unfold bind at 1. unfold bind at 1. unfold get_globals. exact Hr. }
  destruct (imp_find_fit_loop_first s bs asize Hinv (imp_prologue s :: bs)
              (S (Z.to_nat (mem_brk (heap s) - mem_start_brk (heap s)))) (globals s) Hc
              (fun b H => H) ltac:(lia))
    as [(l1 & b & l2 & E & H1 & H2 & H3 & H4) | (H1 & H2)].
  - left. destruct l1 as [|p l1].
    + cbn in E. injection E as E _. subst b. discriminate H1.
    + cbn in E. injection E as Ep E. subst p.
      exists l1, b, l2. repeat split; try assumption.
      * intros x Hx. apply H3. right. assumption.
      * assert (Hb : In b bs) by (rewrite E; apply in_or_app; right; left; reflexivity).
        destruct (imp_block_facts s bs Hinv b (or_intror Hb)) as (Hlo & _).
        unfold NULL. lia.
  - right. split; [|apply Hrun; assumption].
    intros x Hx. apply H1. right. assumption.
Qed.

Lemma imp_find_fit_spec (s : Implicit.st) (bs : list blk) (asize : Z) :
  imp_inv s bs ->
  exists r,
    Implicit.find_fit asize s = Ret r s /\
    (r = NULL \/ exists b, In b bs /\ b_alloc b = false /\ asize <= b_size b /\ b_addr b = r).
Proof.
  intros Hinv.
  destruct (imp_find_fit_first s bs asize Hinv)
    as [(l1 & b & l2 & E & H1 & H2 & _ & H4 & _) | (_ & H2)].
  - exists (b_addr b). split; [assumption|]. right. exists b.
    repeat split; try assumption. rewrite E. apply in_or_app. right. left. reflexivity.
  - exists NULL. split; [assumption | left; reflexivity].
Qed.

(** * Extending the heap *)

Lemma round_up_multiple (x : Z) :
  0 <= x < 2 ^ 64 -> x mod 8 = 0 -> Implicit.round_up x 8 = x.
Proof.
  intros Hx H8. unfold Implicit.round_up.
  assert (x <= 2 ^ 64 - 8) by mlia.
  rewrite (wrap64_small (x + (8 - 1))) by lia.
  rewrite wrap64_small by mlia. mlia.
Qed.

Lemma mem_sbrk_granted {G} (s : state G) (incr : Z) :
  mem_brk (heap s) + incr <= mem_max_addr (heap s) ->
  mem_sbrk incr s = Ret (mem_brk (heap s)) (grown s incr).
Proof.
  intros H. unfold mem_sbrk, grown.
  destruct (Z.leb_spec (mem_brk (heap s) + incr) (mem_max_addr (heap s))); [reflexivity|lia].
Qed.

Lemma mem_sbrk_refused {G} (s : state G) (incr : Z) :
  mem_max_addr (heap s) < mem_brk (heap s) + incr ->
  mem_sbrk incr s = Ret sbrk_failed (refused s incr).
Proof.
  intros H. unfold mem_sbrk, refused.
  destruct (Z.leb_spec (mem_brk (heap s) + incr) (mem_max_addr (heap s))); [lia|reflexivity].
Qed.

Lemma same_bytes_agree (m m' : mem) (lo hi : Z) (a : blk) :
  agree_outside m m' lo hi ->
  b_addr a + b_size a <= lo \/ hi <= b_addr a ->
  same_bytes m m' a.
Proof. intros H Hd x Hx. apply H. lia. Qed.

Lemma same_bytes_trans (m1 m2 m3 : mem) (a : blk) :
  same_bytes m1 m2 a -> same_bytes m2 m3 a -> same_bytes m1 m3 a.
Proof. intros H1 H2 x Hx. rewrite H2, H1 by assumption. reflexivity. Qed.

Lemma last_decomp {A} (x : A) (l : list A) : exists l1 p, x :: l = l1 ++ [p].
Proof.
  destruct (exists_last (l := x :: l) ltac:(discriminate)) as (l1 & p & E).
  exists l1, p. exact E.
Qed.

(** The heap with the new free block that [extend_heap] lays over the old
    epilogue, before it is coalesced. *)
Lemma imp_inv_grown (s : Implicit.st) (bs : list blk) (size : Z) :
  imp_inv s bs -> 8 <= size -> size mod 8 = 0 ->
  mem_brk (heap s) + size <= mem_max_addr (heap s) ->
  let e := mem_brk (heap s) - 4 in
  let m2 := store32 (set_tags (bytes (heap s)) e size false) (e + size) (Implicit.pack 0 true) in
  imp_inv (upd (grown s size) m2) (bs ++ [mkBlk e size false]).
Proof.
  intros Hinv Hs H8 Hmax e m2.
  pose proof (imp_heap_extent s bs Hinv) as He.
  destruct Hinv as [Hr Hb Ha Hc Ht Hepi].
  assert (Hag : agree_outside (bytes (heap s)) m2 e (e + size + 4)).
  { unfold m2. apply agree_outside_trans with (set_tags (bytes (heap s)) e size false).
    - eapply agree_outside_widen; [apply set_tags_agree|..]; lia.
    - apply agree_outside_store; lia. }
  constructor; cbn [upd grown heap globals bytes set_bytes mem_start_brk mem_brk mem_max_addr].
  - unfold region_ok in *. cbn. lia.
  - exact Hb.
  - exact Ha.
  - change (imp_prologue (upd (grown s size) m2)) with (imp_prologue s).
    change (imp_prologue s :: bs ++ [mkBlk e size false])
      with ((imp_prologue s :: bs) ++ [mkBlk e size false]).
    apply chain_snoc. cbn [b_addr b_size].
    split; [exact Hc|]. split; [assumption|]. split; [assumption|]. unfold e; lia.
  - change (imp_prologue (upd (grown s size) m2)) with (imp_prologue s).
    change (imp_prologue s :: bs ++ [mkBlk e size false])
      with ((imp_prologue s :: bs) ++ [mkBlk e size false]).
    apply Forall_app. split.
    + rewrite Forall_forall in *. intros b Hin.
      pose proof (chain_bounds _ _ _ _ Hc Hin).
      eapply tagged_agree; [exact Hag | left; unfold e; lia | lia | apply Ht; assumption].
    + apply Forall_cons; [|apply Forall_nil]. unfold m2.
      eapply tagged_agree.
      * apply agree_outside_store with (lo := e + size) (hi := e + size + 4); lia.
      * left. cbn [b_addr b_size]. lia.
      * cbn [b_size]. lia.
      * apply tagged_set_tags. lia.
  - unfold m2. replace (mem_brk (heap s) + size - 4) with (e + size) by (unfold e; lia).
    rewrite load32_store32_same. apply wrap32_small. apply pack_range.
Qed.

Lemma imp_extend_heap_run (s : Implicit.st) (bs : list blk) (size : Z) :
  imp_inv s bs -> 8 <= size < 2 ^ 64 -> size mod 8 = 0 ->
  mem_brk (heap s) + size <= mem_max_addr (heap s) ->
  let e := mem_brk (heap s) - 4 in
  let m2 := store32 (set_tags (bytes (heap s)) e size false) (e + size) (Implicit.pack 0 true) in
  Implicit.extend_heap size s = Implicit.coalesce e (upd (grown s size) m2).
Proof.
  intros Hinv Hs H8 Hmax e m2.
  pose proof (imp_heap_extent s bs Hinv) as He.
  unfold Implicit.extend_heap.
  rewrite round_up_multiple by (try assumption; lia).
  exec (mem_sbrk_granted s size Hmax).
  destruct (Z.eqb_spec (mem_brk (heap s)) sbrk_failed) as [Hbad|_];
    [unfold sbrk_failed in Hbad; lia|].
  unfold Implicit.payload_to_header, Implicit.payload_offset. fold e.
  rewrite imp_write_tags_ok; try lia; try assumption;
    try (apply valid_intro; cbn; unfold e; lia).
  assert (Vh : forall m0, valid (heap (upd (grown s size) m0)) e 4 = true)
    by (intros m0; apply valid_intro; cbn; unfold e; lia).
  assert (E : size_at (set_tags (bytes (heap s)) e size false) e = size).
  { pose proof (tagged_set_tags (bytes (heap s)) e size false ltac:(lia)) as T.
    apply (tagged_header _ _ T); cbn [b_size]; [lia | assumption]. }
  exec (imp_find_next_ok _ e (Vh _)).
  change (bytes (heap (grown s size))) with (bytes (heap s)). rewrite E.
  unfold Implicit.write_header.
  assert (Ve : forall m0, valid (heap (upd (grown s size) m0)) (e + size) 4 = true)
    by (intros m0; apply valid_intro; cbn; unfold e; lia).
  exec (st32_ok _ (e + size) _ (Ve _)).
  reflexivity.
Qed.

(** * What an operation keeps *)

Lemma keeps_trans (m1 m2 m3 : mem) (bs1 bs2 bs3 : list blk) :
  keeps m1 m2 bs1 bs2 -> keeps m2 m3 bs2 bs3 -> keeps m1 m3 bs1 bs3.
Proof.
  intros H1 H2 a Hin Ha. destruct (H1 a Hin Ha) as [Hin2 Hb12].
  destruct (H2 a Hin2 Ha) as [Hin3 Hb23].
  split; [assumption | eapply same_bytes_trans; eassumption].
Qed.

(** A memory that changed inside of one free block holds the bytes of
    every allocated block. *)
Lemma same_bytes_outside_free (m m' : mem) (a0 e : Z) (all : list blk) (fb a : blk) :
  chain a0 all e -> In fb all -> b_alloc fb = false ->
  agree_outside m m' (b_addr fb) (b_addr fb + b_size fb) ->
  In a all -> b_alloc a = true -> same_bytes m m' a.
Proof.
  intros Hc Hfb Hfree Hag Ha Hal.
  destruct (chain_disjoint _ _ _ _ _ Hc Ha Hfb) as [->|Hd]; [congruence|].
  eapply same_bytes_agree; [exact Hag | lia].
Qed.

Lemma imp_in_tail (s : Implicit.st) (bs : list blk) (a : blk) :
  In a (imp_prologue s :: bs) ->
  b_alloc a = false \/ b_addr a <> globals s -> In a bs.
Proof.
  intros [<-|Hin] Hne; [|assumption].
  cbn in Hne. destruct Hne; [discriminate | congruence].
Qed.

Lemma imp_tail_addr (s : Implicit.st) (bs : list blk) (a : blk) :
  imp_inv s bs -> In a bs -> globals s + 8 <= b_addr a.
Proof.
  intros Hinv Hin. pose proof (ii_chain _ _ Hinv) as Hc.
  pose proof (chain_strict _ _ _ _ _ Hc Hin) as H. cbn in H. exact H.
Qed.

Lemma imp_inv_refused (s : Implicit.st) (bs : list blk) (incr : Z) :
  imp_inv s bs -> imp_inv (refused s incr) bs.
Proof. intros [Hr Hb Ha Hc Ht He]. constructor; assumption. Qed.

Lemma imp_extend_heap_shape (s : Implicit.st) (bs : list blk) (size : Z) :
  imp_inv s bs -> 8 <= size < 2 ^ 64 -> size mod 8 = 0 ->
  mem_brk (heap s) + size <= mem_max_addr (heap s) ->
  exists m' bs' fb,
    Implicit.extend_heap size s = Ret (b_addr fb) (upd (grown s size) m') /\
    imp_inv (upd (grown s size) m') bs' /\
    In fb bs' /\ b_alloc fb = false /\ size <= b_size fb /\
    keeps (bytes (heap s)) m' bs bs' /\
    b_addr fb <= mem_brk (heap s) - 4 /\
    b_addr fb + b_size fb = mem_brk (heap s) + size - 4 /\
    (no_adj_free (imp_prologue s :: bs) -> no_adj_free (imp_prologue s :: bs')).
Proof.
  intros Hinv Hs H8 Hmax.
  pose proof (imp_heap_extent s bs Hinv) as He.
  pose proof (imp_extend_heap_run s bs size Hinv Hs H8 Hmax) as Hrun.
  pose proof (imp_inv_grown s bs size Hinv ltac:(lia) H8 Hmax) as Hinv2.
  cbv zeta in Hrun, Hinv2.
  set (e := mem_brk (heap s) - 4) in *.
  set (m2 := store32 (set_tags (bytes (heap s)) e size false) (e + size)
                     (Implicit.pack 0 true)) in *.
  set (s2 := upd (grown s size) m2) in *.
  set (nb := mkBlk e size false) in *.
  destruct (last_decomp (imp_prologue s) bs) as (l1 & p & El).
  assert (E2 : imp_prologue s2 :: (bs ++ [nb]) = l1 ++ p :: nb :: []).
  { change (imp_prologue s2) with (imp_prologue s).
    change (imp_prologue s :: bs ++ [nb]) with ((imp_prologue s :: bs) ++ [nb]).
    rewrite El, <- app_assoc. reflexivity. }
  destruct (imp_coalesce_spec s2 (bs ++ [nb]) l1 [] p nb Hinv2 E2 eq_refl)
    as (m3 & bs' & Hco & Hinv3 & E3 & Hag3).
  set (fb := fused_block p nb []) in *.
  change (upd s2 m3) with (upd (grown s size) m3) in Hco, Hinv3.
  change (imp_prologue s2) with (imp_prologue s) in E3.
  pose proof (ii_chain _ _ Hinv2) as Hc2. rewrite E2 in Hc2.
  apply chain_app in Hc2. destruct Hc2 as (c & Hc2a & Hc2b).
  assert (c = b_addr p) by (cbn [chain] in Hc2b; destruct Hc2b as (? & _); congruence).
  subst c.
  pose proof (fused_block_range p nb [] _ Hc2b) as R. cbv zeta in R. fold fb in R.
  destruct R as (R1 & R2 & R3 & R4 & R5 & R6 & _ & _ & R9 & _).
  specialize (R9 eq_refl). cbn [nb b_addr b_size] in R2, R9.
  assert (Hfb : In fb bs').
  { apply (imp_in_tail s bs' fb); [|left; reflexivity].
    rewrite E3. apply in_or_app. right. apply In_fused_block. }
  exists m3, bs', fb.
  split; [rewrite Hrun; exact Hco|]. split; [exact Hinv3|].
  split; [exact Hfb|]. split; [reflexivity|]. split; [exact R6|].
  split; [|split; [exact R2|split; [unfold e in R9; lia|]]]; cycle 1.
  { intros H3. rewrite E3. rewrite El in H3.
    apply no_adj_free_coalesce; [exact H3 | exact I]. }
  intros a Hin Hal.
  assert (Hin' : In a (imp_prologue s :: bs')).
  { rewrite E3. assert (Ha1 : In a (l1 ++ [p])) by (rewrite <- El; right; assumption).
    apply in_app_or in Ha1. apply in_or_app. destruct Ha1 as [Ha1|[<-|[]]].
    - left. assumption.
    - right. apply coalesce_blocks_keeps; [left; reflexivity | assumption | reflexivity]. }
  pose proof (imp_tail_addr s bs a Hinv Hin) as Hlo.
  split.
  - apply (imp_in_tail s bs' a Hin'). right. lia.
  - apply same_bytes_trans with m2.
    + pose proof (ii_chain _ _ Hinv) as Hc.
      pose proof (chain_bounds _ _ _ _ Hc (or_intror Hin)) as Hb.
      apply same_bytes_agree with (lo := e) (hi := e + size + 4); [|left; unfold e; lia].
      unfold m2. apply agree_outside_trans with (set_tags (bytes (heap s)) e size false).
      * eapply agree_outside_widen; [apply set_tags_agree|..]; lia.
      * apply agree_outside_store; lia.
    + pose proof (ii_chain _ _ Hinv3) as Hc3.
      change (imp_prologue (upd (grown s size) m3)) with (imp_prologue s) in Hc3.
      change (globals (upd (grown s size) m3)) with (globals s) in Hc3.
      eapply (same_bytes_outside_free m2 m3 _ _ _ fb a Hc3); try assumption.
      * right. assumption.
      * reflexivity.
Qed.

Lemma imp_extend_heap_spec (s : Implicit.st) (bs : list blk) (size : Z) :
  imp_inv s bs -> 8 <= size < 2 ^ 64 -> size mod 8 = 0 ->
  mem_brk (heap s) + size <= mem_max_addr (heap s) ->
  exists m' bs' fb,
    Implicit.extend_heap size s = Ret (b_addr fb) (upd (grown s size) m') /\
    imp_inv (upd (grown s size) m') bs' /\
    In fb bs' /\ b_alloc fb = false /\ size <= b_size fb /\
    keeps (bytes (heap s)) m' bs bs'.
Proof.
  intros Hinv Hs H8 Hmax.
  destruct (imp_extend_heap_shape s bs size Hinv Hs H8 Hmax)
    as (m' & bs' & fb & H1 & H2 & H3 & H4 & H5 & H6 & _).
  exists m', bs', fb.
  exact (conj H1 (conj H2 (conj H3 (conj H4 (conj H5 H6))))).
Qed.

(** * [malloc] *)

Lemma imp_extend_heap_refused (s : Implicit.st) (size : Z) :
  0 <= size < 2 ^ 64 -> size mod 8 = 0 ->
  mem_max_addr (heap s) < mem_brk (heap s) + size ->
  Implicit.extend_heap size s = Ret NULL (refused s size).
Proof.
  intros Hs H8 Hmax. unfold Implicit.extend_heap.
  rewrite round_up_multiple by assumption.
  exec (mem_sbrk_refused s size Hmax). reflexivity.
Qed.

(** The adjusted size of a request that does not wrap around. *)
Lemma imp_asize_spec (n : Z) :
  0 < n -> n + 15 < 2 ^ 64 ->
  let asize := wrap64 (Implicit.round_up n Implicit.dsize + Implicit.dsize) in
  16 <= asize < 2 ^ 64 /\ asize mod 8 = 0 /\ n + 8 <= asize.
Proof.
  intros Hn Hb. cbv zeta. unfold Implicit.round_up, Implicit.dsize, Implicit.wsize.
  change (2 * 4) with 8.
  rewrite (wrap64_small (n + (8 - 1))) by lia.
  rewrite (wrap64_small (8 * _)) by mlia.
  rewrite wrap64_small by mlia. mlia.
Qed.

Lemma placed_In (minsz : Z) (b : blk) (asize : Z) :
  asize <= b_size b ->
  exists sz, In (mkBlk (b_addr b) sz true) (placed minsz b asize) /\ asize <= sz.
Proof.
  intros Ha. unfold placed. destruct (b_size b - asize >=? minsz).
  - exists asize. split; [left; reflexivity | lia].
  - exists (b_size b). split; [left; reflexivity | lia].
Qed.

Lemma placed_In_bound (minsz : Z) (b : blk) (asize : Z) :
  asize <= b_size b -> 0 < minsz ->
  exists sz, In (mkBlk (b_addr b) sz true) (placed minsz b asize) /\
             asize <= sz < asize + minsz.
Proof.
  intros Ha Hm. unfold placed. destruct (Z.geb_spec (b_size b - asize) minsz).
  - exists asize. split; [left; reflexivity | lia].
  - exists (b_size b). split; [left; reflexivity | lia].
Qed.

Lemma imp_place_shape (s : Implicit.st) (bs l1 l2 : list blk) (b : blk) (asize : Z) :
  imp_inv s bs -> bs = l1 ++ b :: l2 -> b_alloc b = false ->
  8 <= asize <= b_size b -> asize mod 8 = 0 ->
  let bs' := l1 ++ placed Implicit.min_block_size b asize ++ l2 in
  exists m' sz,
    Implicit.place (b_addr b) asize s = Ret tt (upd s m') /\
    imp_inv (upd s m') bs' /\
    In (mkBlk (b_addr b) sz true) bs' /\ asize <= sz < asize + Implicit.min_block_size /\
    keeps (bytes (heap s)) m' bs bs' /\
    (forall a, In a bs -> b_alloc a = true -> b_addr a <> b_addr b) /\
    (no_adj_free (imp_prologue s :: bs) -> no_adj_free (imp_prologue s :: bs')).
Proof.
  intros Hinv E Hfree Ha H8 bs'. subst bs'.
  assert (Hin : In b bs) by (rewrite E; apply in_or_app; right; left; reflexivity).
  pose proof (imp_place_run s bs b asize Hinv Hin Ha H8) as Hrun.
  pose proof (imp_place_spec s bs l1 l2 b asize Hinv E Ha H8) as Hinv'.
  destruct (placed_In_bound Implicit.min_block_size b asize ltac:(lia) ltac:(reflexivity))
    as (sz & Hsz & Hle).
  pose proof (ii_chain _ _ Hinv) as Hc.
  exists (place_mem Implicit.min_block_size (bytes (heap s)) b asize), sz.
  split; [exact Hrun|]. split; [exact Hinv'|].
  split; [apply in_or_app; right; apply in_or_app; left; exact Hsz|].
  split; [exact Hle|].
  split; [|split]; cycle 2.
  { intros H3. rewrite E in H3.
    exact (no_adj_free_placed Implicit.min_block_size (imp_prologue s :: l1) l2 b asize
             Hfree H3). }
  - intros a Hina Hal. split.
    + rewrite E in Hina. apply in_app_or in Hina. apply in_or_app.
      destruct Hina as [Hina|[<-|Hina]].
      * left. assumption.
      * congruence.
      * right. apply in_or_app. right. assumption.
    + eapply (same_bytes_outside_free _ _ _ _ _ b a Hc); try assumption.
      * right. assumption.
      * apply place_mem_agree; [assumption|]. change Implicit.min_block_size with 16. lia.
      * right. assumption.
  - intros a Hina Hal Heq.
    assert (a = b) by (eapply (chain_addr_inj _ _ _ a b Hc); try (right; assumption); assumption).
    congruence.
Qed.

Lemma imp_place_finish (s : Implicit.st) (bs : list blk) (b : blk) (asize : Z) :
  imp_inv s bs -> In b bs -> b_alloc b = false ->
  8 <= asize <= b_size b -> asize mod 8 = 0 ->
  exists m' bs' sz,
    Implicit.place (b_addr b) asize s = Ret tt (upd s m') /\
    imp_inv (upd s m') bs' /\
    In (mkBlk (b_addr b) sz true) bs' /\ asize <= sz /\
    keeps (bytes (heap s)) m' bs bs' /\
    (forall a, In a bs -> b_alloc a = true -> b_addr a <> b_addr b).
Proof.
  intros Hinv Hin Hfree Ha H8.
  destruct (in_split _ _ Hin) as (l1 & l2 & E).
  destruct (imp_place_shape s bs l1 l2 b asize Hinv E Hfree Ha H8)
    as (m' & sz & H1 & H2 & H3 & H4 & H5 & H6 & _).
  exists m', (l1 ++ placed Implicit.min_block_size b asize ++ l2), sz.
  exact (conj H1 (conj H2 (conj H3 (conj (proj1 H4) (conj H5 H6))))).
Qed.

Lemma imp_malloc_shape (s : Implicit.st) (bs : list blk) (n : Z) :
  imp_inv s bs -> 0 < n -> n + 15 < 2 ^ 64 ->
  let asize := wrap64 (Implicit.round_up n Implicit.dsize + Implicit.dsize) in
  let size := Implicit.max asize Implicit.chunksize in
  let fits := exists b, In b bs /\ b_alloc b = false /\ asize <= b_size b in
  exists p s',
    Implicit.malloc n s = Ret p s' /\ globals s' = globals s /\
    ((p = NULL /\ s' = refused s size /\ imp_inv s' bs /\ ~ fits /\
      mem_max_addr (heap s) < mem_brk (heap s) + size)
     \/
     (p <> NULL /\
      exists bs' sz,
        imp_inv s' bs' /\
        In (mkBlk (p - 4) sz true) bs' /\
        asize <= sz < asize + Implicit.min_block_size /\
        keeps (bytes (heap s)) (bytes (heap s')) bs bs' /\
        (forall a, In a bs -> b_alloc a = true -> b_addr a <> p - 4) /\
        (no_adj_free (imp_prologue s :: bs) -> no_adj_free (imp_prologue s :: bs')) /\
        ((s' = upd s (bytes (heap s')) /\
          exists l1 b l2,
            bs = l1 ++ b :: l2 /\ b_alloc b = false /\ asize <= b_size b /\
            (forall x, In x l1 -> b_alloc x = true \/ b_size x < asize) /\
            p = b_addr b + 4 /\
            bs' = l1 ++ placed Implicit.min_block_size b asize ++ l2) \/
         (~ fits /\ mem_brk (heap s) + size <= mem_max_addr (heap s) /\
          s' = upd (grown s size) (bytes (heap s')))))).
Proof.
  intros Hinv Hn Hb asize size fits.
  destruct (imp_asize_spec n Hn Hb) as (Ha1 & Ha8 & Han). fold asize in Ha1, Ha8, Han.
  pose proof (imp_heap_extent s bs Hinv) as He.
  unfold Implicit.malloc. fold asize. fold size.
  destruct (Z.eqb_spec n 0) as [|_]; [lia|].
  unfold get_globals at 1. unfold bind at 1.
  destruct (Z.eqb_spec (globals s) NULL) as [Hz|_]; [unfold NULL in Hz; lia|].
  rewrite ret_bind.
  destruct (imp_find_fit_first s bs asize Hinv)
    as [(k1 & b & k2 & Eb & Hfree & Hsz & Hfirst & Hfit & Hbnz) | (Hnone & Hfit)].
  - (* a block fits *)
    assert (Hin : In b bs) by (rewrite Eb; apply in_or_app; right; left; reflexivity).
    exec Hfit.
    destruct (Z.eqb_spec (b_addr b) NULL) as [|_]; [contradiction|].
    rewrite ret_bind.
    destruct (Z.eqb_spec (b_addr b) NULL) as [|_]; [contradiction|].
    destruct (imp_place_shape s bs k1 k2 b asize Hinv Eb Hfree ltac:(lia) Ha8)
      as (m2 & sz & Hpl & Hinv2 & Hin2 & Hle & Hk2 & Hfresh & H3).
    set (bs2 := k1 ++ placed Implicit.min_block_size b asize ++ k2) in *.
    exec Hpl.
    exists (Implicit.header_to_payload (b_addr b)), (upd s m2).
    unfold Implicit.header_to_payload, Implicit.payload_offset.
    split; [reflexivity|]. split; [reflexivity|]. right.
    split; [unfold NULL in *; pose proof (imp_tail_addr s bs b Hinv Hin); lia|].
    exists bs2, sz.
    replace (b_addr b + 4 - 4) with (b_addr b) by lia.
    split; [exact Hinv2|].
    split; [exact Hin2|]. split; [exact Hle|]. split; [exact Hk2|].
    split; [exact Hfresh|]. split; [exact H3|].
    left. split; [rewrite bytes_upd; reflexivity|].
    exists k1, b, k2. repeat split; try assumption; try lia; try reflexivity.
  - (* no fit: the heap is extended *)
    assert (Hnofit : ~ fits).
    { intros (b & Hin & Hfree & Hsz). destruct (Hnone b Hin); [congruence | lia]. }
    exec Hfit.
    change (NULL =? NULL) with true. cbv iota.
    assert (Hsize : 4096 <= size < 2 ^ 64 /\ size mod 8 = 0 /\ asize <= size).
    { unfold size, Implicit.max. change Implicit.chunksize with 4096.
      destruct (Z.gtb_spec asize 4096); repeat split; try lia; try assumption. }
    destruct Hsize as (Hs1 & Hs8 & Hs2).
    destruct (Z.le_gt_cases (mem_brk (heap s) + size) (mem_max_addr (heap s))) as [Hok|Hno].
    + destruct (imp_extend_heap_shape s bs size Hinv ltac:(lia) Hs8 Hok)
        as (m1 & bs1 & fb & Hext & Hinv1 & Hfb & Hfree & Hfsz & Hk1 & _ & _ & H31).
      exec Hext.
      assert (Hfb' : In fb (imp_prologue (upd (grown s size) m1) :: bs1)) by (right; assumption).
      destruct (imp_block_facts _ _ Hinv1 fb Hfb') as (Hflo & _).
      change (globals (upd (grown s size) m1)) with (globals s) in Hflo.
      destruct (Z.eqb_spec (b_addr fb) NULL) as [Hz|_]; [unfold NULL in Hz; lia|].
      destruct (in_split _ _ Hfb) as (j1 & j2 & Efb).
      destruct (imp_place_shape _ bs1 j1 j2 fb asize Hinv1 Efb Hfree ltac:(lia) Ha8)
        as (m2 & sz & Hpl & Hinv2 & Hin2 & Hle & Hk2 & Hfresh & H32).
      set (bs2 := j1 ++ placed Implicit.min_block_size fb asize ++ j2) in *.
      exec Hpl.
      exists (Implicit.header_to_payload (b_addr fb)), (upd (grown s size) m2).
      unfold Implicit.header_to_payload, Implicit.payload_offset.
      split; [reflexivity|]. split; [reflexivity|]. right.
      split; [unfold NULL; lia|]. exists bs2, sz.
      replace (b_addr fb + 4 - 4) with (b_addr fb) by lia.
      split; [exact Hinv2|].
      split; [exact Hin2|]. split; [exact Hle|]. split; [|split; [|split]].
      * eapply keeps_trans; [exact Hk1 | exact Hk2].
      * intros a Hina Hal. destruct (Hk1 a Hina Hal) as [Hina1 _].
        apply Hfresh; assumption.
      * intros H3. apply H32. apply H31. exact H3.
      * right. split; [exact Hnofit|]. split; [exact Hok|].
        rewrite bytes_upd. reflexivity.
    + rewrite (bind_Ret _ _ _ _ _ (imp_extend_heap_refused s size ltac:(lia) Hs8 Hno)).
      change (NULL =? NULL) with true. cbv iota.
      exists NULL, (refused s size).
      split; [reflexivity|]. split; [reflexivity|]. left.
      split; [reflexivity|]. split; [reflexivity|].
      split; [apply imp_inv_refused; assumption|]. split; [exact Hnofit | exact Hno].
Qed.

Lemma imp_malloc_spec (s : Implicit.st) (bs : list blk) (n : Z) :
  imp_inv s bs -> 0 < n -> n + 15 < 2 ^ 64 ->
  let asize := wrap64 (Implicit.round_up n Implicit.dsize + Implicit.dsize) in
  exists p s',
    Implicit.malloc n s = Ret p s' /\ globals s' = globals s /\
    ((p = NULL /\ bytes (heap s') = bytes (heap s) /\ imp_inv s' bs)
     \/
     (p <> NULL /\
      exists bs' sz,
        imp_inv s' bs' /\
        In (mkBlk (p - 4) sz true) bs' /\ asize <= sz /\
        keeps (bytes (heap s)) (bytes (heap s')) bs bs' /\
        (forall a, In a bs -> b_alloc a = true -> b_addr a <> p - 4))).
Proof.
  intros Hinv Hn Hb asize.
  destruct (imp_malloc_shape s bs n Hinv Hn Hb) as (p & s' & Hrun & Hg & Hres).
  exists p, s'. split; [exact Hrun|]. split; [exact Hg|].
  destruct Hres as [(Hp & Hs' & Hinv' & _) |
                    (Hp & bs' & sz & Hinv' & Hin & Hsz & Hk & Hfresh & _)].
  - left. split; [exact Hp|]. split; [rewrite Hs'; reflexivity | exact Hinv'].
  - right. split; [exact Hp|]. exists bs', sz.
    exact (conj Hinv' (conj Hin (conj (proj1 Hsz) (conj Hk Hfresh)))).
Qed.

(** * [free] *)

Lemma mid_decomp {A} (x : A) (l1 : list A) (b : A) (l2 : list A) :
  exists l1' p, x :: l1 ++ b :: l2 = l1' ++ p :: b :: l2.
Proof.
  destruct (last_decomp x l1) as (l1' & p & E).
  exists l1', p. change (x :: l1 ++ b :: l2) with ((x :: l1) ++ b :: l2).
  rewrite E, <- app_assoc. reflexivity.
Qed.

Lemma imp_free_shape (s : Implicit.st) (bs : list blk) (a sz : Z) :
  imp_inv s bs -> In (mkBlk a sz true) bs ->
  exists m' bs',
    Implicit.free (a + 4) s = Ret tt (upd s m') /\
    imp_inv (upd s m') bs' /\
    (forall x, In x bs -> b_alloc x = true -> x <> mkBlk a sz true ->
               In x bs' /\ same_bytes (bytes (heap s)) m' x) /\
    (exists fb, In fb bs' /\ b_alloc fb = false /\
                b_addr fb <= a /\ a + sz <= b_addr fb + b_size fb) /\
    (no_adj_free (imp_prologue s :: bs) -> no_adj_free (imp_prologue s :: bs')).
Proof.
  intros Hinv Hin.
  set (b := mkBlk a sz true) in *.
  assert (Hb : In b (imp_prologue s :: bs)) by (right; assumption).
  destruct (imp_block_facts s bs Hinv b Hb) as (Hblo & Hbhi & Hbsz & Hb8 & _ & _ & Vb & Vbf).
  destruct (imp_block_read s bs Hinv b Hb) as (Rbs & _).
  pose proof (imp_heap_extent s bs Hinv) as He.
  pose proof (ii_chain _ _ Hinv) as Hc.
  cbn [b b_addr b_size] in *.
  destruct (in_split _ _ Hin) as (l1 & l2 & E).
  set (m := bytes (heap s)) in *.
  set (m1 := set_tags m a sz false).
  set (b' := mkBlk a sz false).
  (* the block marked free *)
  assert (Hinv1 : imp_inv (upd s m1) (l1 ++ [b'] ++ l2)).
  { pose proof Hc as Hc'. rewrite E in Hc'.
    change (imp_prologue s :: l1 ++ b :: l2) with ((imp_prologue s :: l1) ++ [b] ++ l2) in Hc'.
    apply chain_app in Hc'. destruct Hc' as (c & Hc1 & Hc2).
    apply chain_app in Hc2. destruct Hc2 as (c' & Hcb & Hc2).
    cbn [chain b b_addr b_size] in Hcb. destruct Hcb as (<- & _ & _ & <-).
    eapply (imp_inv_replace s bs _ m1 (imp_prologue s :: l1) [b] [b'] l2 a (a + sz)).
    - exact Hinv.
    - rewrite E. reflexivity.
    - reflexivity.
    - exact Hc1.
    - cbn [chain b b_addr b_size]. repeat split; lia.
    - cbn [chain b' b_addr b_size]. repeat split; lia.
    - apply Forall_cons; [|apply Forall_nil]. apply tagged_set_tags. lia.
    - apply set_tags_agree. lia. }
  destruct (mid_decomp (imp_prologue s) l1 b' l2) as (l1' & p & E1).
  destruct (imp_coalesce_spec (upd s m1) (l1 ++ [b'] ++ l2) l1' l2 p b' Hinv1 E1 eq_refl)
    as (m3 & bs' & Hco & Hinv3 & E3 & Hag3).
  rewrite upd_upd in Hco, Hinv3.
  change (imp_prologue (upd s m1)) with (imp_prologue s) in E3.
  set (fb := fused_block p b' l2) in *.
  assert (Hfb : In fb bs').
  { apply (imp_in_tail s bs' fb); [|left; reflexivity].
    rewrite E3. apply in_or_app. right. apply In_fused_block. }
  assert (Hcp : chain (b_addr p) (p :: b' :: l2) (mem_brk (heap s) - 4)).
  { pose proof (ii_chain _ _ Hinv1) as Hc1.
    change (imp_prologue (upd s m1) :: l1 ++ [b'] ++ l2)
      with (imp_prologue s :: l1 ++ b' :: l2) in Hc1.
    rewrite E1 in Hc1. apply chain_app in Hc1. destruct Hc1 as (c & _ & Hc1).
    pose proof Hc1 as Hc1'. cbn [chain] in Hc1'. destruct Hc1' as (<- & _).
    exact Hc1. }
  pose proof (fused_block_range p b' l2 _ Hcp) as R. cbv zeta in R. fold fb in R.
  destruct R as (R1 & R2 & R3 & R4 & _).
  cbn [b' b_addr b_size] in R2, R3.
  exists m3, bs'. split; [|split; [exact Hinv3|split; [|split]]]; cycle 2.
  { exists fb. split; [exact Hfb|]. split; [reflexivity|]. lia. }
  { intros H3. rewrite E3.
    assert (El : imp_prologue s :: l1 = l1' ++ [p]).
    { apply (app_inv_tail (b' :: l2)). rewrite <- app_assoc. exact E1. }
    rewrite E in H3.
    change (imp_prologue s :: l1 ++ b :: l2) with ((imp_prologue s :: l1) ++ b :: l2) in H3.
    rewrite El in H3. apply no_adj_free_app_inv in H3. destruct H3 as [H31 H32].
    apply no_adj_free_coalesce; [exact H31 | exact (no_adj_free_tl _ H32)]. }
  - unfold Implicit.free.
    destruct (Z.eqb_spec (a + 4) NULL) as [Hz|_]; [unfold NULL in Hz; lia|].
    unfold Implicit.payload_to_header, Implicit.payload_offset.
    replace (a + 4 - 4) with a by lia.
    exec (imp_get_size_ok s a Vb). fold m. rewrite Rbs.
    rewrite imp_write_tags_ok; try lia; try assumption.
    fold m. fold m1.
    change a with (b_addr b') at 1.
    exec Hco. reflexivity.
  - intros x Hx Hal Hne.
    assert (Hx1 : In x (imp_prologue s :: l1 ++ [b'] ++ l2)).
    { right. rewrite E in Hx. apply in_app_or in Hx. apply in_or_app.
      destruct Hx as [Hx|[Hx|Hx]]; [left; assumption | congruence |].
      right. right. assumption. }
    assert (Hx3 : In x (imp_prologue s :: bs')).
    { rewrite E3.
      change (imp_prologue s :: l1 ++ [b'] ++ l2) with (imp_prologue s :: l1 ++ b' :: l2) in Hx1.
      rewrite E1 in Hx1. apply in_app_or in Hx1. apply in_or_app.
      destruct Hx1 as [Hx1|Hx1]; [left; assumption|].
      right. apply coalesce_blocks_keeps; [assumption | assumption | reflexivity]. }
    pose proof (imp_tail_addr s bs x Hinv Hx) as Hxlo.
    split.
    + apply (imp_in_tail s bs' x Hx3). right. lia.
    + apply same_bytes_trans with m1.
      * destruct (chain_disjoint _ _ _ _ _ Hc (or_intror Hx) Hb) as [->|Hd]; [congruence|].
        cbn [b b_addr b_size] in Hd.
        apply same_bytes_agree with (lo := a) (hi := a + sz); [|lia].
        apply set_tags_agree. lia.
      * pose proof (ii_chain _ _ Hinv3) as Hc3.
        change (imp_prologue (upd s m3)) with (imp_prologue s) in Hc3.
        change (globals (upd s m3)) with (globals s) in Hc3.
        eapply (same_bytes_outside_free m1 m3 _ _ _ (fused_block p b' l2) x Hc3);
          try assumption.
        -- rewrite E3. apply in_or_app. right. apply In_fused_block.
        -- reflexivity.
Qed.

Lemma imp_free_spec (s : Implicit.st) (bs : list blk) (a sz : Z) :
  imp_inv s bs -> In (mkBlk a sz true) bs ->
  exists m' bs',
    Implicit.free (a + 4) s = Ret tt (upd s m') /\
    imp_inv (upd s m') bs' /\
    (forall x, In x bs -> b_alloc x = true -> x <> mkBlk a sz true ->
               In x bs' /\ same_bytes (bytes (heap s)) m' x).
Proof.
  intros Hinv Hin.
  destruct (imp_free_shape s bs a sz Hinv Hin) as (m' & bs' & H1 & H2 & H3 & _).
  exists m', bs'. exact (conj H1 (conj H2 H3)).
Qed.

(** * [realloc] *)

Lemma memcpy_ok {G} (s : state G) (dst src n : Z) :
  0 < n -> valid (heap s) dst n = true -> valid (heap s) src n = true ->
  dst + n <= src \/ src + n <= dst ->
  memcpy dst src n s = Ret tt (upd s (copy_bytes (bytes (heap s)) dst src n)).
Proof.
  intros Hn Vd Vs Hd. unfold memcpy. cbv zeta.
  destruct (Z.eqb_spec n 0); [lia|]. rewrite Vd, Vs. cbn [andb].
  destruct (Z.leb_spec (dst + n) src), (Z.leb_spec (src + n) dst); cbn [orb];
    try reflexivity; lia.
Qed.

Lemma memcpy_zero {G} (s : state G) (dst src : Z) : memcpy dst src 0 s = Ret tt s.
Proof. reflexivity. Qed.

Lemma get_byte_copy_in (m : mem) (dst src n x : Z) :
  dst <= x < dst + n -> get_byte (copy_bytes m dst src n) x = get_byte m (src + (x - dst)).
Proof. intros H. unfold get_byte. rewrite copy_bytes_in by assumption. reflexivity. Qed.

Lemma agree_outside_copy (m : mem) (dst src n lo hi : Z) :
  lo <= dst -> dst + n <= hi -> agree_outside m (copy_bytes m dst src n) lo hi.
Proof.
  intros Hl Hh x Hx. unfold get_byte. rewrite copy_bytes_out by lia. reflexivity.
Qed.

(** Writing into the payload of an allocated block keeps the invariant. *)
Lemma imp_inv_payload (s : Implicit.st) (bs : list blk) (b : blk) (m' : mem) :
  imp_inv s bs -> In b bs ->
  agree_outside (bytes (heap s)) m' (b_addr b + 4) (b_addr b + b_size b - 4) ->
  imp_inv (upd s m') bs.
Proof.
  intros Hinv Hin Hag.
  destruct (in_split _ _ Hin) as (l1 & l2 & E).
  pose proof (ii_chain _ _ Hinv) as Hc. rewrite E in Hc.
  change (imp_prologue s :: l1 ++ b :: l2) with ((imp_prologue s :: l1) ++ [b] ++ l2) in Hc.
  apply chain_app in Hc. destruct Hc as (c & Hc1 & Hc2).
  apply chain_app in Hc2. destruct Hc2 as (c' & Hcb & Hc2).
  assert (Hb : In b (imp_prologue s :: bs)) by (right; assumption).
  destruct (imp_block_facts s bs Hinv b Hb) as (_ & _ & Hbsz & _ & _ & Ht & _).
  pose proof Hcb as Hcb'. cbn [chain] in Hcb'. destruct Hcb' as (<- & _ & _ & <-).
  eapply (imp_inv_replace s bs bs m' (imp_prologue s :: l1) [b] [b] l2 (b_addr b)
            (b_addr b + b_size b)).
  - exact Hinv.
  - rewrite E. reflexivity.
  - rewrite E. reflexivity.
  - exact Hc1.
  - exact Hcb.
  - exact Hcb.
  - apply Forall_cons; [|apply Forall_nil].
    destruct Ht as [Ht1 Ht2]. unfold tagged, load32.
    rewrite !(agree_outside_load 4 _ _ _ _ _ Hag) by (cbn; lia).
    split; assumption.
  - eapply agree_outside_widen; [exact Hag | lia | lia].
Qed.

Lemma imp_realloc_shape (s : Implicit.st) (bs : list blk) (p sz n : Z) :
  imp_inv s bs -> In (mkBlk (p - 4) sz true) bs ->
  0 < n -> n + 15 < 2 ^ 64 ->
  exists q s',
    Implicit.realloc p n s = Ret q s' /\ globals s' = globals s /\
    ((q = NULL /\ bytes (heap s') = bytes (heap s) /\ imp_inv s' bs)
     \/
     (q <> NULL /\
      (forall i, 0 <= i < Z.min (sz - 8) n ->
                 get_byte (bytes (heap s')) (q + i) = get_byte (bytes (heap s)) (p + i)) /\
      exists bs' sz',
        imp_inv s' bs' /\
        In (mkBlk (q - 4) sz' true) bs' /\ n + 8 <= sz' /\
        (forall x, In x bs -> b_alloc x = true -> x <> mkBlk (p - 4) sz true ->
                   b_addr x <> q - 4 /\ In x bs' /\
                   same_bytes (bytes (heap s)) (bytes (heap s')) x) /\
        (exists fb, In fb bs' /\ b_alloc fb = false /\
                    b_addr fb <= p - 4 /\ p - 4 + sz <= b_addr fb + b_size fb) /\
        (no_adj_free (imp_prologue s :: bs) -> no_adj_free (imp_prologue s :: bs')))).
Proof.
  intros Hinv Hin Hn Hb.
  set (b := mkBlk (p - 4) sz true) in *.
  assert (Hbin : In b (imp_prologue s :: bs)) by (right; assumption).
  destruct (imp_block_facts s bs Hinv b Hbin) as (Hblo & Hbhi & Hbsz & Hb8 & _).
  pose proof (imp_heap_extent s bs Hinv) as He.
  cbn [b b_addr b_size] in Hblo, Hbhi, Hbsz, Hb8.
  destruct (imp_asize_spec n Hn Hb) as (Ha1 & Ha8 & Han).
  destruct (imp_malloc_shape s bs n Hinv Hn Hb) as (q & s1 & Hm & Hg & Hres).
  unfold Implicit.realloc.
  destruct (Z.eqb_spec n 0); [lia|].
  destruct (Z.eqb_spec p NULL) as [Hz|_]; [unfold NULL in Hz; lia|].
  exec Hm.
  destruct Hres as [(-> & Hs1 & Hinv1 & _)|
                    (Hq & bs1 & sz1 & Hinv1 & Hnew & Hsz1 & Hk & Hfresh & HI1 & _)].
  - change (NULL =? NULL) with true. cbv iota.
    exists NULL, s1. split; [reflexivity|]. split; [exact Hg|]. left.
    split; [reflexivity | split; [rewrite Hs1; reflexivity | assumption]].
  - destruct (Z.eqb_spec q NULL) as [|_]; [contradiction|].
    destruct (Hk b Hin eq_refl) as [Hin1 Hsame1].
    set (nb := mkBlk (q - 4) sz1 true) in *.
    assert (Hbin1 : In b (imp_prologue s1 :: bs1)) by (right; assumption).
    assert (Hnin1 : In nb (imp_prologue s1 :: bs1)) by (right; assumption).
    destruct (imp_block_facts s1 bs1 Hinv1 b Hbin1) as (Hb1lo & Hb1hi & _ & _ & _ & _ & Vb1 & _).
    destruct (imp_block_facts s1 bs1 Hinv1 nb Hnin1) as (Hnlo & Hnhi & Hnsz & Hn8 & _).
    destruct (imp_block_read s1 bs1 Hinv1 b Hbin1) as (Rbs & _).
    pose proof (imp_heap_extent s1 bs1 Hinv1) as He1.
    pose proof (ii_chain _ _ Hinv1) as Hc1.
    cbn [b nb b_addr b_size] in Hb1lo, Hb1hi, Hnlo, Hnhi, Hnsz, Hn8, Rbs, Vb1.
    assert (Hdisj : q - 4 + sz1 <= p - 4 \/ p - 4 + sz <= q - 4).
    { destruct (chain_disjoint _ _ _ _ _ Hc1 Hnin1 Hbin1) as [Heq|Hd].
      - exfalso. apply (Hfresh b Hin eq_refl). rewrite <- Heq. reflexivity.
      - cbn [b nb b_addr b_size] in Hd. lia. }
    unfold Implicit.get_payload_size, Implicit.payload_to_header, Implicit.payload_offset.
    exec (imp_get_size_ok s1 (p - 4) Vb1). rewrite Rbs.
    rewrite ret_bind.
    unfold Implicit.dsize, Implicit.wsize. change (2 * 4) with 8.
    rewrite (wrap64_small (sz - 8)) by lia.
    set (cs := if n <? sz - 8 then n else sz - 8).
    assert (Hcs : cs = Z.min (sz - 8) n).
    { unfold cs. destruct (Z.ltb_spec n (sz - 8)); lia. }
    assert (Hcs0 : 0 <= cs) by lia.
    (* the copy *)
    assert (Hcopy : exists m2,
               memcpy q p cs s1 = Ret tt (upd s1 m2) /\
               agree_outside (bytes (heap s1)) m2 (q - 4 + 4) (q - 4 + sz1 - 4) /\
               forall i, 0 <= i < cs -> get_byte m2 (q + i) = get_byte (bytes (heap s1)) (p + i)).
    { destruct (Z.eq_dec cs 0) as [Hz|Hnz].
      - exists (bytes (heap s1)). rewrite Hz, upd_self.
        split; [apply memcpy_zero|]. split; [apply agree_outside_refl|]. intros i Hi. lia.
      - exists (copy_bytes (bytes (heap s1)) q p cs).
        split; [|split].
        + apply memcpy_ok; try lia; apply valid_intro; lia.
        + apply agree_outside_copy; lia.
        + intros i Hi. rewrite get_byte_copy_in by lia. f_equal. lia. }
    destruct Hcopy as (m2 & Hcp & Hag2 & Hcopied).
    exec Hcp.
    assert (Hinv2 : imp_inv (upd s1 m2) bs1).
    { apply (imp_inv_payload s1 bs1 nb m2 Hinv1 Hnew). exact Hag2. }
    destruct (imp_free_shape (upd s1 m2) bs1 (p - 4) sz Hinv2 Hin1)
      as (m3 & bs3 & Hfr & Hinv3 & Hkept & Hfb & HI3).
    replace (p - 4 + 4) with p in Hfr by lia.
    exec Hfr. rewrite upd_upd in Hinv3.
    exists q, (upd s1 m3). split; [reflexivity|]. split; [exact Hg|]. right.
    split; [assumption|].
    assert (Hnb : nb <> b).
    { unfold nb, b. intros Heq. injection Heq as Heq _. apply (Hfresh b Hin eq_refl).
      cbn [b b_addr]. lia. }
    destruct (Hkept nb Hnew eq_refl Hnb) as [Hnew3 Hsame3].
    split.
    { intros i Hi. rewrite bytes_upd.
      rewrite (Hsame3 (q + i)) by (cbn [nb b_addr b_size]; lia).
      rewrite bytes_upd. rewrite Hcopied by lia.
      apply Hsame1. cbn [b b_addr b_size]. lia. }
    exists bs3, sz1.
    split; [exact Hinv3|]. split; [exact Hnew3|]. split; [lia|].
    split; [|split; [exact Hfb|]].
    + intros x Hx Hal Hne.
      destruct (Hk x Hx Hal) as [Hx1 Hsx1].
      destruct (Hkept x Hx1 Hal Hne) as [Hx3 Hsx3].
      split; [apply Hfresh; assumption|]. split; [exact Hx3|].
      rewrite bytes_upd.
      apply same_bytes_trans with (bytes (heap s1)); [exact Hsx1|].
      apply same_bytes_trans with m2; [|rewrite bytes_upd in Hsx3; exact Hsx3].
      eapply same_bytes_agree; [exact Hag2|].
      destruct (chain_disjoint _ _ _ _ _ Hc1 (or_intror Hx1) Hnin1) as [Heq|Hd].
      * exfalso. apply (Hfresh x Hx Hal). rewrite Heq. reflexivity.
      * cbn [nb b_addr b_size] in Hd. cbn [nb b_addr b_size]. lia.
    + intros H3. apply HI3.
      change (imp_prologue (upd s1 m2)) with (imp_prologue s1).
      replace (imp_prologue s1) with (imp_prologue s)
        by (unfold imp_prologue; rewrite Hg; reflexivity).
      apply HI1. exact H3.
Qed.

Lemma imp_realloc_spec (s : Implicit.st) (bs : list blk) (p sz n : Z) :
  imp_inv s bs -> In (mkBlk (p - 4) sz true) bs ->
  0 < n -> n + 15 < 2 ^ 64 ->
  exists q s',
    Implicit.realloc p n s = Ret q s' /\
    ((q = NULL /\ bytes (heap s') = bytes (heap s) /\ imp_inv s' bs)
     \/
     (q <> NULL /\ (exists bs', imp_inv s' bs') /\
      forall i, 0 <= i < Z.min (sz - 8) n ->
                get_byte (bytes (heap s')) (q + i) = get_byte (bytes (heap s)) (p + i))).
Proof.
  intros Hinv Hin Hn Hb.
  destruct (imp_realloc_shape s bs p sz n Hinv Hin Hn Hb) as (q & s' & Hrun & _ & Hres).
  exists q, s'. split; [exact Hrun|].
  destruct Hres as [H|(Hq & Hcopy & bs' & sz' & Hinv' & _)].
  - left. exact H.
  - right. split; [exact Hq|]. split; [exists bs'; exact Hinv' | exact Hcopy].
Qed.


(** * The segregated variant, run *)

Lemma seg_find_next_ok (s : Segregated.st) (b : Z) :
  valid (heap s) b 4 = true ->
  Segregated.find_next b s = Ret (b + size_at (bytes (heap s)) b) s.
Proof.
  intros H. unfold Segregated.find_next. exec (seg_get_size_ok s b H). reflexivity.
Qed.

Lemma seg_find_prev_ok (s : Segregated.st) (b : Z) :
  valid (heap s) (b - 4) 4 = true ->
  Segregated.find_prev b s = Ret (b - size_at (bytes (heap s)) (b - 4)) s.
Proof.
  intros H. unfold Segregated.find_prev, Segregated.find_prev_footer, Segregated.wsize.
  exec (ld32_ok s (b - 4) H). reflexivity.
Qed.

Lemma seg_write_tags_ok {B} (s : Segregated.st) (b sz : Z) (al : bool) (k : Segregated.Ms B) :
  12 <= sz < 2 ^ 32 -> sz mod 8 = 0 ->
  valid (heap s) b 4 = true -> valid (heap s) (b + sz - 4) 4 = true ->
  (Segregated.write_header b sz al ;;; Segregated.write_footer b sz al ;;; k) s =
  k (upd s (set_tags (bytes (heap s)) b sz al)).
Proof.
  intros Hs H8 Vh Vf.
  unfold Segregated.write_header, Segregated.write_footer, Segregated.get_footer,
    Segregated.get_payload_size.
  exec (st32_ok s b _ Vh).
  exec (seg_get_size_ok (upd s _) b Vh).
  assert (E : size_at (store32 (bytes (heap s)) b (Segregated.pack sz al)) b = sz).
  { unfold size_at. rewrite load32_store32_same.
    rewrite wrap32_small by apply pack_range.
    apply extract_size_pack; [lia | assumption]. }
  rewrite E. rewrite !ret_bind.
  unfold Segregated.tsize, Segregated.wsize, Segregated.payload_offset.
  rewrite wrap64_small by lia.
  replace (b + 8 + (sz - 3 * 4)) with (b + sz - 4) by lia.
  exec (st32_ok (upd s _) (b + sz - 4) _ Vf).
  reflexivity.
Qed.

Lemma seg_write_tags_end (s : Segregated.st) (b sz : Z) (al : bool) :
  12 <= sz < 2 ^ 32 -> sz mod 8 = 0 ->
  valid (heap s) b 4 = true -> valid (heap s) (b + sz - 4) 4 = true ->
  (Segregated.write_header b sz al ;;; Segregated.write_footer b sz al) s =
  Ret tt (upd s (set_tags (bytes (heap s)) b sz al)).
Proof.
  intros Hs H8 Vh Vf.
  pose proof (seg_write_tags_ok s b sz al (ret tt) Hs H8 Vh Vf) as H.
  unfold ret in H at 2. rewrite <- H.
  unfold bind, ret. destruct (Segregated.write_header b sz al s) as [[] s1| |]; try reflexivity.
  destruct (Segregated.write_footer b sz al s1) as [[] s2| |]; reflexivity.
Qed.

(** * The invariant of the segregated variant *)

Section SegregatedFacts.
Variable s : Segregated.st.
Variable bs : list blk.
Variable fl : Z -> list Z.
Variable ex : list Z.
Hypothesis Hinv : seg_inv s bs fl ex.

Lemma seg_heap_extent :
  0 <= mem_start_brk (heap s) /\
  mem_start_brk (heap s) <= Segregated.seglist (globals s) /\
  Segregated.seglist (globals s) mod 8 = 0 /\
  Segregated.heap_listp (globals s) = Segregated.seglist (globals s) + 512 /\
  Segregated.heap_listp (globals s) + 32 <= mem_brk (heap s) - 8 /\
  mem_brk (heap s) <= mem_max_addr (heap s) /\
  mem_max_addr (heap s) < 2 ^ 64 - 1 /\
  mem_max_addr (heap s) - mem_start_brk (heap s) < 2 ^ 32.
Proof.
  destruct Hinv as [(R1 & R2 & R3 & R4 & R5) Hb Ha Hp Hc _ _ _ _ _ _].
  pose proof (chain_bounds _ _ _ (seg_prologue s) Hc (or_introl eq_refl)) as H.
  cbn in H. unfold Segregated.epilogue_size, Segregated.dsize, Segregated.wsize in *.
  unfold Segregated.size_class_cnt, Segregated.block_size in Hp.
  repeat split; try lia; try assumption.
Qed.

Lemma seg_block_facts (b : blk) :
  In b (seg_prologue s :: bs) ->
  Segregated.heap_listp (globals s) <= b_addr b /\
  b_addr b + b_size b <= mem_brk (heap s) - 8 /\
  32 <= b_size b < 2 ^ 32 /\ b_size b mod 8 = 0 /\
  b_addr b mod 8 = 0 /\
  tagged (bytes (heap s)) b /\
  valid (heap s) (b_addr b) 4 = true /\
  valid (heap s) (b_addr b + b_size b - 4) 4 = true /\
  valid (heap s) (b_addr b + 8) 16 = true.
Proof.
  intros Hin. pose proof seg_heap_extent as He.
  destruct Hinv as [_ _ _ _ Hc Hm Ht _ _ _ _].
  pose proof (chain_bounds _ _ _ _ Hc Hin) as Hbd.
  pose proof (chain_align_In _ _ _ _ Hc Hin) as Hal.
  rewrite Forall_forall in Ht, Hm. specialize (Ht _ Hin). specialize (Hm _ Hin).
  unfold Segregated.epilogue_size, Segregated.dsize, Segregated.wsize in *.
  change Segregated.min_block_size with 32 in Hm.
  repeat split; try lia; try (apply valid_intro; lia).
  - mlia.
  - apply Ht.
  - apply Ht.
Qed.

Lemma seg_block_read (b : blk) :
  In b (seg_prologue s :: bs) ->
  size_at (bytes (heap s)) (b_addr b) = b_size b /\
  alloc_at (bytes (heap s)) (b_addr b) = b_alloc b /\
  size_at (bytes (heap s)) (b_addr b + b_size b - 4) = b_size b.
Proof.
  intros Hin. destruct (seg_block_facts b Hin) as (_ & _ & Hs & H8 & _ & Ht & _).
  destruct (tagged_header _ _ Ht ltac:(lia) H8).
  destruct (tagged_footer _ _ Ht ltac:(lia) H8).
  repeat split; assumption.
Qed.

Lemma seg_epilogue_read :
  size_at (bytes (heap s)) (mem_brk (heap s) - 8) = 0 /\
  alloc_at (bytes (heap s)) (mem_brk (heap s) - 8) = true /\
  valid (heap s) (mem_brk (heap s) - 8) 4 = true.
Proof.
  pose proof seg_heap_extent as He.
  destruct Hinv as [_ _ _ _ _ _ _ Hepi _ _ _].
  unfold size_at, alloc_at. change Segregated.epilogue_size with 8 in Hepi. rewrite Hepi.
  repeat split; try reflexivity. apply valid_intro; lia.
Qed.

Lemma seg_head_facts (i : Z) :
  0 <= i < 16 ->
  mem_start_brk (heap s) <= head_of s i /\
  head_of s i + 32 <= Segregated.heap_listp (globals s) /\
  0 <= head_of s i < 2 ^ 64 /\
  valid (heap s) (head_of s i + 8) 16 = true.
Proof.
  intros Hi. pose proof seg_heap_extent as He.
  unfold head_of, Segregated.block_size.
  repeat split; try lia. apply valid_intro; lia.
Qed.

Lemma seg_node_block (i n : Z) :
  0 <= i < 16 -> In n (fl i) ->
  exists b, In b bs /\ b_addr b = n /\ b_alloc b = false /\
            Segregated.get_seglist_idx (b_size b) = i /\ ~ In n ex.
Proof.
  intros Hi Hn. destruct (si_nodes _ _ _ _ Hinv i n Hi Hn) as (sz & Hb & Hc & Hx).
  exists (mkBlk n sz false). repeat split; assumption.
Qed.

Lemma seg_tail_addr (a : blk) :
  In a bs -> Segregated.heap_listp (globals s) + 32 <= b_addr a.
Proof.
  intros Hin. pose proof (si_chain _ _ _ _ Hinv) as Hc.
  pose proof (chain_strict _ _ _ _ _ Hc Hin) as H. cbn in H. exact H.
Qed.

End SegregatedFacts.

Lemma seg_in_tail (s : Segregated.st) (bs : list blk) (a : blk) :
  In a (seg_prologue s :: bs) ->
  b_alloc a = false \/ b_addr a <> Segregated.heap_listp (globals s) -> In a bs.
Proof.
  intros [<-|Hin] Hne; [|assumption].
  cbn in Hne. destruct Hne; [discriminate | congruence].
Qed.

(** * Link fields *)

Lemma succ_of_store_succ (m : mem) (u v : Z) :
  succ_of (store64 m (u + 16) v) u = wrap64 v.
Proof. unfold succ_of, Segregated.succ_offset. apply load64_store64_same. Qed.

Lemma pred_of_store_pred (m : mem) (u v : Z) :
  pred_of (store64 m (u + 8) v) u = wrap64 v.
Proof. unfold pred_of, Segregated.pred_offset. apply load64_store64_same. Qed.

Lemma succ_of_store_succ_other (m : mem) (u v w : Z) :
  apart u w -> succ_of (store64 m (u + 16) v) w = succ_of m w.
Proof.
  unfold apart, Segregated.block_size, succ_of, Segregated.succ_offset. intros H.
  apply load64_store64_other. lia.
Qed.

Lemma pred_of_store_pred_other (m : mem) (u v w : Z) :
  apart u w -> pred_of (store64 m (u + 8) v) w = pred_of m w.
Proof.
  unfold apart, Segregated.block_size, pred_of, Segregated.pred_offset. intros H.
  apply load64_store64_other. lia.
Qed.

Lemma succ_of_store_pred (m : mem) (u v w : Z) :
  u = w \/ apart u w -> succ_of (store64 m (u + 8) v) w = succ_of m w.
Proof.
  unfold apart, Segregated.block_size, succ_of, Segregated.succ_offset. intros H.
  apply load64_store64_other. lia.
Qed.

Lemma pred_of_store_succ (m : mem) (u v w : Z) :
  u = w \/ apart u w -> pred_of (store64 m (u + 16) v) w = pred_of m w.
Proof.
  unfold apart, Segregated.block_size, pred_of, Segregated.pred_offset. intros H.
  apply load64_store64_other. lia.
Qed.

Lemma pred_of_range (m : mem) (u : Z) : 0 <= pred_of m u < 2 ^ 64.
Proof. apply load64_range. Qed.

Lemma succ_of_range (m : mem) (u : Z) : 0 <= succ_of m u < 2 ^ 64.
Proof. apply load64_range. Qed.

(** * Doubly linked lists *)

Lemma path_frame (m m' : mem) (l : list Z) (x y : Z) :
  path m x l y ->
  (forall u, In u (x :: l) -> succ_of m' u = succ_of m u) ->
  (forall v, In v (l ++ [y]) -> pred_of m' v = pred_of m v) ->
  path m' x l y.
Proof.
  revert x. induction l as [|n l IH]; intros x Hp Hs Hq; cbn [path] in *.
  - destruct Hp as [H1 H2]. split.
    + rewrite Hs by (left; reflexivity). assumption.
    + rewrite Hq by (left; reflexivity). assumption.
  - destruct Hp as [[H1 H2] Hp]. split; [split|].
    + rewrite Hs by (left; reflexivity). assumption.
    + rewrite Hq by (left; reflexivity). assumption.
    + apply IH; [assumption | |].
      * intros u Hu. apply Hs. right. assumption.
      * intros v Hv. apply Hq. right. assumption.
Qed.

Lemma path_app (m : mem) (l1 l2 : list Z) (x n y : Z) :
  path m x (l1 ++ n :: l2) y <-> path m x l1 n /\ path m n l2 y.
Proof.
  revert x. induction l1 as [|a l1 IH]; intros x; cbn [app path].
  - tauto.
  - rewrite IH. tauto.
Qed.

(** In a list the predecessor of a node is the head or a node before it,
    and its successor the head or a node after it. *)
Lemma path_pred_in (m : mem) (l1 l2 : list Z) (x n y : Z) :
  path m x (l1 ++ n :: l2) y -> In (pred_of m n) (x :: l1).
Proof.
  revert x. induction l1 as [|a l1 IH]; intros x; cbn [app path].
  - intros [[_ H] _]. left. symmetry. assumption.
  - intros [_ H]. right. apply IH. assumption.
Qed.

Lemma path_succ_in (m : mem) (l1 l2 : list Z) (x n y : Z) :
  path m x (l1 ++ n :: l2) y -> In (succ_of m n) (l2 ++ [y]).
Proof.
  intros H. apply path_app in H. destruct H as [_ H].
  destruct l2 as [|s l2]; cbn [path app] in *.
  - destruct H as [H _]. left. symmetry. assumption.
  - destruct H as [[H _] _]. left. symmetry. assumption.
Qed.

Lemma path_first (m : mem) (l : list Z) (x y : Z) :
  path m x l y -> succ_of m x = hd y l.
Proof. destruct l; cbn; intros H; apply H. Qed.

Lemma sep_incl (l l' : list Z) : sep l -> incl l' l -> sep l'.
Proof. intros H Hi u v Hu Hv. apply H; apply Hi; assumption. Qed.

Lemma apart_sym (u v : Z) : apart u v -> apart v u.
Proof. unfold apart. tauto. Qed.

Lemma apart_neq (u v : Z) : apart u v -> u <> v.
Proof. unfold apart, Segregated.block_size. lia. Qed.

(** Unlinking a node. *)
Lemma path_unlink_stores (m : mem) (n y : Z) (l2 : list Z) :
  forall (l1 : list Z) (x : Z),
    path m x (l1 ++ n :: l2) y ->
    NoDup (x :: l1 ++ n :: l2) -> ~ In y (l1 ++ n :: l2) ->
    sep (x :: y :: l1 ++ n :: l2) ->
    path (store64 (store64 m (pred_of m n + 16) (succ_of m n)) (succ_of m n + 8) (pred_of m n))
         x (l1 ++ l2) y.
Proof.
  set (pn := pred_of m n). set (sn := succ_of m n).
  assert (Hpn : 0 <= pn < 2 ^ 64) by apply pred_of_range.
  assert (Hsn : 0 <= sn < 2 ^ 64) by apply succ_of_range.
  set (m' := store64 (store64 m (pn + 16) sn) (sn + 8) pn).
  induction l1 as [|a l1 IH]; intros x Hp Hnd Hy Hsep.
  - cbn [app] in *. cbn [path] in Hp. destruct Hp as [[Hxn Hnx] Hp].
    assert (Epn : pn = x) by exact Hnx.
    assert (Hxy : x = y \/ apart x y) by (apply Hsep; [left | right; left]; reflexivity).
    destruct l2 as [|s l2]; cbn [path] in *.
    + destruct Hp as [Hny Hyn].
      assert (Esn : sn = y) by exact Hny.
      unfold m'. rewrite Epn, Esn. split.
      * rewrite succ_of_store_pred by (destruct Hxy; [left; congruence | right; apply apart_sym; assumption]).
        rewrite succ_of_store_succ. apply wrap64_small. lia.
      * rewrite pred_of_store_pred. apply wrap64_small. lia.
    + destruct Hp as [[Hns Hsn'] Hp].
      assert (Esn : sn = s) by exact Hns.
      assert (Hxs : apart x s).
      { destruct (Hsep x s) as [E|E]; [left; reflexivity | right; right; right; left; reflexivity | |exact E].
        exfalso. inversion Hnd as [|? ? Hnin _]. apply Hnin. right. left. symmetry. exact E. }
      unfold m'. rewrite Epn, Esn. split; [split|].
      * rewrite succ_of_store_pred by (right; apply apart_sym; exact Hxs).
        rewrite succ_of_store_succ. apply wrap64_small. lia.
      * rewrite pred_of_store_pred. apply wrap64_small. lia.
      * apply (path_frame m); [exact Hp | |].
        -- intros u Hu.
           assert (Hsu : s = u \/ apart s u)
             by (apply Hsep; [|right; right; right]; [right; right; right; left; reflexivity | exact Hu]).
           assert (Hxu : apart x u).
           { destruct (Hsep x u) as [E|E]; [left; reflexivity | right; right; right; exact Hu | | exact E].
             exfalso. inversion Hnd as [|? ? Hnin _]. apply Hnin. right. rewrite E. exact Hu. }
           rewrite succ_of_store_pred by exact Hsu.
           apply succ_of_store_succ_other. exact Hxu.
        -- intros v Hv.
           assert (Hvin : In v (l2 ++ [y])) by exact Hv.
           assert (Hsv : apart s v).
           { apply in_app_or in Hvin. destruct Hvin as [Hvin|[<-|[]]].
             - destruct (Hsep s v) as [E|E];
                 [right; right; right; left; reflexivity | right; right; right; right; exact Hvin | | exact E].
               exfalso. inversion Hnd as [|? ? _ Hnd1]. inversion Hnd1 as [|? ? _ Hnd2].
               inversion Hnd2 as [|? ? Hnin _]. apply Hnin. rewrite E. exact Hvin.
             - destruct (Hsep s y) as [E|E];
                 [right; right; right; left; reflexivity | right; left; reflexivity | | exact E].
               exfalso. apply Hy. right. left. exact E. }
           assert (Hxv : x = v \/ apart x v).
           { apply Hsep; [left; reflexivity|].
             apply in_app_or in Hvin. destruct Hvin as [Hvin|[<-|[]]].
             - right. right. right. right. exact Hvin.
             - right. left. reflexivity. }
           rewrite pred_of_store_pred_other by exact Hsv.
           apply pred_of_store_succ. exact Hxv.
  - cbn [app] in *. cbn [path] in Hp. destruct Hp as [[Hxa Hax] Hp].
    assert (Hnd' : NoDup (a :: l1 ++ n :: l2)) by (inversion Hnd; assumption).
    assert (Hy' : ~ In y (l1 ++ n :: l2)) by (intros H; apply Hy; right; exact H).
    assert (Hsep' : sep (a :: y :: l1 ++ n :: l2)).
    { eapply sep_incl; [exact Hsep|]. intros z Hz. right.
      destruct Hz as [<-|[<-|Hz]].
      - right. left. reflexivity.
      - left. reflexivity.
      - right. right. exact Hz. }
    specialize (IH a Hp Hnd' Hy' Hsep'). cbn [path]. split; [split|exact IH].
    + (* succ x = a *)
      pose proof (path_pred_in _ _ _ _ _ _ Hp) as Hpin. fold pn in Hpin.
      pose proof (path_succ_in _ _ _ _ _ _ Hp) as Hsin. fold sn in Hsin.
      assert (Hpx : apart pn x).
      { destruct (Hsep pn x) as [E|E]; [| left; reflexivity | | exact E].
        - right. right. destruct Hpin as [<-|Hpin]; [left; reflexivity|].
          right. apply in_or_app. left. exact Hpin.
        - exfalso. inversion Hnd as [|? ? Hnin _]. apply Hnin. rewrite <- E.
          destruct Hpin as [<-|Hpin]; [left; reflexivity|].
          right. apply in_or_app. left. exact Hpin. }
      assert (Hsx : sn = x \/ apart sn x).
      { apply Hsep; [|left; reflexivity].
        apply in_app_or in Hsin. destruct Hsin as [Hsin|[<-|[]]].
        - right. right. right. apply in_or_app. right. right. exact Hsin.
        - right. left. reflexivity. }
      unfold m'. rewrite succ_of_store_pred by exact Hsx.
      rewrite succ_of_store_succ_other by exact Hpx. exact Hxa.
    + (* pred a = x *)
      pose proof (path_pred_in _ _ _ _ _ _ Hp) as Hpin. fold pn in Hpin.
      pose proof (path_succ_in _ _ _ _ _ _ Hp) as Hsin. fold sn in Hsin.
      assert (Hpa : pn = a \/ apart pn a).
      { apply Hsep; [|right; right; left; reflexivity].
        right. right. destruct Hpin as [<-|Hpin]; [left; reflexivity|].
        right. apply in_or_app. left. exact Hpin. }
      assert (Hsa : apart sn a).
      { apply in_app_or in Hsin. destruct Hsin as [Hsin|[Ey|[]]].
        - destruct (Hsep sn a) as [E|E]; [| right; right; left; reflexivity | | exact E].
          + right. right. right. apply in_or_app. right. right. exact Hsin.
          + exfalso. inversion Hnd' as [|? ? Hnin _]. apply Hnin. rewrite <- E.
            apply in_or_app. right. right. exact Hsin.
        - destruct (Hsep sn a) as [E|E]; [right; left; exact Ey | right; right; left; reflexivity | | exact E].
          exfalso. apply Hy. left. congruence. }
      unfold m'. rewrite pred_of_store_pred_other by exact Hsa.
      rewrite pred_of_store_succ by exact Hpa. exact Hax.
Qed.

(** Linking a node at the front. *)
Lemma path_link_front (m : mem) (h b : Z) (l : list Z) :
  path m h l h -> NoDup l -> ~ In h l -> sep (h :: l) ->
  (forall u, In u (h :: l) -> apart b u) ->
  0 <= h < 2 ^ 64 -> 0 <= b < 2 ^ 64 ->
  path (link_front m h b) h (b :: l) h.
Proof.
  intros Hp Hnd Hh Hsep Hb Rh Rb.
  assert (Hbh : apart b h) by (apply Hb; left; reflexivity).
  rewrite link_front_stores by assumption.
  set (f := succ_of m h).
  assert (Rf : 0 <= f < 2 ^ 64) by apply succ_of_range.
  assert (Ef : f = hd h l) by (apply path_first; exact Hp).
  clearbody f.
  assert (Hfin : In f (h :: l)).
  { rewrite Ef. destruct l; cbn; [left | right; left]; reflexivity. }
  assert (Hfh : f = h \/ apart f h) by (apply Hsep; [exact Hfin | left; reflexivity]).
  assert (Hbf : apart b f) by (apply Hb; exact Hfin).
  cbn [path]. split; [split|].
  - rewrite succ_of_store_pred by exact Hfh.
    rewrite succ_of_store_succ. apply wrap64_small. lia.
  - rewrite pred_of_store_pred_other by (apply apart_sym; exact Hbf).
    rewrite pred_of_store_succ by (right; apply apart_sym; exact Hbh).
    rewrite pred_of_store_succ by (left; reflexivity).
    rewrite pred_of_store_pred. apply wrap64_small. lia.
  - destruct l as [|n l']; cbn [path hd] in *.
    + subst f. split.
      * rewrite succ_of_store_pred by (right; apply apart_sym; exact Hbh).
        rewrite succ_of_store_succ_other by (apply apart_sym; exact Hbh).
        rewrite succ_of_store_succ. apply wrap64_small. lia.
      * rewrite pred_of_store_pred. apply wrap64_small. lia.
    + destruct Hp as [[Hhn Hnh] Hp].
      assert (En : f = n) by exact Ef. clear Ef.
      assert (Hnh' : apart n h).
      { destruct (Hsep n h) as [E|E]; [right; left; reflexivity | left; reflexivity | | exact E].
        exfalso. apply Hh. left. exact E. }
      rewrite En in *. split; [split|].
      * rewrite succ_of_store_pred by (right; apply apart_sym; exact Hbf).
        rewrite succ_of_store_succ_other by (apply apart_sym; exact Hbh).
        rewrite succ_of_store_succ. apply wrap64_small. lia.
      * rewrite pred_of_store_pred. apply wrap64_small. lia.
      * apply (path_frame m); [exact Hp | |].
        -- intros u Hu.
           assert (Hnu : n = u \/ apart n u) by (apply Hsep; [right; left; reflexivity | right; exact Hu]).
           assert (Hhu : apart h u).
           { destruct (Hsep h u) as [E|E]; [left; reflexivity | right; exact Hu | | exact E].
             exfalso. apply Hh. rewrite E. exact Hu. }
           assert (Hbu : apart b u) by (apply Hb; right; exact Hu).
           rewrite succ_of_store_pred by exact Hnu.
           rewrite succ_of_store_succ_other by exact Hhu.
           rewrite succ_of_store_succ_other by exact Hbu.
           apply succ_of_store_pred. right. exact Hbu.
        -- intros v Hv.
           assert (Hvin : In v (h :: n :: l')).
           { apply in_app_or in Hv. destruct Hv as [Hv|[<-|[]]]; [right; right; exact Hv | left; reflexivity]. }
           assert (Hnv : apart n v).
           { destruct (Hsep n v) as [E|E]; [right; left; reflexivity | exact Hvin | | exact E].
             exfalso. apply in_app_or in Hv. destruct Hv as [Hv|[Ev|[]]].
             - inversion Hnd as [|? ? Hnin _]. apply Hnin. rewrite E. exact Hv.
             - apply Hh. left. congruence. }
           assert (Hhv : h = v \/ apart h v) by (apply Hsep; [left; reflexivity | exact Hvin]).
           assert (Hbv : apart b v) by (apply Hb; exact Hvin).
           rewrite pred_of_store_pred_other by exact Hnv.
           rewrite pred_of_store_succ by exact Hhv.
           rewrite pred_of_store_succ by (right; exact Hbv).
           apply pred_of_store_pred_other. exact Hbv.
Qed.

(** The two stores of [unlink] for a node of a list. *)
Lemma unlink_stores (m : mem) (n : Z) :
  apart (pred_of m n) n ->
  unlink m n =
  store64 (store64 m (pred_of m n + 16) (succ_of m n)) (succ_of m n + 8) (pred_of m n).
Proof.
  intros H. unfold unlink. cbv zeta.
  change Segregated.succ_offset with 16. change Segregated.pred_offset with 8.
  rewrite succ_of_store_succ_other by exact H.
  rewrite pred_of_store_succ by (right; exact H). reflexivity.
Qed.

(** * Stores that do not overlap *)

Lemma store_bytes_comm (w w' : Z) (m : mem) (a v a' v' : Z) :
  a + w <= a' \/ a' + w' <= a ->
  store_bytes w (store_bytes w' m a' v') a v = store_bytes w' (store_bytes w m a v) a' v'.
Proof.
  intros H. apply functional_extensionality. intros x. unfold store_bytes.
  destruct (a <=? x) eqn:E1, (x <? a + w) eqn:E2, (a' <=? x) eqn:E3, (x <? a' + w') eqn:E4;
    cbn [andb]; try reflexivity.
  apply Z.leb_le in E1, E3. apply Z.ltb_lt in E2, E4. lia.
Qed.

Lemma store64_set_tags (m : mem) (x v a sz : Z) (al : bool) :
  x + 8 <= a \/ a + 4 <= x ->
  x + 8 <= a + sz - 4 \/ a + sz <= x ->
  store64 (set_tags m a sz al) x v = set_tags (store64 m x v) a sz al.
Proof.
  intros H1 H2. unfold set_tags, store64, store32.
  rewrite (store_bytes_comm 8 4 _ x v (a + sz - 4)) by lia.
  rewrite (store_bytes_comm 8 4 _ x v a) by lia.
  reflexivity.
Qed.

Lemma load64_set_tags (m : mem) (x a sz : Z) (al : bool) :
  x + 8 <= a \/ a + 4 <= x ->
  x + 8 <= a + sz - 4 \/ a + sz <= x ->
  load64 (set_tags m a sz al) x = load64 m x.
Proof.
  intros H1 H2. unfold set_tags.
  rewrite load64_store32_other by lia. apply load64_store32_other. lia.
Qed.

Lemma unlink_set_tags (m : mem) (n a sz : Z) (al : bool) :
  off_tags n a sz -> off_tags (pred_of m n) a sz -> off_tags (succ_of m n) a sz ->
  apart (pred_of m n) n ->
  unlink (set_tags m a sz al) n = set_tags (unlink m n) a sz al.
Proof.
  intros [N1 N2] [P1 P2] [S1 S2] Hap.
  assert (Ep : pred_of (set_tags m a sz al) n = pred_of m n).
  { unfold pred_of. change Segregated.pred_offset with 8. apply load64_set_tags; lia. }
  assert (Es : succ_of (set_tags m a sz al) n = succ_of m n).
  { unfold succ_of. change Segregated.succ_offset with 16. apply load64_set_tags; lia. }
  rewrite (unlink_stores m n Hap).
  rewrite unlink_stores by (rewrite Ep; exact Hap).
  rewrite Ep, Es.
  rewrite store64_set_tags by lia.
  rewrite store64_set_tags by lia.
  reflexivity.
Qed.

(** * Heads and nodes *)

Lemma only_fields_links (m m' : mem) (L : list Z) (u : Z) :
  only_fields m m' L -> (forall q, In q L -> apart q u) ->
  pred_of m' u = pred_of m u /\ succ_of m' u = succ_of m u.
Proof.
  intros H Hap. unfold pred_of, succ_of, load64.
  change Segregated.pred_offset with 8. change Segregated.succ_offset with 16.
  split; apply load_bytes_ext; intros x Hx; apply H; intros q Hq;
    specialize (Hap q Hq); unfold apart, Segregated.block_size in Hap;
    change (Z.of_nat 8) with 8 in Hx; lia.
Qed.

Lemma only_fields_store (m : mem) (q off v : Z) (L : list Z) :
  In q L -> 8 <= off <= 16 -> only_fields m (store64 m (q + off) v) L.
Proof.
  intros Hq Ho x Hx. specialize (Hx q Hq). apply get_byte_store_out. lia.
Qed.

Lemma only_fields_trans (m1 m2 m3 : mem) (L : list Z) :
  only_fields m1 m2 L -> only_fields m2 m3 L -> only_fields m1 m3 L.
Proof. intros H1 H2 x Hx. rewrite H2, H1 by assumption. reflexivity. Qed.

Lemma only_fields_unlink (m : mem) (n : Z) :
  apart (pred_of m n) n ->
  only_fields m (unlink m n) [pred_of m n; succ_of m n].
Proof.
  intros H. rewrite unlink_stores by exact H.
  eapply only_fields_trans; apply only_fields_store; cbn; auto; lia.
Qed.

Lemma only_fields_link_front (m : mem) (h b : Z) :
  0 <= h < 2 ^ 64 -> apart b h ->
  only_fields m (link_front m h b) [b; h; succ_of m h].
Proof.
  intros Hh H. rewrite link_front_stores by assumption.
  eapply only_fields_trans; [eapply only_fields_trans; [eapply only_fields_trans|]|];
    apply only_fields_store; cbn; auto; lia.
Qed.

Section SegregatedEntities.
Variable s : Segregated.st.
Variable bs : list blk.
Variable fl : Z -> list Z.
Variable ex : list Z.
Hypothesis Hinv : seg_inv s bs fl ex.

Lemma seg_entity_facts (u : Z) :
  entity s bs u ->
  mem_start_brk (heap s) <= u /\ u + 32 <= mem_brk (heap s) - 8 /\ 0 <= u < 2 ^ 64 /\
  valid (heap s) (u + 8) 16 = true /\
  valid (heap s) (u + 8) 8 = true /\ valid (heap s) (u + 16) 8 = true.
Proof.
  pose proof (seg_heap_extent s bs fl ex Hinv) as He.
  intros [(i & Hi & ->)|(b & Hb & <-)].
  - destruct (seg_head_facts s bs fl ex Hinv i Hi) as (H1 & H2 & H3 & H4).
    repeat split; try lia; try assumption; apply valid_intro; lia.
  - destruct (seg_block_facts s bs fl ex Hinv b (or_intror Hb)) as (H1 & H2 & H3 & H4 & _).
    repeat split; try lia; apply valid_intro; lia.
Qed.

Lemma seg_entity_sep (u v : Z) :
  entity s bs u -> entity s bs v -> u = v \/ apart u v.
Proof.
  pose proof (seg_heap_extent s bs fl ex Hinv) as He.
  pose proof (si_chain _ _ _ _ Hinv) as Hc.
  unfold apart, Segregated.block_size.
  intros [(i & Hi & ->)|(b & Hb & <-)] [(j & Hj & ->)|(b' & Hb' & <-)].
  - unfold head_of, Segregated.block_size. lia.
  - pose proof (seg_tail_addr s bs fl ex Hinv b' Hb').
    destruct (seg_head_facts s bs fl ex Hinv i Hi) as (H1 & H2 & _). lia.
  - pose proof (seg_tail_addr s bs fl ex Hinv b Hb).
    destruct (seg_head_facts s bs fl ex Hinv j Hj) as (H1 & H2 & _). lia.
  - destruct (seg_block_facts s bs fl ex Hinv b (or_intror Hb)) as (_ & _ & H3 & _).
    destruct (seg_block_facts s bs fl ex Hinv b' (or_intror Hb')) as (_ & _ & H3' & _).
    destruct (chain_disjoint _ _ _ _ _ Hc (or_intror Hb) (or_intror Hb')) as [->|Hd];
      [left; reflexivity | right; lia].
Qed.

Lemma seg_head_entity (i : Z) : 0 <= i < 16 -> entity s bs (head_of s i).
Proof. intros Hi. left. exists i. split; [exact Hi | reflexivity]. Qed.

Lemma seg_node_entity (i n : Z) : 0 <= i < 16 -> In n (fl i) -> entity s bs n.
Proof.
  intros Hi Hn. destruct (seg_node_block s bs fl ex Hinv i n Hi Hn) as (b & Hb & Ha & _).
  right. exists b. split; assumption.
Qed.

Lemma seg_node_free_entity (i n : Z) : 0 <= i < 16 -> In n (fl i) -> free_entity s bs n.
Proof.
  intros Hi Hn. destruct (seg_node_block s bs fl ex Hinv i n Hi Hn) as (b & Hb & Ha & Hf & _).
  right. exists b. repeat split; assumption.
Qed.

Lemma free_entity_entity (u : Z) : free_entity s bs u -> entity s bs u.
Proof.
  intros [H|(b & Hb & Ha & _)]; [left; exact H | right; exists b; split; assumption].
Qed.

Lemma seg_block_unique (a sz sz' : Z) (al al' : bool) :
  In (mkBlk a sz al) bs -> In (mkBlk a sz' al') bs -> sz = sz' /\ al = al'.
Proof.
  intros H H'. pose proof (si_chain _ _ _ _ Hinv) as Hc.
  pose proof (chain_addr_inj _ _ _ _ _ Hc (or_intror H) (or_intror H') eq_refl) as E.
  injection E as -> ->. split; reflexivity.
Qed.

Lemma seg_head_not_block (i : Z) (b : blk) :
  0 <= i < 16 -> In b bs -> apart (b_addr b) (head_of s i).
Proof.
  intros Hi Hb. pose proof (seg_tail_addr s bs fl ex Hinv b Hb).
  destruct (seg_head_facts s bs fl ex Hinv i Hi) as (H1 & H2 & _).
  unfold apart, Segregated.block_size. lia.
Qed.

Lemma seg_head_not_node (i j : Z) :
  0 <= i < 16 -> 0 <= j < 16 -> ~ In (head_of s i) (fl j).
Proof.
  intros Hi Hj Hin.
  destruct (seg_node_block s bs fl ex Hinv j _ Hj Hin) as (b & Hb & Ha & _).
  pose proof (seg_head_not_block i b Hi Hb) as H. rewrite Ha in H.
  apply apart_neq in H. congruence.
Qed.

Lemma seg_class_unique (i j n : Z) :
  0 <= i < 16 -> 0 <= j < 16 -> In n (fl i) -> In n (fl j) -> i = j.
Proof.
  intros Hi Hj Hn Hn'.
  destruct (si_nodes _ _ _ _ Hinv i n Hi Hn) as (sz & Hb & Hc & _).
  destruct (si_nodes _ _ _ _ Hinv j n Hj Hn') as (sz' & Hb' & Hc' & _).
  destruct (seg_block_unique _ _ _ _ _ Hb Hb') as [-> _]. congruence.
Qed.

Lemma seg_class_sep (i : Z) (extra : list Z) :
  0 <= i < 16 -> (forall x, In x extra -> entity s bs x) ->
  sep (extra ++ head_of s i :: fl i).
Proof.
  intros Hi Hx u v Hu Hv. apply seg_entity_sep.
  - apply in_app_or in Hu. destruct Hu as [Hu|[<-|Hu]];
      [apply Hx; exact Hu | apply seg_head_entity; exact Hi | eapply seg_node_entity; eassumption].
  - apply in_app_or in Hv. destruct Hv as [Hv|[<-|Hv]];
      [apply Hx; exact Hv | apply seg_head_entity; exact Hi | eapply seg_node_entity; eassumption].
Qed.

Lemma seg_class_NoDup (i : Z) : 0 <= i < 16 -> NoDup (head_of s i :: fl i).
Proof.
  intros Hi. constructor.
  - apply seg_head_not_node; assumption.
  - apply (si_lists _ _ _ _ Hinv i Hi).
Qed.

(** The link fields of a record lie off the tags of every block and off
    the epilogue. *)
Lemma seg_entity_off_tags (q : Z) (a1 a2 : blk) :
  entity s bs q -> In a1 (seg_prologue s :: bs) -> In a2 (seg_prologue s :: bs) ->
  off_tags q (b_addr a1) (b_addr a2 + b_size a2 - b_addr a1).
Proof.
  intros Hq H1 H2. unfold off_tags.
  pose proof (si_chain _ _ _ _ Hinv) as Hc.
  destruct (seg_block_facts s bs fl ex Hinv a1 H1) as (L1 & _ & S1 & _).
  destruct (seg_block_facts s bs fl ex Hinv a2 H2) as (L2 & _ & S2 & _).
  destruct Hq as [(i & Hi & ->)|(b & Hb & <-)].
  - destruct (seg_head_facts s bs fl ex Hinv i Hi) as (_ & H & _). lia.
  - destruct (seg_block_facts s bs fl ex Hinv b (or_intror Hb)) as (_ & _ & S & _).
    destruct (chain_disjoint _ _ _ _ _ Hc (or_intror Hb) H1) as [->|D1];
    destruct (chain_disjoint _ _ _ _ _ Hc (or_intror Hb) H2) as [->|D2]; lia.
Qed.

Lemma only_fields_tagged (m' : mem) (L : list Z) :
  only_fields (bytes (heap s)) m' L -> (forall q, In q L -> entity s bs q) ->
  Forall (tagged m') (seg_prologue s :: bs) /\
  load32 m' (mem_brk (heap s) - 8) = load32 (bytes (heap s)) (mem_brk (heap s) - 8).
Proof.
  intros Hof HL. split.
  - pose proof (si_tags _ _ _ _ Hinv) as Ht. rewrite Forall_forall in *.
    intros a Ha. destruct (Ht a Ha) as [T1 T2].
    split; [rewrite <- T1 | rewrite <- T2]; unfold load32;
      apply load_bytes_ext; intros x Hx; change (Z.of_nat 4) with 4 in Hx;
      apply Hof; intros q Hq;
      destruct (seg_entity_off_tags q a a (HL q Hq) Ha Ha) as [O1 O2]; lia.
  - apply load_bytes_ext. intros x Hx. change (Z.of_nat 4) with 4 in Hx.
    apply Hof. intros q Hq.
    destruct (seg_entity_facts q (HL q Hq)) as (_ & H & _). lia.
Qed.

Lemma only_fields_same_bytes (m' : mem) (L : list Z) (a : blk) :
  only_fields (bytes (heap s)) m' L -> (forall q, In q L -> free_entity s bs q) ->
  In a bs -> b_alloc a = true -> same_bytes (bytes (heap s)) m' a.
Proof.
  intros Hof HL Ha Hal x Hx. apply Hof. intros q Hq.
  pose proof (si_chain _ _ _ _ Hinv) as Hc.
  destruct (HL q Hq) as [(i & Hi & ->)|(b & Hb & <- & Hf)].
  - pose proof (seg_head_not_block i a Hi Ha) as H.
    unfold apart, Segregated.block_size in H.
    pose proof (seg_tail_addr s bs fl ex Hinv a Ha).
    destruct (seg_head_facts s bs fl ex Hinv i Hi) as (_ & H2 & _). lia.
  - destruct (seg_block_facts s bs fl ex Hinv b (or_intror Hb)) as (_ & _ & S & _).
    destruct (chain_disjoint _ _ _ _ _ Hc (or_intror Hb) (or_intror Ha)) as [->|D]; [congruence | lia].
Qed.

End SegregatedEntities.

(** * The lists under the invariant *)

Lemma seg_inv_relink (s : Segregated.st) (bs : list blk) (fl fl' : Z -> list Z)
      (ex ex' : list Z) (m' : mem) (L : list Z) :
  seg_inv s bs fl ex ->
  only_fields (bytes (heap s)) m' L ->
  (forall q, In q L -> entity s bs q) ->
  (forall i, 0 <= i < 16 -> path m' (head_of s i) (fl' i) (head_of s i) /\ NoDup (fl' i)) ->
  (forall i n, 0 <= i < 16 -> In n (fl' i) ->
     exists sz, In (mkBlk n sz false) bs /\ Segregated.get_seglist_idx sz = i /\ ~ In n ex') ->
  (forall b, In b bs -> b_alloc b = false ->
     In (b_addr b) ex' \/ In (b_addr b) (fl' (Segregated.get_seglist_idx (b_size b)))) ->
  seg_inv (upd s m') bs fl' ex'.
Proof.
  intros Hinv Hof HL Hp Hn Hf.
  destruct (only_fields_tagged s bs fl ex Hinv m' L Hof HL) as [Ht He].
  destruct Hinv as [I1 I2 I3 I4 I5 I6 I7 I8 I9 I10 I11].
  constructor; cbn [upd heap globals bytes set_bytes mem_start_brk mem_brk mem_max_addr];
    try assumption.
  - change Segregated.epilogue_size with 8 in *. rewrite He. exact I8.
Qed.

Section SegregatedLists.
Variable s : Segregated.st.
Variable bs : list blk.
Variable fl : Z -> list Z.
Variable ex : list Z.
Hypothesis Hinv : seg_inv s bs fl ex.

Lemma head_of_inj (i j : Z) : head_of s i = head_of s j -> i = j.
Proof. unfold head_of, Segregated.block_size. lia. Qed.

Lemma seg_class_entity (i u : Z) :
  0 <= i < 16 -> In u (head_of s i :: fl i) -> free_entity s bs u.
Proof.
  intros Hi [<-|Hu].
  - left. exists i. split; [exact Hi | reflexivity].
  - eapply seg_node_free_entity; eassumption.
Qed.

Lemma seg_class_apart (i j u v : Z) :
  0 <= i < 16 -> 0 <= j < 16 -> i <> j ->
  In u (head_of s i :: fl i) -> In v (head_of s j :: fl j) -> apart u v.
Proof.
  intros Hi Hj Hij Hu Hv.
  destruct (seg_entity_sep s bs fl ex Hinv u v) as [E|E]; [| | |exact E].
  - apply (free_entity_entity s bs). exact (seg_class_entity i u Hi Hu).
  - apply (free_entity_entity s bs). exact (seg_class_entity j v Hj Hv).
  - exfalso. subst v. cbn [In] in Hu, Hv. destruct Hu as [Hu|Hu]; destruct Hv as [Hv|Hv].
    + apply Hij. apply head_of_inj. congruence.
    + rewrite <- Hu in Hv. exact (seg_head_not_node s bs fl ex Hinv i j Hi Hj Hv).
    + rewrite <- Hv in Hu. exact (seg_head_not_node s bs fl ex Hinv j i Hj Hi Hu).
    + apply Hij. exact (seg_class_unique s bs fl ex Hinv i j u Hi Hj Hu Hv).
Qed.

(** What [remove_from_free_list] goes through at a node. *)
Lemma seg_node_links (i n : Z) (l1 l2 : list Z) :
  0 <= i < 16 -> fl i = l1 ++ n :: l2 ->
  let m := bytes (heap s) in
  In (pred_of m n) (head_of s i :: l1) /\ In (succ_of m n) (l2 ++ [head_of s i]) /\
  In (pred_of m n) (head_of s i :: fl i) /\ In (succ_of m n) (head_of s i :: fl i) /\
  apart (pred_of m n) n.
Proof.
  intros Hi E m.
  destruct (si_lists _ _ _ _ Hinv i Hi) as [Hp Hnd]. rewrite E in Hp.
  pose proof (path_pred_in _ _ _ _ _ _ Hp) as H1.
  pose proof (path_succ_in _ _ _ _ _ _ Hp) as H2.
  fold m in H1, H2.
  assert (H3 : In (pred_of m n) (head_of s i :: fl i)).
  { rewrite E. destruct H1 as [H1|H1]; [left; exact H1 | right; apply in_or_app; left; exact H1]. }
  assert (H4 : In (succ_of m n) (head_of s i :: fl i)).
  { rewrite E. apply in_app_or in H2. destruct H2 as [H2|[H2|[]]];
      [right; apply in_or_app; right; right; exact H2 | left; exact H2]. }
  repeat split; try assumption.
  assert (Hn : In n (fl i)) by (rewrite E; apply in_or_app; right; left; reflexivity).
  destruct (seg_entity_sep s bs fl ex Hinv (pred_of m n) n) as [Eq|Ap]; [| | |exact Ap].
  - apply (free_entity_entity s bs). exact (seg_class_entity i _ Hi H3).
  - exact (seg_node_entity s bs fl ex Hinv i n Hi Hn).
  - exfalso. pose proof (seg_class_NoDup s bs fl ex Hinv i Hi) as Hnd'. rewrite E in Hnd'.
    rewrite Eq in H1. destruct H1 as [H1|H1].
    + inversion Hnd' as [|? ? Hnin _]. apply Hnin. rewrite H1. apply in_or_app. right. left. reflexivity.
    + inversion Hnd' as [|? ? _ Hnd'']. apply NoDup_remove_2 in Hnd''.
      apply Hnd''. apply in_or_app. left. exact H1.
Qed.

Lemma seg_unlink_lists (i n : Z) (l1 l2 : list Z) :
  0 <= i < 16 -> fl i = l1 ++ n :: l2 ->
  let m := bytes (heap s) in
  Segregated.remove_from_free_list n s = Ret tt (upd s (unlink m n)) /\
  seg_inv (upd s (unlink m n)) bs (set_list fl i (l1 ++ l2)) (n :: ex) /\
  (forall a, In a bs -> b_alloc a = true -> same_bytes m (unlink m n) a).
Proof.
  intros Hi E m.
  assert (Hn : In n (fl i)) by (rewrite E; apply in_or_app; right; left; reflexivity).
  destruct (seg_node_links i n l1 l2 Hi E) as (P1 & S1 & P2 & S2 & Hap). fold m in P1, S1, P2, S2, Hap.
  pose proof (seg_class_entity i _ Hi P2) as FP.
  pose proof (seg_class_entity i _ Hi S2) as FS.
  pose proof (free_entity_entity s bs _ FP) as EP.
  pose proof (free_entity_entity s bs _ FS) as ES.
  pose proof (seg_node_entity s bs fl ex Hinv i n Hi Hn) as EN.
  destruct (seg_entity_facts s bs fl ex Hinv _ EP) as (_ & _ & _ & _ & _ & VP).
  destruct (seg_entity_facts s bs fl ex Hinv _ ES) as (_ & _ & _ & _ & VS & _).
  destruct (seg_entity_facts s bs fl ex Hinv _ EN) as (_ & _ & _ & VN & _ & _).
  pose proof (only_fields_unlink m n Hap) as Hof.
  assert (HL : forall q, In q [pred_of m n; succ_of m n] -> free_entity s bs q).
  { intros q [<-|[<-|[]]]; assumption. }
  split; [|split].
  - apply remove_from_free_list_ok; fold m; try assumption.
    change Segregated.succ_offset with 16 in *.
    rewrite succ_of_store_succ_other by exact Hap. exact VS.
  - pose proof (seg_class_NoDup s bs fl ex Hinv i Hi) as Hnd. rewrite E in Hnd.
    assert (Hnd2 : NoDup (l1 ++ n :: l2)) by (inversion Hnd; assumption).
    apply (seg_inv_relink s bs fl _ ex _ _ [pred_of m n; succ_of m n] Hinv Hof).
    + intros q Hq. apply (free_entity_entity s bs). apply HL. exact Hq.
    + intros j Hj. unfold set_list. destruct (j =? i) eqn:Eji.
      * apply Z.eqb_eq in Eji. subst j. split; [|eapply NoDup_remove_1; exact Hnd2].
        rewrite (unlink_stores m n Hap).
        apply path_unlink_stores.
        -- destruct (si_lists _ _ _ _ Hinv i Hi) as [Hp _]. rewrite E in Hp. exact Hp.
        -- exact Hnd.
        -- rewrite <- E. exact (seg_head_not_node s bs fl ex Hinv i i Hi Hi).
        -- rewrite <- E. apply (seg_class_sep s bs fl ex Hinv i [head_of s i] Hi).
           intros x [<-|[]]. exact (seg_head_entity s bs i Hi).
      * apply Z.eqb_neq in Eji. destruct (si_lists _ _ _ _ Hinv j Hj) as [Hp Hndj].
        split; [|exact Hndj].
        apply (path_frame m); [exact Hp | |].
        -- intros u Hu. apply (only_fields_links m _ _ u Hof).
           intros q [<-|[<-|[]]]; apply (seg_class_apart i j); auto.
        -- intros v Hv. apply (only_fields_links m _ _ v Hof).
           assert (Hv' : In v (head_of s j :: fl j)).
           { apply in_app_or in Hv. destruct Hv as [Hv|[<-|[]]]; [right; exact Hv | left; reflexivity]. }
           intros q [<-|[<-|[]]]; apply (seg_class_apart i j); auto.
    + intros j x Hj Hx. unfold set_list in Hx. destruct (j =? i) eqn:Eji.
      * apply Z.eqb_eq in Eji. subst j.
        assert (Hx' : In x (fl i)).
        { rewrite E. apply in_app_or in Hx. apply in_or_app.
          destruct Hx; [left | right; right]; assumption. }
        destruct (si_nodes _ _ _ _ Hinv i x Hi Hx') as (sz & Hb & Hc & Hex).
        exists sz. repeat split; try assumption.
        intros [<-|Hin]; [|contradiction].
        apply NoDup_remove_2 in Hnd2. contradiction.
      * apply Z.eqb_neq in Eji.
        destruct (si_nodes _ _ _ _ Hinv j x Hj Hx) as (sz & Hb & Hc & Hex).
        exists sz. repeat split; try assumption.
        intros [<-|Hin]; [|contradiction].
        apply Eji. exact (seg_class_unique s bs fl ex Hinv j i n Hj Hi Hx Hn).
    + intros b Hb Hf. destruct (Z.eq_dec (b_addr b) n) as [Eb|Nb]; [left; left; congruence|].
      destruct (si_free _ _ _ _ Hinv b Hb Hf) as [Hex|Hl]; [left; right; exact Hex|].
      right. unfold set_list. destruct (_ =? i) eqn:Eji; [|exact Hl].
      apply Z.eqb_eq in Eji. rewrite Eji, E in Hl.
      apply in_app_or in Hl. apply in_or_app.
      destruct Hl as [Hl|[Hl|Hl]]; [left; exact Hl | congruence | right; exact Hl].
  - intros a Ha Hal. eapply only_fields_same_bytes; eassumption.
Qed.

Lemma seg_unlink_spec (i n : Z) :
  0 <= i < 16 -> In n (fl i) ->
  let m := bytes (heap s) in
  Segregated.remove_from_free_list n s = Ret tt (upd s (unlink m n)) /\
  (exists fl', seg_inv (upd s (unlink m n)) bs fl' (n :: ex)) /\
  (forall a, In a bs -> b_alloc a = true -> same_bytes m (unlink m n) a).
Proof.
  intros Hi Hn m.
  destruct (in_split _ _ Hn) as (l1 & l2 & E).
  destruct (seg_unlink_lists i n l1 l2 Hi E) as (H1 & H2 & H3).
  split; [exact H1|]. split; [|exact H3].
  exists (set_list fl i (l1 ++ l2)). exact H2.
Qed.

(** [remove_from_free_list] once the tags of a block that covers a range
    of blocks have been written. *)
Lemma seg_unlink_retagged (i n : Z) (a1 a2 : blk) (al : bool) :
  0 <= i < 16 -> In n (fl i) ->
  In a1 (seg_prologue s :: bs) -> In a2 (seg_prologue s :: bs) ->
  let m := bytes (heap s) in
  let sz := b_addr a2 + b_size a2 - b_addr a1 in
  Segregated.remove_from_free_list n (upd s (set_tags m (b_addr a1) sz al)) =
  Ret tt (upd s (set_tags (unlink m n) (b_addr a1) sz al)).
Proof.
  intros Hi Hn H1 H2 m sz.
  destruct (in_split _ _ Hn) as (l1 & l2 & E).
  destruct (seg_node_links i n l1 l2 Hi E) as (_ & _ & P2 & S2 & Hap). fold m in P2, S2, Hap.
  pose proof (free_entity_entity s bs _ (seg_class_entity i _ Hi P2)) as EP.
  pose proof (free_entity_entity s bs _ (seg_class_entity i _ Hi S2)) as ES.
  pose proof (seg_node_entity s bs fl ex Hinv i n Hi Hn) as EN.
  destruct (seg_entity_facts s bs fl ex Hinv _ EP) as (_ & _ & _ & _ & _ & VP).
  destruct (seg_entity_facts s bs fl ex Hinv _ ES) as (_ & _ & _ & _ & VS & _).
  destruct (seg_entity_facts s bs fl ex Hinv _ EN) as (_ & _ & _ & VN & _ & _).
  pose proof (seg_entity_off_tags s bs fl ex Hinv _ a1 a2 EP H1 H2) as OP.
  pose proof (seg_entity_off_tags s bs fl ex Hinv _ a1 a2 ES H1 H2) as OS.
  pose proof (seg_entity_off_tags s bs fl ex Hinv _ a1 a2 EN H1 H2) as ON.
  fold sz in OP, OS, ON.
  assert (Ep : pred_of (set_tags m (b_addr a1) sz al) n = pred_of m n).
  { destruct ON as [N1 N2]. unfold pred_of. change Segregated.pred_offset with 8.
    apply load64_set_tags; lia. }
  assert (Es : succ_of (set_tags m (b_addr a1) sz al) n = succ_of m n).
  { destruct ON as [N1 N2]. unfold succ_of. change Segregated.succ_offset with 16.
    apply load64_set_tags; lia. }
  rewrite <- (unlink_set_tags m n (b_addr a1) sz al ON OP OS Hap).
  rewrite remove_from_free_list_ok.
  - rewrite upd_upd, bytes_upd. reflexivity.
  - rewrite valid_upd. exact VN.
  - rewrite valid_upd, bytes_upd, Ep. exact VP.
  - rewrite valid_upd, bytes_upd, Ep, Es.
    change Segregated.succ_offset with 16.
    rewrite succ_of_store_succ_other by exact Hap. rewrite Es. exact VS.
Qed.

End SegregatedLists.

Lemma seg_idx_range (sz : Z) : 0 < sz < 2 ^ 32 -> 0 <= Segregated.get_seglist_idx sz < 16.
Proof. intros H. destruct (get_seglist_idx_classes sz H) as [H1 _]. lia. Qed.

Lemma seg_link_lists (s : Segregated.st) (bs : list blk) (fl : Z -> list Z) (ex ex' : list Z)
      (b sz : Z) :
  seg_inv s bs fl ex ->
  In (mkBlk b sz false) bs -> In b ex ->
  (forall x, In x ex' <-> In x ex /\ x <> b) ->
  let m := bytes (heap s) in
  let i := Segregated.get_seglist_idx sz in
  let h := head_of s i in
  Segregated.insert_free_block b s = Ret tt (upd s (link_front m h b)) /\
  seg_inv (upd s (link_front m h b)) bs (set_list fl i (b :: fl i)) ex' /\
  (forall a, In a bs -> b_alloc a = true -> same_bytes m (link_front m h b) a).
Proof.
  intros Hinv Hb Hbex Hex' m i h.
  destruct (seg_block_facts s bs fl ex Hinv _ (or_intror Hb))
    as (B1 & B2 & B3 & B4 & B5 & B6 & B7 & B8 & B9). cbn [b_addr b_size] in *.
  destruct (seg_block_read s bs fl ex Hinv _ (or_intror Hb)) as (Rs & _). cbn [b_addr b_size] in Rs.
  assert (Hi : 0 <= i < 16) by (apply seg_idx_range; lia).
  assert (EB : entity s bs b) by (right; exists (mkBlk b sz false); split; [exact Hb | reflexivity]).
  assert (FB : free_entity s bs b)
    by (right; exists (mkBlk b sz false); repeat split; [exact Hb]).
  pose proof (seg_head_entity s bs i Hi) as EH. fold h in EH.
  destruct (seg_entity_facts s bs fl ex Hinv _ EH) as (_ & _ & Rh & _ & _ & VH).
  destruct (seg_entity_facts s bs fl ex Hinv _ EB) as (_ & _ & Rb & _ & _ & _).
  destruct (si_lists _ _ _ _ Hinv i Hi) as [Hp Hnd]. fold m h in Hp.
  set (f := succ_of m h).
  assert (Hfin : In f (h :: fl i)).
  { unfold f. rewrite (path_first _ _ _ _ Hp). destruct (fl i); cbn; [left | right; left]; reflexivity. }
  pose proof (seg_class_entity s bs fl ex Hinv i f Hi Hfin) as FF.
  pose proof (free_entity_entity s bs _ FF) as EF.
  destruct (seg_entity_facts s bs fl ex Hinv _ EF) as (_ & _ & Rf & _ & VF & _).
  assert (Hbn : forall j u, 0 <= j < 16 -> In u (head_of s j :: fl j) -> apart b u).
  { intros j u Hj Hu.
    destruct (seg_entity_sep s bs fl ex Hinv b u EB) as [E|E]; [| |exact E].
    - apply (free_entity_entity s bs). exact (seg_class_entity s bs fl ex Hinv j u Hj Hu).
    - exfalso. subst u. destruct Hu as [Hu|Hu].
      + pose proof (seg_head_not_block s bs fl ex Hinv j _ Hj Hb) as Hne.
        apply apart_neq in Hne. cbn in Hne. congruence.
      + destruct (si_nodes _ _ _ _ Hinv j b Hj Hu) as (_ & _ & _ & Hn). contradiction. }
  assert (Hbh : apart b h) by (apply (Hbn i); [exact Hi | left; reflexivity]).
  assert (Hbf : apart b f) by (apply (Hbn i); [exact Hi | exact Hfin]).
  pose proof (only_fields_link_front m h b Rh Hbh) as Hof. fold f in Hof.
  assert (HL : forall q, In q [b; h; f] -> free_entity s bs q).
  { intros q [<-|[<-|[<-|[]]]]; [exact FB | left; exists i; split; [exact Hi | reflexivity] | exact FF]. }
  pose proof Hbh as Hbh'. pose proof Hbf as Hbf'.
  unfold apart, Segregated.block_size in Hbh', Hbf'.
  split; [|split].
  - assert (Ech : class_head s b = h).
    { unfold class_head. rewrite Rs. reflexivity. }
    assert (E1 : succ_of (store64 m (b + 8) h) h = f).
    { unfold succ_of, Segregated.succ_offset.
      rewrite load64_store64_other by lia. reflexivity. }
    assert (E2 : pred_of (store64 (store64 m (b + 8) h) (b + 16)
                            (succ_of (store64 m (b + 8) h) h)) b = h).
    { unfold pred_of, Segregated.pred_offset.
      rewrite (load64_store64_other _ (b + 16)) by lia.
      rewrite load64_store64_same. apply wrap64_small. lia. }
    assert (E3 : succ_of (store64 (store64 (store64 m (b + 8) h) (b + 16) f) (h + 16) b) b = f).
    { unfold succ_of, Segregated.succ_offset.
      rewrite (load64_store64_other _ (h + 16)) by lia.
      rewrite load64_store64_same. apply wrap64_small. lia. }
    rewrite <- Ech. apply insert_free_block_ok; fold m; rewrite ?Ech.
    + exact B7.
    + exact B9.
    + exact VH.
    + rewrite E2. exact VH.
    + rewrite E2, E1, E3. exact VF.
  - apply (seg_inv_relink s bs fl _ ex _ _ [b; h; f] Hinv Hof).
    + intros q Hq. apply (free_entity_entity s bs). apply HL. exact Hq.
    + intros j Hj. unfold set_list. destruct (j =? i) eqn:Eji.
      * apply Z.eqb_eq in Eji. subst j. split.
        -- apply path_link_front; try assumption.
           ++ exact (seg_head_not_node s bs fl ex Hinv i i Hi Hi).
           ++ exact (seg_class_sep s bs fl ex Hinv i [] Hi (fun x (H : In x []) => match H with end)).
           ++ intros u Hu. exact (Hbn i u Hi Hu).
        -- constructor; [|exact Hnd]. intros Hin.
           destruct (si_nodes _ _ _ _ Hinv i b Hi Hin) as (_ & _ & _ & Hn). contradiction.
      * apply Z.eqb_neq in Eji. destruct (si_lists _ _ _ _ Hinv j Hj) as [Hpj Hndj].
        split; [|exact Hndj].
        assert (Hfr : forall u, In u (head_of s j :: fl j) -> forall q, In q [b; h; f] -> apart q u).
        { intros u Hu q [<-|[<-|[<-|[]]]].
          - exact (Hbn j u Hj Hu).
          - apply (seg_class_apart s bs fl ex Hinv i j); auto. left. reflexivity.
          - apply (seg_class_apart s bs fl ex Hinv i j); auto. }
        apply (path_frame m); [exact Hpj | |].
        -- intros u Hu. apply (only_fields_links m _ _ u Hof). apply Hfr. exact Hu.
        -- intros v Hv. apply (only_fields_links m _ _ v Hof). apply Hfr.
           apply in_app_or in Hv. destruct Hv as [Hv|[<-|[]]]; [right; exact Hv | left; reflexivity].
    + intros j x Hj Hx. unfold set_list in Hx. destruct (j =? i) eqn:Eji.
      * apply Z.eqb_eq in Eji. subst j. destruct Hx as [<-|Hx].
        -- exists sz. repeat split; [exact Hb|]. intros Hin. apply Hex' in Hin. destruct Hin as [_ Hin].
           apply Hin. reflexivity.
        -- destruct (si_nodes _ _ _ _ Hinv i x Hi Hx) as (sz' & Hb' & Hc & Hn).
           exists sz'. repeat split; try assumption. intros Hin. apply Hex' in Hin. tauto.
      * destruct (si_nodes _ _ _ _ Hinv j x Hj Hx) as (sz' & Hb' & Hc & Hn).
        exists sz'. repeat split; try assumption. intros Hin. apply Hex' in Hin. tauto.
    + intros a Ha Hf. destruct (Z.eq_dec (b_addr a) b) as [Ea|Na].
      * right. destruct a as [aa asz aal]. cbn in Ea, Hf. subst aa aal.
        destruct (seg_block_unique s bs fl ex Hinv _ _ _ _ _ Ha Hb) as [-> _].
        cbn [b_addr b_size]. fold i. unfold set_list. rewrite Z.eqb_refl. left. reflexivity.
      * destruct (si_free _ _ _ _ Hinv a Ha Hf) as [Hin|Hin].
        -- left. apply Hex'. split; assumption.
        -- right. unfold set_list. destruct (_ =? i) eqn:Eji; [|exact Hin].
           apply Z.eqb_eq in Eji. rewrite Eji in Hin. right. exact Hin.
  - intros a Ha Hal. eapply only_fields_same_bytes; eassumption.
Qed.

Lemma seg_link_spec (s : Segregated.st) (bs : list blk) (fl : Z -> list Z) (ex ex' : list Z)
      (b sz : Z) :
  seg_inv s bs fl ex ->
  In (mkBlk b sz false) bs -> In b ex ->
  (forall x, In x ex' <-> In x ex /\ x <> b) ->
  let m := bytes (heap s) in
  let h := head_of s (Segregated.get_seglist_idx sz) in
  Segregated.insert_free_block b s = Ret tt (upd s (link_front m h b)) /\
  (exists fl', seg_inv (upd s (link_front m h b)) bs fl' ex') /\
  (forall a, In a bs -> b_alloc a = true -> same_bytes m (link_front m h b) a).
Proof.
  intros Hinv Hb Hbex Hex' m h.
  destruct (seg_link_lists s bs fl ex ex' b sz Hinv Hb Hbex Hex') as (H1 & H2 & H3).
  split; [exact H1|]. split; [|exact H3].
  exists (set_list fl (Segregated.get_seglist_idx sz) (b :: fl (Segregated.get_seglist_idx sz))).
  exact H2.
Qed.

(** The blocks [mid], none of which is on a list, are replaced by the
    blocks [mid'] of the same range. *)
Lemma seg_inv_retag (s : Segregated.st) (bs bs' : list blk) (fl : Z -> list Z)
      (ex ex' : list Z) (m' : mem) (l1 mid mid' l2 : list blk) (c c' : Z) :
  seg_inv s bs fl ex ->
  seg_prologue s :: bs = l1 ++ mid ++ l2 ->
  seg_prologue s :: bs' = l1 ++ mid' ++ l2 ->
  chain (Segregated.heap_listp (globals s)) l1 c -> chain c mid c' ->
  chain c mid' c' ->
  Forall (fun b => Segregated.min_block_size <= b_size b) mid' ->
  Forall (tagged m') mid' ->
  agree_outside (bytes (heap s)) m' c c' ->
  (forall b, In b mid -> b_alloc b = false -> In (b_addr b) ex) ->
  (forall b, In b mid' -> b_alloc b = false -> In (b_addr b) ex') ->
  (forall x, x < c \/ c' <= x -> (In x ex' <-> In x ex)) ->
  seg_inv (upd s m') bs' fl ex'.
Proof.
  intros Hinv E E' H1 Hm Hm' Hmin' Ht' Hag Hmid Hmid' Hex.
  pose proof (seg_heap_extent s bs fl ex Hinv) as He.
  pose proof (si_chain _ _ _ _ Hinv) as Hc. rewrite E in Hc.
  pose proof (si_tags _ _ _ _ Hinv) as Ht. rewrite E in Ht.
  pose proof (si_min _ _ _ _ Hinv) as Hmn. rewrite E in Hmn.
  assert (H2 : chain c' l2 (mem_brk (heap s) - Segregated.epilogue_size)).
  { apply chain_app in Hc. destruct Hc as (c0 & Hc1 & Hc).
    apply chain_app in Hc. destruct Hc as (c0' & Hcm & Hc2).
    pose proof (chain_end_unique _ _ _ _ H1 Hc1). subst c0.
    pose proof (chain_end_unique _ _ _ _ Hm Hcm). subst c0'. assumption. }
  destruct (tiles_replace _ m' _ _ _ _ _ _ mid' _ H1 Hm H2 Ht Hm' Ht' Hag) as [Hc' Htt].
  pose proof (chain_le _ _ _ H1) as Le1. pose proof (chain_le _ _ _ Hm) as Lem.
  pose proof (chain_le _ _ _ H2) as Le2.
  change Segregated.epilogue_size with 8 in *.
  (* the blocks outside of the range *)
  assert (Hout : forall a, In a bs -> b_alloc a = false -> ~ In (b_addr a) ex ->
                 In a bs' /\ (b_addr a + b_size a <= c \/ c' <= b_addr a)).
  { intros a Ha Hf Hnx.
    assert (Ha' : In a (l1 ++ mid ++ l2)) by (rewrite <- E; right; exact Ha).
    apply in_app_or in Ha'. destruct Ha' as [Ha'|Ha'];
      [|apply in_app_or in Ha'; destruct Ha' as [Ha'|Ha']].
    - split.
      + apply (seg_in_tail s bs' a); [|left; exact Hf].
        rewrite E'. apply in_or_app. left. exact Ha'.
      + left. pose proof (chain_bounds _ _ _ _ H1 Ha'). lia.
    - exfalso. apply Hnx. apply Hmid; assumption.
    - split.
      + apply (seg_in_tail s bs' a); [|left; exact Hf].
        rewrite E'. apply in_or_app. right. apply in_or_app. right. exact Ha'.
      + right. pose proof (chain_bounds _ _ _ _ H2 Ha'). lia. }
  assert (Hnode : forall i n, 0 <= i < 16 -> In n (fl i) ->
                  exists sz, In (mkBlk n sz false) bs' /\ Segregated.get_seglist_idx sz = i /\
                             ~ In n ex /\ 32 <= sz /\ (n + sz <= c \/ c' <= n)).
  { intros i n Hi Hn. destruct (si_nodes _ _ _ _ Hinv i n Hi Hn) as (sz & Hb & Hc0 & Hx).
    destruct (Hout _ Hb eq_refl Hx) as [Hb' Hr]. cbn [b_addr b_size] in Hr.
    destruct (seg_block_facts s bs fl ex Hinv _ (or_intror Hb)) as (_ & _ & Hsz & _).
    cbn [b_size] in Hsz.
    exists sz. repeat split; try assumption; lia. }
  constructor; cbn [upd heap globals bytes set_bytes mem_start_brk mem_brk mem_max_addr];
    change (seg_prologue (upd s m')) with (seg_prologue s);
    change Segregated.epilogue_size with 8.
  - exact (si_region _ _ _ _ Hinv).
  - exact (si_base _ _ _ _ Hinv).
  - exact (si_align _ _ _ _ Hinv).
  - exact (si_heap_listp _ _ _ _ Hinv).
  - rewrite E'. exact Hc'.
  - rewrite E'. apply Forall_app in Hmn. destruct Hmn as [Hm1 Hmn].
    apply Forall_app in Hmn. destruct Hmn as [_ Hm2].
    apply Forall_app. split; [exact Hm1|]. apply Forall_app. split; assumption.
  - rewrite E'. exact Htt.
  - unfold load32. rewrite (agree_outside_load 4 _ _ _ _ _ Hag) by (cbn; lia).
    exact (si_epilogue _ _ _ _ Hinv).
  - intros i Hi. destruct (si_lists _ _ _ _ Hinv i Hi) as [Hp Hnd]. split; [|exact Hnd].
    change (head_of (upd s m') i) with (head_of s i).
    assert (Hfr : forall u, In u (head_of s i :: fl i) ->
                  pred_of m' u = pred_of (bytes (heap s)) u /\
                  succ_of m' u = succ_of (bytes (heap s)) u).
    { intros u Hu.
      assert (Hr : u + 24 <= c \/ c' <= u).
      { destruct Hu as [<-|Hu].
        - destruct (seg_head_facts s bs fl ex Hinv i Hi) as (_ & Hh & _). lia.
        - destruct (Hnode i u Hi Hu) as (sz & _ & _ & _ & Hsz & Hr). lia. }
      unfold pred_of, succ_of, load64.
      change Segregated.pred_offset with 8. change Segregated.succ_offset with 16.
      split; apply (agree_outside_load 8 _ _ _ _ _ Hag); cbn; lia. }
    apply (path_frame (bytes (heap s))); [exact Hp | |].
    + intros u Hu. apply Hfr. exact Hu.
    + intros v Hv. apply Hfr.
      apply in_app_or in Hv. destruct Hv as [Hv|[<-|[]]]; [right; exact Hv | left; reflexivity].
  - intros i n Hi Hn. destruct (Hnode i n Hi Hn) as (sz & Hb & Hc0 & Hx & Hsz & Hr).
    exists sz. repeat split; try assumption.
    intros Hin. apply Hx. apply Hex; [lia | exact Hin].
  - intros b Hb Hf.
    assert (Hb' : In b (l1 ++ mid' ++ l2)) by (rewrite <- E'; right; exact Hb).
    assert (Hside : forall a, In a l1 \/ In a l2 -> b_alloc a = false ->
                    In (b_addr a) ex' \/ In (b_addr a) (fl (Segregated.get_seglist_idx (b_size a)))).
    { intros a Ha Haf.
      assert (Hbs : In a bs).
      { apply (seg_in_tail s bs a); [|left; exact Haf].
        rewrite E. apply in_or_app. destruct Ha as [Ha|Ha]; [left; exact Ha|].
        right. apply in_or_app. right. exact Ha. }
      destruct (si_free _ _ _ _ Hinv a Hbs Haf) as [Hin|Hin]; [|right; exact Hin].
      left. apply Hex; [|exact Hin].
      destruct Ha as [Ha|Ha].
      - pose proof (chain_bounds _ _ _ _ H1 Ha). lia.
      - pose proof (chain_bounds _ _ _ _ H2 Ha). lia. }
    apply in_app_or in Hb'. destruct Hb' as [Hb'|Hb'];
      [|apply in_app_or in Hb'; destruct Hb' as [Hb'|Hb']].
    + apply Hside; [left; exact Hb' | exact Hf].
    + left. apply Hmid'; assumption.
    + apply Hside; [right; exact Hb' | exact Hf].
Qed.

(** * Coalescing *)

(** The free blocks [mid], all off the lists, become one free block, which
    [insert_free_block] puts on the list of its class. *)
Lemma seg_fuse (s : Segregated.st) (bs : list blk) (fl : Z -> list Z) (ex : list Z)
      (l1 mid l2 : list blk) (c c' : Z) (m1 : mem) :
  seg_inv s bs fl ex ->
  seg_prologue s :: bs = l1 ++ mid ++ l2 ->
  chain (Segregated.heap_listp (globals s)) l1 c -> chain c mid c' ->
  mid <> [] ->
  (forall b, In b mid -> b_alloc b = false /\ In (b_addr b) ex) ->
  (forall x, In x ex -> c <= x < c') ->
  tagged m1 (mkBlk c (c' - c) false) ->
  agree_outside (bytes (heap s)) m1 c c' ->
  exists m' bs' fl',
    Segregated.insert_free_block c (upd s m1) = Ret tt (upd s m') /\
    seg_inv (upd s m') bs' fl' [] /\
    seg_prologue s :: bs' = l1 ++ mkBlk c (c' - c) false :: l2 /\
    (forall a, In a bs -> b_alloc a = true -> In a bs' /\ same_bytes (bytes (heap s)) m' a).
Proof.
  intros Hinv E H1 Hm Hne Hmid Hex Ht1 Hag.
  set (fb := mkBlk c (c' - c) false).
  assert (Hsz : 32 <= c' - c).
  { destruct mid as [|x mid']; [congruence|].
    assert (Hx : In x (seg_prologue s :: bs)) by (rewrite E; apply in_or_app; right; left; reflexivity).
    destruct (seg_block_facts s bs fl ex Hinv x Hx) as (_ & _ & Hs & _).
    cbn [chain] in Hm. destruct Hm as (Hxa & _ & _ & Hm). apply chain_le in Hm. lia. }
  assert (H8 : (c' - c) mod 8 = 0) by (apply (chain_align _ _ _ Hm)).
  destruct l1 as [|pr l1'].
  { exfalso. destruct mid as [|x mid']; [congruence|]. cbn [app] in E.
    injection E as Ex _. destruct (Hmid x (or_introl eq_refl)) as [Hf _].
    rewrite <- Ex in Hf. discriminate. }
  cbn [app] in E. injection E as Epr Ebs. subst pr.
  set (bs' := l1' ++ fb :: l2).
  assert (Hinv1 : seg_inv (upd s m1) bs' fl [c]).
  { apply (seg_inv_retag s bs bs' fl ex [c] m1 (seg_prologue s :: l1') mid [fb] l2 c c' Hinv).
    - rewrite Ebs. reflexivity.
    - reflexivity.
    - exact H1.
    - exact Hm.
    - cbn [chain fb b_addr b_size]. repeat split; lia.
    - apply Forall_cons; [|apply Forall_nil]. cbn. change Segregated.min_block_size with 32. lia.
    - apply Forall_cons; [exact Ht1 | apply Forall_nil].
    - exact Hag.
    - intros b Hb _. apply Hmid. exact Hb.
    - intros b [<-|[]] _. left. reflexivity.
    - intros x Hx. split.
      + intros [<-|[]]. lia.
      + intros Hin. apply Hex in Hin. lia. }
  assert (Hfb : In fb bs') by (apply in_or_app; right; left; reflexivity).
  destruct (seg_link_spec (upd s m1) bs' fl [c] [] c (c' - c) Hinv1 Hfb (or_introl eq_refl))
    as (Hrun & (fl' & Hinv2) & Hsame).
  { intros x. split; [intros [] | intros [[<-|[]] Hx]; congruence]. }
  rewrite upd_upd, bytes_upd in *.
  eexists _, bs', fl'. split; [exact Hrun|]. split; [exact Hinv2|]. split; [reflexivity|].
  intros a Ha Hal.
  assert (Ha' : In a (l1' ++ mid ++ l2)) by (rewrite <- Ebs; exact Ha).
  pose proof (si_chain _ _ _ _ Hinv) as Hc. rewrite Ebs in Hc.
  change (seg_prologue s :: l1' ++ mid ++ l2) with ((seg_prologue s :: l1') ++ mid ++ l2) in Hc.
  apply chain_app in Hc. destruct Hc as (c0 & Hc1 & Hc).
  apply chain_app in Hc. destruct Hc as (c0' & Hcm & Hc2).
  pose proof (chain_end_unique _ _ _ _ H1 Hc1). subst c0.
  pose proof (chain_end_unique _ _ _ _ Hm Hcm). subst c0'.
  assert (Hside : (In a l1' /\ b_addr a + b_size a <= c) \/ (In a l2 /\ c' <= b_addr a)).
  { apply in_app_or in Ha'. destruct Ha' as [Ha'|Ha'];
      [|apply in_app_or in Ha'; destruct Ha' as [Ha'|Ha']].
    - left. split; [exact Ha'|].
      pose proof (chain_bounds _ _ _ _ H1 (or_intror Ha')). lia.
    - destruct (Hmid a Ha') as [Hf _]. congruence.
    - right. split; [exact Ha'|]. pose proof (chain_bounds _ _ _ _ Hc2 Ha'). lia. }
  assert (Hin' : In a bs').
  { unfold bs'. apply in_or_app. destruct Hside as [[Hs _]|[Hs _]]; [left | right; right]; exact Hs. }
  split; [exact Hin'|].
  eapply same_bytes_trans; [|apply Hsame; assumption].
  eapply same_bytes_agree; [exact Hag|]. destruct Hside as [[_ Hs]|[_ Hs]]; lia.
Qed.

(** What [coalesce] reads around a free block of the heap. *)
Lemma seg_around_read (s : Segregated.st) (bs : list blk) (fl : Z -> list Z) (ex : list Z)
      (l1 l2 : list blk) (p b : blk) :
  seg_inv s bs fl ex ->
  seg_prologue s :: bs = l1 ++ p :: b :: l2 ->
  let m := bytes (heap s) in
  In p (seg_prologue s :: bs) /\ In b bs /\
  b_addr b = b_addr p + b_size p /\
  size_at m (b_addr b - 4) = b_size p /\
  size_at m (b_addr b + b_size b) = next_size l2 /\
  alloc_at m (b_addr b + b_size b) = next_alloc l2 /\
  valid (heap s) (b_addr b + b_size b) 4 = true /\
  chain (Segregated.heap_listp (globals s)) l1 (b_addr p) /\
  match l2 with
  | [] => True
  | n :: l2' => In n bs /\ b_addr n = b_addr b + b_size b
  end.
Proof.
  intros Hinv E m.
  assert (Hp : In p (seg_prologue s :: bs)) by (rewrite E; apply in_or_app; right; left; reflexivity).
  assert (Hb' : In b (seg_prologue s :: bs))
    by (rewrite E; apply in_or_app; right; right; left; reflexivity).
  pose proof (si_chain _ _ _ _ Hinv) as Hc. rewrite E in Hc.
  destruct (chain_around _ _ _ _ _ _ Hc) as (H1 & Hab & H2 & Hps & _).
  assert (Hb : In b bs).
  { apply (seg_in_tail s bs b Hb'). right.
    pose proof (chain_le _ _ _ H1). lia. }
  destruct (seg_block_read s bs fl ex Hinv p Hp) as (_ & _ & Hpf).
  split; [assumption|]. split; [assumption|]. split; [assumption|].
  split; [rewrite Hab; exact Hpf|].
  destruct l2 as [|n l2']; cbn [next_size next_alloc].
  - cbn in H2. change Segregated.epilogue_size with 8 in H2. rewrite H2.
    destruct (seg_epilogue_read s bs fl ex Hinv) as (Hs & Ha & Hv).
    repeat split; assumption.
  - assert (Hn' : In n (seg_prologue s :: bs))
      by (rewrite E; apply in_or_app; right; right; right; left; reflexivity).
    cbn [chain] in H2. destruct H2 as (Hna & _).
    assert (Hn : In n bs).
    { apply (seg_in_tail s bs n Hn'). right.
      destruct (seg_block_facts s bs fl ex Hinv b Hb') as (? & _ & ? & _). lia. }
    destruct (seg_block_read s bs fl ex Hinv n Hn') as (Hs & Ha & _).
    destruct (seg_block_facts s bs fl ex Hinv n Hn') as (_ & Hhi & Hsz & H8 & _ & _ & Hv & _).
    rewrite <- Hna. repeat split; try assumption; try lia.
Qed.

(** [remove_from_free_list] for a free block that is on its list, once
    the tags for a range of blocks have been written. *)
Lemma seg_unlink_step (s : Segregated.st) (bs : list blk) (fl : Z -> list Z) (ex : list Z)
      (n a1 a2 : blk) (al : bool) :
  seg_inv s bs fl ex ->
  In n bs -> b_alloc n = false -> ~ In (b_addr n) ex ->
  In a1 (seg_prologue s :: bs) -> In a2 (seg_prologue s :: bs) ->
  let m := bytes (heap s) in
  let sz := b_addr a2 + b_size a2 - b_addr a1 in
  exists m1 fl',
    Segregated.remove_from_free_list (b_addr n) (upd s (set_tags m (b_addr a1) sz al)) =
    Ret tt (upd s (set_tags m1 (b_addr a1) sz al)) /\
    seg_inv (upd s m1) bs fl' (b_addr n :: ex) /\
    (forall a, In a bs -> b_alloc a = true -> same_bytes m m1 a).
Proof.
  intros Hinv Hn Hf Hx H1 H2 m sz.
  destruct (seg_block_facts s bs fl ex Hinv n (or_intror Hn)) as (_ & _ & Hsz & _).
  set (i := Segregated.get_seglist_idx (b_size n)).
  assert (Hi : 0 <= i < 16) by (apply seg_idx_range; lia).
  assert (Hin : In (b_addr n) (fl i)).
  { destruct (si_free _ _ _ _ Hinv n Hn Hf) as [H|H]; [contradiction | exact H]. }
  destruct (seg_unlink_spec s bs fl ex Hinv i (b_addr n) Hi Hin) as (_ & (fl' & Hinv') & Hsame).
  exists (unlink m (b_addr n)), fl'. split; [|split; assumption].
  exact (seg_unlink_retagged s bs fl ex Hinv i (b_addr n) a1 a2 al Hi Hin H1 H2).
Qed.

Lemma seg_write_tags_bind {B C} (s : Segregated.st) (b sz : Z) (al : bool)
      (c : Segregated.Ms B) (k : B -> Segregated.Ms C) :
  12 <= sz < 2 ^ 32 -> sz mod 8 = 0 ->
  valid (heap s) b 4 = true -> valid (heap s) (b + sz - 4) 4 = true ->
  bind (Segregated.write_header b sz al ;;; Segregated.write_footer b sz al ;;; c) k s =
  bind c k (upd s (set_tags (bytes (heap s)) b sz al)).
Proof.
  intros Hs H8 Vh Vf. unfold bind at 1.
  rewrite seg_write_tags_ok by assumption. reflexivity.
Qed.

Lemma blk_eta (b : blk) : mkBlk (b_addr b) (b_size b) (b_alloc b) = b.
Proof. destruct b. reflexivity. Qed.

Lemma seg_coalesce_spec (s : Segregated.st) (bs : list blk) (fl : Z -> list Z)
      (l1 l2 : list blk) (p b : blk) :
  seg_inv s bs fl [b_addr b] ->
  seg_prologue s :: bs = l1 ++ p :: b :: l2 ->
  b_alloc b = false ->
  let fb := fused_block p b l2 in
  exists m' bs' fl',
    Segregated.coalesce (b_addr b) s = Ret (b_addr fb) (upd s m') /\
    seg_inv (upd s m') bs' fl' [] /\
    seg_prologue s :: bs' = l1 ++ coalesce_blocks p b l2 /\
    (forall a, In a bs -> b_alloc a = true -> In a bs' /\ same_bytes (bytes (heap s)) m' a).
Proof.
  intros Hinv E Hfree fb.
  destruct (seg_around_read s bs fl _ l1 l2 p b Hinv E)
    as (Hp & Hb & Hab & Rpf & Rns & Rna & Vn & Hc1 & Hnext).
  pose proof (or_intror Hb : In b (seg_prologue s :: bs)) as Hb'.
  destruct (seg_block_facts s bs fl _ Hinv p Hp) as (Hplo & Hphi & Hpsz & Hp8 & _ & Tp & Vp & Vpf & _).
  destruct (seg_block_facts s bs fl _ Hinv b Hb') as (Hblo & Hbhi & Hbsz & Hb8 & _ & Tb & Vb & Vbf & _).
  destruct (seg_block_read s bs fl _ Hinv p Hp) as (Rps & Rpa & _).
  destruct (seg_block_read s bs fl _ Hinv b Hb') as (Rbs & Rba & _).
  pose proof (seg_heap_extent s bs fl _ Hinv) as He.
  set (m := bytes (heap s)) in *.
  unfold Segregated.coalesce.
  exec (seg_find_next_ok s (b_addr b) Vb). fold m. rewrite Rbs.
  assert (Vpf' : valid (heap s) (b_addr b - 4) 4 = true).
  { replace (b_addr b - 4) with (b_addr p + b_size p - 4) by lia. exact Vpf. }
  exec (seg_find_prev_ok s (b_addr b) Vpf'). fold m. rewrite Rpf.
  replace (b_addr b - b_size p) with (b_addr p) by lia.
  exec (seg_get_alloc_ok s (b_addr p) Vp). fold m. rewrite Rpa.
  exec (seg_get_alloc_ok s _ Vn). fold m. rewrite Rna.
  exec (seg_get_size_ok s (b_addr b) Vb). fold m. rewrite Rbs.
  unfold fb, coalesce_blocks, fused_block. cbn [b_addr b_size].
  destruct (b_alloc p) eqn:Ap, (next_alloc l2) eqn:An; cbn [andb negb]; rewrite ?bind_bind, ?ret_bind.
  - (* both neighbours allocated *)
    destruct (seg_fuse s bs fl [b_addr b] (l1 ++ [p]) [b] l2 (b_addr b) (b_addr b + b_size b) m Hinv)
      as (m' & bs' & fl' & Hrun & Hinv' & Ebs & Hkeep).
    + rewrite <- app_assoc. exact E.
    + apply chain_app. exists (b_addr p). split; [exact Hc1|]. cbn [chain]. repeat split; lia.
    + cbn [chain]. repeat split; lia.
    + discriminate.
    + intros x [<-|[]]. split; [exact Hfree | left; reflexivity].
    + intros x [<-|[]]. lia.
    + replace (b_addr b + b_size b - b_addr b) with (b_size b) by lia.
      rewrite <- Hfree, blk_eta. exact Tb.
    + apply agree_outside_refl.
    + unfold m in Hrun. rewrite upd_self in Hrun.
      exec Hrun. exists m', bs', fl'. split; [reflexivity|]. split; [exact Hinv'|].
      split; [|exact Hkeep]. rewrite Ebs, <- app_assoc. cbn [app]. do 4 f_equal. lia.
  - (* the next block is free *)
    destruct l2 as [|n l2']; [discriminate|]. cbn [next_alloc next_size tl] in *.
    destruct Hnext as (Hn & Hna).
    destruct (seg_block_facts s bs fl _ Hinv n (or_intror Hn)) as (_ & Hnhi & Hnsz & Hn8 & _).
    exec (seg_get_size_ok s _ Vn). fold m. rewrite Rns.
    rewrite wrap64_small by lia.
    rewrite seg_write_tags_bind; try lia; try mlia; try assumption; [|apply valid_intro; lia].
    fold m.
    destruct (seg_unlink_step s bs fl [b_addr b] n b n false Hinv Hn An)
      as (m1 & fl1 & Hrun1 & Hinv1 & Hsame1); try assumption; try (right; assumption).
    { intros [H|[]]. lia. }
    fold m in Hrun1, Hsame1. rewrite <- Hna.
    replace (b_addr n + b_size n - b_addr b) with (b_size b + b_size n) in Hrun1 by lia.
    exec Hrun1. rewrite ret_bind.
    destruct (seg_fuse (upd s m1) bs fl1 [b_addr n; b_addr b] (l1 ++ [p]) [b; n] l2'
                (b_addr b) (b_addr n + b_size n)
                (set_tags m1 (b_addr b) (b_size b + b_size n) false) Hinv1)
      as (m' & bs' & fl' & Hrun & Hinv' & Ebs & Hkeep).
    + rewrite <- app_assoc. exact E.
    + apply chain_app. exists (b_addr p). split; [exact Hc1|]. cbn [chain]. repeat split; lia.
    + cbn [chain]. repeat split; lia.
    + discriminate.
    + intros x [<-|[<-|[]]]; (split; [assumption|]); [right; left | left]; reflexivity.
    + intros x [<-|[<-|[]]]; lia.
    + replace (b_addr n + b_size n - b_addr b) with (b_size b + b_size n) by lia.
      apply tagged_set_tags. lia.
    + rewrite bytes_upd. replace (b_addr n + b_size n) with (b_addr b + (b_size b + b_size n)) by lia.
      apply set_tags_agree. lia.
    + rewrite !upd_upd, ?bytes_upd in *.
      exec Hrun. exists m', bs', fl'. split; [reflexivity|]. split; [exact Hinv'|].
      split.
      * change (seg_prologue (upd s m1)) with (seg_prologue s) in Ebs.
        rewrite Ebs, <- app_assoc. cbn [app]. do 4 f_equal. lia.
      * intros a Ha Hal. destruct (Hkeep a Ha Hal) as [K1 K2]. split; [exact K1|].
        eapply same_bytes_trans; [apply Hsame1; assumption | exact K2].
  - (* the previous block is free *)
    assert (Hpb : In p bs) by (apply (seg_in_tail s bs p Hp); left; exact Ap).
    exec (seg_get_size_ok s _ Vp). fold m. rewrite Rps.
    rewrite wrap64_small by lia.
    rewrite seg_write_tags_bind; try lia; try mlia; try assumption;
      [|replace (b_addr p + (b_size b + b_size p) - 4) with (b_addr b + b_size b - 4) by lia; exact Vbf].
    fold m.
    destruct (seg_unlink_step s bs fl [b_addr b] p p b false Hinv Hpb Ap)
      as (m1 & fl1 & Hrun1 & Hinv1 & Hsame1); try assumption; try (right; assumption).
    { intros [H|[]]. lia. }
    fold m in Hrun1, Hsame1.
    replace (b_addr b + b_size b - b_addr p) with (b_size b + b_size p) in Hrun1 by lia.
    exec Hrun1. rewrite ret_bind.
    destruct (seg_fuse (upd s m1) bs fl1 [b_addr p; b_addr b] l1 [p; b] l2
                (b_addr p) (b_addr b + b_size b)
                (set_tags m1 (b_addr p) (b_size b + b_size p) false) Hinv1)
      as (m' & bs' & fl' & Hrun & Hinv' & Ebs & Hkeep).
    + exact E.
    + exact Hc1.
    + cbn [chain]. repeat split; lia.
    + discriminate.
    + intros x [<-|[<-|[]]]; (split; [assumption|]); [left | right; left]; reflexivity.
    + intros x [<-|[<-|[]]]; lia.
    + replace (b_addr b + b_size b - b_addr p) with (b_size b + b_size p) by lia.
      apply tagged_set_tags. lia.
    + rewrite bytes_upd. replace (b_addr b + b_size b) with (b_addr p + (b_size b + b_size p)) by lia.
      apply set_tags_agree. lia.
    + rewrite !upd_upd, ?bytes_upd in *.
      exec Hrun. exists m', bs', fl'. split; [reflexivity|]. split; [exact Hinv'|].
      split.
      * change (seg_prologue (upd s m1)) with (seg_prologue s) in Ebs.
        rewrite Ebs. cbn [app]. do 3 f_equal. lia.
      * intros a Ha Hal. destruct (Hkeep a Ha Hal) as [K1 K2]. split; [exact K1|].
        eapply same_bytes_trans; [apply Hsame1; assumption | exact K2].
  - (* both neighbours are free *)
    assert (Hpb : In p bs) by (apply (seg_in_tail s bs p Hp); left; exact Ap).
    destruct l2 as [|n l2']; [discriminate|]. cbn [next_alloc next_size tl] in *.
    destruct Hnext as (Hn & Hna).
    destruct (seg_block_facts s bs fl _ Hinv n (or_intror Hn)) as (_ & Hnhi & Hnsz & Hn8 & _ & _ & _ & Vnf & _).
    exec (seg_get_size_ok s _ Vn). fold m. rewrite Rns.
    exec (seg_get_size_ok s _ Vp). fold m. rewrite Rps. rewrite <- Hna.
    rewrite (wrap64_small (b_size n + b_size p)) by lia.
    rewrite wrap64_small by lia.
    rewrite seg_write_tags_bind; try lia; try mlia; try assumption;
      [|replace (b_addr p + (b_size b + (b_size n + b_size p)) - 4)
          with (b_addr n + b_size n - 4) by lia; exact Vnf].
    fold m.
    destruct (seg_unlink_step s bs fl [b_addr b] p p n false Hinv Hpb Ap)
      as (m1 & fl1 & Hrun1 & Hinv1 & Hsame1); try assumption; try (right; assumption).
    { intros [H|[]]. lia. }
    fold m in Hrun1, Hsame1.
    replace (b_addr n + b_size n - b_addr p) with (b_size b + (b_size n + b_size p)) in Hrun1 by lia.
    exec Hrun1.
    destruct (seg_unlink_step (upd s m1) bs fl1 [b_addr p; b_addr b] n p n false Hinv1 Hn An)
      as (m2 & fl2 & Hrun2 & Hinv2 & Hsame2); try assumption; try (right; assumption).
    { intros [H|[H|[]]]; lia. }
    rewrite !upd_upd, ?bytes_upd in *.
    replace (b_addr n + b_size n - b_addr p) with (b_size b + (b_size n + b_size p)) in Hrun2 by lia.
    exec Hrun2. rewrite ret_bind.
    destruct (seg_fuse (upd s m2) bs fl2 [b_addr n; b_addr p; b_addr b] l1 [p; b; n] l2'
                (b_addr p) (b_addr n + b_size n)
                (set_tags m2 (b_addr p) (b_size b + (b_size n + b_size p)) false) Hinv2)
      as (m' & bs' & fl' & Hrun & Hinv' & Ebs & Hkeep).
    + exact E.
    + exact Hc1.
    + cbn [chain]. repeat split; lia.
    + discriminate.
    + intros x [<-|[<-|[<-|[]]]]; (split; [assumption|]);
        [right; left | right; right; left | left]; reflexivity.
    + intros x [<-|[<-|[<-|[]]]]; lia.
    + replace (b_addr n + b_size n - b_addr p) with (b_size b + (b_size n + b_size p)) by lia.
      apply tagged_set_tags. lia.
    + rewrite bytes_upd.
      replace (b_addr n + b_size n) with (b_addr p + (b_size b + (b_size n + b_size p))) by lia.
      apply set_tags_agree. lia.
    + rewrite !upd_upd, ?bytes_upd in *.
      exec Hrun. exists m', bs', fl'. split; [reflexivity|]. split; [exact Hinv'|].
      split.
      * change (seg_prologue (upd s m2)) with (seg_prologue s) in Ebs.
        rewrite Ebs. cbn [app]. do 3 f_equal. lia.
      * intros a Ha Hal. destruct (Hkeep a Ha Hal) as [K1 K2]. split; [exact K1|].
        eapply same_bytes_trans; [|exact K2].
        eapply same_bytes_trans; [apply Hsame1; assumption | apply Hsame2; assumption].
Qed.

(** * Splitting and placing *)

Lemma get_byte_set_tags (m : mem) (a sz : Z) (al : bool) (x : Z) :
  (x < a \/ a + 4 <= x) -> (x < a + sz - 4 \/ a + sz <= x) ->
  get_byte (set_tags m a sz al) x = get_byte m x.
Proof.
  intros H1 H2. unfold set_tags, store32.
  rewrite get_byte_store_out by lia. apply get_byte_store_out. lia.
Qed.

Lemma seg_split_spec (s : Segregated.st) (bs : list blk) (fl : Z -> list Z) (ex : list Z)
      (l1 l2 : list blk) (b : blk) (asize : Z) :
  seg_inv s bs fl ex ->
  bs = l1 ++ b :: l2 ->
  (forall x, In x ex -> x = b_addr b) -> (b_alloc b = false -> In (b_addr b) ex) ->
  32 <= asize -> asize mod 8 = 0 -> 32 <= b_size b - asize ->
  let m := bytes (heap s) in
  let r := mkBlk (b_addr b + asize) (b_size b - asize) false in
  exists m' fl',
    Segregated.split_block (b_addr b) asize s = Ret tt (upd s m') /\
    seg_inv (upd s m') (l1 ++ mkBlk (b_addr b) asize true :: r :: l2) fl' [] /\
    (forall a, In a (l1 ++ l2) -> b_alloc a = true -> same_bytes m m' a) /\
    (forall x, b_addr b + 4 <= x < b_addr b + asize - 4 -> get_byte m' x = get_byte m x).
Proof.
  intros Hinv E Hex1 Hex2 Ha H8 Hrem m r.
  assert (Hb : In b bs) by (rewrite E; apply in_or_app; right; left; reflexivity).
  pose proof (or_intror Hb : In b (seg_prologue s :: bs)) as Hb'.
  destruct (seg_block_facts s bs fl _ Hinv b Hb') as (Hblo & Hbhi & Hbsz & Hb8 & _ & Tb & Vb & Vbf & _).
  destruct (seg_block_read s bs fl _ Hinv b Hb') as (Rbs & Rba & _).
  pose proof (seg_heap_extent s bs fl _ Hinv) as He.
  pose proof (si_chain _ _ _ _ Hinv) as Hc. rewrite E in Hc.
  change (seg_prologue s :: l1 ++ b :: l2) with ((seg_prologue s :: l1) ++ [b] ++ l2) in Hc.
  apply chain_app in Hc. destruct Hc as (c & Hc1 & Hc2).
  apply chain_app in Hc2. destruct Hc2 as (c' & Hcb & Hc2).
  assert (c = b_addr b) by (cbn [chain] in Hcb; destruct Hcb as (? & _); congruence).
  subst c.
  assert (c' = b_addr b + b_size b) by (cbn [chain] in Hcb; lia). subst c'.
  fold m in Rbs, Rba.
  set (m1 := set_tags m (b_addr b) asize true).
  set (m2 := set_tags m1 (b_addr b + asize) (b_size b - asize) false).
  set (bs2 := l1 ++ mkBlk (b_addr b) asize true :: r :: l2).
  assert (T1 : tagged m1 (mkBlk (b_addr b) asize true)) by (apply tagged_set_tags; lia).
  assert (Hag : agree_outside m m2 (b_addr b) (b_addr b + b_size b)).
  { apply agree_outside_trans with m1.
    - eapply agree_outside_widen; [apply set_tags_agree|..]; lia.
    - eapply agree_outside_widen; [apply set_tags_agree|..]; lia. }
  assert (Hinv2 : seg_inv (upd s m2) bs2 fl [b_addr b + asize]).
  { apply (seg_inv_retag s bs bs2 fl ex _ m2 (seg_prologue s :: l1) [b]
             [mkBlk (b_addr b) asize true; r] l2 (b_addr b) (b_addr b + b_size b) Hinv).
    - rewrite E. reflexivity.
    - reflexivity.
    - exact Hc1.
    - exact Hcb.
    - unfold r. cbn [chain b_addr b_size]. repeat split; try lia; mlia.
    - change Segregated.min_block_size with 32.
      apply Forall_cons; [|apply Forall_cons; [|apply Forall_nil]]; cbn; lia.
    - apply Forall_cons; [|apply Forall_cons; [|apply Forall_nil]].
      + eapply tagged_agree; [apply set_tags_agree | | | exact T1].
        * lia.
        * left. cbn [b_addr b_size]. lia.
        * cbn [b_size]. lia.
      + apply tagged_set_tags. lia.
    - exact Hag.
    - intros x [<-|[]] Hf. apply Hex2. exact Hf.
    - intros x [<-|[<-|[]]]; cbn; [discriminate | intros _; left; reflexivity].
    - intros x Hx. split.
      + intros [<-|[]]. lia.
      + intros Hin. apply Hex1 in Hin. lia. }
  assert (Hr : In r bs2) by (apply in_or_app; right; right; left; reflexivity).
  destruct (seg_link_spec (upd s m2) bs2 fl _ [] _ _ Hinv2 Hr (or_introl eq_refl))
    as (Hrun & (fl' & Hinv3) & Hsame).
  { intros x. split; [intros [] | intros [[<-|[]] Hx]; congruence]. }
  rewrite upd_upd, bytes_upd in *.
  eexists _, fl'. split; [|split; [exact Hinv3|split]].
  - unfold Segregated.split_block.
    exec (seg_get_size_ok s (b_addr b) Vb). fold m. rewrite Rbs.
    rewrite seg_write_tags_ok; try lia; try assumption; [|apply valid_intro; lia].
    fold m. fold m1.
    assert (E1 : size_at m1 (b_addr b) = asize).
    { apply (tagged_header _ _ T1); cbn [b_size]; [lia | assumption]. }
    exec (seg_find_next_ok (upd s _) (b_addr b) Vb). rewrite E1.
    rewrite wrap64_small by lia.
    rewrite seg_write_tags_ok; try lia; try mlia; try valid_tac.
    rewrite upd_upd, bytes_upd. fold m2. exact Hrun.
  - intros a Hin Hal.
    assert (Hside : b_addr a + b_size a <= b_addr b \/ b_addr b + b_size b <= b_addr a).
    { apply in_app_or in Hin. destruct Hin as [Hin|Hin].
      - left. pose proof (chain_bounds _ _ _ _ Hc1 (or_intror Hin)). lia.
      - right. pose proof (chain_bounds _ _ _ _ Hc2 Hin). lia. }
    eapply same_bytes_trans; [eapply same_bytes_agree; [exact Hag | exact Hside]|].
    apply Hsame; [|exact Hal].
    unfold bs2. apply in_app_or in Hin. apply in_or_app.
    destruct Hin as [Hin|Hin]; [left | right; right; right]; exact Hin.
  - intros x Hx.
    assert (Hfst : In (mkBlk (b_addr b) asize true) bs2)
      by (apply in_or_app; right; left; reflexivity).
    rewrite (Hsame _ Hfst eq_refl x) by (cbn [b_addr b_size]; lia).
    unfold m2, m1. rewrite !get_byte_set_tags by lia. reflexivity.
Qed.

Lemma seg_place_spec (s : Segregated.st) (bs : list blk) (fl : Z -> list Z)
      (l1 l2 : list blk) (b : blk) (asize : Z) :
  seg_inv s bs fl [] -> bs = l1 ++ b :: l2 -> b_alloc b = false ->
  32 <= asize <= b_size b -> asize mod 8 = 0 ->
  let m := bytes (heap s) in
  exists m' fl',
    Segregated.place (b_addr b) asize s = Ret tt (upd s m') /\
    seg_inv (upd s m') (l1 ++ placed Segregated.min_block_size b asize ++ l2) fl' [] /\
    (forall a, In a (l1 ++ l2) -> b_alloc a = true -> same_bytes m m' a).
Proof.
  intros Hinv E Hfree Ha H8 m.
  assert (Hb : In b bs) by (rewrite E; apply in_or_app; right; left; reflexivity).
  pose proof (or_intror Hb : In b (seg_prologue s :: bs)) as Hb'.
  destruct (seg_block_facts s bs fl _ Hinv b Hb') as (Hblo & Hbhi & Hbsz & Hb8 & _ & Tb & Vb & Vbf & _).
  destruct (seg_block_read s bs fl _ Hinv b Hb') as (Rbs & Rba & _).
  fold m in Rbs, Rba.
  set (i := Segregated.get_seglist_idx (b_size b)).
  assert (Hi : 0 <= i < 16) by (apply seg_idx_range; lia).
  assert (Hin : In (b_addr b) (fl i)).
  { destruct (si_free _ _ _ _ Hinv b Hb Hfree) as [[]|H]. exact H. }
  destruct (seg_unlink_spec s bs fl [] Hinv i (b_addr b) Hi Hin) as (Hrun1 & (fl1 & Hinv1) & Hsame1).
  fold m in Hrun1, Hinv1, Hsame1.
  set (m1 := unlink m (b_addr b)) in *.
  assert (Hl : forall a, In a (l1 ++ l2) -> In a bs).
  { intros a Hx. rewrite E. apply in_app_or in Hx. apply in_or_app.
    destruct Hx; [left | right; right]; assumption. }
  unfold Segregated.place, placed.
  exec (seg_get_size_ok s (b_addr b) Vb). fold m. rewrite Rbs.
  exec Hrun1.
  rewrite wrap64_small by lia. change Segregated.min_block_size with 32.
  destruct (Z.geb_spec (b_size b - asize) 32) as [Hsplit|Hwhole].
  - destruct (seg_split_spec (upd s m1) bs fl1 [b_addr b] l1 l2 b asize Hinv1 E)
      as (m' & fl' & Hrun & Hinv' & Hsame & _); try lia.
    + intros x [<-|[]]. reflexivity.
    + intros _. left. reflexivity.
    + rewrite upd_upd, bytes_upd in *. exists m', fl'.
      split; [exact Hrun|]. split; [exact Hinv'|].
      intros a Hx Hal. eapply same_bytes_trans; [apply Hsame1; auto | apply Hsame; auto].
  - pose proof (si_chain _ _ _ _ Hinv) as Hc. rewrite E in Hc.
    change (seg_prologue s :: l1 ++ b :: l2) with ((seg_prologue s :: l1) ++ [b] ++ l2) in Hc.
    apply chain_app in Hc. destruct Hc as (c & Hc1 & Hc2).
    apply chain_app in Hc2. destruct Hc2 as (c' & Hcb & Hc2).
    assert (c = b_addr b) by (cbn [chain] in Hcb; destruct Hcb as (? & _); congruence).
    subst c.
    assert (c' = b_addr b + b_size b) by (cbn [chain] in Hcb; lia). subst c'.
    set (m2 := set_tags m1 (b_addr b) (b_size b) true).
    assert (Hag : agree_outside m1 m2 (b_addr b) (b_addr b + b_size b))
      by (apply set_tags_agree; lia).
    exists m2, fl1. split; [|split].
    + rewrite seg_write_tags_end; try lia; try assumption.
      rewrite upd_upd, bytes_upd. reflexivity.
    + rewrite <- (upd_upd s m1 m2).
      apply (seg_inv_retag (upd s m1) bs _ fl1 [b_addr b] [] m2 (seg_prologue s :: l1) [b]
               [mkBlk (b_addr b) (b_size b) true] l2 (b_addr b) (b_addr b + b_size b) Hinv1).
      * rewrite E. reflexivity.
      * reflexivity.
      * exact Hc1.
      * exact Hcb.
      * cbn [chain b_addr b_size]. repeat split; lia.
      * apply Forall_cons; [|apply Forall_nil]. cbn. change Segregated.min_block_size with 32. lia.
      * apply Forall_cons; [|apply Forall_nil]. apply tagged_set_tags. lia.
      * rewrite bytes_upd. exact Hag.
      * intros x [<-|[]] _. left. reflexivity.
      * intros x [<-|[]]. cbn. discriminate.
      * intros x Hx. split; [intros [] | intros [<-|[]]; lia].
    + intros a Hx Hal. eapply same_bytes_trans; [apply Hsame1; auto|].
      eapply same_bytes_agree; [exact Hag|].
      apply in_app_or in Hx. destruct Hx as [Hx|Hx].
      * left. pose proof (chain_bounds _ _ _ _ Hc1 (or_intror Hx)). lia.
      * right. pose proof (chain_bounds _ _ _ _ Hc2 Hx). lia.
Qed.

(** * Searching the lists *)

Lemma highest_1bit_loop_range (fuel : nat) :
  forall num idx, 0 <= idx -> idx + Z.of_nat (S fuel) < 2 ^ 32 ->
  idx < Segregated.highest_1bit_loop (S fuel) num idx <= idx + Z.of_nat (S fuel).
Proof.
  induction fuel as [|fuel IH]; intros num idx H0 H1.
  - cbn [Segregated.highest_1bit_loop]. rewrite wrap32_small by lia.
    destruct (_ >? 0); lia.
  - cbn [Segregated.highest_1bit_loop]. rewrite (wrap32_small (idx + 1)) by lia.
    destruct (_ >? 0); [|lia].
    specialize (IH (Z.shiftr num 1) (idx + 1) ltac:(lia) ltac:(lia)).
    cbn [Segregated.highest_1bit_loop] in IH. lia.
Qed.

(** The class index lies among the sixteen classes for every argument. *)
Lemma seg_idx_total (size : Z) : 0 <= Segregated.get_seglist_idx size < 16.
Proof.
  unfold Segregated.get_seglist_idx, Segregated.get_highest_1bit_idx.
  pose proof (highest_1bit_loop_range 31 (wrap32 size) 0 ltac:(lia) ltac:(cbn; lia)) as H.
  change (Z.of_nat 32) with 32 in H.
  set (h := Segregated.highest_1bit_loop 32 (wrap32 size) 0) in *.
  assert (Hw : wrap32 (h - 1) = h - 1) by (apply wrap32_small; lia).
  rewrite !Hw.
  destruct (size =? _).
  - destruct (Z.leb_spec (h - 1) 5); [lia|].
    destruct (Z.geb_spec (h - 1) 20); [lia|]. rewrite wrap32_small by lia. lia.
  - destruct (Z.leb_spec h 5); [lia|].
    destruct (Z.geb_spec h 20); [lia|]. rewrite wrap32_small by lia. lia.
Qed.

Lemma NoDup_range_length (l : list Z) (lo hi : Z) :
  NoDup l -> (forall x, In x l -> lo <= x < hi) -> Z.of_nat (length l) <= Z.max 0 (hi - lo).
Proof.
  intros Hnd Hr.
  set (l' := map (fun k => lo + Z.of_nat k) (seq 0 (Z.to_nat (hi - lo)))).
  assert (Hincl : incl l l').
  { intros x Hx. specialize (Hr x Hx). unfold l'. apply in_map_iff.
    exists (Z.to_nat (x - lo)). split; [lia|]. apply in_seq. lia. }
  pose proof (NoDup_incl_length Hnd Hincl) as Hlen.
  unfold l' in Hlen. rewrite length_map, length_seq in Hlen. lia.
Qed.

Section SegregatedSearch.
Variable s : Segregated.st.
Variable bs : list blk.
Variable fl : Z -> list Z.
Hypothesis Hinv : seg_inv s bs fl [].

Lemma seg_list_length (i : Z) :
  0 <= i < 16 ->
  (length (fl i) < S (Z.to_nat (mem_brk (heap s) - mem_start_brk (heap s))))%nat.
Proof.
  intros Hi. destruct (si_lists _ _ _ _ Hinv i Hi) as [_ Hnd].
  pose proof (NoDup_range_length (fl i) (mem_start_brk (heap s)) (mem_brk (heap s)) Hnd) as H.
  pose proof (seg_heap_extent s bs fl _ Hinv) as He.
  assert (Hr : forall x, In x (fl i) -> mem_start_brk (heap s) <= x < mem_brk (heap s)).
  { intros x Hx. pose proof (seg_node_entity s bs fl _ Hinv i x Hi Hx) as En.
    destruct (seg_entity_facts s bs fl _ Hinv x En) as (? & ? & _). lia. }
  specialize (H Hr). lia.
Qed.

Lemma seg_find_fit_list_first (asize i : Z) :
  0 <= i < 16 ->
  forall (rest l1 : list Z) (fuel : nat),
    fl i = l1 ++ rest -> (length rest < fuel)%nat ->
    let m := bytes (heap s) in
    (exists a r1 r2,
       rest = r1 ++ a :: r2 /\ asize <= size_at m a /\
       (forall x, In x r1 -> size_at m x < asize) /\
       Segregated.find_fit_list fuel asize (head_of s i) (hd (head_of s i) rest) s =
       Ret (Some a) s) \/
    ((forall x, In x rest -> size_at m x < asize) /\
     Segregated.find_fit_list fuel asize (head_of s i) (hd (head_of s i) rest) s =
     Ret None s).
Proof.
  intros Hi. induction rest as [|n rest IH]; intros l1 fuel E Hlen m.
  - destruct fuel as [|fuel]; [cbn in Hlen; lia|].
    right. split; [intros x []|].
    cbn [hd Segregated.find_fit_list]. rewrite Z.eqb_refl. reflexivity.
  - destruct fuel as [|fuel]; [cbn in Hlen; lia|].
    cbn [hd Segregated.find_fit_list].
    assert (Hn : In n (fl i)) by (rewrite E; apply in_or_app; right; left; reflexivity).
    destruct (Z.eqb_spec n (head_of s i)) as [Heq|_].
    { exfalso. rewrite Heq in Hn. exact (seg_head_not_node s bs fl _ Hinv i i Hi Hi Hn). }
    destruct (seg_node_block s bs fl _ Hinv i n Hi Hn) as (b & Hb & Hba & Hbf & _).
    destruct (seg_block_facts s bs fl _ Hinv b (or_intror Hb))
      as (_ & _ & _ & _ & _ & _ & Vb & _ & Vl).
    destruct (seg_block_read s bs fl _ Hinv b (or_intror Hb)) as (Rbs & _).
    rewrite Hba in *.
    exec (seg_get_size_ok s n Vb). fold m. 
    destruct (Z.leb_spec asize (size_at m n)) as [Hfit|Hsmall].
    + left. exists n, [], rest. split; [reflexivity|].
      split; [assumption|]. split; [intros x []|reflexivity].
    + unfold Segregated.get_succ. change Segregated.succ_offset with 16.
      assert (Vs : valid (heap s) (n + 16) 8 = true) by (eapply valid_sub; [exact Vl|lia|lia]).
      exec (ld64_ok s _ Vs).
      destruct (si_lists _ _ _ _ Hinv i Hi) as [Hp _]. rewrite E in Hp.
      apply path_app in Hp. destruct Hp as [_ Hp].
      pose proof (path_first _ _ _ _ Hp) as Hf. unfold succ_of in Hf.
      change Segregated.succ_offset with 16 in Hf. rewrite Hf.
      destruct (IH (l1 ++ [n]) fuel) as [(a & r1 & r2 & E' & H1 & H2 & H3) | (H1 & H2)].
      * rewrite <- app_assoc. exact E.
      * cbn [length] in Hlen. lia.
      * left. exists a, (n :: r1), r2. split; [rewrite E'; reflexivity|].
        split; [assumption|]. split; [|assumption].
        intros x [<-|Hx]; [assumption | apply H2; assumption].
      * right. split; [|assumption].
        intros x [<-|Hx]; [assumption | apply H1; assumption].
Qed.

Lemma seg_find_fit_classes_first (asize : Z) (n : nat) :
  forall idx, 0 <= idx -> idx + Z.of_nat n <= 16 ->
  let m := bytes (heap s) in
  (exists i a r1 r2,
     idx <= i < idx + Z.of_nat n /\ fl i = r1 ++ a :: r2 /\ asize <= size_at m a /\
     (forall x, In x r1 -> size_at m x < asize) /\
     (forall j x, idx <= j < i -> In x (fl j) -> size_at m x < asize) /\
     Segregated.find_fit_classes n asize idx s = Ret a s) \/
  ((forall j x, idx <= j < idx + Z.of_nat n -> In x (fl j) -> size_at m x < asize) /\
   Segregated.find_fit_classes n asize idx s = Ret NULL s).
Proof.
  induction n as [|n IH]; intros idx H0 H1 m.
  - right. split; [intros; lia | reflexivity].
  - cbn [Segregated.find_fit_classes].
    assert (Hi : 0 <= idx < 16) by lia.
    exec (seglist_at_ok s idx). fold (head_of s idx).
    destruct (seg_head_facts s bs fl _ Hinv idx Hi) as (_ & _ & _ & Vl).
    assert (Vs : valid (heap s) (head_of s idx + 16) 8 = true)
      by (eapply valid_sub; [exact Vl|lia|lia]).
    unfold Segregated.get_succ. change Segregated.succ_offset with 16.
    exec (ld64_ok s _ Vs).
    destruct (si_lists _ _ _ _ Hinv idx Hi) as [Hp _].
    pose proof (path_first _ _ _ _ Hp) as Hf. unfold succ_of in Hf.
    change Segregated.succ_offset with 16 in Hf. rewrite Hf.
    unfold Segregated.heap_fuel at 1. unfold bind at 1.
    destruct (seg_find_fit_list_first asize idx Hi (fl idx) [] _ eq_refl
                (seg_list_length idx Hi))
      as [(a & r1 & r2 & E & F1 & F2 & Hrun) | (F1 & Hrun)].
    + exec Hrun. left. exists idx, a, r1, r2.
      split; [lia|]. split; [assumption|]. split; [assumption|]. split; [assumption|].
      split; [intros; lia | reflexivity].
    + exec Hrun. rewrite wrap32_small by lia.
      destruct (IH (idx + 1) ltac:(lia) ltac:(lia))
        as [(i & a & r1 & r2 & Hr & E & G1 & G2 & G3 & Hrun') | (G1 & Hrun')].
      * left. exists i, a, r1, r2.
        split; [lia|]. split; [assumption|]. split; [assumption|]. split; [assumption|].
        split; [|assumption].
        intros j x Hj Hx. destruct (Z.eq_dec j idx) as [->|Hne].
        -- apply F1. assumption.
        -- apply (G3 j); [lia | assumption].
      * right. split.
        -- intros j x Hj Hx. destruct (Z.eq_dec j idx) as [->|Hne].
           ++ apply F1. assumption.
           ++ apply (G1 j); [lia | assumption].
        -- unfold Segregated.heap_fuel at 1. unfold bind at 1.
           exec Hrun. assumption.
Qed.

Lemma seg_node_size (i n : Z) :
  0 <= i < 16 -> In n (fl i) ->
  In (mkBlk n (size_at (bytes (heap s)) n) false) bs /\
  Segregated.get_seglist_idx (size_at (bytes (heap s)) n) = i.
Proof.
  intros Hi Hn.
  destruct (seg_node_block s bs fl _ Hinv i n Hi Hn) as (b & Hb & Hba & Hbf & Hbi & _).
  destruct (seg_block_read s bs fl _ Hinv b (or_intror Hb)) as (Rbs & _).
  rewrite Hba in Rbs. rewrite Rbs. split; [|assumption].
  rewrite <- Hba, <- Hbf. rewrite blk_eta. assumption.
Qed.

Lemma seg_find_fit_first (asize : Z) :
  let m := bytes (heap s) in
  let i0 := Segregated.get_seglist_idx asize in
  (exists i a r1 r2,
     i0 <= i < 16 /\ fl i = r1 ++ a :: r2 /\ asize <= size_at m a /\
     (forall x, In x r1 -> size_at m x < asize) /\
     (forall j x, i0 <= j < i -> In x (fl j) -> size_at m x < asize) /\
     Segregated.find_fit asize s = Ret a s /\ a <> NULL /\
     In (mkBlk a (size_at m a) false) bs) \/
  ((forall j x, i0 <= j < 16 -> In x (fl j) -> size_at m x < asize) /\
   Segregated.find_fit asize s = Ret NULL s).
Proof.
  intros m i0. pose proof (seg_idx_total asize) as Hi. fold i0 in Hi.
  change Segregated.size_class_cnt with 16 in Hi.
  unfold Segregated.find_fit. fold i0. change Segregated.size_class_cnt with 16.
  destruct (seg_find_fit_classes_first asize (Z.to_nat (16 - i0)) i0 ltac:(lia) ltac:(lia))
    as [(i & a & r1 & r2 & Hr & E & G1 & G2 & G3 & Hrun) | (G1 & Hrun)].
  - left. exists i, a, r1, r2.
    assert (Hin : In a (fl i)) by (rewrite E; apply in_or_app; right; left; reflexivity).
    destruct (seg_node_size i a ltac:(lia) Hin) as (Hb & _).
    split; [lia|]. repeat split; try assumption.
    pose proof (seg_tail_addr s bs fl _ Hinv _ Hb) as Ht. cbn [b_addr] in Ht.
    pose proof (seg_heap_extent s bs fl _ Hinv). unfold NULL. lia.
  - right. split; [|assumption].
    intros j x Hj Hx. apply (G1 j); [lia | assumption].
Qed.

(** No free block of [asize] bytes is left out of the search. *)
Lemma seg_find_fit_none (asize : Z) :
  0 < asize ->
  Segregated.find_fit asize s = Ret NULL s ->
  forall b, In b bs -> b_alloc b = false -> b_size b < asize.
Proof.
  intros Hpos Hnull b Hb Hf.
  destruct (seg_find_fit_first asize)
    as [(i & a & r1 & r2 & _ & _ & _ & _ & _ & Hrun & Hnz & _) | (G1 & _)].
  - rewrite Hnull in Hrun. injection Hrun as Ea. congruence.
  - destruct (Z.lt_ge_cases (b_size b) asize) as [|Hfit]; [assumption|exfalso].
    destruct (seg_block_facts s bs fl _ Hinv b (or_intror Hb)) as (_ & _ & Hsz & _).
    destruct (seg_block_read s bs fl _ Hinv b (or_intror Hb)) as (Rbs & _).
    destruct (si_free _ _ _ _ Hinv b Hb Hf) as [[]|Hin].
    pose proof (seg_idx_total (b_size b)) as Hj.
    change Segregated.size_class_cnt with 16 in Hj.
    assert (Hmono : Segregated.get_seglist_idx asize <= Segregated.get_seglist_idx (b_size b)).
    { destruct (get_seglist_idx_classes asize ltac:(lia)) as (Ra & Ca).
      destruct (get_seglist_idx_classes (b_size b) ltac:(lia)) as (Rb & Cb).
      exact (in_class_monotone asize (b_size b) _ _ ltac:(lia) Ra Rb Ca Cb). }
    pose proof (G1 _ _ (conj Hmono (proj2 Hj)) Hin) as Hlt.
    rewrite Rbs in Hlt. lia.
Qed.

Lemma seg_find_fit_spec (asize : Z) :
  exists r,
    Segregated.find_fit asize s = Ret r s /\
    (r = NULL \/ exists b, In b bs /\ b_addr b = r /\ b_alloc b = false /\ asize <= b_size b).
Proof.
  destruct (seg_find_fit_first asize)
    as [(i & a & r1 & r2 & _ & _ & G1 & _ & _ & Hrun & _ & Hb) | (_ & Hrun)].
  - exists a. split; [assumption|]. right.
    exists (mkBlk a (size_at (bytes (heap s)) a) false). repeat split; assumption.
  - exists NULL. split; [assumption | left; reflexivity].
Qed.

End SegregatedSearch.

(** * Extending the heap *)

Lemma seg_round_up_multiple (x : Z) :
  0 <= x < 2 ^ 64 -> x mod 8 = 0 -> Segregated.round_up x 8 = x.
Proof.
  intros Hx H8. unfold Segregated.round_up.
  assert (x <= 2 ^ 64 - 8) by mlia.
  rewrite (wrap64_small (x + (8 - 1))) by lia.
  rewrite wrap64_small by mlia. mlia.
Qed.

(** The adjusted size is a block size whatever the request is; it covers
    the request and the tags when the sum does not wrap around. *)
Lemma seg_asize_spec (n : Z) :
  32 <= Segregated.get_asize n < 2 ^ 64 /\ Segregated.get_asize n mod 8 = 0 /\
  (0 <= n -> n + 19 < 2 ^ 64 -> n + 12 <= Segregated.get_asize n).
Proof.
  unfold Segregated.get_asize, Segregated.round_up, Segregated.max.
  change Segregated.tsize with 12. change Segregated.dsize with 8.
  change Segregated.min_block_size with 32. change (8 - 1) with 7.
  set (x := wrap64 (n + 12)).
  assert (Hx : 0 <= x < 2 ^ 64) by (apply wrap64_range).
  set (y := wrap64 (x + 7)).
  assert (Hy : 0 <= y < 2 ^ 64) by (apply wrap64_range).
  assert (Hq : 0 <= 8 * (y / 8) < 2 ^ 64) by mlia.
  rewrite (wrap64_small (8 * (y / 8))) by exact Hq.
  destruct (Z.gtb_spec (8 * (y / 8)) 32) as [Hbig|Hsmall].
  - split; [lia|]. split; [mlia|].
    intros H0 Hn. unfold y, x. rewrite (wrap64_small (n + 12)) by lia.
    rewrite wrap64_small by lia. mlia.
  - split; [lia|]. split; [reflexivity|].
    intros H0 Hn. unfold y, x in Hsmall. rewrite (wrap64_small (n + 12)) in Hsmall by lia.
    rewrite wrap64_small in Hsmall by lia. mlia.
Qed.

(** The heap with the new free block that [extend_heap] lays over the old
    epilogue, before it is coalesced. *)
Lemma seg_inv_grown (s : Segregated.st) (bs : list blk) (fl : Z -> list Z) (size : Z) :
  seg_inv s bs fl [] -> 32 <= size -> size mod 8 = 0 ->
  mem_brk (heap s) + size <= mem_max_addr (heap s) ->
  let e := mem_brk (heap s) - 8 in
  let m2 := store32 (set_tags (bytes (heap s)) e size false) (e + size) (Segregated.pack 0 true) in
  seg_inv (upd (grown s size) m2) (bs ++ [mkBlk e size false]) fl [e].
Proof.
  intros Hinv Hs H8 Hmax e m2.
  pose proof (seg_heap_extent s bs fl _ Hinv) as He.
  assert (Hag : agree_outside (bytes (heap s)) m2 e (e + size + 4)).
  { unfold m2. apply agree_outside_trans with (set_tags (bytes (heap s)) e size false).
    - eapply agree_outside_widen; [apply set_tags_agree|..]; lia.
    - apply agree_outside_store; lia. }
  pose proof (si_chain _ _ _ _ Hinv) as Hc.
  pose proof (si_tags _ _ _ _ Hinv) as Ht.
  pose proof (si_min _ _ _ _ Hinv) as Hmn.
  change Segregated.epilogue_size with 8 in *.
  constructor; cbn [upd grown heap globals bytes set_bytes mem_start_brk mem_brk mem_max_addr];
    change (seg_prologue (upd (grown s size) m2)) with (seg_prologue s);
    change Segregated.epilogue_size with 8;
    try change (seg_prologue s :: bs ++ [mkBlk e size false])
      with ((seg_prologue s :: bs) ++ [mkBlk e size false]).
  - destruct (si_region _ _ _ _ Hinv) as (R1 & R2 & R3 & R4 & R5).
    unfold region_ok. cbn. lia.
  - exact (si_base _ _ _ _ Hinv).
  - exact (si_align _ _ _ _ Hinv).
  - exact (si_heap_listp _ _ _ _ Hinv).
  - apply chain_snoc. cbn [b_addr b_size].
    split; [exact Hc|]. split; [lia|]. split; [assumption|]. unfold e; lia.
  - apply Forall_app. split; [exact Hmn|].
    apply Forall_cons; [|apply Forall_nil]. cbn. change Segregated.min_block_size with 32. lia.
  - apply Forall_app. split.
    + rewrite Forall_forall in *. intros b Hin.
      pose proof (chain_bounds _ _ _ _ Hc Hin).
      eapply tagged_agree; [exact Hag | left; unfold e; lia | lia | apply Ht; assumption].
    + apply Forall_cons; [|apply Forall_nil]. unfold m2.
      eapply tagged_agree.
      * apply agree_outside_store with (lo := e + size) (hi := e + size + 4); lia.
      * left. cbn [b_addr b_size]. lia.
      * cbn [b_size]. lia.
      * apply tagged_set_tags. lia.
  - unfold m2. replace (mem_brk (heap s) + size - 8) with (e + size) by (unfold e; lia).
    rewrite load32_store32_same. apply wrap32_small. apply pack_range.
  - intros i Hi. destruct (si_lists _ _ _ _ Hinv i Hi) as [Hp Hnd]. split; [|exact Hnd].
    change (head_of (upd (grown s size) m2) i) with (head_of s i).
    assert (Hfr : forall u, In u (head_of s i :: fl i) ->
                  pred_of m2 u = pred_of (bytes (heap s)) u /\
                  succ_of m2 u = succ_of (bytes (heap s)) u).
    { intros u Hu.
      pose proof (free_entity_entity s bs u (seg_class_entity s bs fl _ Hinv i u Hi Hu)) as Eu.
      destruct (seg_entity_facts s bs fl _ Hinv u Eu) as (_ & Hhi & _).
      unfold pred_of, succ_of, load64.
      change Segregated.pred_offset with 8. change Segregated.succ_offset with 16.
      split; apply (agree_outside_load 8 _ _ _ _ _ Hag); cbn; unfold e; lia. }
    apply (path_frame (bytes (heap s))); [exact Hp | |].
    + intros u Hu. apply Hfr. exact Hu.
    + intros v Hv. apply Hfr.
      apply in_app_or in Hv. destruct Hv as [Hv|[<-|[]]]; [right; exact Hv | left; reflexivity].
  - intros i n Hi Hn. destruct (si_nodes _ _ _ _ Hinv i n Hi Hn) as (sz & Hb & Hc0 & _).
    exists sz. split; [apply in_or_app; left; exact Hb|]. split; [exact Hc0|].
    intros [Heq|[]].
    destruct (seg_block_facts s bs fl _ Hinv _ (or_intror Hb)) as (_ & Hhi & Hsz & _).
    cbn [b_addr b_size] in *. unfold e in Heq. lia.
  - intros b Hb Hf. apply in_app_or in Hb. destruct Hb as [Hb|[<-|[]]].
    + destruct (si_free _ _ _ _ Hinv b Hb Hf) as [[]|H]. right. exact H.
    + left. left. reflexivity.
Qed.

Lemma seg_extend_heap_run (s : Segregated.st) (bs : list blk) (fl : Z -> list Z) (size : Z) :
  seg_inv s bs fl [] -> 32 <= size < 2 ^ 64 -> size mod 8 = 0 ->
  mem_brk (heap s) + size <= mem_max_addr (heap s) ->
  let e := mem_brk (heap s) - 8 in
  let m2 := store32 (set_tags (bytes (heap s)) e size false) (e + size) (Segregated.pack 0 true) in
  Segregated.extend_heap size s = Segregated.coalesce e (upd (grown s size) m2).
Proof.
  intros Hinv Hs H8 Hmax e m2.
  pose proof (seg_heap_extent s bs fl _ Hinv) as He.
  unfold Segregated.extend_heap. change Segregated.dsize with 8.
  rewrite seg_round_up_multiple by (try assumption; lia).
  exec (mem_sbrk_granted s size Hmax).
  destruct (Z.eqb_spec (mem_brk (heap s)) sbrk_failed) as [Hbad|_];
    [unfold sbrk_failed in Hbad; lia|].
  change Segregated.epilogue_size with 8. fold e.
  rewrite seg_write_tags_ok; try lia; try assumption;
    try (apply valid_intro; cbn; unfold e; lia).
  assert (Vh : forall m0, valid (heap (upd (grown s size) m0)) e 4 = true)
    by (intros m0; apply valid_intro; cbn; unfold e; lia).
  assert (E : size_at (set_tags (bytes (heap s)) e size false) e = size).
  { pose proof (tagged_set_tags (bytes (heap s)) e size false ltac:(lia)) as T.
    apply (tagged_header _ _ T); cbn [b_size]; [lia | assumption]. }
  exec (seg_find_next_ok _ e (Vh _)).
  change (bytes (heap (grown s size))) with (bytes (heap s)). rewrite E.
  unfold Segregated.write_header.
  assert (Ve : forall m0, valid (heap (upd (grown s size) m0)) (e + size) 4 = true)
    by (intros m0; apply valid_intro; cbn; unfold e; lia).
  exec (st32_ok _ (e + size) _ (Ve _)).
  reflexivity.
Qed.

Lemma seg_inv_refused (s : Segregated.st) (bs : list blk) (fl : Z -> list Z) (ex : list Z)
      (incr : Z) :
  seg_inv s bs fl ex -> seg_inv (refused s incr) bs fl ex.
Proof. intros [I1 I2 I3 I4 I5 I6 I7 I8 I9 I10 I11]. constructor; assumption. Qed.

Lemma seg_extend_heap_shape (s : Segregated.st) (bs : list blk) (fl : Z -> list Z) (size : Z) :
  seg_inv s bs fl [] -> 32 <= size < 2 ^ 64 -> size mod 8 = 0 ->
  mem_brk (heap s) + size <= mem_max_addr (heap s) ->
  exists m' bs' fl' fb,
    Segregated.extend_heap size s = Ret (b_addr fb) (upd (grown s size) m') /\
    seg_inv (upd (grown s size) m') bs' fl' [] /\
    In fb bs' /\ b_alloc fb = false /\ size <= b_size fb /\
    keeps (bytes (heap s)) m' bs bs' /\
    b_addr fb <= mem_brk (heap s) - 8 /\
    b_addr fb + b_size fb = mem_brk (heap s) + size - 8 /\
    (no_adj_free (seg_prologue s :: bs) -> no_adj_free (seg_prologue s :: bs')).
Proof.
  intros Hinv Hs H8 Hmax.
  pose proof (seg_heap_extent s bs fl _ Hinv) as He.
  pose proof (seg_extend_heap_run s bs fl size Hinv Hs H8 Hmax) as Hrun.
  pose proof (seg_inv_grown s bs fl size Hinv ltac:(lia) H8 Hmax) as Hinv2.
  cbv zeta in Hrun, Hinv2.
  set (e := mem_brk (heap s) - 8) in *.
  set (m2 := store32 (set_tags (bytes (heap s)) e size false) (e + size)
                     (Segregated.pack 0 true)) in *.
  set (s2 := upd (grown s size) m2) in *.
  set (nb := mkBlk e size false) in *.
  destruct (last_decomp (seg_prologue s) bs) as (l1 & p & El).
  assert (E2 : seg_prologue s2 :: (bs ++ [nb]) = l1 ++ p :: nb :: []).
  { change (seg_prologue s2) with (seg_prologue s).
    change (seg_prologue s :: bs ++ [nb]) with ((seg_prologue s :: bs) ++ [nb]).
    rewrite El, <- app_assoc. reflexivity. }
  destruct (seg_coalesce_spec s2 (bs ++ [nb]) fl l1 [] p nb Hinv2 E2 eq_refl)
    as (m3 & bs' & fl' & Hco & Hinv3 & E3 & Hkeep).
  set (fb := fused_block p nb []) in *.
  change (upd s2 m3) with (upd (grown s size) m3) in Hco, Hinv3.
  change (seg_prologue s2) with (seg_prologue s) in E3.
  pose proof (si_chain _ _ _ _ Hinv2) as Hc2. rewrite E2 in Hc2.
  apply chain_app in Hc2. destruct Hc2 as (c & Hc2a & Hc2b).
  assert (c = b_addr p) by (cbn [chain] in Hc2b; destruct Hc2b as (? & _); congruence).
  subst c.
  pose proof (fused_block_range p nb [] _ Hc2b) as R. cbv zeta in R. fold fb in R.
  destruct R as (R1 & R2 & R3 & R4 & R5 & R6 & _ & _ & R9 & _).
  specialize (R9 eq_refl). cbn [nb b_addr b_size] in R2, R9.
  assert (Hfb : In fb bs').
  { apply (seg_in_tail s bs' fb); [|left; reflexivity].
    rewrite E3. apply in_or_app. right. apply In_fused_block. }
  exists m3, bs', fl', fb.
  split; [rewrite Hrun; exact Hco|]. split; [exact Hinv3|].
  split; [exact Hfb|]. split; [reflexivity|]. split; [exact R6|].
  split; [|split; [exact R2|split; [unfold e in R9; lia|]]]; cycle 1.
  { intros H3. rewrite E3. rewrite El in H3.
    apply no_adj_free_coalesce; [exact H3 | exact I]. }
  intros a Hin Hal.
  destruct (Hkeep a (in_or_app _ _ _ (or_introl Hin)) Hal) as [K1 K2].
  split; [exact K1|].
  apply same_bytes_trans with m2; [|exact K2].
  pose proof (si_chain _ _ _ _ Hinv) as Hc.
  pose proof (chain_bounds _ _ _ _ Hc (or_intror Hin)) as Hb.
  change Segregated.epilogue_size with 8 in Hb.
  apply same_bytes_agree with (lo := e) (hi := e + size + 4); [|left; unfold e; lia].
  unfold m2. apply agree_outside_trans with (set_tags (bytes (heap s)) e size false).
  - eapply agree_outside_widen; [apply set_tags_agree|..]; lia.
  - apply agree_outside_store; lia.
Qed.

Lemma seg_extend_heap_spec (s : Segregated.st) (bs : list blk) (fl : Z -> list Z) (size : Z) :
  seg_inv s bs fl [] -> 32 <= size < 2 ^ 64 -> size mod 8 = 0 ->
  mem_brk (heap s) + size <= mem_max_addr (heap s) ->
  exists m' bs' fl' fb,
    Segregated.extend_heap size s = Ret (b_addr fb) (upd (grown s size) m') /\
    seg_inv (upd (grown s size) m') bs' fl' [] /\
    In fb bs' /\ b_alloc fb = false /\ size <= b_size fb /\
    keeps (bytes (heap s)) m' bs bs'.
Proof.
  intros Hinv Hs H8 Hmax.
  destruct (seg_extend_heap_shape s bs fl size Hinv Hs H8 Hmax)
    as (m' & bs' & fl' & fb & H1 & H2 & H3 & H4 & H5 & H6 & _).
  exists m', bs', fl', fb.
  exact (conj H1 (conj H2 (conj H3 (conj H4 (conj H5 H6))))).
Qed.

Lemma seg_extend_heap_refused (s : Segregated.st) (size : Z) :
  0 <= size < 2 ^ 64 -> size mod 8 = 0 ->
  mem_max_addr (heap s) < mem_brk (heap s) + size ->
  Segregated.extend_heap size s = Ret NULL (refused s size).
Proof.
  intros Hs H8 Hmax. unfold Segregated.extend_heap. change Segregated.dsize with 8.
  rewrite seg_round_up_multiple by assumption.
  exec (mem_sbrk_refused s size Hmax). reflexivity.
Qed.

(** * [malloc] *)

Lemma seg_place_shape (s : Segregated.st) (bs l1 l2 : list blk) (fl : Z -> list Z)
      (b : blk) (asize : Z) :
  seg_inv s bs fl [] -> bs = l1 ++ b :: l2 -> b_alloc b = false ->
  32 <= asize <= b_size b -> asize mod 8 = 0 ->
  let bs' := l1 ++ placed Segregated.min_block_size b asize ++ l2 in
  exists m' fl' sz,
    Segregated.place (b_addr b) asize s = Ret tt (upd s m') /\
    seg_inv (upd s m') bs' fl' [] /\
    In (mkBlk (b_addr b) sz true) bs' /\ asize <= sz < asize + Segregated.min_block_size /\
    keeps (bytes (heap s)) m' bs bs' /\
    (forall a, In a bs -> b_alloc a = true -> b_addr a <> b_addr b) /\
    (no_adj_free (seg_prologue s :: bs) -> no_adj_free (seg_prologue s :: bs')).
Proof.
  intros Hinv E Hfree Ha H8 bs'. subst bs'.
  assert (Hin : In b bs) by (rewrite E; apply in_or_app; right; left; reflexivity).
  destruct (seg_place_spec s bs fl l1 l2 b asize Hinv E Hfree Ha H8) as (m' & fl' & Hrun & Hinv' & Hsame).
  destruct (placed_In_bound Segregated.min_block_size b asize ltac:(lia) ltac:(reflexivity))
    as (sz & Hsz & Hle).
  pose proof (si_chain _ _ _ _ Hinv) as Hc.
  exists m', fl', sz.
  split; [exact Hrun|]. split; [exact Hinv'|].
  split; [apply in_or_app; right; apply in_or_app; left; exact Hsz|].
  split; [exact Hle|].
  split; [|split]; cycle 2.
  { intros H3. rewrite E in H3.
    exact (no_adj_free_placed Segregated.min_block_size (seg_prologue s :: l1) l2 b asize
             Hfree H3). }
  - intros a Hina Hal.
    assert (Hside : In a (l1 ++ l2)).
    { rewrite E in Hina. apply in_app_or in Hina. apply in_or_app.
      destruct Hina as [Hina|[<-|Hina]]; [left; assumption | congruence | right; assumption]. }
    split.
    + apply in_app_or in Hside. apply in_or_app.
      destruct Hside as [Hs|Hs]; [left; exact Hs | right; apply in_or_app; right; exact Hs].
    + apply Hsame; assumption.
  - intros a Hina Hal Heq.
    assert (a = b) by (eapply (chain_addr_inj _ _ _ a b Hc); try (right; assumption); assumption).
    congruence.
Qed.

Lemma seg_place_finish (s : Segregated.st) (bs : list blk) (fl : Z -> list Z)
      (b : blk) (asize : Z) :
  seg_inv s bs fl [] -> In b bs -> b_alloc b = false ->
  32 <= asize <= b_size b -> asize mod 8 = 0 ->
  exists m' bs' fl' sz,
    Segregated.place (b_addr b) asize s = Ret tt (upd s m') /\
    seg_inv (upd s m') bs' fl' [] /\
    In (mkBlk (b_addr b) sz true) bs' /\ asize <= sz /\
    keeps (bytes (heap s)) m' bs bs' /\
    (forall a, In a bs -> b_alloc a = true -> b_addr a <> b_addr b).
Proof.
  intros Hinv Hin Hfree Ha H8.
  destruct (in_split _ _ Hin) as (l1 & l2 & E).
  destruct (seg_place_shape s bs l1 l2 fl b asize Hinv E Hfree Ha H8)
    as (m' & fl' & sz & H1 & H2 & H3 & H4 & H5 & H6 & _).
  exists m', (l1 ++ placed Segregated.min_block_size b asize ++ l2), fl', sz.
  exact (conj H1 (conj H2 (conj H3 (conj (proj1 H4) (conj H5 H6))))).
Qed.

Lemma seg_malloc_shape (s : Segregated.st) (bs : list blk) (fl : Z -> list Z) (n : Z) :
  seg_inv s bs fl [] -> n <> 0 ->
  let asize := Segregated.get_asize n in
  let size := Segregated.max asize Segregated.chunksize in
  let fits := exists b, In b bs /\ b_alloc b = false /\ asize <= b_size b in
  exists p s',
    Segregated.malloc n s = Ret p s' /\ globals s' = globals s /\
    ((p = NULL /\ s' = refused s size /\ seg_inv s' bs fl [] /\ ~ fits /\
      mem_max_addr (heap s) < mem_brk (heap s) + size)
     \/
     (p <> NULL /\
      exists bs' fl' sz,
        seg_inv s' bs' fl' [] /\
        In (mkBlk (p - 8) sz true) bs' /\
        asize <= sz < asize + Segregated.min_block_size /\
        keeps (bytes (heap s)) (bytes (heap s')) bs bs' /\
        (forall a, In a bs -> b_alloc a = true -> b_addr a <> p - 8) /\
        (no_adj_free (seg_prologue s :: bs) -> no_adj_free (seg_prologue s :: bs')) /\
        ((s' = upd s (bytes (heap s')) /\
          exists i r1 r2 l1 b l2,
            Segregated.get_seglist_idx asize <= i < 16 /\ fl i = r1 ++ b_addr b :: r2 /\
            (forall x, In x r1 -> size_at (bytes (heap s)) x < asize) /\
            (forall j x, Segregated.get_seglist_idx asize <= j < i -> In x (fl j) ->
                         size_at (bytes (heap s)) x < asize) /\
            bs = l1 ++ b :: l2 /\ b_alloc b = false /\ asize <= b_size b /\
            p = b_addr b + 8 /\
            bs' = l1 ++ placed Segregated.min_block_size b asize ++ l2) \/
         (~ fits /\ mem_brk (heap s) + size <= mem_max_addr (heap s) /\
          s' = upd (grown s size) (bytes (heap s')))))).
Proof.
  intros Hinv Hn asize size fits.
  destruct (seg_asize_spec n) as (Ha1 & Ha8 & _). fold asize in Ha1, Ha8.
  pose proof (seg_heap_extent s bs fl _ Hinv) as He.
  unfold Segregated.malloc. fold asize. fold size.
  destruct (Z.eqb_spec n 0) as [|_]; [contradiction|].
  unfold get_globals at 1. unfold bind at 1.
  destruct (Z.eqb_spec (Segregated.heap_listp (globals s)) NULL) as [Hz|_];
    [unfold NULL in Hz; lia|].
  rewrite ret_bind.
  destruct (seg_find_fit_first s bs fl Hinv asize)
    as [(i & a & r1 & r2 & Hir & Efl & Hsz & Hr1 & Hlow & Hfit & Hnz & Hin) | (_ & Hfit)].
  - (* a block fits *)
    set (b := mkBlk a (size_at (bytes (heap s)) a) false) in *.
    exec Hfit.
    destruct (Z.eqb_spec a NULL) as [Hz|_]; [contradiction|].
    rewrite ret_bind.
    destruct (Z.eqb_spec a NULL) as [Hz|_]; [contradiction|].
    destruct (in_split _ _ Hin) as (k1 & k2 & Eb).
    destruct (seg_place_shape s bs k1 k2 fl b asize Hinv Eb eq_refl
                ltac:(cbn [b b_size]; lia) Ha8)
      as (m2 & fl2 & sz & Hpl & Hinv2 & Hin2 & Hle & Hk2 & Hfresh & H3).
    set (bs2 := k1 ++ placed Segregated.min_block_size b asize ++ k2) in *.
    cbn [b b_addr] in Hpl, Hin2, Hfresh.
    exec Hpl.
    exists (Segregated.header_to_payload a), (upd s m2).
    unfold Segregated.header_to_payload, Segregated.payload_offset.
    split; [reflexivity|]. split; [reflexivity|]. right.
    destruct (seg_block_facts _ _ _ _ Hinv b (or_intror Hin)) as (Hblo & _).
    cbn [b b_addr] in Hblo.
    split; [unfold NULL; lia|]. exists bs2, fl2, sz.
    replace (a + 8 - 8) with a by lia.
    split; [exact Hinv2|].
    split; [exact Hin2|]. split; [exact Hle|]. split; [exact Hk2|].
    split; [exact Hfresh|]. split; [exact H3|].
    left. split; [rewrite bytes_upd; reflexivity|].
    exists i, r1, r2, k1, b, k2. cbn [b b_addr b_size b_alloc].
    repeat split; try assumption; try lia; try reflexivity.
  - (* no fit: the heap is extended *)
    assert (Hnofit : ~ fits).
    { intros (b & Hin & Hfree & Hsz).
      pose proof (seg_find_fit_none s bs fl Hinv asize ltac:(lia) Hfit b Hin Hfree). lia. }
    exec Hfit.
    change (NULL =? NULL) with true. cbv iota.
    assert (Hsize : 4096 <= size < 2 ^ 64 /\ size mod 8 = 0 /\ asize <= size).
    { unfold size, Segregated.max. change Segregated.chunksize with 4096.
      destruct (Z.gtb_spec asize 4096); repeat split; try lia; try assumption. }
    destruct Hsize as (Hs1 & Hs8 & Hs2).
    destruct (Z.le_gt_cases (mem_brk (heap s) + size) (mem_max_addr (heap s))) as [Hok|Hno].
    + destruct (seg_extend_heap_shape s bs fl size Hinv ltac:(lia) Hs8 Hok)
        as (m1 & bs1 & fl1 & fb & Hext & Hinv1 & Hfb & Hfree & Hfsz & Hk1 & _ & _ & H31).
      exec Hext.
      destruct (seg_block_facts _ _ _ _ Hinv1 fb (or_intror Hfb)) as (Hflo & _).
      change (globals (upd (grown s size) m1)) with (globals s) in Hflo.
      destruct (Z.eqb_spec (b_addr fb) NULL) as [Hz|_]; [unfold NULL in Hz; lia|].
      destruct (in_split _ _ Hfb) as (j1 & j2 & Efb).
      destruct (seg_place_shape _ bs1 j1 j2 fl1 fb asize Hinv1 Efb Hfree ltac:(lia) Ha8)
        as (m2 & fl2 & sz & Hpl & Hinv2 & Hin2 & Hle & Hk2 & Hfresh & H32).
      set (bs2 := j1 ++ placed Segregated.min_block_size fb asize ++ j2) in *.
      exec Hpl.
      exists (Segregated.header_to_payload (b_addr fb)), (upd (grown s size) m2).
      unfold Segregated.header_to_payload, Segregated.payload_offset.
      split; [reflexivity|]. split; [reflexivity|]. right.
      split; [unfold NULL; lia|]. exists bs2, fl2, sz.
      replace (b_addr fb + 8 - 8) with (b_addr fb) by lia.
      split; [exact Hinv2|].
      split; [exact Hin2|]. split; [exact Hle|]. split; [|split; [|split]].
      * eapply keeps_trans; [exact Hk1 | exact Hk2].
      * intros a Hina Hal. destruct (Hk1 a Hina Hal) as [Hina1 _].
        apply Hfresh; assumption.
      * intros H3. apply H32. apply H31. exact H3.
      * right. split; [exact Hnofit|]. split; [exact Hok|].
        rewrite bytes_upd. reflexivity.
    + rewrite (bind_Ret _ _ _ _ _ (seg_extend_heap_refused s size ltac:(lia) Hs8 Hno)).
      change (NULL =? NULL) with true. cbv iota.
      exists NULL, (refused s size).
      split; [reflexivity|]. split; [reflexivity|]. left.
      split; [reflexivity|]. split; [reflexivity|].
      split; [apply seg_inv_refused; assumption|]. split; [exact Hnofit | exact Hno].
Qed.

Lemma seg_malloc_spec (s : Segregated.st) (bs : list blk) (fl : Z -> list Z) (n : Z) :
  seg_inv s bs fl [] -> n <> 0 ->
  let asize := Segregated.get_asize n in
  exists p s',
    Segregated.malloc n s = Ret p s' /\ globals s' = globals s /\
    ((p = NULL /\ bytes (heap s') = bytes (heap s) /\ seg_inv s' bs fl [])
     \/
     (p <> NULL /\
      exists bs' fl' sz,
        seg_inv s' bs' fl' [] /\
        In (mkBlk (p - 8) sz true) bs' /\ asize <= sz /\
        keeps (bytes (heap s)) (bytes (heap s')) bs bs' /\
        (forall a, In a bs -> b_alloc a = true -> b_addr a <> p - 8))).
Proof.
  intros Hinv Hn asize.
  destruct (seg_malloc_shape s bs fl n Hinv Hn) as (p & s' & Hrun & Hg & Hres).
  exists p, s'. split; [exact Hrun|]. split; [exact Hg|].
  destruct Hres as [(Hp & Hs' & Hinv' & _) |
                    (Hp & bs' & fl' & sz & Hinv' & Hin & Hsz & Hk & Hfresh & _)].
  - left. split; [exact Hp|]. split; [rewrite Hs'; reflexivity | exact Hinv'].
  - right. split; [exact Hp|]. exists bs', fl', sz.
    exact (conj Hinv' (conj Hin (conj (proj1 Hsz) (conj Hk Hfresh)))).
Qed.

(** * [free] *)

Lemma seg_free_shape (s : Segregated.st) (bs : list blk) (fl : Z -> list Z) (a sz : Z) :
  seg_inv s bs fl [] -> In (mkBlk a sz true) bs ->
  exists m' bs' fl',
    Segregated.free (a + 8) s = Ret tt (upd s m') /\
    seg_inv (upd s m') bs' fl' [] /\
    (forall x, In x bs -> b_alloc x = true -> x <> mkBlk a sz true ->
               In x bs' /\ same_bytes (bytes (heap s)) m' x) /\
    (exists fb, In fb bs' /\ b_alloc fb = false /\
                b_addr fb <= a /\ a + sz <= b_addr fb + b_size fb) /\
    (no_adj_free (seg_prologue s :: bs) -> no_adj_free (seg_prologue s :: bs')).
Proof.
  intros Hinv Hin.
  set (b := mkBlk a sz true) in *.
  assert (Hb : In b (seg_prologue s :: bs)) by (right; assumption).
  destruct (seg_block_facts s bs fl _ Hinv b Hb) as (Hblo & Hbhi & Hbsz & Hb8 & _ & _ & Vb & Vbf & _).
  destruct (seg_block_read s bs fl _ Hinv b Hb) as (Rbs & _).
  pose proof (seg_heap_extent s bs fl _ Hinv) as He.
  pose proof (si_chain _ _ _ _ Hinv) as Hc.
  cbn [b b_addr b_size] in *.
  destruct (in_split _ _ Hin) as (l1 & l2 & E).
  set (m := bytes (heap s)) in *.
  set (m1 := set_tags m a sz false).
  set (b' := mkBlk a sz false).
  pose proof Hc as Hc'. rewrite E in Hc'.
  change (seg_prologue s :: l1 ++ b :: l2) with ((seg_prologue s :: l1) ++ [b] ++ l2) in Hc'.
  apply chain_app in Hc'. destruct Hc' as (c & Hc1 & Hc2).
  apply chain_app in Hc2. destruct Hc2 as (c' & Hcb & Hc2).
  cbn [chain b b_addr b_size] in Hcb. destruct Hcb as (<- & _ & _ & <-).
  (* the block marked free *)
  assert (Hinv1 : seg_inv (upd s m1) (l1 ++ [b'] ++ l2) fl [b_addr b']).
  { apply (seg_inv_retag s bs _ fl [] _ m1 (seg_prologue s :: l1) [b] [b'] l2 a (a + sz) Hinv).
    - rewrite E. reflexivity.
    - reflexivity.
    - exact Hc1.
    - cbn [chain b b_addr b_size]. repeat split; lia.
    - cbn [chain b' b_addr b_size]. repeat split; lia.
    - apply Forall_cons; [|apply Forall_nil]. cbn. change Segregated.min_block_size with 32. lia.
    - apply Forall_cons; [|apply Forall_nil]. apply tagged_set_tags. lia.
    - apply set_tags_agree. lia.
    - intros x [<-|[]]. cbn. discriminate.
    - intros x [<-|[]] _. left. reflexivity.
    - intros x Hx. split; [intros [<-|[]]; cbn in Hx; lia | intros []]. }
  destruct (mid_decomp (seg_prologue s) l1 b' l2) as (l1' & p & E1).
  destruct (seg_coalesce_spec (upd s m1) (l1 ++ [b'] ++ l2) fl l1' l2 p b' Hinv1 E1 eq_refl)
    as (m3 & bs' & fl' & Hco & Hinv3 & E3 & Hkeep).
  rewrite upd_upd in Hco, Hinv3. rewrite bytes_upd in Hkeep.
  change (seg_prologue (upd s m1)) with (seg_prologue s) in E3.
  set (fb := fused_block p b' l2) in *.
  assert (Hfb : In fb bs').
  { apply (seg_in_tail s bs' fb); [|left; reflexivity].
    rewrite E3. apply in_or_app. right. apply In_fused_block. }
  assert (Hcp : chain (b_addr p) (p :: b' :: l2) (mem_brk (heap s) - Segregated.epilogue_size)).
  { pose proof (si_chain _ _ _ _ Hinv1) as Hc1'.
    change (seg_prologue (upd s m1) :: l1 ++ [b'] ++ l2)
      with (seg_prologue s :: l1 ++ b' :: l2) in Hc1'.
    rewrite E1 in Hc1'. apply chain_app in Hc1'. destruct Hc1' as (c0 & _ & Hc1').
    pose proof Hc1' as Hc1''. cbn [chain] in Hc1''. destruct Hc1'' as (<- & _).
    exact Hc1'. }
  pose proof (fused_block_range p b' l2 _ Hcp) as R. cbv zeta in R. fold fb in R.
  destruct R as (R1 & R2 & R3 & R4 & _).
  cbn [b' b_addr b_size] in R2, R3.
  exists m3, bs', fl'. split; [|split; [exact Hinv3|split; [|split]]]; cycle 2.
  { exists fb. split; [exact Hfb|]. split; [reflexivity|]. lia. }
  { intros H3. rewrite E3.
    assert (El : seg_prologue s :: l1 = l1' ++ [p]).
    { apply (app_inv_tail (b' :: l2)). rewrite <- app_assoc. exact E1. }
    rewrite E in H3.
    change (seg_prologue s :: l1 ++ b :: l2) with ((seg_prologue s :: l1) ++ b :: l2) in H3.
    rewrite El in H3. apply no_adj_free_app_inv in H3. destruct H3 as [H31 H32].
    apply no_adj_free_coalesce; [exact H31 | exact (no_adj_free_tl _ H32)]. }
  - unfold Segregated.free.
    destruct (Z.eqb_spec (a + 8) NULL) as [Hz|_]; [unfold NULL in Hz; lia|].
    unfold Segregated.payload_to_header, Segregated.payload_offset.
    replace (a + 8 - 8) with a by lia.
    exec (seg_get_size_ok s a Vb). fold m. rewrite Rbs.
    rewrite seg_write_tags_ok; try lia; try assumption.
    fold m. fold m1.
    change a with (b_addr b') at 1.
    exec Hco. reflexivity.
  - intros x Hx Hal Hne.
    assert (Hx1 : In x (l1 ++ [b'] ++ l2)).
    { rewrite E in Hx. apply in_app_or in Hx. apply in_or_app.
      destruct Hx as [Hx|[Hx|Hx]]; [left; assumption | congruence |].
      right. right. assumption. }
    destruct (Hkeep x Hx1 Hal) as [K1 K2]. split; [exact K1|].
    apply same_bytes_trans with m1; [|exact K2].
    destruct (chain_disjoint _ _ _ _ _ Hc (or_intror Hx) Hb) as [->|Hd]; [congruence|].
    cbn [b b_addr b_size] in Hd.
    apply same_bytes_agree with (lo := a) (hi := a + sz); [|lia].
    apply set_tags_agree. lia.
Qed.

Lemma seg_free_spec (s : Segregated.st) (bs : list blk) (fl : Z -> list Z) (a sz : Z) :
  seg_inv s bs fl [] -> In (mkBlk a sz true) bs ->
  exists m' bs' fl',
    Segregated.free (a + 8) s = Ret tt (upd s m') /\
    seg_inv (upd s m') bs' fl' [] /\
    (forall x, In x bs -> b_alloc x = true -> x <> mkBlk a sz true ->
               In x bs' /\ same_bytes (bytes (heap s)) m' x).
Proof.
  intros Hinv Hin.
  destruct (seg_free_shape s bs fl a sz Hinv Hin) as (m' & bs' & fl' & H1 & H2 & H3 & _).
  exists m', bs', fl'. exact (conj H1 (conj H2 H3)).
Qed.

(** * [realloc] and [calloc] *)

(** Writing into the payload of an allocated block keeps the invariant. *)
Lemma seg_inv_payload (s : Segregated.st) (bs : list blk) (fl : Z -> list Z) (ex : list Z)
      (b : blk) (m' : mem) :
  seg_inv s bs fl ex -> In b bs -> b_alloc b = true ->
  agree_outside (bytes (heap s)) m' (b_addr b + 4) (b_addr b + b_size b - 4) ->
  seg_inv (upd s m') bs fl ex.
Proof.
  intros Hinv Hin Hal Hag.
  destruct (in_split _ _ Hin) as (l1 & l2 & E).
  pose proof (si_chain _ _ _ _ Hinv) as Hc. rewrite E in Hc.
  change (seg_prologue s :: l1 ++ b :: l2) with ((seg_prologue s :: l1) ++ [b] ++ l2) in Hc.
  apply chain_app in Hc. destruct Hc as (c & Hc1 & Hc2).
  apply chain_app in Hc2. destruct Hc2 as (c' & Hcb & Hc2).
  assert (Hb : In b (seg_prologue s :: bs)) by (right; assumption).
  destruct (seg_block_facts s bs fl _ Hinv b Hb) as (_ & _ & Hbsz & _ & _ & Ht & _).
  pose proof Hcb as Hcb'. cbn [chain] in Hcb'. destruct Hcb' as (<- & _ & _ & <-).
  apply (seg_inv_retag s bs bs fl ex ex m' (seg_prologue s :: l1) [b] [b] l2 (b_addr b)
            (b_addr b + b_size b) Hinv).
  - rewrite E. reflexivity.
  - rewrite E. reflexivity.
  - exact Hc1.
  - exact Hcb.
  - exact Hcb.
  - apply Forall_cons; [|apply Forall_nil]. change Segregated.min_block_size with 32. lia.
  - apply Forall_cons; [|apply Forall_nil].
    destruct Ht as [Ht1 Ht2]. unfold tagged, load32.
    rewrite !(agree_outside_load 4 _ _ _ _ _ Hag) by (cbn; lia).
    split; assumption.
  - eapply agree_outside_widen; [exact Hag | lia | lia].
  - intros x [<-|[]] Hf. congruence.
  - intros x [<-|[]] Hf. congruence.
  - intros x _. tauto.
Qed.

Lemma agree_outside_fill (m : mem) (dst c n lo hi : Z) :
  lo <= dst -> dst + n <= hi -> agree_outside m (fill_bytes m dst c n) lo hi.
Proof.
  intros Hl Hh x Hx. unfold get_byte. rewrite fill_bytes_out by lia. reflexivity.
Qed.

Lemma seg_realloc_spec (s : Segregated.st) (bs : list blk) (fl : Z -> list Z) (p sz n : Z) :
  seg_inv s bs fl [] -> In (mkBlk (p - 8) sz true) bs -> n <> 0 ->
  exists q s',
    Segregated.realloc p n s = Ret q s' /\
    ((q = NULL /\ bytes (heap s') = bytes (heap s) /\ seg_inv s' bs fl [])
     \/
     (q <> NULL /\ q mod 8 = 0 /\ (exists bs' fl', seg_inv s' bs' fl' []) /\
      (0 <= n -> n + 19 < 2 ^ 64 ->
       forall i, 0 <= i < Z.min (sz - 12) n ->
                 get_byte (bytes (heap s')) (q + i) = get_byte (bytes (heap s)) (p + i)))).
Proof.
  intros Hinv Hin Hn.
  set (b := mkBlk (p - 8) sz true) in *.
  assert (Hbin : In b (seg_prologue s :: bs)) by (right; assumption).
  destruct (seg_block_facts s bs fl _ Hinv b Hbin) as (Hblo & Hbhi & Hbsz & Hb8 & Hbal & _ & Vb & _).
  destruct (seg_block_read s bs fl _ Hinv b Hbin) as (Rbs & _).
  pose proof (seg_heap_extent s bs fl _ Hinv) as He.
  cbn [b b_addr b_size] in Hblo, Hbhi, Hbsz, Hb8, Hbal, Vb, Rbs.
  destruct (seg_asize_spec n) as (Ha1 & Ha8 & Han).
  set (asize := Segregated.get_asize n) in *.
  assert (Hp8 : p mod 8 = 0) by mlia.
  unfold Segregated.realloc. fold asize.
  destruct (Z.eqb_spec n 0); [contradiction|].
  destruct (Z.eqb_spec p NULL) as [Hz|Hpz]; [unfold NULL in Hz; lia|].
  unfold Segregated.payload_to_header, Segregated.payload_offset.
  exec (seg_get_size_ok s (p - 8) Vb). rewrite Rbs.
  change Segregated.min_block_size with 32.
  destruct (Z.geb_spec sz asize) as [Hfits|Hgrow].
  - (* in place *)
    rewrite (wrap64_small (sz - asize)) by lia.
    destruct (Z.geb_spec (sz - asize) 32) as [Hsplit|Hwhole].
    + destruct (in_split _ _ Hin) as (l1 & l2 & E).
      destruct (seg_split_spec s bs fl [] l1 l2 b asize Hinv E)
        as (m' & fl' & Hrun & Hinv' & _ & Hsame); try assumption;
        try (cbn [b b_size]; lia).
      { intros x []. }
      { cbn. discriminate. }
      cbn [b b_addr b_size] in Hrun, Hsame, Hinv'.
      exec Hrun. exists p, (upd s m'). split; [reflexivity|]. right.
      split; [exact Hpz|]. split; [exact Hp8|]. split; [eexists _, fl'; exact Hinv'|].
      intros H0 Hb i Hi. rewrite bytes_upd.
      specialize (Han H0 Hb). apply Hsame. lia.
    + rewrite ret_bind. exists p, s. split; [reflexivity|]. right.
      split; [exact Hpz|]. split; [exact Hp8|]. split; [exists bs, fl; exact Hinv|].
      intros _ _ i Hi. reflexivity.
  - (* a new block *)
    destruct (seg_malloc_spec s bs fl n Hinv Hn) as (q & s1 & Hm & Hg & Hres).
    exec Hm.
    destruct Hres as [(-> & Hbytes & Hinv1)|(Hq & bs1 & fl1 & sz1 & Hinv1 & Hnew & Hsz1 & Hk & Hfresh)].
    + change (NULL =? NULL) with true. cbv iota.
      exists NULL, s1. split; [reflexivity|]. left.
      split; [reflexivity | split; assumption].
    + destruct (Z.eqb_spec q NULL) as [|_]; [contradiction|].
      fold asize in Hsz1.
      destruct (Hk b Hin eq_refl) as [Hin1 Hsame1].
      set (nb := mkBlk (q - 8) sz1 true) in *.
      assert (Hbin1 : In b (seg_prologue s1 :: bs1)) by (right; assumption).
      assert (Hnin1 : In nb (seg_prologue s1 :: bs1)) by (right; assumption).
      destruct (seg_block_facts s1 bs1 fl1 _ Hinv1 b Hbin1) as (Hb1lo & Hb1hi & _ & _ & _ & _ & Vb1 & _).
      destruct (seg_block_facts s1 bs1 fl1 _ Hinv1 nb Hnin1) as (Hnlo & Hnhi & Hnsz & Hn8 & Hnal & _).
      destruct (seg_block_read s1 bs1 fl1 _ Hinv1 b Hbin1) as (Rbs1 & _).
      pose proof (seg_heap_extent s1 bs1 fl1 _ Hinv1) as He1.
      pose proof (si_chain _ _ _ _ Hinv1) as Hc1.
      cbn [b nb b_addr b_size] in Hb1lo, Hb1hi, Hnlo, Hnhi, Hnsz, Hn8, Hnal, Rbs1, Vb1.
      assert (Hdisj : q - 8 + sz1 <= p - 8 \/ p - 8 + sz <= q - 8).
      { destruct (chain_disjoint _ _ _ _ _ Hc1 Hnin1 Hbin1) as [Heq|Hd].
        - exfalso. apply (Hfresh b Hin eq_refl). rewrite <- Heq. reflexivity.
        - cbn [b nb b_addr b_size] in Hd. lia. }
      unfold Segregated.get_payload_size.
      exec (seg_get_size_ok s1 (p - 8) Vb1). rewrite Rbs1.
      rewrite ret_bind.
      change Segregated.tsize with 12.
      rewrite (wrap64_small (sz - 12)) by lia.
      set (m2 := copy_bytes (bytes (heap s1)) q p (sz - 12)).
      assert (Hcp : memcpy q p (sz - 12) s1 = Ret tt (upd s1 m2)).
      { apply memcpy_ok; try lia; apply valid_intro; lia. }
      exec Hcp.
      assert (Hinv2 : seg_inv (upd s1 m2) bs1 fl1 []).
      { apply (seg_inv_payload s1 bs1 fl1 [] nb m2 Hinv1 Hnew eq_refl).
        cbn [nb b_addr b_size]. apply agree_outside_copy; lia. }
      destruct (seg_free_spec (upd s1 m2) bs1 fl1 (p - 8) sz Hinv2 Hin1)
        as (m3 & bs3 & fl3 & Hfr & Hinv3 & Hkept).
      replace (p - 8 + 8) with p in Hfr by lia.
      exec Hfr. rewrite upd_upd in Hinv3.
      exists q, (upd s1 m3). split; [reflexivity|]. right.
      split; [assumption|]. split; [mlia|]. split; [exists bs3, fl3; exact Hinv3|].
      intros _ _ i Hi. rewrite bytes_upd.
      destruct (Hkept nb Hnew eq_refl) as [_ Hsame3].
      { unfold nb, b. intros Heq. injection Heq as Heq _. apply (Hfresh b Hin eq_refl).
        cbn [b b_addr]. lia. }
      rewrite (Hsame3 (q + i)) by (cbn [nb b_addr b_size]; lia).
      rewrite bytes_upd. unfold m2. rewrite get_byte_copy_in by lia.
      replace (p + (q + i - q)) with (p + i) by lia.
      apply Hsame1. cbn [b b_addr b_size]. lia.
Qed.

(** [calloc]: whatever it returns, it leaves a well-formed heap; it
    returns when the adjusted size of the product does not wrap around. *)
Lemma seg_calloc_spec (s : Segregated.st) (bs : list blk) (fl : Z -> list Z) (a b : Z) :
  seg_inv s bs fl [] ->
  (forall r s', Segregated.calloc a b s = Ret r s' ->
     seg_wf s' /\ (r <> NULL -> r mod 8 = 0)) /\
  (wrap64 (a * b) + 19 < 2 ^ 64 -> exists r s', Segregated.calloc a b s = Ret r s').
Proof.
  intros Hinv. unfold Segregated.calloc.
  set (n := wrap64 (a * b)).
  assert (Hnr : 0 <= n < 2 ^ 64) by apply wrap64_range.
  destruct (Z.eq_dec n 0) as [Hz|Hnz].
  - rewrite Hz. change (Segregated.malloc 0) with (@ret Segregated.vars Z NULL).
    rewrite ret_bind. change (negb (NULL =? NULL)) with false. cbv iota. rewrite ret_bind.
    split.
    + intros r s' H. injection H as <- <-. split; [exists bs, fl; exact Hinv | congruence].
    + intros _. exists NULL, s. reflexivity.
  - destruct (seg_malloc_spec s bs fl n Hinv Hnz) as (p & s1 & Hm & Hg & Hres).
    exec Hm.
    destruct Hres as [(-> & Hbytes & Hinv1)|(Hq & bs1 & fl1 & sz1 & Hinv1 & Hnew & Hsz1 & Hk & Hfresh)].
    + change (negb (NULL =? NULL)) with false. cbv iota. rewrite ret_bind. split.
      * intros r s' H. injection H as <- <-. split; [exists bs, fl; exact Hinv1 | congruence].
      * intros _. exists NULL, s1. reflexivity.
    + destruct (Z.eqb_spec p NULL) as [|_]; [contradiction|]. cbn [negb].
      set (nb := mkBlk (p - 8) sz1 true) in *.
      assert (Hnin1 : In nb (seg_prologue s1 :: bs1)) by (right; assumption).
      destruct (seg_block_facts s1 bs1 fl1 _ Hinv1 nb Hnin1) as (Hnlo & Hnhi & Hnsz & Hn8 & Hnal & _).
      pose proof (seg_heap_extent s1 bs1 fl1 _ Hinv1) as He1.
      cbn [nb b_addr b_size] in Hnlo, Hnhi, Hnsz, Hn8, Hnal.
      destruct (seg_asize_spec n) as (_ & _ & Han).
      unfold memset. cbv zeta. unfold bind, ret.
      destruct (Z.eqb_spec n 0) as [|_]; [contradiction|].
      destruct (valid (heap s1) p n) eqn:Vp.
      * assert (Hfit : n + 19 < 2 ^ 64).
        { pose proof (valid_range _ _ _ Vp). lia. }
        specialize (Han ltac:(lia) Hfit).
        assert (Hinv2 : seg_inv (upd s1 (fill_bytes (bytes (heap s1)) p 0 n)) bs1 fl1 []).
        { apply (seg_inv_payload s1 bs1 fl1 [] nb _ Hinv1 Hnew eq_refl).
          cbn [nb b_addr b_size]. apply agree_outside_fill; lia. }
        split.
        -- intros r s' H. cbn in H. injection H as <- <-.
           split; [exists bs1, fl1; exact Hinv2 | intros _; mlia].
        -- intros _. eexists _, _. reflexivity.
      * split; [intros r s' H; discriminate|].
        intros Hfit. exfalso. specialize (Han ltac:(lia) Hfit).
        assert (valid (heap s1) p n = true) by (apply valid_intro; lia). congruence.
Qed.

(** * [mm_init] *)

Lemma init_heads_mem_spec (start : Z) (n : nat) :
  forall (i : Z) (m : mem),
    0 <= start -> 0 <= i -> start + 32 * (i + Z.of_nat n) < 2 ^ 64 ->
    let m' := init_heads_mem n start i m in
    agree_outside m m' (start + 32 * i) (start + 32 * (i + Z.of_nat n)) /\
    forall j, i <= j < i + Z.of_nat n ->
      pred_of m' (start + j * 32) = start + j * 32 /\
      succ_of m' (start + j * 32) = start + j * 32.
Proof.
  induction n as [|n IH]; intros i m Hs Hi Hhi; cbn [init_heads_mem].
  - split; [apply agree_outside_refl | intros j Hj; lia].
  - change Segregated.block_size with 32. change Segregated.pred_offset with 8.
    change Segregated.succ_offset with 16.
    set (b := start + i * 32).
    set (m1 := store64 (store64 (set_tags m b 32 true) (b + 8) b) (b + 16) b).
    destruct (IH (i + 1) m1 Hs ltac:(lia) ltac:(lia)) as [Hag Hl].
    set (m' := init_heads_mem n start (i + 1) m1) in *.
    assert (Hag1 : agree_outside m m1 (start + 32 * i) (start + 32 * (i + 1))).
    { unfold m1. apply agree_outside_trans with (store64 (set_tags m b 32 true) (b + 8) b);
        [apply agree_outside_trans with (set_tags m b 32 true)|].
      - eapply agree_outside_widen; [apply set_tags_agree|..]; unfold b; lia.
      - apply agree_outside_store; unfold b; lia.
      - apply agree_outside_store; unfold b; lia. }
    split.
    + apply agree_outside_trans with m1.
      * eapply agree_outside_widen; [exact Hag1|..]; lia.
      * eapply agree_outside_widen; [exact Hag|..]; lia.
    + intros j Hj. destruct (Z.eq_dec j i) as [->|Hne].
      * fold b. unfold pred_of, succ_of, load64.
        change Segregated.pred_offset with 8. change Segregated.succ_offset with 16.
        rewrite !(agree_outside_load 8 _ _ _ _ _ Hag) by (change (Z.of_nat 8) with 8; unfold b; lia).
        unfold m1. fold load64.
        rewrite (load64_store64_other _ (b + 16) _ (b + 8)) by lia.
        rewrite !load64_store64_same. rewrite wrap64_small by (unfold b; lia).
        split; reflexivity.
      * apply Hl. lia.
Qed.

Lemma init_heads_ok (start : Z) (n : nat) :
  forall (i : Z) (s : Segregated.st),
    mem_start_brk (heap s) <= start + 32 * i ->
    start + 32 * (i + Z.of_nat n) <= mem_brk (heap s) -> 0 <= i ->
    Segregated.init_heads n start i s =
    Ret tt (upd s (init_heads_mem n start i (bytes (heap s)))).
Proof.
  induction n as [|n IH]; intros i s Hlo Hhi Hi;
    cbn [Segregated.init_heads init_heads_mem].
  - rewrite upd_self. reflexivity.
  - change Segregated.block_size with 32. change Segregated.pred_offset with 8.
    change Segregated.succ_offset with 16.
    set (b := start + i * 32).
    rewrite seg_write_tags_ok; try lia; try reflexivity; try (apply valid_intro; unfold b; lia).
    unfold Segregated.set_pred, Segregated.set_succ.
    change Segregated.pred_offset with 8. change Segregated.succ_offset with 16.
    assert (V1 : forall m0, valid (heap (upd s m0)) (b + 8) 8 = true)
      by (intros m0; rewrite valid_upd; apply valid_intro; unfold b; lia).
    assert (V2 : forall m0, valid (heap (upd s m0)) (b + 16) 8 = true)
      by (intros m0; rewrite valid_upd; apply valid_intro; unfold b; lia).
    exec (st64_ok _ (b + 8) b (V1 _)).
    exec (st64_ok _ (b + 16) b (V2 _)).
    rewrite IH by (cbn [upd heap set_bytes mem_start_brk mem_brk]; lia).
    rewrite upd_upd, bytes_upd. reflexivity.
Qed.

Lemma get_globals_bind {G A} (k : G -> M G A) (s : state G) :
  bind get_globals k s = k (globals s) s.
Proof. reflexivity. Qed.

Lemma set_globals_bind {G A} (g : G) (k : unit -> M G A) (s : state G) :
  bind (set_globals g) k s = k tt (mkState (heap s) g).
Proof. reflexivity. Qed.

Lemma seg_mm_init_refused (s : Segregated.st) :
  mem_max_addr (heap s) < mem_brk (heap s) + Segregated.init_request ->
  Segregated.mm_init s = Ret (-1) (refused s Segregated.init_request).
Proof.
  intros H. unfold Segregated.mm_init.
  exec (mem_sbrk_refused s _ H). reflexivity.
Qed.

Lemma seg_mm_init_run (s : Segregated.st) :
  region_ok (heap s) ->
  mem_brk (heap s) + Segregated.init_request <= mem_max_addr (heap s) ->
  Segregated.mm_init s =
  (b <- Segregated.extend_heap Segregated.chunksize ;;
   if b =? NULL then ret (-1) else ret 0) (seg_init_state s).
Proof.
  intros (R1 & R2 & R3 & R4 & R5) Hroom.
  change Segregated.init_request with 552 in *.
  unfold Segregated.mm_init. change Segregated.init_request with 552.
  exec (mem_sbrk_granted s 552 Hroom).
  set (start := mem_brk (heap s)) in *.
  destruct (Z.eqb_spec start sbrk_failed) as [Hbad|_]; [unfold sbrk_failed in Hbad; lia|].
  change (Z.to_nat Segregated.size_class_cnt) with 16%nat.
  erewrite bind_Ret;
    [|apply init_heads_ok; cbn [grown heap mem_start_brk mem_brk]; fold start;
      change (Z.of_nat 16) with 16; lia].
  cbv beta. rewrite get_globals_bind, set_globals_bind.
  change Segregated.size_class_cnt with 16. change Segregated.block_size with 32.
  change Segregated.prologue_size with 32.
  rewrite seg_write_tags_ok; try lia; try reflexivity;
    try (apply valid_intro; cbn [upd grown heap set_bytes mem_start_brk mem_brk];
         fold start; lia).
  unfold Segregated.write_header.
  erewrite bind_Ret;
    [|apply st32_ok; apply valid_intro;
      cbn [upd grown heap set_bytes mem_start_brk mem_brk]; fold start; lia].
  cbv beta. rewrite get_globals_bind, set_globals_bind.
  replace (start + 16 * 32 + 32) with (start + 544) by lia.
  change (start + 16 * 32) with (start + 512).
  unfold seg_init_state, seg_init_mem. fold start.
  cbn [upd grown heap globals bytes set_bytes mem_start_brk mem_brk mem_max_addr requests
       Segregated.heap_listp Segregated.seglist].
  reflexivity.
Qed.

Lemma seg_init_inv (s : Segregated.st) :
  region_ok (heap s) -> mem_brk (heap s) mod 8 = 0 ->
  mem_brk (heap s) + Segregated.init_request <= mem_max_addr (heap s) ->
  seg_inv (seg_init_state s) [] (fun _ => []) [].
Proof.
  intros (R1 & R2 & R3 & R4 & R5) H8 Hroom.
  change Segregated.init_request with 552 in *.
  set (start := mem_brk (heap s)) in *.
  set (m := bytes (heap s)).
  destruct (init_heads_mem_spec start 16 0 m ltac:(lia) ltac:(lia) ltac:(cbn; lia)) as [Hag Hl].
  cbv zeta in Hag, Hl. change (Z.of_nat 16) with 16 in *.
  set (mh := init_heads_mem 16 start 0 m) in *.
  assert (Tp : tagged (set_tags mh (start + 512) 32 true) (mkBlk (start + 512) 32 true))
    by (apply tagged_set_tags; lia).
  assert (Hag2 : agree_outside mh (seg_init_mem start m) (start + 512) (start + 548)).
  { unfold seg_init_mem. fold mh.
    apply agree_outside_trans with (set_tags mh (start + 512) 32 true).
    - eapply agree_outside_widen; [apply set_tags_agree|..]; lia.
    - apply agree_outside_store; lia. }
  constructor; unfold seg_init_state; fold start m;
    cbn [heap globals bytes mem_start_brk mem_brk mem_max_addr
         Segregated.heap_listp Segregated.seglist];
    change Segregated.init_request with 552;
    change Segregated.epilogue_size with 8;
    change Segregated.size_class_cnt with 16; change Segregated.block_size with 32.
  - unfold region_ok. cbn. lia.
  - lia.
  - exact H8.
  - lia.
  - unfold seg_prologue. cbn [globals Segregated.heap_listp chain b_addr b_size].
    change Segregated.prologue_size with 32. repeat split; lia.
  - apply Forall_cons; [|apply Forall_nil]. cbn. change Segregated.prologue_size with 32.
    change Segregated.min_block_size with 32. lia.
  - apply Forall_cons; [|apply Forall_nil].
    unfold seg_prologue. cbn [globals Segregated.heap_listp].
    change Segregated.prologue_size with 32.
    unfold seg_init_mem. fold mh.
    eapply tagged_agree; [| | | exact Tp].
    + apply agree_outside_store with (lo := start + 544) (hi := start + 548); lia.
    + left. cbn [b_addr b_size]. lia.
    + cbn. lia.
  - unfold seg_init_mem. replace (start + 552 - 8) with (start + 544) by lia.
    rewrite load32_store32_same. apply wrap32_small. apply pack_range.
  - intros i Hi. split; [|constructor].
    unfold head_of. cbn [globals Segregated.seglist path links].
    change Segregated.block_size with 32.
    destruct (Hl i ltac:(lia)) as [Hp Hs].
    unfold links, pred_of, succ_of, load64 in *.
    change Segregated.pred_offset with 8 in *. change Segregated.succ_offset with 16 in *.
    rewrite !(agree_outside_load 8 _ _ _ _ _ Hag2) by (change (Z.of_nat 8) with 8; lia).
    split; assumption.
  - intros i n Hi [].
  - intros b [].
Qed.

Lemma seg_mm_init_spec (s : Segregated.st) :
  region_ok (heap s) -> mem_brk (heap s) mod 8 = 0 ->
  mem_brk (heap s) + Segregated.init_request <= mem_max_addr (heap s) ->
  exists r s',
    Segregated.mm_init s = Ret r s' /\ seg_wf s' /\
    requests (heap s') = Segregated.chunksize :: Segregated.init_request :: requests (heap s) /\
    (mem_brk (heap s) + Segregated.init_request + Segregated.chunksize <= mem_max_addr (heap s) ->
     r = 0).
Proof.
  intros Hr H8 Hroom.
  rewrite (seg_mm_init_run s Hr Hroom).
  pose proof (seg_init_inv s Hr H8 Hroom) as Hinv.
  set (s0 := seg_init_state s) in *.
  change Segregated.chunksize with 4096.
  destruct (Z.le_gt_cases (mem_brk (heap s0) + 4096) (mem_max_addr (heap s0))) as [Hok|Hno].
  - destruct (seg_extend_heap_spec s0 [] _ 4096 Hinv ltac:(lia) eq_refl Hok)
      as (m1 & bs1 & fl1 & fb & Hext & Hinv1 & Hfb & Hfree & Hfsz & Hk1).
    exec Hext.
    destruct (seg_block_facts _ _ _ _ Hinv1 fb (or_intror Hfb)) as (Hflo & _).
    pose proof (seg_heap_extent _ _ _ _ Hinv1) as He.
    destruct (Z.eqb_spec (b_addr fb) NULL) as [Hz|_]; [unfold NULL in Hz; lia|].
    eexists _, _. split; [reflexivity|]. split; [exists bs1, fl1; exact Hinv1|].
    split; [reflexivity|]. intros _. reflexivity.
  - rewrite (bind_Ret _ _ _ _ _ (seg_extend_heap_refused s0 4096 ltac:(lia) eq_refl Hno)).
    change (NULL =? NULL) with true. cbv iota.
    eexists _, _. split; [reflexivity|].
    split; [exists [], (fun _ => []); apply seg_inv_refused; exact Hinv|].
    split; [reflexivity|]. intros Hfit. exfalso.
    unfold s0, seg_init_state in Hno. cbn [heap mem_brk mem_max_addr] in Hno.
    change Segregated.init_request with 552 in *. lia.
Qed.



(** * Pointers returned for any request *)

(** The adjusted size of the implicit variant is a multiple of 8 whatever
    the request is. *)
Lemma imp_asize_any (n : Z) :
  let asize := wrap64 (Implicit.round_up n Implicit.dsize + Implicit.dsize) in
  0 <= asize < 2 ^ 64 /\ asize mod 8 = 0.
Proof.
  cbv zeta. unfold Implicit.round_up. change Implicit.dsize with 8. change (8 - 1) with 7.
  set (y := wrap64 (n + 7)).
  assert (Hy : 0 <= y < 2 ^ 64) by apply wrap64_range.
  rewrite (wrap64_small (8 * (y / 8))) by mlia.
  split; [apply wrap64_range|]. unfold wrap64. mlia.
Qed.

Lemma ret_inv {G A} (a b : A) (s s' : state G) : ret a s = Ret b s' -> a = b /\ s = s'.
Proof. unfold ret. intros H. injection H as -> ->. split; reflexivity. Qed.

Lemma imp_malloc_aligned (s : Implicit.st) (bs : list blk) (n p : Z) (s' : Implicit.st) :
  imp_inv s bs -> Implicit.malloc n s = Ret p s' -> p <> NULL -> p mod 8 = 0.
Proof.
  intros Hinv Hrun Hp.
  destruct (imp_asize_any n) as (Ha1 & Ha8).
  set (asize := wrap64 (Implicit.round_up n Implicit.dsize + Implicit.dsize)) in *.
  pose proof (imp_heap_extent s bs Hinv) as He.
  unfold Implicit.malloc in Hrun. fold asize in Hrun.
  destruct (Z.eqb_spec n 0) as [|_].
  { apply ret_inv in Hrun. destruct Hrun as [<- _]. contradiction. }
  rewrite get_globals_bind in Hrun.
  destruct (Z.eqb_spec (globals s) NULL) as [Hz|_]; [unfold NULL in Hz; lia|].
  rewrite ret_bind in Hrun.
  destruct (imp_find_fit_spec s bs asize Hinv) as (r & Hfit & Hres).
  rewrite (bind_Ret _ _ _ _ _ Hfit) in Hrun.
  assert (Hcase : r = NULL \/ (r <> NULL /\ exists b, In b bs /\ b_addr b = r)).
  { destruct (Z.eq_dec r NULL) as [Hz|Hnz]; [left; exact Hz|].
    right. split; [exact Hnz|]. destruct Hres as [?|(b & Hb & _ & _ & Hr)]; [contradiction|].
    exists b. split; assumption. }
  clear Hres. destruct Hcase as [->|(Hnz & b & Hin & <-)].
  - change (NULL =? NULL) with true in Hrun. cbv iota in Hrun.
    set (size := Implicit.max asize Implicit.chunksize) in *.
    assert (Hsize : 4096 <= size < 2 ^ 64 /\ size mod 8 = 0).
    { unfold size, Implicit.max. change Implicit.chunksize with 4096.
      destruct (Z.gtb_spec asize 4096); repeat split; try lia; try assumption. }
    destruct Hsize as (Hs1 & Hs8).
    destruct (Z.le_gt_cases (mem_brk (heap s) + size) (mem_max_addr (heap s))) as [Hok|Hno].
    + destruct (imp_extend_heap_spec s bs size Hinv ltac:(lia) Hs8 Hok)
        as (m1 & bs1 & fb & Hext & Hinv1 & Hfb & _).
      rewrite (bind_Ret _ _ _ _ _ Hext) in Hrun.
      destruct (imp_block_facts _ _ Hinv1 fb (or_intror Hfb)) as (Hflo & _ & _ & _ & Hal & _).
      change (globals (upd (grown s size) m1)) with (globals s) in Hflo.
      destruct (Z.eqb_spec (b_addr fb) NULL) as [Hz|_]; [unfold NULL in Hz; lia|].
      apply bind_Ret_inv in Hrun. destruct Hrun as (u & s2 & _ & Hrun).
      apply ret_inv in Hrun. destruct Hrun as [<- _].
      unfold Implicit.header_to_payload. change Implicit.payload_offset with 4. mlia.
    + rewrite (bind_Ret _ _ _ _ _ (imp_extend_heap_refused s size ltac:(lia) Hs8 Hno)) in Hrun.
      change (NULL =? NULL) with true in Hrun. cbv iota in Hrun.
      apply ret_inv in Hrun. destruct Hrun as [<- _]. contradiction.
  - destruct (Z.eqb_spec (b_addr b) NULL) as [Hz|_]; [contradiction|].
    rewrite ret_bind in Hrun.
    destruct (Z.eqb_spec (b_addr b) NULL) as [Hz|_]; [contradiction|].
    destruct (imp_block_facts _ _ Hinv b (or_intror Hin)) as (_ & _ & _ & _ & Hal & _).
    apply bind_Ret_inv in Hrun. destruct Hrun as (u & s2 & _ & Hrun).
    apply ret_inv in Hrun. destruct Hrun as [<- _].
    unfold Implicit.header_to_payload. change Implicit.payload_offset with 4. mlia.
Qed.

Lemma imp_realloc_aligned (s : Implicit.st) (bs : list blk) (p0 n q : Z) (s' : Implicit.st) :
  imp_inv s bs -> Implicit.realloc p0 n s = Ret q s' -> q <> NULL -> q mod 8 = 0.
Proof.
  intros Hinv Hrun Hq. unfold Implicit.realloc in Hrun. cbv zeta in Hrun.
  destruct (n =? 0).
  { apply bind_Ret_inv in Hrun. destruct Hrun as (u & s2 & _ & Hrun).
    apply ret_inv in Hrun. destruct Hrun as [<- _]. contradiction. }
  destruct (p0 =? NULL).
  { eapply imp_malloc_aligned; eassumption. }
  apply bind_Ret_inv in Hrun. destruct Hrun as (np & s1 & Hm & Hrun).
  destruct (Z.eqb_spec np NULL) as [Hz|Hnz].
  { apply ret_inv in Hrun. destruct Hrun as [<- _]. contradiction. }
  apply bind_Ret_inv in Hrun. destruct Hrun as (cs & s2 & _ & Hrun).
  apply bind_Ret_inv in Hrun. destruct Hrun as (u & s3 & _ & Hrun).
  apply bind_Ret_inv in Hrun. destruct Hrun as (u' & s4 & _ & Hrun).
  apply ret_inv in Hrun. destruct Hrun as [<- _].
  eapply imp_malloc_aligned; eassumption.
Qed.

Lemma imp_calloc_aligned (s : Implicit.st) (bs : list blk) (a b r : Z) (s' : Implicit.st) :
  imp_inv s bs -> Implicit.calloc a b s = Ret r s' -> r <> NULL -> r mod 8 = 0.
Proof.
  intros Hinv Hrun Hr. unfold Implicit.calloc in Hrun. cbv zeta in Hrun.
  destruct (a =? 0); [discriminate|].
  destruct (negb _).
  { apply ret_inv in Hrun. destruct Hrun as [<- _]. contradiction. }
  apply bind_Ret_inv in Hrun. destruct Hrun as (bp & s1 & Hm & Hrun).
  destruct (Z.eqb_spec bp NULL) as [Hz|Hnz].
  { apply ret_inv in Hrun. destruct Hrun as [<- _]. contradiction. }
  apply bind_Ret_inv in Hrun. destruct Hrun as (u & s2 & _ & Hrun).
  apply ret_inv in Hrun. destruct Hrun as [<- _].
  eapply imp_malloc_aligned; eassumption.
Qed.

(** The segregated variant: [malloc] returns for every request. *)
Lemma seg_malloc_total (s : Segregated.st) (bs : list blk) (fl : Z -> list Z) (n : Z) :
  seg_inv s bs fl [] ->
  exists p s', Segregated.malloc n s = Ret p s' /\ seg_wf s' /\ (p <> NULL -> p mod 8 = 0).
Proof.
  intros Hinv. destruct (Z.eq_dec n 0) as [->|Hn].
  - exists NULL, s. split; [reflexivity|]. split; [exists bs, fl; exact Hinv | congruence].
  - destruct (seg_malloc_spec s bs fl n Hinv Hn) as (p & s' & Hm & _ & Hres).
    exists p, s'. split; [exact Hm|].
    destruct Hres as [(-> & _ & Hinv')|(Hp & bs' & fl' & sz & Hinv' & Hin & _)].
    + split; [exists bs, fl; exact Hinv' | congruence].
    + split; [exists bs', fl'; exact Hinv'|]. intros _.
      destruct (seg_block_facts _ _ _ _ Hinv' _ (or_intror Hin)) as (_ & _ & _ & _ & Hal & _).
      cbn [b_addr] in Hal. mlia.
Qed.

(** [free] and [realloc] of the segregated variant return for the null
    pointer and for every allocated block, and leave a well-formed heap. *)
Lemma seg_free_total (s : Segregated.st) (bs : list blk) (fl : Z -> list Z) (p sz : Z) :
  seg_inv s bs fl [] -> p = NULL \/ In (mkBlk (p - 8) sz true) bs ->
  exists s', Segregated.free p s = Ret tt s' /\ seg_wf s'.
Proof.
  intros Hinv [->|Hin].
  - exists s. split; [reflexivity | exists bs, fl; exact Hinv].
  - destruct (seg_free_spec s bs fl (p - 8) sz Hinv Hin) as (m' & bs' & fl' & Hrun & Hinv' & _).
    replace (p - 8 + 8) with p in Hrun by lia.
    exists (upd s m'). split; [exact Hrun | exists bs', fl'; exact Hinv'].
Qed.

Lemma seg_realloc_total (s : Segregated.st) (bs : list blk) (fl : Z -> list Z) (p sz n : Z) :
  seg_inv s bs fl [] -> p = NULL \/ In (mkBlk (p - 8) sz true) bs ->
  exists q s', Segregated.realloc p n s = Ret q s' /\ seg_wf s' /\ (q <> NULL -> q mod 8 = 0).
Proof.
  intros Hinv Hp. unfold Segregated.realloc.
  destruct (Z.eqb_spec n 0) as [->|Hn].
  - destruct (seg_free_total s bs fl p sz Hinv Hp) as (s' & Hrun & Hwf).
    exec Hrun. exists NULL, s'. split; [reflexivity|]. split; [exact Hwf | congruence].
  - destruct (Z.eqb_spec p NULL) as [->|Hpz].
    + exact (seg_malloc_total s bs fl n Hinv).
    + destruct Hp as [?|Hin]; [contradiction|].
      destruct (seg_realloc_spec s bs fl p sz n Hinv Hin Hn) as (q & s' & Hrun & Hres).
      unfold Segregated.realloc in Hrun.
      destruct (Z.eqb_spec n 0) as [|_]; [contradiction|].
      destruct (Z.eqb_spec p NULL) as [|_]; [contradiction|].
      exists q, s'. split; [exact Hrun|].
      destruct Hres as [(-> & _ & Hinv')|(Hq & H8 & (bs' & fl' & Hinv') & _)].
      * split; [exists bs, fl; exact Hinv' | congruence].
      * split; [exists bs', fl'; exact Hinv' | intros _; exact H8].
Qed.

(** * The list of class 0 *)

Lemma path_unique (m : mem) (y : Z) (l : list Z) :
  forall (l' : list Z) (x : Z),
    path m x l y -> path m x l' y -> ~ In y l -> ~ In y l' -> l = l'.
Proof.
  induction l as [|n l IH]; intros l' x H H' Hy Hy'.
  - destruct l' as [|n' l']; [reflexivity|].
    cbn [path] in H, H'. destruct H as [Hs _]. destruct H' as [[Hs' _] _].
    exfalso. apply Hy'. left. congruence.
  - destruct l' as [|n' l'].
    + cbn [path] in H, H'. destruct H as [[Hs _] _]. destruct H' as [Hs' _].
      exfalso. apply Hy. left. congruence.
    + cbn [path] in H, H'. destruct H as [[Hs _] H]. destruct H' as [[Hs' _] H'].
      assert (E : n' = n) by congruence. clear Hs'. subst n'. f_equal.
      apply (IH l' n); try assumption.
      * intros Hin. apply Hy. right. exact Hin.
      * intros Hin. apply Hy'. right. exact Hin.
Qed.

Lemma seg_wf_class0 (s : Segregated.st) : seg_wf s -> class0_exact s.
Proof.
  intros (bs & fl & Hinv) l n Hp Hh Hn.
  destruct (si_lists _ _ _ _ Hinv 0 ltac:(change Segregated.size_class_cnt with 16; lia)) as [Hp0 _].
  assert (H0 : 0 <= 0 < 16) by lia.
  pose proof (seg_head_not_node s bs fl _ Hinv 0 0 H0 H0) as Hh0.
  pose proof (path_unique _ _ _ _ _ Hp Hp0 Hh Hh0) as E. subst l.
  destruct (si_nodes _ _ _ _ Hinv 0 n ltac:(change Segregated.size_class_cnt with 16; lia) Hn)
    as (sz & Hb & Hc & _).
  destruct (seg_block_facts s bs fl _ Hinv _ (or_intror Hb)) as (_ & _ & Hsz & _).
  destruct (seg_block_read s bs fl _ Hinv _ (or_intror Hb)) as (Rs & Ra & _).
  cbn [b_addr b_size b_alloc] in *.
  destruct (get_seglist_idx_classes sz ltac:(lia)) as [_ Hcl].
  rewrite Hc in Hcl. unfold in_class in Hcl.
  assert (E : sz = 32) by (destruct Hcl as [[_ ?]|[[? _]|[? _]]]; lia).
  split; [rewrite Rs; exact E | exact Ra].
Qed.

(** [calloc] of the implicit variant returns when the product does not
    overflow and its adjusted size does not wrap around. *)
Lemma imp_calloc_total (s : Implicit.st) (bs : list blk) (a b : Z) :
  imp_inv s bs -> 0 < a -> 0 <= b -> a * b + 15 < 2 ^ 64 ->
  exists r s', Implicit.calloc a b s = Ret r s'.
Proof.
  intros Hinv Ha Hb Hn. unfold Implicit.calloc. cbv zeta.
  assert (H0 : 0 <= a * b) by nia.
  rewrite (wrap64_small (a * b)) by lia.
  destruct (Z.eqb_spec a 0) as [|_]; [lia|].
  rewrite (Z.mul_comm a b), Z.div_mul by lia. rewrite Z.eqb_refl. cbn [negb].
  rewrite (Z.mul_comm b a).
  destruct (Z.eq_dec (a * b) 0) as [Hz|Hnz].
  - rewrite Hz. change (Implicit.malloc 0) with (@ret Z Z NULL). rewrite ret_bind.
    change (NULL =? NULL) with true. cbv iota. exists NULL, s. reflexivity.
  - destruct (imp_malloc_spec s bs (a * b) Hinv ltac:(lia) Hn) as (p & s1 & Hm & _ & Hres).
    exec Hm.
    destruct Hres as [(-> & _)|(Hp & bs1 & sz & Hinv1 & Hin & Hsz & _)].
    + change (NULL =? NULL) with true. cbv iota. exists NULL, s1. reflexivity.
    + destruct (Z.eqb_spec p NULL) as [|_]; [contradiction|].
      destruct (imp_asize_spec (a * b) ltac:(lia) Hn) as (_ & _ & Hcover).
      destruct (imp_block_facts s1 bs1 Hinv1 _ (or_intror Hin)) as (Hlo & Hhi & _).
      pose proof (imp_heap_extent s1 bs1 Hinv1) as He.
      cbn [b_addr b_size] in Hlo, Hhi.
      unfold memset. cbv zeta. unfold bind, ret.
      destruct (Z.eqb_spec (a * b) 0) as [|_]; [contradiction|].
      rewrite (valid_intro (heap s1) p (a * b)) by lia.
      eexists _, _. reflexivity.
Qed.

(** * A block off the lists of a well-formed heap *)

(** In a well-formed heap, a free block [b] that is on no list, the head
    of its class and the first node of that list are records of the region
    that do not overlap, and the first node points back to the head: what
    an insertion of [b] followed by its removal relies on. *)
Lemma seg_inv_off_list (s : Segregated.st) (bs : list blk) (fl : Z -> list Z) (ex : list Z)
      (b sz : Z) :
  seg_inv s bs fl ex -> In (mkBlk b sz false) bs -> In b ex ->
  let m := bytes (heap s) in
  let h := class_head s b in
  addressable (heap s) /\
  record_valid s b /\ record_valid s h /\ record_valid s (succ_of m h) /\
  head_wf m h /\ off_list m h b.
Proof.
  intros Hinv Hb Hex m h.
  pose proof (seg_heap_extent s bs fl ex Hinv) as He.
  destruct (seg_block_facts s bs fl ex Hinv _ (or_intror Hb)) as (B1 & B2 & B3 & _).
  destruct (seg_block_read s bs fl ex Hinv _ (or_intror Hb)) as (Rs & _).
  cbn [b_addr b_size] in B1, B2, B3, Rs.
  set (i := Segregated.get_seglist_idx sz).
  assert (Hi : 0 <= i < 16) by (apply seg_idx_range; lia).
  assert (Eh : h = head_of s i).
  { unfold h, class_head, head_of. rewrite Rs. reflexivity. }
  assert (EB : entity s bs b) by (right; exists (mkBlk b sz false); split; [exact Hb | reflexivity]).
  pose proof (seg_head_entity s bs i Hi) as EH. rewrite <- Eh in EH.
  destruct (si_lists _ _ _ _ Hinv i Hi) as [Hp _]. fold m in Hp. rewrite <- Eh in Hp.
  set (f := succ_of m h).
  assert (Hfin : In f (h :: fl i)).
  { unfold f. rewrite (path_first _ _ _ _ Hp). destruct (fl i); cbn; [left | right; left]; reflexivity. }
  assert (EF : entity s bs f).
  { apply (free_entity_entity s bs). apply (seg_class_entity s bs fl ex Hinv i f Hi).
    rewrite <- Eh. exact Hfin. }
  destruct (seg_entity_facts s bs fl ex Hinv _ EB) as (Lb & Ub & _).
  destruct (seg_entity_facts s bs fl ex Hinv _ EH) as (Lh & Uh & _).
  destruct (seg_entity_facts s bs fl ex Hinv _ EF) as (Lf & Uf & _).
  assert (Hbn : forall u, In u (h :: fl i) -> apart b u).
  { intros u Hu.
    assert (Eu : entity s bs u).
    { apply (free_entity_entity s bs). apply (seg_class_entity s bs fl ex Hinv i u Hi).
      rewrite <- Eh. exact Hu. }
    destruct (seg_entity_sep s bs fl ex Hinv b u EB Eu) as [E|E]; [|exact E].
    exfalso. subst u. destruct Hu as [Hu|Hu].
    - pose proof (seg_head_not_block s bs fl ex Hinv i _ Hi Hb) as Hne.
      apply apart_neq in Hne. cbn in Hne. congruence.
    - destruct (si_nodes _ _ _ _ Hinv i b Hi Hu) as (_ & _ & _ & Hn). contradiction. }
  unfold addressable, record_valid. change Segregated.block_size with 32.
  split; [lia|].
  split; [apply valid_intro; lia|].
  split; [apply valid_intro; lia|].
  split; [apply valid_intro; lia|].
  split; [split|split].
  - fold f. destruct (fl i) as [|n l]; cbn [path] in Hp.
    + destruct Hp as [Hs Hq]. unfold f. rewrite Hs. exact Hq.
    + destruct Hp as [[Hs Hq] _]. unfold f. rewrite Hs. exact Hq.
  - fold f. destruct (seg_entity_sep s bs fl ex Hinv h f EH EF) as [E|E];
      [left; symmetry; exact E | right; exact E].
  - apply Hbn. left. reflexivity.
  - apply Hbn. exact Hfin.
Qed.



(** * The example heaps are well formed *)

(** A closed proposition is settled by evaluation. *)
Ltac closed := vm_compute; repeat split; first [reflexivity | discriminate | intro; discriminate].

Ltac closed_forall := repeat (apply Forall_cons; [closed|]); apply Forall_nil.

Ltac class_cases i Hi :=
  change Segregated.size_class_cnt with 16 in Hi;
  assert (i = 0 \/ i = 1 \/ i = 2 \/ i = 3 \/ i = 4 \/ i = 5 \/ i = 6 \/ i = 7 \/
          i = 8 \/ i = 9 \/ i = 10 \/ i = 11 \/ i = 12 \/ i = 13 \/ i = 14 \/ i = 15)
    as Hcases by lia;
  clear Hi;
  repeat (destruct Hcases as [->|Hcases]); [..|subst i].

Ltac nodup := repeat (apply NoDup_cons; [cbn; intuition discriminate|]); apply NoDup_nil.

Lemma returned_after {G A} (c : M G A) (s : state G) (a : A) :
  returned (c s) = Some a -> c s = Ret a (after c s).
Proof.
  unfold returned, after. destruct (c s) as [a' s'| |]; try discriminate.
  intros H. injection H as ->. reflexivity.
Qed.

Lemma imp1_inv : imp_inv imp1 imp1_blocks.
Proof.
  constructor.
  - closed.
  - closed.
  - closed.
  - closed.
  - closed_forall.
  - closed.
Qed.

Lemma imp2_inv : imp_inv imp2 imp2_blocks.
Proof.
  constructor.
  - closed.
  - closed.
  - closed.
  - closed.
  - closed_forall.
  - closed.
Qed.

Ltac seg_lists_tac :=
  let i := fresh "i" in let Hi := fresh "Hi" in
  intros i Hi; class_cases i Hi; (split; [closed | nodup]).

Ltac seg_nodes_tac :=
  let i := fresh "i" in let n := fresh "n" in
  let Hi := fresh "Hi" in let Hn := fresh "Hn" in
  intros i n Hi Hn; class_cases i Hi; cbn in Hn;
  repeat match goal with
         | H : False |- _ => destruct H
         | H : _ \/ _ |- _ => destruct H
         end;
  subst;
  eexists; (split; [cbn; eauto 6 | split; [vm_compute; reflexivity | cbn; intuition discriminate]]).

Ltac seg_free_tac :=
  let b := fresh "b" in let Hb := fresh "Hb" in let Hf := fresh "Hf" in
  intros b Hb Hf; cbn in Hb;
  repeat match goal with
         | H : False |- _ => destruct H
         | H : _ \/ _ |- _ => destruct H
         end;
  subst; cbn in Hf; try discriminate;
  first [left; cbn; tauto | right; vm_compute; tauto].

Ltac seg_inv_tac :=
  constructor;
  [closed | closed | closed | closed | closed | closed_forall | closed_forall | closed
   | seg_lists_tac | seg_nodes_tac | seg_free_tac].

Lemma seg1_inv : seg_inv seg1 seg1_blocks seg1_lists [].
Proof. seg_inv_tac. Qed.

Lemma seg2_inv : seg_inv seg2 seg2_blocks seg2_lists [].
Proof. seg_inv_tac. Qed.

Lemma seg3_inv : seg_inv seg3 seg3_blocks seg3_lists [].
Proof. seg_inv_tac. Qed.

Lemma seg1_off_inv : seg_inv seg1_off seg1_blocks no_lists [4640].
Proof. seg_inv_tac. Qed.


(** * Size classes (C5) *)

(** [get_highest_1bit_idx] takes a [uint32_t]: the size [2^32] is seen as 0
    and lands in class 0, although it is above [2^19]. *)
Lemma C5_size_beyond_32_bits_in_class_0 :
  0 < 2 ^ 32 /\ 2 ^ 19 < 2 ^ 32 /\
  Segregated.get_seglist_idx (2 ^ 32) = 0 /\
  ~ in_class (2 ^ 32) (Segregated.get_seglist_idx (2 ^ 32)).
Proof.
  assert (E : Segregated.get_seglist_idx (2 ^ 32) = 0) by (vm_compute; reflexivity).
  repeat split; try lia; try exact E.
  rewrite E. unfold in_class. intros [[_ H]|[[H _]|[H _]]]; lia.
Qed.

(** C5, amended.  For every size [s] with [0 < s < 2^32] the class index
    lies in [[0, 15]], it is 0 when [s <= 32], [i] in [1..14] when
    [2^(i+4) < s <= 2^(i+5)] and 15 when [s > 2^19]; each power of two
    [2^k], [5 <= k <= 19], lands in the lower class [k - 5]. *)
Theorem C5_seglist_idx_classes (s : Z) :
  0 < s < 2 ^ 32 ->
  0 <= Segregated.get_seglist_idx s <= 15 /\
  in_class s (Segregated.get_seglist_idx s) /\
  (s <= 32 -> Segregated.get_seglist_idx s = 0) /\
  (2 ^ 19 < s <-> Segregated.get_seglist_idx s = 15) /\
  (forall k, 5 <= k <= 19 -> s = 2 ^ k -> Segregated.get_seglist_idx s = k - 5).
Proof.
  intros Hs.
  destruct (get_seglist_idx_classes s Hs) as [Hr Hc].
  split; [exact Hr|]. split; [exact Hc|].
  unfold in_class in Hc.
  set (i := Segregated.get_seglist_idx s) in *.
  assert (Hp : forall j, 1 <= j <= 14 -> 32 <= 2 ^ (j + 4) /\ 2 ^ (j + 5) <= 2 ^ 19).
  { intros j Hj. split.
    - change 32 with (2 ^ 5). apply Z.pow_le_mono_r; lia.
    - apply Z.pow_le_mono_r; lia. }
  split; [|split].
  - intros Hle. destruct Hc as [[? _]|[[Hi Hc]|[_ Hc]]]; [assumption| |lia].
    destruct (Hp i Hi). lia.
  - split.
    + intros Hgt. destruct Hc as [[_ Hc]|[[Hi Hc]|[? _]]]; [lia| |assumption].
      destruct (Hp i Hi). lia.
    + intros Hi. destruct Hc as [[? _]|[[? _]|[_ ?]]]; lia.
  - intros k Hk ->.
    destruct Hc as [[Hi Hle]|[[Hi [Hlo Hhi]]|[Hi Hlo]]].
    + assert (k = 5); [|lia].
      destruct (Z.eq_dec k 5); [assumption|].
      assert (2 ^ 6 <= 2 ^ k) by (apply Z.pow_le_mono_r; lia).
      change (2 ^ 6) with 64 in *. lia.
    + assert (i + 4 < k) by (apply (Z.pow_lt_mono_r_iff 2); lia).
      assert (k <= i + 5) by (apply (Z.pow_le_mono_r_iff 2); lia).
      lia.
    + assert (19 < k) by (apply (Z.pow_lt_mono_r_iff 2); lia). lia.
Qed.

Lemma C5_seglist_idx_classes_witness :
  0 <= Segregated.get_seglist_idx 64 <= 15 /\
  in_class 64 (Segregated.get_seglist_idx 64) /\
  (64 <= 32 -> Segregated.get_seglist_idx 64 = 0) /\
  (2 ^ 19 < 64 <-> Segregated.get_seglist_idx 64 = 15) /\
  (forall k, 5 <= k <= 19 -> 64 = 2 ^ k -> Segregated.get_seglist_idx 64 = k - 5).
Proof. apply (C5_seglist_idx_classes 64). lia. Defined.

(** * Insertion and removal (C9) *)

Lemma C9_insert_then_remove_witness :
  lists_restored (after (Segregated.malloc 1) seg0) 4640.
Proof.
  apply (C9_insert_then_remove_restores_lists (after (Segregated.malloc 1) seg0) 4640).
  - split; vm_compute; discriminate.
  - vm_compute; reflexivity.
  - vm_compute; reflexivity.
  - vm_compute; reflexivity.
  - split; [vm_compute; reflexivity | left; vm_compute; reflexivity].
  - split; right; vm_compute; discriminate.
Defined.

(** * Runs that contradict a claim as it is stated *)

(** C3.  After [p = malloc(1000); realloc(p, 32)] the block of [p] is
    followed by two free blocks.  Marked free and coalesced, it fuses with
    the first of them, and the block after the returned block is free. *)
Lemma C3_coalesce_next_of_result_free :
  match (p <- Segregated.malloc 1000 ;;
         Segregated.realloc p 32 ;;;
         let b := Segregated.payload_to_header p in
         sz <- Segregated.get_size b ;;
         Segregated.write_header b sz false ;;;
         Segregated.write_footer b sz false ;;;
         Segregated.coalesce b) seg0 with
  | Ret r s =>
      r = 4640 /\
      size_at (bytes (heap s)) r = 48 + 968 /\
      alloc_at (bytes (heap s)) (r + size_at (bytes (heap s)) r) = false
  | _ => False
  end.
Proof. vm_compute. repeat split; reflexivity. Qed.

(** C4.  On a region whose base 4096 is a multiple of 16, the first
    [malloc] of the segregated variant returns [4096 + 552], and the second
    [malloc] of the implicit variant after a block of 24 bytes returns
    [4096 + 40]: both are 8 modulo 16. *)
Lemma C4_payload_not_16_aligned :
  4096 mod 16 = 0 /\
  returned (Segregated.malloc 1 seg0) = Some 4648 /\ 4648 mod 16 = 8 /\
  returned ((Implicit.malloc 9 ;;; Implicit.malloc 1) imp0) = Some 4136 /\
  4136 mod 16 = 8.
Proof. repeat split; vm_compute; reflexivity. Qed.

(** C6.  [mm_init] asks the backing region for 552 bytes, then for the
    first chunk; 552 is not [16 * 32 + 32 + 4]. *)
Lemma C6_init_requests_552 :
  requests (heap (after Segregated.mm_init seg0)) = [4096; 552] /\
  552 <> 16 * Segregated.block_size + Segregated.min_block_size + 4.
Proof. split; [vm_compute; reflexivity | vm_compute; discriminate]. Qed.

(** C7.  A request of [2^64 - 1] bytes wraps the adjusted size.  In the
    segregated variant it becomes 32: [realloc] shrinks the block of 1016
    bytes in place and the new footer lands on byte 20 of the payload.  In
    the implicit variant it becomes 8: the bytes are copied over the tags
    that follow the 8-byte block, and freeing the old block rewrites one of
    them.  Both calls return a pointer whose byte 20 is not the old one. *)
Lemma C7_realloc_wrapped_size_loses_bytes :
  (let s1 := after (Segregated.malloc 1000) seg0 in
   match Segregated.realloc 4648 (2 ^ 64 - 1) s1 with
   | Ret q s2 =>
       returned (Segregated.malloc 1000 seg0) = Some 4648 /\
       q = 4648 /\
       get_byte (bytes (heap s1)) (4648 + 20) = 0 /\
       get_byte (bytes (heap s2)) (q + 20) = 33
   | _ => False
   end) /\
  (let s1 := after (a <- Implicit.malloc 16 ;; p <- Implicit.malloc 24 ;;
                    Implicit.free a ;;; st32 (p + 16) 25 ;;; st32 (p + 20) 33) imp0 in
   match Implicit.realloc 4136 (2 ^ 64 - 1) s1 with
   | Ret q s2 =>
       returned ((Implicit.malloc 16 ;;; Implicit.malloc 24) imp0) = Some 4136 /\
       q = 4112 /\
       get_byte (bytes (heap s1)) (4136 + 20) = 33 /\
       get_byte (bytes (heap s2)) (q + 20) = 232
   | _ => False
   end).
Proof. split; vm_compute; repeat split; reflexivity. Qed.

(** * Coalescing (C3) *)

(** C3, amended.  In a well-formed heap, for a block [b] marked free that
    follows the block [p] and is followed by the blocks [l2] (for the
    segregated variant: [b] is on no list and every other free block is on
    its list), [coalesce] returns the block [fused_block p b l2] of the
    four-case table: [b] itself when both neighbours are allocated, [b]
    grown by the next block when only that one is free, the previous block
    grown by [b] when that one is free, and by the next block as well when
    both are.  The heap is well formed again, its header holds the sum of
    the sizes, and when no two blocks before [b] and no two blocks after
    [b] were both free, no two blocks of the new heap are: the blocks
    before and after the returned block are allocated. *)
Theorem C3_coalesce_four_cases
    (si : Implicit.st) (bsi l1 l2 : list blk) (p b : blk)
    (ss : Segregated.st) (bss k1 k2 : list blk) (fl : Z -> list Z) (q c : blk) :
  imp_inv si bsi -> imp_prologue si :: bsi = l1 ++ p :: b :: l2 -> b_alloc b = false ->
  seg_inv ss bss fl [b_addr c] -> seg_prologue ss :: bss = k1 ++ q :: c :: k2 ->
  b_alloc c = false ->
  (let r := fused_block p b l2 in
   b_addr r = (if b_alloc p then b_addr b else b_addr p) /\
   b_size r = (if b_alloc p then 0 else b_size p) + b_size b +
              (if next_alloc l2 then 0 else next_size l2) /\
   exists s' bs',
     Implicit.coalesce (b_addr b) si = Ret (b_addr r) s' /\
     imp_inv s' bs' /\
     imp_prologue si :: bs' = l1 ++ coalesce_blocks p b l2 /\
     size_at (bytes (heap s')) (b_addr r) = b_size r /\
     alloc_at (bytes (heap s')) (b_addr r) = false /\
     (no_adj_free (l1 ++ [p]) -> no_adj_free l2 ->
      no_adj_free (imp_prologue si :: bs'))) /\
  (let r := fused_block q c k2 in
   b_addr r = (if b_alloc q then b_addr c else b_addr q) /\
   b_size r = (if b_alloc q then 0 else b_size q) + b_size c +
              (if next_alloc k2 then 0 else next_size k2) /\
   exists s' bs' fl',
     Segregated.coalesce (b_addr c) ss = Ret (b_addr r) s' /\
     seg_inv s' bs' fl' [] /\
     seg_prologue ss :: bs' = k1 ++ coalesce_blocks q c k2 /\
     size_at (bytes (heap s')) (b_addr r) = b_size r /\
     alloc_at (bytes (heap s')) (b_addr r) = false /\
     (no_adj_free (k1 ++ [q]) -> no_adj_free k2 ->
      no_adj_free (seg_prologue ss :: bs'))).
Proof.
  intros Hi Ei Fi Hs Es Fs. split.
  - cbv zeta. split; [reflexivity|]. split; [reflexivity|].
    destruct (imp_coalesce_spec si bsi l1 l2 p b Hi Ei Fi) as (m' & bs' & Hrun & Hinv' & E' & _).
    exists (upd si m'), bs'. split; [exact Hrun|]. split; [exact Hinv'|]. split; [exact E'|].
    assert (Hin : In (fused_block p b l2) (imp_prologue (upd si m') :: bs')).
    { change (imp_prologue (upd si m')) with (imp_prologue si). rewrite E'.
      apply in_or_app. right. apply In_fused_block. }
    destruct (imp_block_read _ _ Hinv' _ Hin) as (Rs & Ra & _).
    split; [exact Rs|]. split; [exact Ra|].
    intros N1 N2. rewrite E'. apply no_adj_free_coalesce; assumption.
  - cbv zeta. split; [reflexivity|]. split; [reflexivity|].
    destruct (seg_coalesce_spec ss bss fl k1 k2 q c Hs Es Fs)
      as (m' & bs' & fl' & Hrun & Hinv' & E' & _).
    exists (upd ss m'), bs', fl'. split; [exact Hrun|]. split; [exact Hinv'|]. split; [exact E'|].
    assert (Hin : In (fused_block q c k2) (seg_prologue (upd ss m') :: bs')).
    { change (seg_prologue (upd ss m')) with (seg_prologue ss). rewrite E'.
      apply in_or_app. right. apply In_fused_block. }
    destruct (seg_block_read _ _ _ _ Hinv' _ Hin) as (Rs & Ra & _).
    split; [exact Rs|]. split; [exact Ra|].
    intros N1 N2. rewrite E'. apply no_adj_free_coalesce; assumption.
Qed.

Lemma C3_coalesce_four_cases_witness :
  (exists s' bs',
     Implicit.coalesce 4108 imp1 = Ret 4108 s' /\ imp_inv s' bs' /\
     size_at (bytes (heap s')) 4108 = 4096 /\ no_adj_free (imp_prologue imp1 :: bs')) /\
  (exists s' bs' fl',
     Segregated.coalesce 4640 seg1_off = Ret 4640 s' /\ seg_inv s' bs' fl' [] /\
     size_at (bytes (heap s')) 4640 = 4096 /\ no_adj_free (seg_prologue seg1_off :: bs')).
Proof.
  destruct (C3_coalesce_four_cases
              imp1 imp1_blocks [] [] (imp_prologue imp1) (mkBlk 4108 4096 false)
              seg1_off seg1_blocks [] [] no_lists (seg_prologue seg1_off) (mkBlk 4640 4096 false)
              imp1_inv eq_refl eq_refl seg1_off_inv eq_refl eq_refl)
    as [(_ & _ & s1 & bs1 & R1 & I1 & _ & S1 & _ & N1) (_ & _ & s2 & bs2 & fl2 & R2 & I2 & _ & S2 & _ & N2)].
  split.
  - exists s1, bs1. split; [exact R1|]. split; [exact I1|]. split; [exact S1|].
    apply N1; cbn; tauto.
  - exists s2, bs2, fl2. split; [exact R2|]. split; [exact I2|]. split; [exact S2|].
    apply N2; cbn; tauto.
Defined.

(** * Alignment of the payloads (C4) *)

(** C4, amended.  In a well-formed heap every non-null pointer that
    [malloc], [realloc] or [calloc] returns is a multiple of 8, in both
    variants and for every request size ([realloc] of the segregated variant
    being given null or the payload of an allocated block, which it may
    return).  The blocks start at addresses that are 4 modulo 8 (implicit) or
    0 modulo 8 (segregated) and their sizes are multiples of 8, not of 16.
    The calls return: in the segregated variant [malloc] and [realloc] for
    every size, in the implicit variant and for [calloc] when the adjusted
    size does not wrap around. *)
Theorem C4_payload_pointers_8_aligned
    (si : Implicit.st) (bsi : list blk)
    (ss : Segregated.st) (bss : list blk) (fl : Z -> list Z) :
  imp_inv si bsi -> seg_inv ss bss fl [] ->
  (forall n p s', Implicit.malloc n si = Ret p s' -> p <> NULL -> p mod 8 = 0) /\
  (forall p0 n p s', Implicit.realloc p0 n si = Ret p s' -> p <> NULL -> p mod 8 = 0) /\
  (forall a b p s', Implicit.calloc a b si = Ret p s' -> p <> NULL -> p mod 8 = 0) /\
  (forall n p s', Segregated.malloc n ss = Ret p s' -> p <> NULL -> p mod 8 = 0) /\
  (forall p0 sz n p s',
     p0 = NULL \/ In (mkBlk (p0 - 8) sz true) bss ->
     Segregated.realloc p0 n ss = Ret p s' -> p <> NULL -> p mod 8 = 0) /\
  (forall a b p s', Segregated.calloc a b ss = Ret p s' -> p <> NULL -> p mod 8 = 0) /\
  (forall n, 0 < n -> n + 15 < 2 ^ 64 -> exists p s', Implicit.malloc n si = Ret p s') /\
  (forall p0 sz n, In (mkBlk (p0 - 4) sz true) bsi -> 0 < n -> n + 15 < 2 ^ 64 ->
     exists p s', Implicit.realloc p0 n si = Ret p s') /\
  (forall a b, 0 < a -> 0 <= b -> a * b + 15 < 2 ^ 64 ->
     exists p s', Implicit.calloc a b si = Ret p s') /\
  (forall n, exists p s', Segregated.malloc n ss = Ret p s') /\
  (forall p0 sz n, p0 = NULL \/ In (mkBlk (p0 - 8) sz true) bss ->
     exists p s', Segregated.realloc p0 n ss = Ret p s') /\
  (forall a b, wrap64 (a * b) + 19 < 2 ^ 64 ->
     exists p s', Segregated.calloc a b ss = Ret p s').
Proof.
  intros Hi Hs.
  split; [intros n p s' H; exact (imp_malloc_aligned si bsi n p s' Hi H)|].
  split; [intros p0 n p s' H; exact (imp_realloc_aligned si bsi p0 n p s' Hi H)|].
  split; [intros a b p s' H; exact (imp_calloc_aligned si bsi a b p s' Hi H)|].
  split; [|split; [|split; [|split]]].
  - intros n p s' H. destruct (seg_malloc_total ss bss fl n Hs) as (p1 & s1 & H1 & _ & A1).
    rewrite H1 in H. injection H as <- <-. exact A1.
  - intros p0 sz n p s' Hp H.
    destruct (seg_realloc_total ss bss fl p0 sz n Hs Hp) as (p1 & s1 & H1 & _ & A1).
    rewrite H1 in H. injection H as <- <-. exact A1.
  - intros a b p s' H. destruct (seg_calloc_spec ss bss fl a b Hs) as [Hc _].
    destruct (Hc p s' H) as [_ A1]. exact A1.
  - intros n H0 Hn. destruct (imp_malloc_spec si bsi n Hi H0 Hn) as (p & s' & H & _).
    exists p, s'. exact H.
  - split; [|split; [|split; [|split]]].
    + intros p0 sz n Hin H0 Hn.
      destruct (imp_realloc_spec si bsi p0 sz n Hi Hin H0 Hn) as (p & s' & H & _).
      exists p, s'. exact H.
    + intros a b Ha Hb Hn. exact (imp_calloc_total si bsi a b Hi Ha Hb Hn).
    + intros n. destruct (seg_malloc_total ss bss fl n Hs) as (p & s' & H & _).
      exists p, s'. exact H.
    + intros p0 sz n Hp.
      destruct (seg_realloc_total ss bss fl p0 sz n Hs Hp) as (p & s' & H & _).
      exists p, s'. exact H.
    + intros a b Hn. destruct (seg_calloc_spec ss bss fl a b Hs) as [_ Hc]. exact (Hc Hn).
Qed.

Lemma C4_payload_pointers_8_aligned_witness :
  returned (Implicit.malloc 9 imp2) = Some 4144 /\ 4144 mod 8 = 0 /\
  returned (Segregated.malloc 1 seg1) = Some 4648 /\ 4648 mod 8 = 0 /\
  returned (Segregated.realloc 4648 100 seg2) = Some 4688 /\ 4688 mod 8 = 0.
Proof.
  pose proof (C4_payload_pointers_8_aligned imp2 imp2_blocks seg1 seg1_blocks seg1_lists
                imp2_inv seg1_inv) as (A1 & _ & _ & A4 & _).
  pose proof (C4_payload_pointers_8_aligned imp2 imp2_blocks seg2 seg2_blocks seg2_lists
                imp2_inv seg2_inv) as (_ & _ & _ & _ & A5 & _).
  assert (R1 : returned (Implicit.malloc 9 imp2) = Some 4144) by (vm_compute; reflexivity).
  assert (R2 : returned (Segregated.malloc 1 seg1) = Some 4648) by (vm_compute; reflexivity).
  assert (R3 : returned (Segregated.realloc 4648 100 seg2) = Some 4688) by (vm_compute; reflexivity).
  split; [exact R1|]. split.
  { apply (A1 9 4144 _ (returned_after _ _ _ R1)). discriminate. }
  split; [exact R2|]. split.
  { apply (A4 1 4648 _ (returned_after _ _ _ R2)). discriminate. }
  split; [exact R3|].
  apply (A5 4648 40 100 4688 _ (or_intror (or_introl eq_refl)) (returned_after _ _ _ R3)).
  discriminate.
Defined.

(** * The first request of [mm_init] (C6) *)

(** C6, amended.  On a region whose top is a multiple of 8, [mm_init] of
    the segregated variant returns, and the first amount it asks of the
    backing region is [16 * sizeof(block_t) + min_block_size +
    epilogue_size], that is [16 * 32 + 32 + 8 = 552] bytes: the epilogue
    counts for a double word, not for 4 bytes.  The only other request is
    the first chunk. *)
Theorem C6_init_requests_heads_prologue_epilogue (s : Segregated.st) :
  region_ok (heap s) -> mem_brk (heap s) mod 8 = 0 ->
  Segregated.init_request =
    16 * Segregated.block_size + Segregated.min_block_size + Segregated.epilogue_size /\
  Segregated.init_request = 552 /\
  exists r s' later,
    Segregated.mm_init s = Ret r s' /\
    requests (heap s') = later ++ Segregated.init_request :: requests (heap s) /\
    (later = [] \/ later = [Segregated.chunksize]).
Proof.
  intros Hr H8. split; [reflexivity|]. split; [reflexivity|].
  destruct (Z.le_gt_cases (mem_brk (heap s) + Segregated.init_request) (mem_max_addr (heap s)))
    as [Hroom|Hno].
  - destruct (seg_mm_init_spec s Hr H8 Hroom) as (r & s' & Hrun & _ & Hreq & _).
    exists r, s', [Segregated.chunksize]. split; [exact Hrun|]. split; [exact Hreq|].
    right. reflexivity.
  - exists (-1), (refused s Segregated.init_request), [].
    split; [apply seg_mm_init_refused; exact Hno|]. split; [reflexivity|]. left. reflexivity.
Qed.

Lemma C6_init_requests_witness :
  Segregated.init_request = 552 /\
  exists r s' later,
    Segregated.mm_init seg0 = Ret r s' /\
    requests (heap s') = later ++ Segregated.init_request :: requests (heap seg0) /\
    (later = [] \/ later = [Segregated.chunksize]).
Proof.
  apply (C6_init_requests_heads_prologue_epilogue seg0).
  - unfold region_ok. vm_compute. repeat split; discriminate.
  - vm_compute. reflexivity.
Defined.

(** * [realloc] keeps the payload (C7) *)

(** C7, amended.  In a well-formed heap, for the payload [p] of an
    allocated block of [sz] bytes and a request [n > 0] whose adjusted size
    does not wrap around ([n + 15 < 2^64] in the implicit variant,
    [n + 19 < 2^64] in the segregated one), [realloc(p, n)] returns.  When
    it returns null no byte of the heap has changed and the heap is the
    same sequence of blocks; otherwise the heap is well formed and the
    first [min(old_size, n)] bytes at the returned pointer are those at [p]
    before the call, [old_size] being the payload size [sz - 8] (implicit)
    or [sz - 12] (segregated). *)
Theorem C7_realloc_keeps_payload
    (si : Implicit.st) (bsi : list blk)
    (ss : Segregated.st) (bss : list blk) (fl : Z -> list Z) :
  imp_inv si bsi -> seg_inv ss bss fl [] ->
  (forall p sz n,
     In (mkBlk (p - 4) sz true) bsi -> 0 < n -> n + 15 < 2 ^ 64 ->
     exists q s',
       Implicit.realloc p n si = Ret q s' /\
       ((q = NULL /\ bytes (heap s') = bytes (heap si) /\ imp_inv s' bsi) \/
        (q <> NULL /\ imp_wf s' /\
         forall i, 0 <= i < Z.min (sz - 8) n ->
                   get_byte (bytes (heap s')) (q + i) = get_byte (bytes (heap si)) (p + i)))) /\
  (forall p sz n,
     In (mkBlk (p - 8) sz true) bss -> 0 < n -> n + 19 < 2 ^ 64 ->
     exists q s',
       Segregated.realloc p n ss = Ret q s' /\
       ((q = NULL /\ bytes (heap s') = bytes (heap ss) /\ seg_inv s' bss fl []) \/
        (q <> NULL /\ seg_wf s' /\
         forall i, 0 <= i < Z.min (sz - 12) n ->
                   get_byte (bytes (heap s')) (q + i) = get_byte (bytes (heap ss)) (p + i)))).
Proof.
  intros Hi Hs. split.
  - intros p sz n Hin H0 Hn.
    destruct (imp_realloc_spec si bsi p sz n Hi Hin H0 Hn) as (q & s' & Hrun & Hres).
    exists q, s'. split; [exact Hrun|].
    destruct Hres as [H|(Hq & Hwf & Hb)]; [left; exact H | right].
    split; [exact Hq|]. split; [exact Hwf | exact Hb].
  - intros p sz n Hin H0 Hn.
    destruct (seg_realloc_spec ss bss fl p sz n Hs Hin ltac:(lia)) as (q & s' & Hrun & Hres).
    exists q, s'. split; [exact Hrun|].
    destruct Hres as [H|(Hq & _ & Hwf & Hb)]; [left; exact H | right].
    split; [exact Hq|]. split; [exact Hwf|]. apply Hb; lia.
Qed.

Lemma C7_realloc_keeps_payload_witness :
  (exists q s',
     Implicit.realloc 4112 100 imp2 = Ret q s' /\
     ((q = NULL /\ bytes (heap s') = bytes (heap imp2) /\ imp_inv s' imp2_blocks) \/
      (q <> NULL /\ imp_wf s' /\
       forall i, 0 <= i < Z.min (32 - 8) 100 ->
                 get_byte (bytes (heap s')) (q + i) = get_byte (bytes (heap imp2)) (4112 + i)))) /\
  (exists q s',
     Segregated.realloc 4648 100 seg2 = Ret q s' /\
     ((q = NULL /\ bytes (heap s') = bytes (heap seg2) /\ seg_inv s' seg2_blocks seg2_lists []) \/
      (q <> NULL /\ seg_wf s' /\
       forall i, 0 <= i < Z.min (40 - 12) 100 ->
                 get_byte (bytes (heap s')) (q + i) = get_byte (bytes (heap seg2)) (4648 + i)))).
Proof.
  destruct (C7_realloc_keeps_payload imp2 imp2_blocks seg2 seg2_blocks seg2_lists
              imp2_inv seg2_inv) as [A B].
  split.
  - apply (A 4112 32 100); [left; reflexivity | lia | lia].
  - apply (B 4648 40 100); [left; reflexivity | lia | lia].
Defined.

(** * The list of class 0 (C10) *)

(** C10.  In a well-formed heap of the segregated variant every node of
    the list of class 0 is a free block of exactly 32 bytes: the free
    blocks have sizes that are multiples of 8 and at least
    [min_block_size = 32], and [get_seglist_idx] gives class 0 to sizes of
    at most 32 only, among the sizes that a 32-bit tag holds.  [malloc],
    [free], [realloc] and [calloc] return a well-formed heap, in which this
    holds again ([free] and [realloc] being given null or the payload of an
    allocated block, [calloc] a product whose adjusted size does not wrap
    around; with a product that wraps it returns a well-formed heap if it
    returns at all). *)
Theorem C10_class_0_holds_32_byte_blocks
    (s : Segregated.st) (bs : list blk) (fl : Z -> list Z) :
  seg_inv s bs fl [] ->
  class0_exact s /\
  (forall n, In n (fl 0) -> In (mkBlk n Segregated.min_block_size false) bs) /\
  (forall b, In b bs -> b_alloc b = false ->
             Segregated.min_block_size <= b_size b /\ b_size b mod 8 = 0) /\
  (forall sz, 0 < sz < 2 ^ 32 -> Segregated.get_seglist_idx sz = 0 -> sz <= 32) /\
  (forall n, exists p s', Segregated.malloc n s = Ret p s' /\ seg_wf s' /\ class0_exact s') /\
  (forall p sz, p = NULL \/ In (mkBlk (p - 8) sz true) bs ->
     exists s', Segregated.free p s = Ret tt s' /\ seg_wf s' /\ class0_exact s') /\
  (forall p sz n, p = NULL \/ In (mkBlk (p - 8) sz true) bs ->
     exists q s', Segregated.realloc p n s = Ret q s' /\ seg_wf s' /\ class0_exact s') /\
  (forall a b r s', Segregated.calloc a b s = Ret r s' -> seg_wf s' /\ class0_exact s') /\
  (forall a b, wrap64 (a * b) + 19 < 2 ^ 64 ->
     exists r s', Segregated.calloc a b s = Ret r s').
Proof.
  intros Hinv.
  assert (Hcl : forall sz, 0 < sz < 2 ^ 32 -> Segregated.get_seglist_idx sz = 0 -> sz <= 32).
  { intros sz Hsz Hc. destruct (get_seglist_idx_classes sz Hsz) as [_ H].
    rewrite Hc in H. unfold in_class in H. destruct H as [[_ ?]|[[? _]|[? _]]]; lia. }
  split; [apply seg_wf_class0; exists bs, fl; exact Hinv|].
  split; [|split; [|split; [exact Hcl|split; [|split; [|split; [|split]]]]]].
  - intros n Hn.
    destruct (si_nodes _ _ _ _ Hinv 0 n ltac:(change Segregated.size_class_cnt with 16; lia) Hn)
      as (sz & Hb & Hc & _).
    destruct (seg_block_facts s bs fl _ Hinv _ (or_intror Hb)) as (_ & _ & Hsz & _).
    cbn [b_size] in Hsz. specialize (Hcl sz ltac:(lia) Hc).
    change Segregated.min_block_size with 32.
    replace 32 with sz by lia. exact Hb.
  - intros b Hb _.
    destruct (seg_block_facts s bs fl _ Hinv _ (or_intror Hb)) as (_ & _ & Hsz & H8 & _).
    change Segregated.min_block_size with 32. split; [lia | exact H8].
  - intros n. destruct (seg_malloc_total s bs fl n Hinv) as (p & s' & H & Hwf & _).
    exists p, s'. split; [exact H|]. split; [exact Hwf | apply seg_wf_class0; exact Hwf].
  - intros p sz Hp. destruct (seg_free_total s bs fl p sz Hinv Hp) as (s' & H & Hwf).
    exists s'. split; [exact H|]. split; [exact Hwf | apply seg_wf_class0; exact Hwf].
  - intros p sz n Hp.
    destruct (seg_realloc_total s bs fl p sz n Hinv Hp) as (q & s' & H & Hwf & _).
    exists q, s'. split; [exact H|]. split; [exact Hwf | apply seg_wf_class0; exact Hwf].
  - intros a b r s' H. destruct (seg_calloc_spec s bs fl a b Hinv) as [Hc _].
    destruct (Hc r s' H) as [Hwf _]. split; [exact Hwf | apply seg_wf_class0; exact Hwf].
  - intros a b Hn. destruct (seg_calloc_spec s bs fl a b Hinv) as [_ Hc]. exact (Hc Hn).
Qed.

Lemma C10_class_0_witness :
  In 4640 (seg3_lists 0) /\
  size_at (bytes (heap seg3)) 4640 = 32 /\
  (exists p s', Segregated.malloc 16 seg3 = Ret p s' /\ seg_wf s' /\ class0_exact s') /\
  (exists s', Segregated.free 4680 seg3 = Ret tt s' /\ seg_wf s' /\ class0_exact s').
Proof.
  destruct (C10_class_0_holds_32_byte_blocks seg3 seg3_blocks seg3_lists seg3_inv)
    as (C0 & _ & _ & _ & Hm & Hf & _).
  split; [left; reflexivity|]. split.
  - apply (C0 [4640] 4640); [vm_compute; repeat split; reflexivity | | left; reflexivity].
    vm_compute. intros [H|[]]. discriminate.
  - split; [apply (Hm 16)|].
    apply (Hf 4680 32). right. right. left. reflexivity.
Defined.


(** * Words, sizes and size classes *)

Lemma lor_one_any (w : Z) : Z.lor w 1 = w + 1 - w mod 2.
Proof. pose proof (Z.add_lor_land w 1) as E. rewrite land_one in E. lia. Qed.

Lemma pack_truncates (big : Z) (al : bool) :
  Segregated.pack big al = Segregated.pack (wrap32 big) al.
Proof.
  unfold Segregated.pack. destruct al.
  - rewrite !lor_one_any. unfold wrap32. mlia.
  - unfold wrap32. rewrite Z.mod_mod by lia. reflexivity.
Qed.

(** X1.  A tag word holds a block size and the allocation flag: for a size
    that is a multiple of 8 below [2^32], [extract_size] and
    [extract_alloc] give back what [pack] was given, in both variants.
    [pack] keeps the low 32 bits of the size only. *)
Theorem pack_extract_round_trip (sz : Z) (al : bool) :
  0 <= sz < 2 ^ 32 -> sz mod 8 = 0 ->
  Implicit.extract_size (Implicit.pack sz al) = sz /\
  Implicit.extract_alloc (Implicit.pack sz al) = al /\
  Segregated.extract_size (Segregated.pack sz al) = sz /\
  Segregated.extract_alloc (Segregated.pack sz al) = al /\
  (forall k, 0 <= k ->
     Implicit.pack (sz + k * 2 ^ 32) al = Implicit.pack sz al /\
     Segregated.pack (sz + k * 2 ^ 32) al = Segregated.pack sz al).
Proof.
  intros Hs H8.
  pose proof (extract_size_pack sz al Hs H8) as E1.
  pose proof (extract_alloc_pack sz al Hs H8) as E2.
  repeat split; try assumption.
  - change (Segregated.pack (sz + k * 2 ^ 32) al = Segregated.pack sz al).
    rewrite pack_truncates. f_equal. unfold wrap32. rewrite Z.mod_add by lia.
    apply Z.mod_small. lia.
  - rewrite pack_truncates. f_equal. unfold wrap32. rewrite Z.mod_add by lia.
    apply Z.mod_small. lia.
Qed.

Lemma pack_extract_round_trip_witness :
  Segregated.extract_size (Segregated.pack 4096 true) = 4096 /\
  Segregated.extract_alloc (Segregated.pack 4096 true) = true /\
  Implicit.pack (4096 + 1 * 2 ^ 32) true = Implicit.pack 4096 true.
Proof.
  destruct (pack_extract_round_trip 4096 true) as (_ & _ & E1 & E2 & E3).
  - lia.
  - reflexivity.
  - split; [exact E1 | split; [exact E2 | exact (proj1 (E3 1 ltac:(lia)))]].
Defined.

Lemma round_up_value (size n : Z) :
  0 <= size -> 0 < n -> size + n - 1 < 2 ^ 64 ->
  Segregated.round_up size n = n * ((size + (n - 1)) / n).
Proof.
  intros Hs Hn Hb. unfold Segregated.round_up.
  rewrite (wrap64_small (size + (n - 1))) by lia.
  apply wrap64_small.
  pose proof (Z.mul_div_le (size + (n - 1)) n Hn).
  assert (0 <= (size + (n - 1)) / n) by (apply Z.div_pos; lia).
  nia.
Qed.

(** X2.  [round_up(size, n)] is the least multiple of [n] that is not below
    [size], as long as [size + n - 1] fits [size_t]; a multiple of [n] is
    left as it is.  For the sizes above [2^64 - 8] the sum wraps around and
    rounding up to a multiple of 8 gives 0. *)
Theorem round_up_least_multiple (size n : Z) :
  0 <= size -> 0 < n -> size + n - 1 < 2 ^ 64 ->
  let r := Segregated.round_up size n in
  Implicit.round_up size n = r /\
  r mod n = 0 /\ size <= r < size + n /\
  (size mod n = 0 -> r = size) /\
  (forall big, 2 ^ 64 - 8 < big < 2 ^ 64 ->
     Segregated.round_up big 8 = 0 /\ Implicit.round_up big 8 = 0).
Proof.
  intros Hs Hn Hb r. subst r.
  change (Implicit.round_up size n) with (Segregated.round_up size n).
  rewrite round_up_value by assumption.
  assert (Hdm := Z.div_mod (size + (n - 1)) n ltac:(lia)).
  assert (Hr := Z.mod_pos_bound (size + (n - 1)) n Hn).
  split; [|split; [|split; [|split]]].
  - reflexivity.
  - rewrite Z.mul_comm. apply Z.mod_mul. lia.
  - lia.
  - intros Hm.
    assert (Hs' := Z.div_mod size n ltac:(lia)). rewrite Hm in Hs'.
    replace (size + (n - 1)) with ((n - 1) + (size / n) * n) by lia.
    rewrite Z.div_add by lia.
    rewrite (Z.div_small (n - 1) n) by lia. lia.
  - intros big Hbig.
    assert (E : Segregated.round_up big 8 = 0).
    { unfold Segregated.round_up, wrap64.
      replace ((big + (8 - 1)) mod 2 ^ 64) with (big + 7 - 2 ^ 64) by mlia.
      rewrite Z.div_small by lia. reflexivity. }
    split; exact E.
Qed.

Lemma round_up_least_multiple_witness :
  Segregated.round_up 13 8 mod 8 = 0 /\ 13 <= Segregated.round_up 13 8 < 13 + 8.
Proof.
  destruct (round_up_least_multiple 13 8) as (_ & E1 & E2 & _); [lia | lia | lia |].
  split; [exact E1 | exact E2].
Defined.

(** X3.  The adjusted size of a request of [n] bytes in the segregated
    variant, [get_asize(n)], is a multiple of 8 of at least
    [min_block_size = 32] bytes.  As long as [n + 19] fits [size_t] it is
    the least multiple of 8 that holds [n] bytes and the 12 bytes of the
    tags, or 32; for the larger requests the sum wraps around and the
    adjusted size is 32, which does not hold the request. *)
Theorem get_asize_least_block (n : Z) :
  0 <= n < 2 ^ 64 ->
  let a := Segregated.get_asize n in
  32 <= a < 2 ^ 64 /\ a mod 8 = 0 /\
  (n + 19 < 2 ^ 64 -> n + 12 <= a /\ a = Z.max 32 (8 * ((n + 19) / 8))) /\
  (2 ^ 64 <= n + 19 -> a = 32 /\ a < n).
Proof.
  intros Hn a. subst a.
  pose proof (seg_asize_spec n) as (Hr & H8 & Hlow).
  split; [exact Hr|]. split; [exact H8|]. split.
  - intros Hb. split; [apply Hlow; lia|].
    unfold Segregated.get_asize, Segregated.max.
    change Segregated.tsize with 12. change Segregated.dsize with 8.
    change Segregated.min_block_size with 32.
    rewrite (wrap64_small (n + 12)) by lia.
    rewrite round_up_value by lia.
    replace (n + 12 + (8 - 1)) with (n + 19) by lia.
    destruct (Z.gtb_spec (8 * ((n + 19) / 8)) 32); lia.
  - intros Hb.
    assert (E : Segregated.get_asize n = 32).
    { unfold Segregated.get_asize, Segregated.max, Segregated.round_up.
      change Segregated.tsize with 12. change Segregated.dsize with 8.
      change Segregated.min_block_size with 32.
      assert (Hw : wrap64 (wrap64 (n + 12) + (8 - 1)) = n + 19 - 2 ^ 64).
      { unfold wrap64. mlia. }
      rewrite Hw.
      assert (Hq : (n + 19 - 2 ^ 64) / 8 = 0 \/ (n + 19 - 2 ^ 64) / 8 = 1 \/
                   (n + 19 - 2 ^ 64) / 8 = 2) by mlia.
      destruct Hq as [-> | [-> | ->]]; reflexivity. }
    rewrite E. lia.
Qed.

Lemma get_asize_least_block_witness :
  32 <= Segregated.get_asize 100 < 2 ^ 64 /\ Segregated.get_asize 100 mod 8 = 0 /\
  100 + 12 <= Segregated.get_asize 100.
Proof.
  destruct (get_asize_least_block 100) as (E1 & E2 & E3 & _); [lia|].
  split; [exact E1 | split; [exact E2 | exact (proj1 (E3 ltac:(lia)))]].
Defined.

(** X4.  [get_highest_1bit_idx(num)] is the number of bits of [num]: [k]
    with [2^(k-1) <= num < 2^k] for a positive 32-bit number.  The loop
    runs once before it tests [num], so the result for 0 is 1, not 0. *)
Theorem highest_1bit_idx_is_bit_length (num : Z) :
  0 <= num < 2 ^ 32 ->
  let k := Segregated.get_highest_1bit_idx num in
  1 <= k <= 32 /\ num < 2 ^ k /\
  (0 < num -> 2 ^ (k - 1) <= num /\ k = Z.log2 num + 1) /\
  (num = 0 -> k = 1).
Proof.
  intros Hn k. subst k.
  destruct (Z.eq_dec num 0) as [->|Hnz].
  - vm_compute. repeat split; try reflexivity; try discriminate; intros H; discriminate.
  - rewrite get_highest_1bit_idx_log2 by lia.
    destruct (log2_cases num ltac:(lia)) as (L & -> & HL & Hpow).
    replace (L + 1 - 1) with L by lia.
    assert (2 ^ (L + 1) <= 2 ^ 32) by (apply Z.pow_le_mono_r; lia).
    repeat split; lia.
Qed.

Lemma highest_1bit_idx_is_bit_length_witness :
  Segregated.get_highest_1bit_idx 4096 = 13 /\ 2 ^ 12 <= 4096 < 2 ^ 13.
Proof.
  destruct (highest_1bit_idx_is_bit_length 4096) as (_ & E1 & E2 & _); [lia|].
  destruct (E2 ltac:(lia)) as (E3 & E4).
  split; [exact E4 | split; [exact E3 | exact E1]].
Defined.

(** X5.  The class index that [get_seglist_idx] computes lies in the table
    of the 16 list heads for every value of its argument, and among the
    sizes that a tag holds a larger block never has a lower class. *)
Theorem seglist_idx_in_table_and_monotone (a b : Z) :
  0 < a <= b -> b < 2 ^ 32 ->
  Segregated.get_seglist_idx a <= Segregated.get_seglist_idx b /\
  (forall size, 0 <= Segregated.get_seglist_idx size < Segregated.size_class_cnt).
Proof.
  intros Hab Hb. split.
  - destruct (get_seglist_idx_classes a ltac:(lia)) as (Ra & Ca).
    destruct (get_seglist_idx_classes b ltac:(lia)) as (Rb & Cb).
    exact (in_class_monotone a b _ _ Hab Ra Rb Ca Cb).
  - intros size. apply seg_idx_total.
Qed.

Lemma seglist_idx_in_table_and_monotone_witness :
  Segregated.get_seglist_idx 40 <= Segregated.get_seglist_idx 4056 /\
  0 <= Segregated.get_seglist_idx (2 ^ 64 - 1) < Segregated.size_class_cnt.
Proof.
  destruct (seglist_idx_in_table_and_monotone 40 4056) as (E1 & E2); [lia | lia |].
  split; [exact E1 | exact (E2 (2 ^ 64 - 1))].
Defined.


(** * Boundary tags, written and read *)

Lemma tagged_reads (m : mem) (a sz : Z) (al : bool) :
  8 <= sz < 2 ^ 32 -> sz mod 8 = 0 ->
  let m' := set_tags m a sz al in
  size_at m' a = sz /\ alloc_at m' a = al /\ size_at m' (a + sz - 4) = sz /\
  alloc_at m' (a + sz - 4) = al /\
  (forall x, x < a \/ a + 4 <= x -> x < a + sz - 4 \/ a + sz <= x ->
             get_byte m' x = get_byte m x).
Proof.
  intros Hs H8 m'.
  pose proof (tagged_set_tags m a sz al ltac:(lia)) as Ht.
  destruct (tagged_header _ _ Ht) as (E1 & E2); cbn [b_size]; try lia; try assumption.
  destruct (tagged_footer _ _ Ht) as (E3 & E4); cbn [b_size]; try lia; try assumption.
  cbn [b_addr b_size b_alloc] in *.
  repeat split; try assumption.
  intros x Hx1 Hx2. apply get_byte_set_tags; assumption.
Qed.

(** X6.  In the implicit variant, [write_header] followed by
    [write_footer] for a block of [sz] bytes at [b], both tags lying in
    the region, makes [get_size], [get_alloc] and [get_payload_size] read
    [sz], the flag and [sz - 8]; [find_next] leads to [b + sz] and
    [find_prev] leads back from there to [b].  No byte outside of the two
    tag words changes. *)
Theorem imp_tags_round_trip (s : Implicit.st) (b sz : Z) (al : bool) :
  8 <= sz < 2 ^ 32 -> sz mod 8 = 0 ->
  valid (heap s) b 4 = true -> valid (heap s) (b + sz - 4) 4 = true ->
  exists s',
    (Implicit.write_header b sz al ;;; Implicit.write_footer b sz al) s = Ret tt s' /\
    Implicit.get_size b s' = Ret sz s' /\
    Implicit.get_alloc b s' = Ret al s' /\
    Implicit.get_payload_size b s' = Ret (sz - 8) s' /\
    Implicit.find_next b s' = Ret (b + sz) s' /\
    Implicit.find_prev (b + sz) s' = Ret b s' /\
    (forall x, x < b \/ b + 4 <= x -> x < b + sz - 4 \/ b + sz <= x ->
               get_byte (bytes (heap s')) x = get_byte (bytes (heap s)) x).
Proof.
  intros Hs H8 V1 V2.
  exists (upd s (set_tags (bytes (heap s)) b sz al)).
  destruct (tagged_reads (bytes (heap s)) b sz al Hs H8) as (E1 & E2 & E3 & _ & E5).
  split; [apply imp_write_tags_end; try assumption; lia|].
  split; [rewrite imp_get_size_ok by (rewrite valid_upd; assumption);
          rewrite bytes_upd, E1; reflexivity|].
  split; [rewrite imp_get_alloc_ok by (rewrite valid_upd; assumption);
          rewrite bytes_upd, E2; reflexivity|].
  split.
  { assert (V1' : valid (heap (upd s (set_tags (bytes (heap s)) b sz al))) b 4 = true)
      by (rewrite valid_upd; assumption).
    unfold Implicit.get_payload_size.
    exec (imp_get_size_ok _ b V1').
    rewrite E1. unfold ret. f_equal. change Implicit.dsize with 8.
    apply wrap64_small. lia. }
  split; [rewrite imp_find_next_ok by (rewrite valid_upd; assumption);
          rewrite bytes_upd, E1; reflexivity|].
  split.
  - rewrite imp_find_prev_ok by (rewrite valid_upd; assumption).
    rewrite bytes_upd, E3. f_equal. lia.
  - intros x Hx1 Hx2. rewrite bytes_upd. apply E5; assumption.
Qed.

Lemma imp_tags_round_trip_witness :
  exists s',
    (Implicit.write_header 4108 64 true ;;; Implicit.write_footer 4108 64 true) imp1 =
    Ret tt s' /\
    Implicit.get_size 4108 s' = Ret 64 s' /\
    Implicit.find_prev (4108 + 64) s' = Ret 4108 s'.
Proof.
  destruct (imp_tags_round_trip imp1 4108 64 true) as (s' & E1 & E2 & _ & _ & _ & E3 & _);
    [lia | reflexivity | reflexivity | reflexivity |].
  exists s'. split; [exact E1 | split; [exact E2 | exact E3]].
Defined.

(** X7.  The same in the segregated variant, where the payload of a block
    of [sz] bytes has [sz - 12] bytes; the footer is found from the
    payload size, so the block has 12 bytes at least. *)
Theorem seg_tags_round_trip (s : Segregated.st) (b sz : Z) (al : bool) :
  12 <= sz < 2 ^ 32 -> sz mod 8 = 0 ->
  valid (heap s) b 4 = true -> valid (heap s) (b + sz - 4) 4 = true ->
  exists s',
    (Segregated.write_header b sz al ;;; Segregated.write_footer b sz al) s = Ret tt s' /\
    Segregated.get_size b s' = Ret sz s' /\
    Segregated.get_alloc b s' = Ret al s' /\
    Segregated.get_payload_size b s' = Ret (sz - 12) s' /\
    Segregated.get_footer b s' = Ret (b + sz - 4) s' /\
    Segregated.find_next b s' = Ret (b + sz) s' /\
    Segregated.find_prev (b + sz) s' = Ret b s' /\
    (forall x, x < b \/ b + 4 <= x -> x < b + sz - 4 \/ b + sz <= x ->
               get_byte (bytes (heap s')) x = get_byte (bytes (heap s)) x).
Proof.
  intros Hs H8 V1 V2.
  exists (upd s (set_tags (bytes (heap s)) b sz al)).
  destruct (tagged_reads (bytes (heap s)) b sz al ltac:(lia) H8) as (E1 & E2 & E3 & _ & E5).
  assert (Hps : Segregated.get_payload_size b (upd s (set_tags (bytes (heap s)) b sz al)) =
                Ret (sz - 12) (upd s (set_tags (bytes (heap s)) b sz al))).
  { assert (V1' : valid (heap (upd s (set_tags (bytes (heap s)) b sz al))) b 4 = true)
      by (rewrite valid_upd; assumption).
    unfold Segregated.get_payload_size.
    exec (seg_get_size_ok _ b V1').
    rewrite E1. unfold ret. f_equal. change Segregated.tsize with 12.
    apply wrap64_small. lia. }
  split; [apply seg_write_tags_end; try assumption; lia|].
  split; [rewrite seg_get_size_ok by (rewrite valid_upd; assumption);
          rewrite bytes_upd, E1; reflexivity|].
  split; [rewrite seg_get_alloc_ok by (rewrite valid_upd; assumption);
          rewrite bytes_upd, E2; reflexivity|].
  split; [exact Hps|].
  split.
  { unfold Segregated.get_footer. exec Hps. unfold ret. f_equal.
    change Segregated.payload_offset with 8. lia. }
  split; [rewrite seg_find_next_ok by (rewrite valid_upd; assumption);
          rewrite bytes_upd, E1; reflexivity|].
  split.
  - rewrite seg_find_prev_ok by (rewrite valid_upd; assumption).
    rewrite bytes_upd, E3. f_equal. lia.
  - intros x Hx1 Hx2. rewrite bytes_upd. apply E5; assumption.
Qed.

Lemma seg_tags_round_trip_witness :
  exists s',
    (Segregated.write_header 4640 64 true ;;; Segregated.write_footer 4640 64 true) seg1 =
    Ret tt s' /\
    Segregated.get_size 4640 s' = Ret 64 s' /\
    Segregated.find_prev (4640 + 64) s' = Ret 4640 s'.
Proof.
  destruct (seg_tags_round_trip seg1 4640 64 true)
    as (s' & E1 & E2 & _ & _ & _ & _ & E3 & _);
    [lia | reflexivity | reflexivity | reflexivity |].
  exists s'. split; [exact E1 | split; [exact E2 | exact E3]].
Defined.

(** X8.  In a well-formed heap of either variant the blocks are threaded
    both ways by their tags: for a block [p] that is followed by the block
    [b], [find_next] leads from [p] to [b], [find_prev] from [b] back to
    [p], and neither changes the heap. *)
Theorem find_next_find_prev_inverse
    (si : Implicit.st) (bsi l1 l2 : list blk) (p b : blk)
    (ss : Segregated.st) (bss k1 k2 : list blk) (fl : Z -> list Z) (ex : list Z) (q c : blk) :
  imp_inv si bsi -> imp_prologue si :: bsi = l1 ++ p :: b :: l2 ->
  seg_inv ss bss fl ex -> seg_prologue ss :: bss = k1 ++ q :: c :: k2 ->
  Implicit.find_next (b_addr p) si = Ret (b_addr b) si /\
  Implicit.find_prev (b_addr b) si = Ret (b_addr p) si /\
  Segregated.find_next (b_addr q) ss = Ret (b_addr c) ss /\
  Segregated.find_prev (b_addr c) ss = Ret (b_addr q) ss.
Proof.
  intros Hi Ei Hs Es.
  destruct (imp_around_read si bsi l1 l2 p b Hi Ei) as (Ip & Ib & Ea & Ef & _).
  destruct (imp_block_facts si bsi Hi p Ip) as (_ & _ & _ & _ & _ & _ & Vp & Vpf).
  destruct (imp_block_read si bsi Hi p Ip) as (Sp & _).
  destruct (seg_around_read ss bss fl ex k1 k2 q c Hs Es) as (Iq & Ic & Ec & Eg & _).
  destruct (seg_block_facts ss bss fl ex Hs q Iq) as (_ & _ & _ & _ & _ & _ & Vq & Vqf & _).
  destruct (seg_block_read ss bss fl ex Hs q Iq) as (Sq & _).
  split; [rewrite imp_find_next_ok by assumption; rewrite Sp; f_equal; lia|].
  split.
  { rewrite imp_find_prev_ok by (replace (b_addr b - 4) with (b_addr p + b_size p - 4) by lia;
                                 assumption).
    rewrite Ef. f_equal. lia. }
  split; [rewrite seg_find_next_ok by assumption; rewrite Sq; f_equal; lia|].
  rewrite seg_find_prev_ok by (replace (b_addr c - 4) with (b_addr q + b_size q - 4) by lia;
                               assumption).
  rewrite Eg. f_equal. lia.
Qed.

Lemma find_next_find_prev_inverse_witness :
  Implicit.find_next 4108 imp2 = Ret 4140 imp2 /\
  Implicit.find_prev 4140 imp2 = Ret 4108 imp2 /\
  Segregated.find_next 4640 seg2 = Ret 4680 seg2 /\
  Segregated.find_prev 4680 seg2 = Ret 4640 seg2.
Proof.
  exact (find_next_find_prev_inverse
           imp2 imp2_blocks [imp_prologue imp2] [] (mkBlk 4108 32 true) (mkBlk 4140 4064 false)
           seg2 seg2_blocks [seg_prologue seg2] [] seg2_lists []
           (mkBlk 4640 40 true) (mkBlk 4680 4056 false)
           imp2_inv eq_refl seg2_inv eq_refl).
Defined.


(** * The search for a free block *)

(** ** Implicit list: first fit in address order *)

(** X9.  [find_fit] of the implicit variant is a first fit in address
    order: in a well-formed heap it returns the first free block that has
    [asize] bytes at least, every block before it being allocated or too
    small, and it returns null exactly when no block of the heap is free
    and large enough.  The heap is left as it was. *)
Theorem imp_find_fit_is_first_fit (s : Implicit.st) (bs : list blk) (asize : Z) :
  imp_inv s bs ->
  exists r,
    Implicit.find_fit asize s = Ret r s /\
    (r = NULL <-> forall x, In x bs -> b_alloc x = true \/ b_size x < asize) /\
    (r <> NULL ->
     exists l1 b l2,
       bs = l1 ++ b :: l2 /\ b_addr b = r /\ b_alloc b = false /\ asize <= b_size b /\
       forall x, In x l1 -> b_alloc x = true \/ b_size x < asize).
Proof.
  intros Hinv.
  destruct (imp_find_fit_first s bs asize Hinv)
    as [(l1 & b & l2 & E & H1 & H2 & H3 & H4 & H5) | (H1 & H2)].
  - exists (b_addr b). split; [assumption|]. split.
    + split; [intros; contradiction|].
      intros Hall. destruct (Hall b) as [Hb|Hb].
      * rewrite E. apply in_or_app. right. left. reflexivity.
      * congruence.
      * lia.
    + intros _. exists l1, b, l2. repeat split; assumption.
  - exists NULL. split; [assumption|]. split.
    + split; [intros _; assumption | reflexivity].
    + intros H. contradiction.
Qed.

Lemma imp_find_fit_is_first_fit_witness :
  exists r,
    Implicit.find_fit 64 imp2 = Ret r imp2 /\
    (r = NULL <-> forall x, In x imp2_blocks -> b_alloc x = true \/ b_size x < 64).
Proof.
  destruct (imp_find_fit_is_first_fit imp2 imp2_blocks 64 imp2_inv) as (r & E1 & E2 & _).
  exists r. split; [exact E1 | exact E2].
Defined.

(** ** Segregated lists: first fit in the lowest class that has one *)

(** X10.  [find_fit] of the segregated variant walks the lists from the
    class of [asize] upwards and each list from its head on: in a
    well-formed heap it returns the first node that has [asize] bytes at
    least, a free block of the heap, every node before it in its list and
    every node of the classes in between being too small.  It returns null
    exactly when no free block of the heap has [asize] bytes, and leaves
    the heap as it was. *)
Theorem seg_find_fit_is_first_fit
    (s : Segregated.st) (bs : list blk) (fl : Z -> list Z) (asize : Z) :
  seg_inv s bs fl [] -> 0 < asize ->
  let m := bytes (heap s) in
  exists r,
    Segregated.find_fit asize s = Ret r s /\
    (r = NULL <-> forall b, In b bs -> b_alloc b = false -> b_size b < asize) /\
    (r <> NULL ->
     exists i r1 r2,
       Segregated.get_seglist_idx asize <= i < 16 /\ fl i = r1 ++ r :: r2 /\
       In (mkBlk r (size_at m r) false) bs /\ asize <= size_at m r /\
       (forall x, In x r1 -> size_at m x < asize) /\
       (forall j x, Segregated.get_seglist_idx asize <= j < i -> In x (fl j) ->
                    size_at m x < asize)).
Proof.
  intros Hinv Hpos m. subst m.
  destruct (seg_find_fit_first s bs fl Hinv asize)
    as [(i & a & r1 & r2 & Hr & E & G1 & G2 & G3 & Hrun & Hnz & Hb) | (G1 & Hrun)].
  - exists a. split; [assumption|]. split.
    + split; [intros; contradiction|].
      intros Hall. specialize (Hall _ Hb eq_refl). cbn [b_size] in Hall. lia.
    + intros _. exists i, r1, r2. repeat split; try assumption; lia.
  - exists NULL. split; [assumption|]. split.
    + split; [|reflexivity]. intros _.
      exact (seg_find_fit_none s bs fl Hinv asize Hpos Hrun).
    + intros H. contradiction.
Qed.

Lemma seg_find_fit_is_first_fit_witness :
  exists r,
    Segregated.find_fit 32 seg3 = Ret r seg3 /\
    (r = NULL <-> forall b, In b seg3_blocks -> b_alloc b = false -> b_size b < 32).
Proof.
  destruct (seg_find_fit_is_first_fit seg3 seg3_blocks seg3_lists 32 seg3_inv) as (r & E1 & E2 & _);
    [lia|].
  exists r. split; [exact E1 | exact E2].
Defined.


(** * Invariant (I3), read off the memory *)

(** Walking the tags from the first block of a tiled range up to a word
    of size 0 finds two free blocks side by side exactly when the sequence
    of blocks has two. *)
Lemma no_adjacent_free_chain (m : mem) (e : Z) :
  size_at m e = 0 -> alloc_at m e = true ->
  forall (l : list blk) (a : Z) (fuel : nat),
    chain a l e -> Forall (tagged m) l -> Forall (fun b => b_size b < 2 ^ 32) l ->
    (length l <= fuel)%nat ->
    (no_adjacent_free fuel m a = true <-> no_adj_free l).
Proof.
  intros Hes Hea. induction l as [|b l IH]; intros a fuel Hc Ht Hs Hfuel.
  - cbn in Hc. subst a. destruct fuel as [|fuel]; cbn [no_adjacent_free no_adj_free].
    + tauto.
    + rewrite Hes. cbn. tauto.
  - destruct fuel as [|fuel]; [cbn in Hfuel; lia|].
    cbn [chain] in Hc. destruct Hc as (Ha & Hb8 & Hbm & Hc).
    inversion Ht as [|? ? Htb Htl]; subst.
    inversion Hs as [|? ? Hsb Hsl]; subst.
    destruct (tagged_header m b Htb ltac:(lia) Hbm) as (Rs & Ra).
    cbn [no_adjacent_free no_adj_free]. rewrite Rs.
    destruct (Z.eqb_spec (b_size b) 0) as [|_]; [lia|].
    rewrite Ra.
    specialize (IH (b_addr b + b_size b) fuel Hc Htl Hsl ltac:(cbn in Hfuel; lia)).
    destruct l as [|b' l'].
    + cbn in Hc. rewrite <- Hc in Hea. rewrite Hea. rewrite andb_false_r. rewrite IH.
      cbn. tauto.
    + pose proof Hc as Hc'. cbn [chain] in Hc'. destruct Hc' as (Ha' & Hb8' & Hbm' & _).
      inversion Htl as [|? ? Htb' _]; subst.
      inversion Hsl as [|? ? Hsb' _]; subst.
      destruct (tagged_header m b' Htb' ltac:(lia) Hbm') as (_ & Ra').
      rewrite Ha' in Ra'. rewrite Ra'.
      destruct (b_alloc b) eqn:Ab, (b_alloc b') eqn:Ab'; cbn [negb andb];
        rewrite ?IH; intuition congruence.
Qed.

Lemma imp_I3_iff (s : Implicit.st) (bs : list blk) :
  imp_inv s bs -> (imp_I3 s = true <-> no_adj_free (imp_prologue s :: bs)).
Proof.
  intros Hinv. unfold imp_I3.
  destruct (imp_epilogue_read s bs Hinv) as (Hs & Ha & _).
  pose proof (imp_heap_extent s bs Hinv) as He.
  pose proof (ii_chain _ _ Hinv) as Hc.
  pose proof (chain_length _ _ _ Hc) as Hlen.
  apply (no_adjacent_free_chain _ _ Hs Ha _ _ _ Hc (ii_tags _ _ Hinv)).
  - rewrite Forall_forall. intros b Hb.
    destruct (imp_block_facts s bs Hinv b Hb) as (_ & _ & ? & _). lia.
  - lia.
Qed.

Lemma seg_I3_iff (s : Segregated.st) (bs : list blk) (fl : Z -> list Z) (ex : list Z) :
  seg_inv s bs fl ex -> (seg_I3 s = true <-> no_adj_free (seg_prologue s :: bs)).
Proof.
  intros Hinv. unfold seg_I3.
  destruct (seg_epilogue_read s bs fl ex Hinv) as (Hs & Ha & _).
  pose proof (seg_heap_extent s bs fl ex Hinv) as He.
  pose proof (si_chain _ _ _ _ Hinv) as Hc.
  pose proof (chain_length _ _ _ Hc) as Hlen.
  change Segregated.epilogue_size with 8 in Hc, Hlen.
  apply (no_adjacent_free_chain _ _ Hs Ha _ _ _ Hc (si_tags _ _ _ _ Hinv)).
  - rewrite Forall_forall. intros b Hb.
    destruct (seg_block_facts s bs fl ex Hinv b Hb) as (_ & _ & ? & _). lia.
  - lia.
Qed.

(** * [calloc]: the block and its bytes *)

Lemma get_byte_fill_in (m : mem) (dst c n x : Z) :
  dst <= x < dst + n -> get_byte (fill_bytes m dst c n) x = c mod 256.
Proof.
  intros Hx. unfold get_byte, fill_bytes.
  destruct (Z.leb_spec dst x); [|lia]. destruct (Z.ltb_spec x (dst + n)); [|lia].
  cbn [andb]. apply Z.mod_mod. lia.
Qed.

Lemma memset_ok {G} (s : state G) (dst c n : Z) :
  0 < n -> valid (heap s) dst n = true ->
  memset dst c n s = Ret tt (upd s (fill_bytes (bytes (heap s)) dst c n)).
Proof.
  intros Hn V. unfold memset. cbv zeta.
  destruct (Z.eqb_spec n 0); [lia|]. rewrite V. reflexivity.
Qed.

Lemma imp_calloc_shape (s : Implicit.st) (bs : list blk) (a b : Z) :
  imp_inv s bs -> 0 < a -> 0 <= b -> a * b + 15 < 2 ^ 64 ->
  exists r s',
    Implicit.calloc a b s = Ret r s' /\ globals s' = globals s /\
    ((r = NULL /\ bytes (heap s') = bytes (heap s) /\ imp_inv s' bs)
     \/
     (r <> NULL /\ 0 < a * b /\
      (forall i, 0 <= i < a * b -> get_byte (bytes (heap s')) (r + i) = 0) /\
      exists bs' sz,
        imp_inv s' bs' /\
        In (mkBlk (r - 4) sz true) bs' /\ a * b + 8 <= sz /\
        keeps (bytes (heap s)) (bytes (heap s')) bs bs' /\
        (forall x, In x bs -> b_alloc x = true -> b_addr x <> r - 4) /\
        (no_adj_free (imp_prologue s :: bs) -> no_adj_free (imp_prologue s :: bs')))).
Proof.
  intros Hinv Ha Hb Hn. unfold Implicit.calloc. cbv zeta.
  assert (H0 : 0 <= a * b) by nia.
  rewrite (wrap64_small (a * b)) by lia.
  destruct (Z.eqb_spec a 0) as [|_]; [lia|].
  rewrite (Z.mul_comm a b), Z.div_mul by lia. rewrite Z.eqb_refl. cbn [negb].
  rewrite (Z.mul_comm b a).
  destruct (Z.eq_dec (a * b) 0) as [Hz|Hnz].
  - rewrite Hz. change (Implicit.malloc 0) with (@ret Z Z NULL). rewrite ret_bind.
    change (NULL =? NULL) with true. cbv iota. exists NULL, s.
    split; [reflexivity|]. split; [reflexivity|]. left.
    split; [reflexivity|]. split; [reflexivity | exact Hinv].
  - destruct (imp_malloc_shape s bs (a * b) Hinv ltac:(lia) Hn)
      as (p & s1 & Hm & Hg & Hres).
    exec Hm.
    destruct Hres as [(-> & Hs1 & Hinv1 & _)|
                      (Hp & bs1 & sz & Hinv1 & Hin & Hsz & Hk & Hfresh & HI & _)].
    + change (NULL =? NULL) with true. cbv iota. exists NULL, s1.
      split; [reflexivity|]. split; [exact Hg|]. left.
      split; [reflexivity|]. split; [rewrite Hs1; reflexivity | exact Hinv1].
    + destruct (Z.eqb_spec p NULL) as [|_]; [contradiction|].
      destruct (imp_asize_spec (a * b) ltac:(lia) Hn) as (_ & _ & Hcover).
      set (nb := mkBlk (p - 4) sz true) in *.
      destruct (imp_block_facts s1 bs1 Hinv1 _ (or_intror Hin)) as (Hlo & Hhi & _).
      pose proof (imp_heap_extent s1 bs1 Hinv1) as He.
      pose proof (ii_chain _ _ Hinv1) as Hc1.
      cbn [nb b_addr b_size] in Hlo, Hhi.
      assert (V : valid (heap s1) p (a * b) = true) by (apply valid_intro; lia).
      exec (memset_ok s1 p 0 (a * b) ltac:(lia) V).
      set (m2 := fill_bytes (bytes (heap s1)) p 0 (a * b)).
      assert (Hag : agree_outside (bytes (heap s1)) m2 (p - 4 + 4) (p - 4 + sz - 4))
        by (apply agree_outside_fill; lia).
      exists p, (upd s1 m2).
      split; [reflexivity|]. split; [exact Hg|]. right.
      split; [exact Hp|]. split; [lia|]. split.
      { intros i Hi. rewrite bytes_upd. unfold m2. rewrite get_byte_fill_in by lia.
        reflexivity. }
      exists bs1, sz.
      split; [exact (imp_inv_payload s1 bs1 nb m2 Hinv1 Hin Hag)|].
      split; [exact Hin|]. split; [lia|]. split; [|split; [exact Hfresh | exact HI]].
      intros x Hx Hal. destruct (Hk x Hx Hal) as [Hx1 Hsx1].
      split; [exact Hx1|]. rewrite bytes_upd.
      apply same_bytes_trans with (bytes (heap s1)); [exact Hsx1|].
      eapply same_bytes_agree; [exact Hag|].
      destruct (chain_disjoint _ _ _ _ _ Hc1 (or_intror Hx1) (or_intror Hin)) as [Heq|Hd].
      * exfalso. apply (Hfresh x Hx Hal). rewrite Heq. reflexivity.
      * cbn [nb b_addr b_size] in Hd. lia.
Qed.

Lemma seg_calloc_shape (s : Segregated.st) (bs : list blk) (fl : Z -> list Z) (a b : Z) :
  seg_inv s bs fl [] -> 0 <= a * b -> a * b + 19 < 2 ^ 64 ->
  exists r s',
    Segregated.calloc a b s = Ret r s' /\ globals s' = globals s /\
    ((r = NULL /\ bytes (heap s') = bytes (heap s) /\ seg_inv s' bs fl [])
     \/
     (r <> NULL /\ 0 < a * b /\
      (forall i, 0 <= i < a * b -> get_byte (bytes (heap s')) (r + i) = 0) /\
      exists bs' fl' sz,
        seg_inv s' bs' fl' [] /\
        In (mkBlk (r - 8) sz true) bs' /\ a * b + 12 <= sz /\
        keeps (bytes (heap s)) (bytes (heap s')) bs bs' /\
        (forall x, In x bs -> b_alloc x = true -> b_addr x <> r - 8) /\
        (no_adj_free (seg_prologue s :: bs) -> no_adj_free (seg_prologue s :: bs')))).
Proof.
  intros Hinv H0 Hn. unfold Segregated.calloc.
  rewrite (wrap64_small (a * b)) by lia.
  destruct (Z.eq_dec (a * b) 0) as [Hz|Hnz].
  - rewrite Hz. change (Segregated.malloc 0) with (@ret Segregated.vars Z NULL).
    rewrite ret_bind. change (negb (NULL =? NULL)) with false. cbv iota. rewrite ret_bind.
    exists NULL, s.
    split; [reflexivity|]. split; [reflexivity|]. left.
    split; [reflexivity|]. split; [reflexivity | exact Hinv].
  - destruct (seg_malloc_shape s bs fl (a * b) Hinv Hnz) as (p & s1 & Hm & Hg & Hres).
    exec Hm.
    destruct Hres as [(-> & Hs1 & Hinv1 & _)|
                      (Hp & bs1 & fl1 & sz & Hinv1 & Hin & Hsz & Hk & Hfresh & HI & _)].
    + change (negb (NULL =? NULL)) with false. cbv iota. rewrite ret_bind.
      exists NULL, s1.
      split; [reflexivity|]. split; [exact Hg|]. left.
      split; [reflexivity|]. split; [rewrite Hs1; reflexivity | exact Hinv1].
    + destruct (Z.eqb_spec p NULL) as [|_]; [contradiction|]. cbn [negb].
      destruct (seg_asize_spec (a * b)) as (_ & _ & Hcover).
      specialize (Hcover H0 Hn).
      set (nb := mkBlk (p - 8) sz true) in *.
      destruct (seg_block_facts s1 bs1 fl1 _ Hinv1 _ (or_intror Hin)) as (Hlo & Hhi & _).
      pose proof (seg_heap_extent s1 bs1 fl1 _ Hinv1) as He.
      pose proof (si_chain _ _ _ _ Hinv1) as Hc1.
      cbn [nb b_addr b_size] in Hlo, Hhi.
      assert (V : valid (heap s1) p (a * b) = true) by (apply valid_intro; lia).
      exec (memset_ok s1 p 0 (a * b) ltac:(lia) V).
      set (m2 := fill_bytes (bytes (heap s1)) p 0 (a * b)).
      assert (Hag : agree_outside (bytes (heap s1)) m2 (p - 8 + 4) (p - 8 + sz - 4))
        by (apply agree_outside_fill; lia).
      exists p, (upd s1 m2).
      split; [reflexivity|]. split; [exact Hg|]. right.
      split; [exact Hp|]. split; [lia|]. split.
      { intros i Hi. rewrite bytes_upd. unfold m2. rewrite get_byte_fill_in by lia.
        reflexivity. }
      exists bs1, fl1, sz.
      split; [exact (seg_inv_payload s1 bs1 fl1 [] nb m2 Hinv1 Hin eq_refl Hag)|].
      split; [exact Hin|]. split; [lia|]. split; [|split; [exact Hfresh | exact HI]].
      intros x Hx Hal. destruct (Hk x Hx Hal) as [Hx1 Hsx1].
      split; [exact Hx1|]. rewrite bytes_upd.
      apply same_bytes_trans with (bytes (heap s1)); [exact Hsx1|].
      eapply same_bytes_agree; [exact Hag|].
      destruct (chain_disjoint _ _ _ _ _ Hc1 (or_intror Hx1) (or_intror Hin)) as [Heq|Hd].
      * exfalso. apply (Hfresh x Hx Hal). rewrite Heq. reflexivity.
      * cbn [nb b_addr b_size] in Hd. lia.
Qed.

(** * [mm_init]: the heap that it builds *)

Lemma chain_single (a : Z) (l : list blk) (e : Z) (b : blk) :
  chain a l e -> In b l -> b_addr b <= a -> e <= b_addr b + b_size b -> l = [b].
Proof.
  intros Hc Hin Ha He. destruct l as [|x rest]; [destruct Hin|].
  pose proof Hc as Hc'. cbn [chain] in Hc'. destruct Hc' as (Hx & Hx8 & _ & Hrest).
  assert (b = x).
  { destruct Hin as [<-|Hin]; [reflexivity|].
    pose proof (chain_bounds _ _ _ _ Hrest Hin). lia. }
  subst x. f_equal. destruct rest as [|y rest]; [reflexivity|].
  pose proof (chain_bounds _ _ _ _ Hrest (or_introl eq_refl)). lia.
Qed.

Lemma imp_mm_init_refused (s : Implicit.st) :
  mem_max_addr (heap s) < mem_brk (heap s) + 16 ->
  Implicit.mm_init s = Ret (-1) (refused s 16).
Proof.
  intros H. unfold Implicit.mm_init. change (4 * Implicit.wsize) with 16.
  exec (mem_sbrk_refused s 16 H). reflexivity.
Qed.

Lemma imp_mm_init_run (s : Implicit.st) :
  region_ok (heap s) ->
  mem_brk (heap s) + 16 <= mem_max_addr (heap s) ->
  Implicit.mm_init s =
  (b <- Implicit.extend_heap Implicit.chunksize ;;
   if b =? NULL then ret (-1) else ret 0) (imp_init_state s).
Proof.
  intros (R1 & R2 & R3 & R4 & R5) Hroom.
  unfold Implicit.mm_init. change (4 * Implicit.wsize) with 16.
  exec (mem_sbrk_granted s 16 Hroom).
  set (start := mem_brk (heap s)) in *.
  destruct (Z.eqb_spec start sbrk_failed) as [Hbad|_]; [unfold sbrk_failed in Hbad; lia|].
  change Implicit.wsize with 4.
  erewrite bind_Ret;
    [|apply st32_ok; apply valid_intro;
      cbn [upd grown heap set_bytes mem_start_brk mem_brk]; fold start; lia].
  cbv beta.
  erewrite bind_Ret;
    [|apply st32_ok; apply valid_intro;
      cbn [upd grown heap set_bytes mem_start_brk mem_brk]; fold start; lia].
  cbv beta.
  erewrite bind_Ret;
    [|apply st32_ok; apply valid_intro;
      cbn [upd grown heap set_bytes mem_start_brk mem_brk]; fold start; lia].
  cbv beta. rewrite set_globals_bind.
  unfold imp_init_state, imp_init_mem. fold start.
  change Implicit.wsize with 4.
  cbn [upd grown heap globals bytes set_bytes mem_start_brk mem_brk mem_max_addr requests].
  change (4 * 4) with 16.
  reflexivity.
Qed.

Lemma imp_init_inv (s : Implicit.st) :
  region_ok (heap s) -> mem_brk (heap s) mod 8 = 0 ->
  mem_brk (heap s) + 16 <= mem_max_addr (heap s) ->
  imp_inv (imp_init_state s) [].
Proof.
  intros (R1 & R2 & R3 & R4 & R5) H8 Hroom.
  set (start := mem_brk (heap s)) in *.
  set (m := bytes (heap s)).
  assert (Em : imp_init_mem start m =
               store32 (set_tags m (start + 4) 8 true) (start + 12) (Implicit.pack 0 true)).
  { unfold imp_init_mem, set_tags. change Implicit.wsize with 4.
    change Implicit.dsize with 8.
    replace (start + 1 * 4) with (start + 4) by lia.
    replace (start + 2 * 4) with (start + 4 + 8 - 4) by lia.
    replace (start + 3 * 4) with (start + 12) by lia. reflexivity. }
  constructor; unfold imp_init_state; fold start m;
    cbn [heap globals bytes mem_start_brk mem_brk mem_max_addr];
    change Implicit.wsize with 4.
  - unfold region_ok. cbn. lia.
  - lia.
  - mlia.
  - unfold imp_prologue. cbn [globals chain b_addr b_size]. repeat split; lia.
  - apply Forall_cons; [|apply Forall_nil].
    unfold imp_prologue. cbn [globals]. rewrite Em.
    replace (start + 1 * 4) with (start + 4) by lia.
    eapply tagged_agree; [| | | apply (tagged_set_tags m (start + 4) 8 true); lia].
    + apply agree_outside_store with (lo := start + 12) (hi := start + 16); lia.
    + left. cbn [b_addr b_size]. lia.
    + cbn. lia.
  - rewrite Em. replace (start + 4 * 4 - 4) with (start + 12) by lia.
    rewrite load32_store32_same. apply wrap32_small. apply pack_range.
Qed.

Lemma imp_mm_init_shape (s : Implicit.st) :
  region_ok (heap s) -> mem_brk (heap s) mod 8 = 0 ->
  let start := mem_brk (heap s) in
  (mem_max_addr (heap s) < start + 16 ->
   Implicit.mm_init s = Ret (-1) (refused s 16)) /\
  (start + 16 <= mem_max_addr (heap s) -> mem_max_addr (heap s) < start + 16 + 4096 ->
   Implicit.mm_init s = Ret (-1) (refused (imp_init_state s) 4096) /\
   imp_inv (refused (imp_init_state s) 4096) []) /\
  (start + 16 + 4096 <= mem_max_addr (heap s) ->
   exists m',
     Implicit.mm_init s = Ret 0 (upd (grown (imp_init_state s) 4096) m') /\
     imp_inv (upd (grown (imp_init_state s) 4096) m') [mkBlk (start + 12) 4096 false]).
Proof.
  intros Hr H8 start. split; [apply imp_mm_init_refused|].
  assert (Hb0 : mem_brk (heap (imp_init_state s)) = start + 16) by reflexivity.
  assert (Hm0 : mem_max_addr (heap (imp_init_state s)) = mem_max_addr (heap s)) by reflexivity.
  assert (Hg0 : globals (imp_init_state s) = start + 4) by reflexivity.
  split.
  - intros Hroom Hno.
    rewrite (imp_mm_init_run s Hr Hroom).
    pose proof (imp_init_inv s Hr H8 Hroom) as Hinv.
    change Implicit.chunksize with 4096.
    rewrite (bind_Ret _ _ _ _ _ (imp_extend_heap_refused (imp_init_state s) 4096
                                   ltac:(lia) eq_refl ltac:(lia))).
    change (NULL =? NULL) with true. cbv iota.
    split; [reflexivity | apply imp_inv_refused; exact Hinv].
  - intros Hroom.
    rewrite (imp_mm_init_run s Hr ltac:(fold start; lia)).
    pose proof (imp_init_inv s Hr H8 ltac:(fold start; lia)) as Hinv.
    set (s0 := imp_init_state s) in *.
    change Implicit.chunksize with 4096.
    destruct (imp_extend_heap_shape s0 [] 4096 Hinv ltac:(lia) eq_refl ltac:(lia))
      as (m1 & bs1 & fb & Hext & Hinv1 & Hfb & Hfree & Hfsz & _ & Hlo & Hhi & _).
    exec Hext.
    pose proof (imp_tail_addr _ _ fb Hinv1 Hfb) as Ht.
    change (globals (upd (grown s0 4096) m1)) with (globals s0) in Ht.
    destruct (Z.eqb_spec (b_addr fb) NULL) as [Hz|_];
      [destruct Hr as (? & ? & _); unfold NULL in Hz; subst start; lia|].
    exists m1. split; [reflexivity|].
    pose proof (ii_chain _ _ Hinv1) as Hc. cbn [chain] in Hc.
    destruct Hc as (_ & _ & _ & Hc).
    change (globals (upd (grown s0 4096) m1)) with (globals s0) in Hc.
    change (mem_brk (heap (upd (grown s0 4096) m1))) with (mem_brk (heap s0) + 4096) in Hc.
    cbn [imp_prologue b_size] in Hc.
    assert (E : bs1 = [fb]) by (apply (chain_single _ _ _ fb Hc Hfb); lia).
    assert (Efb : fb = mkBlk (start + 12) 4096 false).
    { rewrite <- (blk_eta fb). f_equal; [lia | lia | exact Hfree]. }
    rewrite <- Efb, <- E. exact Hinv1.
Qed.

Lemma NoDup_all_eq {A} (l : list A) (a : A) :
  NoDup l -> (forall x, In x l -> x = a) -> In a l -> l = [a].
Proof.
  intros Hnd Hall Hin. destruct l as [|x l]; [destruct Hin|].
  assert (x = a) by (apply Hall; left; reflexivity). subst x. f_equal.
  destruct l as [|y l]; [reflexivity|].
  assert (y = a) by (apply Hall; right; left; reflexivity). subst y.
  inversion Hnd as [|? ? Hni _]. exfalso. apply Hni. left. reflexivity.
Qed.

Lemma seg_mm_init_shape (s : Segregated.st) :
  region_ok (heap s) -> mem_brk (heap s) mod 8 = 0 ->
  let start := mem_brk (heap s) in
  (mem_max_addr (heap s) < start + 552 ->
   Segregated.mm_init s = Ret (-1) (refused s 552)) /\
  (start + 552 <= mem_max_addr (heap s) -> mem_max_addr (heap s) < start + 552 + 4096 ->
   Segregated.mm_init s = Ret (-1) (refused (seg_init_state s) 4096) /\
   seg_inv (refused (seg_init_state s) 4096) [] (fun _ => []) []) /\
  (start + 552 + 4096 <= mem_max_addr (heap s) ->
   exists m' fl,
     Segregated.mm_init s = Ret 0 (upd (grown (seg_init_state s) 4096) m') /\
     seg_inv (upd (grown (seg_init_state s) 4096) m') [mkBlk (start + 544) 4096 false] fl [] /\
     fl 7 = [start + 544] /\ (forall i, 0 <= i < 16 -> i <> 7 -> fl i = [])).
Proof.
  intros Hr H8 start. split; [apply seg_mm_init_refused|].
  assert (Hb0 : mem_brk (heap (seg_init_state s)) = start + 552) by reflexivity.
  assert (Hm0 : mem_max_addr (heap (seg_init_state s)) = mem_max_addr (heap s)) by reflexivity.
  assert (Hg0 : Segregated.heap_listp (globals (seg_init_state s)) = start + 512)
    by reflexivity.
  split.
  - intros Hroom Hno.
    rewrite (seg_mm_init_run s Hr Hroom).
    pose proof (seg_init_inv s Hr H8 Hroom) as Hinv.
    change Segregated.chunksize with 4096.
    rewrite (bind_Ret _ _ _ _ _ (seg_extend_heap_refused (seg_init_state s) 4096
                                   ltac:(lia) eq_refl ltac:(lia))).
    change (NULL =? NULL) with true. cbv iota.
    split; [reflexivity | apply seg_inv_refused; exact Hinv].
  - intros Hroom.
    assert (Hroom0 : mem_brk (heap s) + Segregated.init_request <= mem_max_addr (heap s))
      by (change Segregated.init_request with 552; fold start; lia).
    rewrite (seg_mm_init_run s Hr Hroom0).
    pose proof (seg_init_inv s Hr H8 Hroom0) as Hinv.
    set (s0 := seg_init_state s) in *.
    change Segregated.chunksize with 4096.
    destruct (seg_extend_heap_shape s0 [] _ 4096 Hinv ltac:(lia) eq_refl ltac:(lia))
      as (m1 & bs1 & fl1 & fb & Hext & Hinv1 & Hfb & Hfree & Hfsz & _ & Hlo & Hhi & _).
    exec Hext.
    pose proof (seg_tail_addr _ _ _ _ Hinv1 fb Hfb) as Ht.
    change (globals (upd (grown s0 4096) m1)) with (globals s0) in Ht.
    destruct (Z.eqb_spec (b_addr fb) NULL) as [Hz|_];
      [destruct Hr as (? & ? & _); unfold NULL in Hz; subst start; lia|].
    pose proof (si_chain _ _ _ _ Hinv1) as Hc. cbn [chain] in Hc.
    destruct Hc as (_ & _ & _ & Hc).
    change (globals (upd (grown s0 4096) m1)) with (globals s0) in Hc.
    change (mem_brk (heap (upd (grown s0 4096) m1))) with (mem_brk (heap s0) + 4096) in Hc.
    cbn [seg_prologue b_size] in Hc.
    change Segregated.prologue_size with 32 in Hc.
    change Segregated.epilogue_size with 8 in Hc.
    assert (E : bs1 = [fb]) by (apply (chain_single _ _ _ fb Hc Hfb); lia).
    assert (Efb : fb = mkBlk (start + 544) 4096 false).
    { rewrite <- (blk_eta fb). f_equal; [lia | lia | exact Hfree]. }
    rewrite E, Efb in Hinv1.
    assert (Hnode : forall i n, 0 <= i < 16 -> In n (fl1 i) -> n = start + 544 /\ i = 7).
    { intros i n Hi Hn.
      destruct (si_nodes _ _ _ _ Hinv1 i n Hi Hn) as (sz & [Eq|[]] & Hidx & _).
      injection Eq as <- <-. split; [reflexivity|]. rewrite <- Hidx. reflexivity. }
    exists m1, fl1. split; [reflexivity|]. split; [exact Hinv1|]. split.
    + destruct (si_lists _ _ _ _ Hinv1 7 ltac:(change Segregated.size_class_cnt with 16; lia))
        as [_ Hnd].
      apply NoDup_all_eq; [exact Hnd | |].
      * intros x Hx. apply (Hnode 7 x ltac:(lia) Hx).
      * destruct (si_free _ _ _ _ Hinv1 _ (or_introl eq_refl) eq_refl) as [[]|Hin].
        exact Hin.
    + intros i Hi Hne. destruct (fl1 i) as [|n l] eqn:El; [reflexivity|].
      exfalso. apply Hne. apply (Hnode i n Hi). rewrite El. left. reflexivity.
Qed.


(** * The heap checker *)

(** The walk of [mm_checkheap] over blocks whose headers hold their sizes:
    every block but the last one is compared with its footer, and the
    walk stops at the first block whose tags differ. *)
Lemma imp_checkheap_loop_run (s : Implicit.st) :
  let m := bytes (heap s) in
  forall (l : list blk) (p : blk) (fuel : nat),
    chain (b_addr p) (p :: l) (mem_brk (heap s) - 4) ->
    mem_start_brk (heap s) <= b_addr p ->
    (forall b, In b (p :: l) -> size_at m (b_addr b) = b_size b) ->
    (length (p :: l) <= fuel)%nat ->
    Implicit.checkheap_loop fuel (mem_brk (heap s) - 1) (b_addr p) s =
    Ret (forallb (tags_match m) (removelast (p :: l))) s.
Proof.
  intros m. induction l as [|b l IH]; intros p fuel Hc Hlo Hsz Hfuel.
  - destruct fuel as [|fuel]; [cbn in Hfuel; lia|].
    cbn [chain] in Hc. destruct Hc as (_ & Hp8 & _ & He).
    cbn [Implicit.checkheap_loop removelast forallb].
    assert (Vp : valid (heap s) (b_addr p) 4 = true) by (apply valid_intro; lia).
    exec (imp_find_next_ok s _ Vp). fold m. rewrite (Hsz p (or_introl eq_refl)).
    change Implicit.block_size with 4.
    destruct (Z.ltb_spec (b_addr p + b_size p + 4) (mem_brk (heap s) - 1)); [lia|].
    reflexivity.
  - destruct fuel as [|fuel]; [cbn in Hfuel; lia|].
    assert (Hrest : chain (b_addr p + b_size p) (b :: l) (mem_brk (heap s) - 4))
      by exact (proj2 (proj2 (proj2 Hc))).
    pose proof Hc as Hc'. cbn [chain] in Hc'.
    destruct Hc' as (_ & Hp8 & _ & Hb & Hb8 & _).
    pose proof (chain_bounds _ _ _ b Hrest (or_introl eq_refl)) as Hle.
    cbn [Implicit.checkheap_loop].
    assert (Vp : valid (heap s) (b_addr p) 4 = true) by (apply valid_intro; lia).
    assert (Vf : valid (heap s) (b_addr p + b_size p - 4) 4 = true)
      by (apply valid_intro; lia).
    exec (imp_find_next_ok s _ Vp). fold m. rewrite (Hsz p (or_introl eq_refl)).
    change Implicit.block_size with 4.
    destruct (Z.ltb_spec (b_addr p + b_size p + 4) (mem_brk (heap s) - 1)); [|lia].
    exec (ld32_ok s _ Vp). unfold Implicit.find_prev_footer. change Implicit.wsize with 4.
    exec (ld32_ok s _ Vf). fold m.
    change (removelast (p :: b :: l)) with (p :: removelast (b :: l)).
    cbn [forallb]. unfold tags_match at 1.
    destruct (load32 m (b_addr p) =? load32 m (b_addr p + b_size p - 4)); cbn [negb andb].
    + rewrite <- Hb.
      apply IH.
      * eapply chain_eq; [exact Hrest | lia].
      * lia.
      * intros x Hx. apply Hsz. right. exact Hx.
      * cbn [length] in *. lia.
    + reflexivity.
Qed.

Lemma imp_checkheap_run (s : Implicit.st) (l : list blk) (p : blk) (lineno : Z) :
  globals s <> NULL ->
  chain (globals s) (p :: l) (mem_brk (heap s) - 4) ->
  mem_start_brk (heap s) <= globals s ->
  (forall b, In b (p :: l) -> size_at (bytes (heap s)) (b_addr b) = b_size b) ->
  Implicit.mm_checkheap lineno s =
  Ret (forallb (tags_match (bytes (heap s))) (removelast (p :: l))) s.
Proof.
  intros Hnz Hc Hlo Hsz.
  pose proof Hc as Hc'. cbn [chain] in Hc'. destruct Hc' as (Hp & _).
  pose proof (chain_length _ _ _ Hc) as Hlen.
  unfold Implicit.mm_checkheap. rewrite get_globals_bind.
  destruct (Z.eqb_spec (globals s) NULL) as [|_]; [contradiction|].
  unfold mem_heap_hi, Implicit.heap_fuel. unfold bind at 1. unfold bind at 1.
  rewrite <- Hp. apply imp_checkheap_loop_run.
  - rewrite Hp. exact Hc.
  - lia.
  - exact Hsz.
  - lia.
Qed.

Lemma seg_checkheap_loop_run (s : Segregated.st) :
  let m := bytes (heap s) in
  forall (l : list blk) (p : blk) (fuel : nat),
    chain (b_addr p) (p :: l) (mem_brk (heap s) - 8) ->
    mem_start_brk (heap s) <= b_addr p ->
    (forall b, In b (p :: l) -> size_at m (b_addr b) = b_size b) ->
    (forall b, In b l -> 32 <= b_size b) ->
    (length (p :: l) <= fuel)%nat ->
    Segregated.checkheap_loop fuel (mem_brk (heap s) - 1) (b_addr p) s =
    Ret (forallb (tags_match m) (removelast (p :: l))) s.
Proof.
  intros m. induction l as [|b l IH]; intros p fuel Hc Hlo Hsz Hmin Hfuel.
  - destruct fuel as [|fuel]; [cbn in Hfuel; lia|].
    cbn [chain] in Hc. destruct Hc as (_ & Hp8 & _ & He).
    cbn [Segregated.checkheap_loop removelast forallb].
    assert (Vp : valid (heap s) (b_addr p) 4 = true) by (apply valid_intro; lia).
    exec (seg_find_next_ok s _ Vp). fold m. rewrite (Hsz p (or_introl eq_refl)).
    change Segregated.block_size with 32.
    destruct (Z.ltb_spec (b_addr p + b_size p + 32) (mem_brk (heap s) - 1)); [lia|].
    reflexivity.
  - destruct fuel as [|fuel]; [cbn in Hfuel; lia|].
    assert (Hrest : chain (b_addr p + b_size p) (b :: l) (mem_brk (heap s) - 8))
      by exact (proj2 (proj2 (proj2 Hc))).
    pose proof Hc as Hc'. cbn [chain] in Hc'.
    destruct Hc' as (_ & Hp8 & _ & Hb & Hb8 & _).
    pose proof (chain_bounds _ _ _ b Hrest (or_introl eq_refl)) as Hle.
    pose proof (Hmin b (or_introl eq_refl)) as Hb32.
    cbn [Segregated.checkheap_loop].
    assert (Vp : valid (heap s) (b_addr p) 4 = true) by (apply valid_intro; lia).
    assert (Vf : valid (heap s) (b_addr p + b_size p - 4) 4 = true)
      by (apply valid_intro; lia).
    exec (seg_find_next_ok s _ Vp). fold m. rewrite (Hsz p (or_introl eq_refl)).
    change Segregated.block_size with 32.
    destruct (Z.ltb_spec (b_addr p + b_size p + 32) (mem_brk (heap s) - 1)); [|lia].
    exec (ld32_ok s _ Vp). unfold Segregated.find_prev_footer. change Segregated.wsize with 4.
    exec (ld32_ok s _ Vf). fold m.
    change (removelast (p :: b :: l)) with (p :: removelast (b :: l)).
    cbn [forallb]. unfold tags_match at 1.
    destruct (load32 m (b_addr p) =? load32 m (b_addr p + b_size p - 4)); cbn [negb andb].
    + rewrite <- Hb.
      apply IH.
      * eapply chain_eq; [exact Hrest | lia].
      * lia.
      * intros x Hx. apply Hsz. right. exact Hx.
      * intros x Hx. apply Hmin. right. exact Hx.
      * cbn [length] in *. lia.
    + reflexivity.
Qed.

Lemma seg_checkheap_run (s : Segregated.st) (l : list blk) (p : blk) (lineno : Z) :
  Segregated.heap_listp (globals s) <> NULL ->
  chain (Segregated.heap_listp (globals s)) (p :: l) (mem_brk (heap s) - 8) ->
  mem_start_brk (heap s) <= Segregated.heap_listp (globals s) ->
  (forall b, In b (p :: l) -> size_at (bytes (heap s)) (b_addr b) = b_size b) ->
  (forall b, In b l -> 32 <= b_size b) ->
  Segregated.mm_checkheap lineno s =
  Ret (forallb (tags_match (bytes (heap s))) (removelast (p :: l))) s.
Proof.
  intros Hnz Hc Hlo Hsz Hmin.
  pose proof Hc as Hc'. cbn [chain] in Hc'. destruct Hc' as (Hp & _).
  pose proof (chain_length _ _ _ Hc) as Hlen.
  unfold Segregated.mm_checkheap. rewrite get_globals_bind.
  destruct (Z.eqb_spec (Segregated.heap_listp (globals s)) NULL) as [|_]; [contradiction|].
  unfold mem_heap_hi, Segregated.heap_fuel. unfold bind at 1. unfold bind at 1.
  rewrite <- Hp. apply seg_checkheap_loop_run.
  - rewrite Hp. exact Hc.
  - lia.
  - exact Hsz.
  - exact Hmin.
  - lia.
Qed.

Lemma tags_match_tagged (m : mem) (l : list blk) :
  Forall (tagged m) l -> forallb (tags_match m) l = true.
Proof.
  intros H. apply forallb_forall. intros b Hb.
  rewrite Forall_forall in H. destruct (H b Hb) as [H1 H2].
  unfold tags_match. rewrite H1, H2. apply Z.eqb_refl.
Qed.

Lemma Forall_removelast {A} (P : A -> Prop) (l : list A) :
  Forall P l -> Forall P (removelast l).
Proof.
  induction l as [|a l IH]; intros H; [exact H|].
  inversion H as [|? ? Ha Hl]; subst. destruct l as [|b l]; [constructor|].
  change (removelast (a :: b :: l)) with (a :: removelast (b :: l)).
  constructor; [exact Ha | apply IH; exact Hl].
Qed.

Lemma imp_checkheap_wf (s : Implicit.st) (bs : list blk) (lineno : Z) :
  imp_inv s bs -> Implicit.mm_checkheap lineno s = Ret true s.
Proof.
  intros Hinv. pose proof (imp_heap_extent s bs Hinv) as He.
  rewrite (imp_checkheap_run s bs (imp_prologue s) lineno).
  - rewrite tags_match_tagged; [reflexivity|].
    apply Forall_removelast. exact (ii_tags _ _ Hinv).
  - unfold NULL. lia.
  - exact (ii_chain _ _ Hinv).
  - lia.
  - intros b Hb. exact (proj1 (imp_block_read s bs Hinv b Hb)).
Qed.

Lemma seg_checkheap_wf (s : Segregated.st) (bs : list blk) (fl : Z -> list Z) (ex : list Z)
      (lineno : Z) :
  seg_inv s bs fl ex -> Segregated.mm_checkheap lineno s = Ret true s.
Proof.
  intros Hinv. pose proof (seg_heap_extent s bs fl ex Hinv) as He.
  rewrite (seg_checkheap_run s bs (seg_prologue s) lineno).
  - rewrite tags_match_tagged; [reflexivity|].
    apply Forall_removelast. exact (si_tags _ _ _ _ Hinv).
  - unfold NULL. lia.
  - exact (si_chain _ _ _ _ Hinv).
  - lia.
  - intros b Hb. exact (proj1 (seg_block_read s bs fl ex Hinv b Hb)).
  - intros b Hb.
    destruct (seg_block_facts s bs fl ex Hinv b (or_intror Hb)) as (_ & _ & ? & _). lia.
Qed.


(** * What [malloc] hands out *)

(** X11.  In a well-formed heap of the implicit variant [malloc(n)]
    returns, for [n > 0] whose adjusted size does not wrap around.  A null
    result leaves every byte of the heap as it was.  Any other result is
    the payload of an allocated block of the new, well-formed heap: the [n]
    bytes lie between its tags and inside the region, the block overlaps no
    block that was allocated before the call, and each of those is a block
    of the new heap and holds the same bytes. *)
Theorem imp_malloc_fresh_block (s : Implicit.st) (bs : list blk) (n : Z) :
  imp_inv s bs -> 0 < n -> n + 15 < 2 ^ 64 ->
  exists p s',
    Implicit.malloc n s = Ret p s' /\
    (p = NULL -> bytes (heap s') = bytes (heap s) /\ imp_inv s' bs) /\
    (p <> NULL ->
     exists bs' sz,
       imp_inv s' bs' /\ In (mkBlk (p - 4) sz true) bs' /\
       p + n <= p - 4 + sz - 4 /\
       mem_start_brk (heap s') < p /\ p + n <= mem_brk (heap s') /\
       forall a, In a bs -> b_alloc a = true ->
         In a bs' /\ same_bytes (bytes (heap s)) (bytes (heap s')) a /\
         (b_addr a + b_size a <= p - 4 \/ p - 4 + sz <= b_addr a)).
Proof.
  intros Hinv Hn Hb.
  destruct (imp_asize_spec n Hn Hb) as (_ & _ & Hcover).
  destruct (imp_malloc_shape s bs n Hinv Hn Hb) as (p & s' & Hrun & Hg & Hres).
  exists p, s'. split; [exact Hrun|].
  destruct Hres as [(Hp & Hs' & Hinv' & _) |
                    (Hp & bs' & sz & Hinv' & Hin & Hsz & Hk & Hfresh & _)].
  - split; [|intros; contradiction].
    intros _. split; [rewrite Hs'; reflexivity | exact Hinv'].
  - split; [intros; contradiction|]. intros _.
    exists bs', sz.
    destruct (imp_block_facts s' bs' Hinv' _ (or_intror Hin)) as (Hlo & Hhi & _).
    pose proof (imp_heap_extent s' bs' Hinv') as He.
    pose proof (ii_chain _ _ Hinv') as Hc.
    cbn [b_addr b_size] in Hlo, Hhi.
    split; [exact Hinv'|]. split; [exact Hin|].
    split; [lia|]. split; [lia|]. split; [lia|].
    intros a Ha Hal. destruct (Hk a Ha Hal) as [Ha' Hsame].
    split; [exact Ha'|]. split; [exact Hsame|].
    destruct (chain_disjoint _ _ _ _ _ Hc (or_intror Ha') (or_intror Hin)) as [Heq|Hd].
    + exfalso. apply (Hfresh a Ha Hal). rewrite Heq. reflexivity.
    + cbn [b_addr b_size] in Hd. lia.
Qed.

Lemma imp_malloc_fresh_block_witness :
  exists p s', Implicit.malloc 100 imp2 = Ret p s' /\
               (p = NULL -> bytes (heap s') = bytes (heap imp2) /\ imp_inv s' imp2_blocks).
Proof.
  destruct (imp_malloc_fresh_block imp2 imp2_blocks 100 imp2_inv) as (p & s' & H1 & H2 & _);
    [lia | lia |].
  exists p, s'. split; [exact H1 | exact H2].
Defined.

(** X12.  The same for the segregated variant, where a block has 12 bytes
    of tags and padding: [malloc(n)] returns for [n > 0] with [n + 19]
    fitting [size_t], and the block it hands out holds the [n] bytes. *)
Theorem seg_malloc_fresh_block
    (s : Segregated.st) (bs : list blk) (fl : Z -> list Z) (n : Z) :
  seg_inv s bs fl [] -> 0 < n -> n + 19 < 2 ^ 64 ->
  exists p s',
    Segregated.malloc n s = Ret p s' /\
    (p = NULL -> bytes (heap s') = bytes (heap s) /\ seg_inv s' bs fl []) /\
    (p <> NULL ->
     exists bs' fl' sz,
       seg_inv s' bs' fl' [] /\ In (mkBlk (p - 8) sz true) bs' /\
       p + n <= p - 8 + sz - 4 /\
       mem_start_brk (heap s') < p /\ p + n <= mem_brk (heap s') /\
       forall a, In a bs -> b_alloc a = true ->
         In a bs' /\ same_bytes (bytes (heap s)) (bytes (heap s')) a /\
         (b_addr a + b_size a <= p - 8 \/ p - 8 + sz <= b_addr a)).
Proof.
  intros Hinv Hn Hb.
  destruct (seg_asize_spec n) as (_ & _ & Hcover). specialize (Hcover ltac:(lia) Hb).
  destruct (seg_malloc_shape s bs fl n Hinv ltac:(lia)) as (p & s' & Hrun & Hg & Hres).
  exists p, s'. split; [exact Hrun|].
  destruct Hres as [(Hp & Hs' & Hinv' & _) |
                    (Hp & bs' & fl' & sz & Hinv' & Hin & Hsz & Hk & Hfresh & _)].
  - split; [|intros; contradiction].
    intros _. split; [rewrite Hs'; reflexivity | exact Hinv'].
  - split; [intros; contradiction|]. intros _.
    exists bs', fl', sz.
    destruct (seg_block_facts s' bs' fl' _ Hinv' _ (or_intror Hin)) as (Hlo & Hhi & _).
    pose proof (seg_heap_extent s' bs' fl' _ Hinv') as He.
    pose proof (si_chain _ _ _ _ Hinv') as Hc.
    cbn [b_addr b_size] in Hlo, Hhi.
    split; [exact Hinv'|]. split; [exact Hin|].
    split; [lia|]. split; [lia|]. split; [lia|].
    intros a Ha Hal. destruct (Hk a Ha Hal) as [Ha' Hsame].
    split; [exact Ha'|]. split; [exact Hsame|].
    destruct (chain_disjoint _ _ _ _ _ Hc (or_intror Ha') (or_intror Hin)) as [Heq|Hd].
    + exfalso. apply (Hfresh a Ha Hal). rewrite Heq. reflexivity.
    + cbn [b_addr b_size] in Hd. lia.
Qed.

Lemma seg_malloc_fresh_block_witness :
  exists p s', Segregated.malloc 100 seg2 = Ret p s' /\
               (p = NULL -> bytes (heap s') = bytes (heap seg2) /\
                            seg_inv s' seg2_blocks seg2_lists []).
Proof.
  destruct (seg_malloc_fresh_block seg2 seg2_blocks seg2_lists 100 seg2_inv)
    as (p & s' & H1 & H2 & _); [lia | lia |].
  exists p, s'. split; [exact H1 | exact H2].
Defined.

(** * Where [malloc] takes the block from *)

Lemma not_fits_all (bs : list blk) (asize : Z) :
  ~ (exists b, In b bs /\ b_alloc b = false /\ asize <= b_size b) ->
  forall x, In x bs -> b_alloc x = true \/ b_size x < asize.
Proof.
  intros Hno x Hx. destruct (b_alloc x) eqn:Ax; [left; reflexivity|].
  right. destruct (Z.lt_ge_cases (b_size x) asize) as [|Hge]; [assumption|].
  exfalso. apply Hno. exists x. repeat split; try assumption; lia.
Qed.

(** X13.  [malloc] of the implicit variant asks the backing region for
    memory only when no free block of the heap has the adjusted size
    [asize].  When one has, the block it takes is the first such block in
    address order; it is split when the remainder has [min_block_size]
    bytes at least, and the region is left as it is.  Otherwise it makes
    one request, of [max(asize, chunksize)] bytes, and returns null exactly
    when the request is refused. *)
Theorem imp_malloc_first_fit_or_grow (s : Implicit.st) (bs : list blk) (n : Z) :
  imp_inv s bs -> 0 < n -> n + 15 < 2 ^ 64 ->
  let asize := wrap64 (Implicit.round_up n Implicit.dsize + Implicit.dsize) in
  let size := Implicit.max asize Implicit.chunksize in
  exists p s',
    Implicit.malloc n s = Ret p s' /\
    ((exists l1 b l2,
        bs = l1 ++ b :: l2 /\ b_alloc b = false /\ asize <= b_size b /\
        (forall x, In x l1 -> b_alloc x = true \/ b_size x < asize) /\
        p = b_addr b + 4 /\
        imp_inv s' (l1 ++ placed Implicit.min_block_size b asize ++ l2) /\
        mem_brk (heap s') = mem_brk (heap s) /\
        requests (heap s') = requests (heap s))
     \/
     ((forall x, In x bs -> b_alloc x = true \/ b_size x < asize) /\
      requests (heap s') = size :: requests (heap s) /\
      ((p = NULL /\ mem_max_addr (heap s) < mem_brk (heap s) + size /\
        mem_brk (heap s') = mem_brk (heap s))
       \/
       (p <> NULL /\ mem_brk (heap s) + size <= mem_max_addr (heap s) /\
        mem_brk (heap s') = mem_brk (heap s) + size)))).
Proof.
  intros Hinv Hn Hb asize size.
  destruct (imp_malloc_shape s bs n Hinv Hn Hb) as (p & s' & Hrun & Hg & Hres).
  fold asize in Hres. fold size in Hres.
  exists p, s'. split; [exact Hrun|].
  destruct Hres as [(Hp & Hs' & Hinv' & Hno & Hmax) |
                    (Hp & bs' & sz & Hinv' & Hin & Hsz & Hk & Hfresh & _ & Hcase)].
  - right. split; [exact (not_fits_all bs asize Hno)|].
    split; [rewrite Hs'; reflexivity|].
    left. split; [exact Hp|]. split; [exact Hmax | rewrite Hs'; reflexivity].
  - destruct Hcase as [(Hs' & l1 & b & l2 & E & Hfree & Hfit & Hfirst & Hpb & Ebs') |
                       (Hno & Hok & Hs')].
    + left. exists l1, b, l2. rewrite <- Ebs'.
      split; [exact E|]. split; [exact Hfree|]. split; [exact Hfit|].
      split; [exact Hfirst|]. split; [exact Hpb|]. split; [exact Hinv'|].
      split; rewrite Hs'; reflexivity.
    + right. split; [exact (not_fits_all bs asize Hno)|].
      split; [rewrite Hs'; reflexivity|].
      right. split; [exact Hp|]. split; [exact Hok | rewrite Hs'; reflexivity].
Qed.

Lemma imp_malloc_first_fit_or_grow_witness :
  exists p s',
    Implicit.malloc 100 imp2 = Ret p s' /\
    ((exists l1 b l2,
        imp2_blocks = l1 ++ b :: l2 /\ b_alloc b = false /\ p = b_addr b + 4 /\
        requests (heap s') = requests (heap imp2))
     \/ requests (heap s') = 4096 :: requests (heap imp2)).
Proof.
  destruct (imp_malloc_first_fit_or_grow imp2 imp2_blocks 100 imp2_inv)
    as (p & s' & H1 & H2); [lia | lia |].
  exists p, s'. split; [exact H1|].
  destruct H2 as [(l1 & b & l2 & E & Hf & _ & _ & Hp & _ & _ & Hr) | (_ & Hr & _)].
  - left. exists l1, b, l2. repeat split; assumption.
  - right. exact Hr.
Defined.

(** X14.  [malloc] of the segregated variant asks the backing region for
    memory only when no free block of the heap has the adjusted size
    [asize = get_asize(n)].  When one has, the block it takes is the first
    node that fits in the lists from the class of [asize] upwards; it is
    split when the remainder has [min_block_size] bytes at least, and the
    region is left as it is.  Otherwise it makes one request, of
    [max(asize, chunksize)] bytes, and returns null exactly when the
    request is refused. *)
Theorem seg_malloc_first_fit_or_grow
    (s : Segregated.st) (bs : list blk) (fl : Z -> list Z) (n : Z) :
  seg_inv s bs fl [] -> n <> 0 ->
  let asize := Segregated.get_asize n in
  let size := Segregated.max asize Segregated.chunksize in
  let m := bytes (heap s) in
  exists p s',
    Segregated.malloc n s = Ret p s' /\
    ((exists i r1 r2 l1 b l2 fl',
        Segregated.get_seglist_idx asize <= i < 16 /\ fl i = r1 ++ b_addr b :: r2 /\
        (forall x, In x r1 -> size_at m x < asize) /\
        (forall j x, Segregated.get_seglist_idx asize <= j < i -> In x (fl j) ->
                     size_at m x < asize) /\
        bs = l1 ++ b :: l2 /\ b_alloc b = false /\ asize <= b_size b /\
        p = b_addr b + 8 /\
        seg_inv s' (l1 ++ placed Segregated.min_block_size b asize ++ l2) fl' [] /\
        mem_brk (heap s') = mem_brk (heap s) /\
        requests (heap s') = requests (heap s))
     \/
     ((forall x, In x bs -> b_alloc x = true \/ b_size x < asize) /\
      requests (heap s') = size :: requests (heap s) /\
      ((p = NULL /\ mem_max_addr (heap s) < mem_brk (heap s) + size /\
        mem_brk (heap s') = mem_brk (heap s))
       \/
       (p <> NULL /\ mem_brk (heap s) + size <= mem_max_addr (heap s) /\
        mem_brk (heap s') = mem_brk (heap s) + size)))).
Proof.
  intros Hinv Hn asize size m.
  destruct (seg_malloc_shape s bs fl n Hinv Hn) as (p & s' & Hrun & Hg & Hres).
  fold asize in Hres. fold size in Hres.
  exists p, s'. split; [exact Hrun|].
  destruct Hres as [(Hp & Hs' & Hinv' & Hno & Hmax) |
                    (Hp & bs' & fl' & sz & Hinv' & Hin & Hsz & Hk & Hfresh & _ & Hcase)].
  - right. split; [exact (not_fits_all bs asize Hno)|].
    split; [rewrite Hs'; reflexivity|].
    left. split; [exact Hp|]. split; [exact Hmax | rewrite Hs'; reflexivity].
  - destruct Hcase as [(Hs' & i & r1 & r2 & l1 & b & l2 & Hi & Efl & Hr1 & Hlow & E & Hfree &
                        Hfit & Hpb & Ebs') | (Hno & Hok & Hs')].
    + left. exists i, r1, r2, l1, b, l2, fl'. rewrite <- Ebs'.
      split; [exact Hi|]. split; [exact Efl|]. split; [exact Hr1|]. split; [exact Hlow|].
      split; [exact E|]. split; [exact Hfree|]. split; [exact Hfit|].
      split; [exact Hpb|]. split; [exact Hinv'|].
      split; rewrite Hs'; reflexivity.
    + right. split; [exact (not_fits_all bs asize Hno)|].
      split; [rewrite Hs'; reflexivity|].
      right. split; [exact Hp|]. split; [exact Hok | rewrite Hs'; reflexivity].
Qed.

Lemma seg_malloc_first_fit_or_grow_witness :
  exists p s',
    Segregated.malloc 16 seg3 = Ret p s' /\
    ((exists b, In b seg3_blocks /\ b_alloc b = false /\ p = b_addr b + 8 /\
                requests (heap s') = requests (heap seg3))
     \/ requests (heap s') = 4096 :: requests (heap seg3)).
Proof.
  destruct (seg_malloc_first_fit_or_grow seg3 seg3_blocks seg3_lists 16 seg3_inv)
    as (p & s' & H1 & H2); [lia |].
  exists p, s'. split; [exact H1|].
  destruct H2 as [(i & r1 & r2 & l1 & b & l2 & fl' & _ & _ & _ & _ & E & Hf & _ & Hp & _ & _ & Hr)
                 | (_ & Hr & _)].
  - left. exists b. split; [rewrite E; apply in_or_app; right; left; reflexivity|].
    repeat split; assumption.
  - right. exact Hr.
Defined.

(** * What [free] gives back *)

(** X15.  In a well-formed heap of the implicit variant, [free] of the
    payload of an allocated block returns and leaves a well-formed heap in
    which the bytes of the block belong to a free block.  Every other
    allocated block keeps its place and its bytes; the region keeps its
    size and nothing is asked of it.  [free(NULL)] does nothing. *)
Theorem imp_free_releases_block (s : Implicit.st) (bs : list blk) (a sz : Z) :
  imp_inv s bs -> In (mkBlk a sz true) bs ->
  Implicit.free NULL s = Ret tt s /\
  exists s' bs',
    Implicit.free (a + 4) s = Ret tt s' /\ imp_inv s' bs' /\
    globals s' = globals s /\
    mem_brk (heap s') = mem_brk (heap s) /\ requests (heap s') = requests (heap s) /\
    (exists fb, In fb bs' /\ b_alloc fb = false /\
                b_addr fb <= a /\ a + sz <= b_addr fb + b_size fb) /\
    (forall x, In x bs -> b_alloc x = true -> x <> mkBlk a sz true ->
               In x bs' /\ same_bytes (bytes (heap s)) (bytes (heap s')) x).
Proof.
  intros Hinv Hin. split; [reflexivity|].
  destruct (imp_free_shape s bs a sz Hinv Hin) as (m' & bs' & Hrun & Hinv' & Hk & Hfb & _).
  exists (upd s m'), bs'.
  split; [exact Hrun|]. split; [exact Hinv'|].
  split; [reflexivity|]. split; [reflexivity|]. split; [reflexivity|].
  split; [exact Hfb|]. rewrite bytes_upd. exact Hk.
Qed.

Lemma imp_free_releases_block_witness :
  exists s' bs', Implicit.free (4108 + 4) imp2 = Ret tt s' /\ imp_inv s' bs'.
Proof.
  destruct (imp_free_releases_block imp2 imp2_blocks 4108 32 imp2_inv)
    as (_ & s' & bs' & H1 & H2 & _); [left; reflexivity|].
  exists s', bs'. split; [exact H1 | exact H2].
Defined.

(** X16.  The same for the segregated variant; the free block that holds
    the bytes is on the list of its size class, as the well-formed heap
    has every free block. *)
Theorem seg_free_releases_block
    (s : Segregated.st) (bs : list blk) (fl : Z -> list Z) (a sz : Z) :
  seg_inv s bs fl [] -> In (mkBlk a sz true) bs ->
  Segregated.free NULL s = Ret tt s /\
  exists s' bs' fl',
    Segregated.free (a + 8) s = Ret tt s' /\ seg_inv s' bs' fl' [] /\
    globals s' = globals s /\
    mem_brk (heap s') = mem_brk (heap s) /\ requests (heap s') = requests (heap s) /\
    (exists fb, In fb bs' /\ b_alloc fb = false /\
                b_addr fb <= a /\ a + sz <= b_addr fb + b_size fb /\
                In (b_addr fb) (fl' (Segregated.get_seglist_idx (b_size fb)))) /\
    (forall x, In x bs -> b_alloc x = true -> x <> mkBlk a sz true ->
               In x bs' /\ same_bytes (bytes (heap s)) (bytes (heap s')) x).
Proof.
  intros Hinv Hin. split; [reflexivity|].
  destruct (seg_free_shape s bs fl a sz Hinv Hin)
    as (m' & bs' & fl' & Hrun & Hinv' & Hk & (fb & Hfb & Hfree & Hlo & Hhi) & _).
  exists (upd s m'), bs', fl'.
  split; [exact Hrun|]. split; [exact Hinv'|].
  split; [reflexivity|]. split; [reflexivity|]. split; [reflexivity|].
  split; [|rewrite bytes_upd; exact Hk].
  exists fb. split; [exact Hfb|]. split; [exact Hfree|]. split; [exact Hlo|].
  split; [exact Hhi|].
  destruct (si_free _ _ _ _ Hinv' fb Hfb Hfree) as [[]|H]. exact H.
Qed.

Lemma seg_free_releases_block_witness :
  exists s' bs' fl', Segregated.free (4640 + 8) seg2 = Ret tt s' /\ seg_inv s' bs' fl' [].
Proof.
  destruct (seg_free_releases_block seg2 seg2_blocks seg2_lists 4640 40 seg2_inv)
    as (_ & s' & bs' & fl' & H1 & H2 & _); [left; reflexivity|].
  exists s', bs', fl'. split; [exact H1 | exact H2].
Defined.

(** * [realloc] of the implicit variant moves the block *)

(** X17.  [realloc(p, n)] of the implicit variant never resizes in place:
    a non-null result is the payload of another block, of at least [n + 8]
    bytes, the bytes of the old block belong to a free block afterwards,
    and every other allocated block keeps its place and its bytes. *)
Theorem imp_realloc_moves_block (s : Implicit.st) (bs : list blk) (p sz n : Z) :
  imp_inv s bs -> In (mkBlk (p - 4) sz true) bs ->
  0 < n -> n + 15 < 2 ^ 64 ->
  exists q s',
    Implicit.realloc p n s = Ret q s' /\
    (q <> NULL ->
     q <> p /\
     exists bs' sz',
       imp_inv s' bs' /\
       In (mkBlk (q - 4) sz' true) bs' /\ n + 8 <= sz' /\
       (exists fb, In fb bs' /\ b_alloc fb = false /\
                   b_addr fb <= p - 4 /\ p - 4 + sz <= b_addr fb + b_size fb) /\
       (forall x, In x bs -> b_alloc x = true -> x <> mkBlk (p - 4) sz true ->
                  In x bs' /\ same_bytes (bytes (heap s)) (bytes (heap s')) x)).
Proof.
  intros Hinv Hin Hn Hb.
  destruct (imp_realloc_shape s bs p sz n Hinv Hin Hn Hb) as (q & s' & Hrun & _ & Hres).
  exists q, s'. split; [exact Hrun|]. intros Hq.
  destruct Hres as [(Hz & _)|(_ & _ & bs' & sz' & Hinv' & Hnew & Hsz' & Hk & Hfb & _)];
    [contradiction|].
  destruct Hfb as (fb & Hfb & Hfree & Hlo & Hhi).
  destruct (imp_block_facts s bs Hinv _ (or_intror Hin)) as (_ & _ & Hbsz & _).
  cbn [b_size] in Hbsz.
  split.
  - pose proof (ii_chain _ _ Hinv') as Hc.
    destruct (chain_disjoint _ _ _ _ _ Hc (or_intror Hnew) (or_intror Hfb)) as [Heq|Hd].
    + rewrite <- Heq in Hfree. discriminate Hfree.
    + pose proof (chain_bounds _ _ _ _ Hc (or_intror Hnew)) as Hbn.
      cbn [b_addr b_size] in Hd, Hbn. lia.
  - exists bs', sz'. split; [exact Hinv'|]. split; [exact Hnew|]. split; [exact Hsz'|].
    split; [exists fb; repeat split; assumption|].
    intros x Hx Hal Hne. destruct (Hk x Hx Hal Hne) as (_ & H1 & H2). split; assumption.
Qed.

Lemma imp_realloc_moves_block_witness :
  exists q s', Implicit.realloc 4112 100 imp2 = Ret q s' /\ (q <> NULL -> q <> 4112).
Proof.
  destruct (imp_realloc_moves_block imp2 imp2_blocks 4112 32 100 imp2_inv)
    as (q & s' & H1 & H2); [left; reflexivity | lia | lia |].
  exists q, s'. split; [exact H1|]. intros Hq. exact (proj1 (H2 Hq)).
Defined.

(** * Invariant (I3) *)

Lemma imp_I3_refused (s : Implicit.st) (incr : Z) : imp_I3 (refused s incr) = imp_I3 s.
Proof. reflexivity. Qed.

Lemma seg_I3_refused (s : Segregated.st) (incr : Z) : seg_I3 (refused s incr) = seg_I3 s.
Proof. reflexivity. Qed.

Lemma imp_prologue_globals (s s' : Implicit.st) :
  globals s' = globals s -> imp_prologue s' = imp_prologue s.
Proof. intros H. unfold imp_prologue. rewrite H. reflexivity. Qed.

Lemma seg_prologue_globals (s s' : Segregated.st) :
  globals s' = globals s -> seg_prologue s' = seg_prologue s.
Proof. intros H. unfold seg_prologue. rewrite H. reflexivity. Qed.

(** X18.  The implicit variant keeps invariant (I3): when no two free
    blocks of a well-formed heap lie side by side, none do after [malloc],
    [free], [realloc] or [calloc] has returned. *)
Theorem imp_calls_keep_no_adjacent_free (s : Implicit.st) (bs : list blk) :
  imp_inv s bs -> imp_I3 s = true ->
  (forall n p s', 0 < n -> n + 15 < 2 ^ 64 ->
     Implicit.malloc n s = Ret p s' -> imp_I3 s' = true) /\
  (forall a sz s', In (mkBlk a sz true) bs ->
     Implicit.free (a + 4) s = Ret tt s' -> imp_I3 s' = true) /\
  (forall p sz n q s', In (mkBlk (p - 4) sz true) bs -> 0 < n -> n + 15 < 2 ^ 64 ->
     Implicit.realloc p n s = Ret q s' -> imp_I3 s' = true) /\
  (forall a b r s', 0 < a -> 0 <= b -> a * b + 15 < 2 ^ 64 ->
     Implicit.calloc a b s = Ret r s' -> imp_I3 s' = true).
Proof.
  intros Hinv H3.
  pose proof (proj1 (imp_I3_iff s bs Hinv) H3) as HI.
  split; [|split; [|split]].
  - intros n p s' Hn Hb Hrun.
    destruct (imp_malloc_shape s bs n Hinv Hn Hb) as (p0 & s0 & Hrun0 & Hg & Hres).
    rewrite Hrun in Hrun0. injection Hrun0 as <- <-.
    destruct Hres as [(_ & Hs' & _) | (_ & bs' & sz & Hinv' & _ & _ & _ & _ & HI' & _)].
    + rewrite Hs'. exact H3.
    + apply (imp_I3_iff s' bs' Hinv'). rewrite (imp_prologue_globals _ _ Hg).
      exact (HI' HI).
  - intros a sz s' Hin Hrun.
    destruct (imp_free_shape s bs a sz Hinv Hin) as (m' & bs' & Hrun0 & Hinv' & _ & _ & HI').
    rewrite Hrun in Hrun0. injection Hrun0 as ->.
    apply (imp_I3_iff _ bs' Hinv'). exact (HI' HI).
  - intros p sz n q s' Hin Hn Hb Hrun.
    destruct (imp_realloc_shape s bs p sz n Hinv Hin Hn Hb)
      as (q0 & s0 & Hrun0 & Hg & Hres).
    rewrite Hrun in Hrun0. injection Hrun0 as <- <-.
    destruct Hres as [(_ & Hbytes & Hinv') |
                      (_ & _ & bs' & sz' & Hinv' & _ & _ & _ & _ & HI')].
    + apply (imp_I3_iff s' bs Hinv'). rewrite (imp_prologue_globals _ _ Hg). exact HI.
    + apply (imp_I3_iff s' bs' Hinv'). rewrite (imp_prologue_globals _ _ Hg).
      exact (HI' HI).
  - intros a b r s' Ha Hb Hn Hrun.
    destruct (imp_calloc_shape s bs a b Hinv Ha Hb Hn) as (r0 & s0 & Hrun0 & Hg & Hres).
    rewrite Hrun in Hrun0. injection Hrun0 as <- <-.
    destruct Hres as [(_ & Hbytes & Hinv') |
                      (_ & _ & _ & bs' & sz' & Hinv' & _ & _ & _ & _ & HI')].
    + apply (imp_I3_iff s' bs Hinv'). rewrite (imp_prologue_globals _ _ Hg). exact HI.
    + apply (imp_I3_iff s' bs' Hinv'). rewrite (imp_prologue_globals _ _ Hg).
      exact (HI' HI).
Qed.

Lemma imp_calls_keep_no_adjacent_free_witness :
  imp_I3 imp2 = true /\
  (forall p s', Implicit.malloc 100 imp2 = Ret p s' -> imp_I3 s' = true) /\
  (forall s', Implicit.free (4108 + 4) imp2 = Ret tt s' -> imp_I3 s' = true).
Proof.
  assert (H3 : imp_I3 imp2 = true) by (vm_compute; reflexivity).
  destruct (imp_calls_keep_no_adjacent_free imp2 imp2_blocks imp2_inv H3)
    as (H1 & H2 & _).
  split; [exact H3|]. split.
  - intros p s'. apply H1; lia.
  - intros s'. apply (H2 4108 32). left. reflexivity.
Defined.

(** X19.  In the segregated variant [malloc], [free] and [calloc] keep
    invariant (I3) as well: when no two free blocks of a well-formed heap
    lie side by side, none do after the call has returned. *)
Theorem seg_calls_keep_no_adjacent_free
    (s : Segregated.st) (bs : list blk) (fl : Z -> list Z) :
  seg_inv s bs fl [] -> seg_I3 s = true ->
  (forall n p s', Segregated.malloc n s = Ret p s' -> seg_I3 s' = true) /\
  (forall a sz s', In (mkBlk a sz true) bs ->
     Segregated.free (a + 8) s = Ret tt s' -> seg_I3 s' = true) /\
  (forall a b r s', 0 <= a * b -> a * b + 19 < 2 ^ 64 ->
     Segregated.calloc a b s = Ret r s' -> seg_I3 s' = true).
Proof.
  intros Hinv H3.
  pose proof (proj1 (seg_I3_iff s bs fl [] Hinv) H3) as HI.
  split; [|split].
  - intros n p s' Hrun.
    destruct (Z.eq_dec n 0) as [->|Hn].
    { change (Segregated.malloc 0 s) with (Ret NULL s) in Hrun.
      injection Hrun as _ <-. exact H3. }
    destruct (seg_malloc_shape s bs fl n Hinv Hn) as (p0 & s0 & Hrun0 & Hg & Hres).
    rewrite Hrun in Hrun0. injection Hrun0 as <- <-.
    destruct Hres as [(_ & Hs' & _) | (_ & bs' & fl' & sz & Hinv' & _ & _ & _ & _ & HI' & _)].
    + rewrite Hs'. exact H3.
    + apply (seg_I3_iff s' bs' fl' [] Hinv'). rewrite (seg_prologue_globals _ _ Hg).
      exact (HI' HI).
  - intros a sz s' Hin Hrun.
    destruct (seg_free_shape s bs fl a sz Hinv Hin)
      as (m' & bs' & fl' & Hrun0 & Hinv' & _ & _ & HI').
    rewrite Hrun in Hrun0. injection Hrun0 as ->.
    apply (seg_I3_iff _ bs' fl' [] Hinv'). exact (HI' HI).
  - intros a b r s' Ha Hn Hrun.
    destruct (seg_calloc_shape s bs fl a b Hinv Ha Hn) as (r0 & s0 & Hrun0 & Hg & Hres).
    rewrite Hrun in Hrun0. injection Hrun0 as <- <-.
    destruct Hres as [(_ & Hbytes & Hinv') |
                      (_ & _ & _ & bs' & fl' & sz' & Hinv' & _ & _ & _ & _ & HI')].
    + apply (seg_I3_iff s' bs fl [] Hinv'). rewrite (seg_prologue_globals _ _ Hg). exact HI.
    + apply (seg_I3_iff s' bs' fl' [] Hinv'). rewrite (seg_prologue_globals _ _ Hg).
      exact (HI' HI).
Qed.

Lemma seg_calls_keep_no_adjacent_free_witness :
  seg_I3 seg3 = true /\
  (forall p s', Segregated.malloc 100 seg3 = Ret p s' -> seg_I3 s' = true) /\
  (forall s', Segregated.free (4672 + 8) seg3 = Ret tt s' -> seg_I3 s' = true).
Proof.
  assert (H3 : seg_I3 seg3 = true) by (vm_compute; reflexivity).
  destruct (seg_calls_keep_no_adjacent_free seg3 seg3_blocks seg3_lists seg3_inv H3)
    as (H1 & H2 & _).
  split; [exact H3|]. split.
  - intros p s'. apply H1.
  - intros s'. apply (H2 4672 32). right. left. reflexivity.
Defined.

(** * A freed block is used again *)

(** X20.  After [free] of an allocated block, a request that is not larger
    than the payload of that block is served from the heap as it is: in
    both variants [malloc] returns a block and nothing is asked of the
    backing region. *)
Theorem free_then_malloc_reuses
    (si : Implicit.st) (bsi : list blk) (a sz n : Z)
    (ss : Segregated.st) (bss : list blk) (fl : Z -> list Z) (c cz k : Z) :
  imp_inv si bsi -> In (mkBlk a sz true) bsi -> 0 < n <= sz - 8 ->
  seg_inv ss bss fl [] -> In (mkBlk c cz true) bss -> 0 < k <= cz - 12 ->
  (exists p s',
     (Implicit.free (a + 4) ;;; Implicit.malloc n) si = Ret p s' /\
     p <> NULL /\ imp_wf s' /\
     mem_brk (heap s') = mem_brk (heap si) /\ requests (heap s') = requests (heap si)) /\
  (exists p s',
     (Segregated.free (c + 8) ;;; Segregated.malloc k) ss = Ret p s' /\
     p <> NULL /\ seg_wf s' /\
     mem_brk (heap s') = mem_brk (heap ss) /\ requests (heap s') = requests (heap ss)).
Proof.
  intros Hi Hini Hn Hs Hins Hk. split.
  - destruct (imp_block_facts si bsi Hi _ (or_intror Hini)) as (_ & _ & Hsz & H8 & _).
    cbn [b_size] in Hsz, H8.
    assert (Hb : n + 15 < 2 ^ 64) by lia.
    destruct (imp_free_shape si bsi a sz Hi Hini)
      as (m1 & bs1 & Hfr & Hinv1 & _ & (fb & Hfb & Hfree & Hlo & Hhi) & _).
    exec Hfr.
    destruct (imp_malloc_shape _ bs1 n Hinv1 ltac:(lia) Hb) as (p & s' & Hm & Hg & Hres).
    assert (Hfits : exists b, In b bs1 /\ b_alloc b = false /\
                    wrap64 (Implicit.round_up n Implicit.dsize + Implicit.dsize) <= b_size b).
    { exists fb. split; [exact Hfb|]. split; [exact Hfree|].
      change Implicit.dsize with 8.
      change (Implicit.round_up n 8) with (Segregated.round_up n 8).
      rewrite (round_up_value n 8) by lia.
      rewrite wrap64_small by mlia. mlia. }
    exists p, s'. split; [exact Hm|].
    destruct Hres as [(_ & _ & _ & Hno & _) |
                      (Hp & bs' & sz' & Hinv' & _ & _ & _ & _ & _ & Hcase)];
      [contradiction|].
    destruct Hcase as [(Hs' & _) | (Hno & _)]; [|contradiction].
    split; [exact Hp|]. split; [exists bs'; exact Hinv'|].
    split; rewrite Hs'; reflexivity.
  - destruct (seg_block_facts ss bss fl _ Hs _ (or_intror Hins)) as (_ & _ & Hsz & H8 & _).
    cbn [b_size] in Hsz, H8.
    destruct (seg_free_shape ss bss fl c cz Hs Hins)
      as (m1 & bs1 & fl1 & Hfr & Hinv1 & _ & (fb & Hfb & Hfree & Hlo & Hhi) & _).
    exec Hfr.
    destruct (seg_malloc_shape _ bs1 fl1 k Hinv1 ltac:(lia)) as (p & s' & Hm & Hg & Hres).
    assert (Hfits : exists b, In b bs1 /\ b_alloc b = false /\
                    Segregated.get_asize k <= b_size b).
    { exists fb. split; [exact Hfb|]. split; [exact Hfree|].
      unfold Segregated.get_asize, Segregated.max.
      change Segregated.tsize with 12. change Segregated.dsize with 8.
      change Segregated.min_block_size with 32.
      rewrite (wrap64_small (k + 12)) by lia.
      rewrite round_up_value by lia.
      destruct (Z.gtb_spec (8 * ((k + 12 + (8 - 1)) / 8)) 32); mlia. }
    exists p, s'. split; [exact Hm|].
    destruct Hres as [(_ & _ & _ & Hno & _) |
                      (Hp & bs' & fl' & sz' & Hinv' & _ & _ & _ & _ & _ & Hcase)];
      [contradiction|].
    destruct Hcase as [(Hs' & _) | (Hno & _)]; [|contradiction].
    split; [exact Hp|]. split; [exists bs', fl'; exact Hinv'|].
    split; rewrite Hs'; reflexivity.
Qed.

Lemma free_then_malloc_reuses_witness :
  (exists p s',
     (Implicit.free (4108 + 4) ;;; Implicit.malloc 24) imp2 = Ret p s' /\ p <> NULL /\
     requests (heap s') = requests (heap imp2)) /\
  (exists p s',
     (Segregated.free (4640 + 8) ;;; Segregated.malloc 28) seg2 = Ret p s' /\ p <> NULL /\
     requests (heap s') = requests (heap seg2)).
Proof.
  destruct (free_then_malloc_reuses imp2 imp2_blocks 4108 32 24
              seg2 seg2_blocks seg2_lists 4640 40 28 imp2_inv)
    as ((p & s' & H1 & H2 & _ & _ & H3) & (q & t' & G1 & G2 & _ & _ & G3));
    [left; reflexivity | lia | exact seg2_inv | left; reflexivity | lia |].
  split; [exists p, s' | exists q, t']; repeat split; assumption.
Defined.


(** * [calloc] *)

(** X21.  In a well-formed heap [calloc(a, b)] returns, for a product that
    fits [size_t] with the tags; a non-null result is the payload of an
    allocated block of the new, well-formed heap whose first [a * b] bytes
    are zero, and every block that was allocated before keeps its place and
    its bytes.  The result is null for a product of 0. *)
Theorem calloc_zero_filled
    (si : Implicit.st) (bsi : list blk)
    (ss : Segregated.st) (bss : list blk) (fl : Z -> list Z) (a b : Z) :
  imp_inv si bsi -> seg_inv ss bss fl [] ->
  0 < a -> 0 <= b -> a * b + 19 < 2 ^ 64 ->
  (exists r s',
     Implicit.calloc a b si = Ret r s' /\ imp_wf s' /\
     (a * b = 0 -> r = NULL) /\
     (r <> NULL ->
      (forall i, 0 <= i < a * b -> get_byte (bytes (heap s')) (r + i) = 0) /\
      exists bs' sz,
        imp_inv s' bs' /\ In (mkBlk (r - 4) sz true) bs' /\ r + a * b <= r - 4 + sz - 4 /\
        keeps (bytes (heap si)) (bytes (heap s')) bsi bs')) /\
  (exists r s',
     Segregated.calloc a b ss = Ret r s' /\ seg_wf s' /\
     (a * b = 0 -> r = NULL) /\
     (r <> NULL ->
      (forall i, 0 <= i < a * b -> get_byte (bytes (heap s')) (r + i) = 0) /\
      exists bs' fl' sz,
        seg_inv s' bs' fl' [] /\ In (mkBlk (r - 8) sz true) bs' /\
        r + a * b <= r - 8 + sz - 4 /\
        keeps (bytes (heap ss)) (bytes (heap s')) bss bs')).
Proof.
  intros Hi Hs Ha Hb Hn. assert (H0 : 0 <= a * b) by nia. split.
  - destruct (imp_calloc_shape si bsi a b Hi Ha Hb ltac:(lia)) as (r & s' & Hrun & _ & Hres).
    exists r, s'. split; [exact Hrun|].
    destruct Hres as [(-> & _ & Hinv') |
                      (Hr & Hpos & Hz & bs' & sz & Hinv' & Hin & Hsz & Hk & _)].
    + split; [exists bsi; exact Hinv'|]. split; [reflexivity | intros; contradiction].
    + split; [exists bs'; exact Hinv'|]. split; [lia|]. intros _.
      split; [exact Hz|]. exists bs', sz.
      split; [exact Hinv'|]. split; [exact Hin|]. split; [lia | exact Hk].
  - destruct (seg_calloc_shape ss bss fl a b Hs H0 Hn) as (r & s' & Hrun & _ & Hres).
    exists r, s'. split; [exact Hrun|].
    destruct Hres as [(-> & _ & Hinv') |
                      (Hr & Hpos & Hz & bs' & fl' & sz & Hinv' & Hin & Hsz & Hk & _)].
    + split; [exists bss, fl; exact Hinv'|]. split; [reflexivity | intros; contradiction].
    + split; [exists bs', fl'; exact Hinv'|]. split; [lia|]. intros _.
      split; [exact Hz|]. exists bs', fl', sz.
      split; [exact Hinv'|]. split; [exact Hin|]. split; [lia | exact Hk].
Qed.

Lemma calloc_zero_filled_witness :
  (exists r s',
     Implicit.calloc 5 8 imp2 = Ret r s' /\
     (r <> NULL -> forall i, 0 <= i < 5 * 8 -> get_byte (bytes (heap s')) (r + i) = 0)) /\
  (exists r s',
     Segregated.calloc 5 8 seg2 = Ret r s' /\
     (r <> NULL -> forall i, 0 <= i < 5 * 8 -> get_byte (bytes (heap s')) (r + i) = 0)).
Proof.
  destruct (calloc_zero_filled imp2 imp2_blocks seg2 seg2_blocks seg2_lists 5 8
              imp2_inv seg2_inv)
    as ((r & s' & H1 & _ & _ & H2) & (q & t' & G1 & _ & _ & G2)); [lia | lia | lia |].
  split; [exists r, s' | exists q, t'].
  - split; [exact H1|]. intros Hr. exact (proj1 (H2 Hr)).
  - split; [exact G1|]. intros Hq. exact (proj1 (G2 Hq)).
Defined.

(** X22.  [calloc] of the implicit variant checks the product: when
    [nmemb * size] does not fit [size_t] it returns null, whatever the
    heap, and changes nothing. *)
Theorem imp_calloc_overflow_returns_null (s : Implicit.st) (a b : Z) :
  0 < a < 2 ^ 64 -> 0 <= b < 2 ^ 64 -> mul_overflows a b ->
  Implicit.calloc a b s = Ret NULL s.
Proof.
  intros Ha Hb Hov. unfold mul_overflows in Hov. unfold Implicit.calloc. cbv zeta.
  destruct (Z.eqb_spec a 0) as [|_]; [lia|].
  destruct (Z.eqb_spec (wrap64 (a * b) / a) b) as [E|_]; [exfalso|reflexivity].
  pose proof (wrap64_range (a * b)) as Hr.
  pose proof (Z.mul_div_le (wrap64 (a * b)) a ltac:(lia)) as Hle.
  rewrite E in Hle. lia.
Qed.

Lemma imp_calloc_overflow_returns_null_witness :
  Implicit.calloc (2 ^ 63 + 1) 2 imp2 = Ret NULL imp2.
Proof.
  apply (imp_calloc_overflow_returns_null imp2 (2 ^ 63 + 1) 2); unfold mul_overflows; lia.
Defined.

(** * [mm_init] *)

(** X23.  [mm_init] of the implicit variant, on a region whose top is a
    multiple of 8, asks for 16 bytes and then for the first chunk.  When
    both are granted it returns 0 and the heap is well formed, with
    [heap_listp] one word above the old top and one free block of 4096
    bytes.  It returns -1 when the region refuses the 16 bytes, leaving
    all but the record of the request as it was, and also when the chunk
    is refused: [heap_listp] is set then and the heap is well formed, with
    no block. *)
Theorem imp_mm_init_builds_heap (s : Implicit.st) :
  region_ok (heap s) -> mem_brk (heap s) mod 8 = 0 ->
  let start := mem_brk (heap s) in
  let room := mem_max_addr (heap s) - start in
  exists r s',
    Implicit.mm_init s = Ret r s' /\
    (room < 16 -> r = -1 /\ s' = refused s 16) /\
    (16 <= room < 16 + 4096 ->
     r = -1 /\ globals s' = start + 4 /\ imp_inv s' [] /\
     mem_brk (heap s') = start + 16 /\
     requests (heap s') = 4096 :: 16 :: requests (heap s)) /\
    (16 + 4096 <= room ->
     r = 0 /\ globals s' = start + 4 /\ imp_inv s' [mkBlk (start + 12) 4096 false] /\
     mem_brk (heap s') = start + 16 + 4096 /\
     requests (heap s') = 4096 :: 16 :: requests (heap s)).
Proof.
  intros Hr H8 start room.
  destruct (imp_mm_init_shape s Hr H8) as (H1 & H2 & H3). fold start in H1, H2, H3.
  destruct (Z.lt_ge_cases room 16) as [Hc1|Hc1].
  - exists (-1), (refused s 16). split; [apply H1; unfold room in Hc1; lia|].
    split; [intros _; split; reflexivity|]. split; intros; lia.
  - destruct (Z.lt_ge_cases room (16 + 4096)) as [Hc2|Hc2].
    + destruct (H2 ltac:(unfold room in Hc1; lia) ltac:(unfold room in Hc2; lia))
        as (Hrun & Hinv).
      exists (-1), (refused (imp_init_state s) 4096). split; [exact Hrun|].
      split; [intros; lia|]. split; [|intros; lia].
      intros _. split; [reflexivity|]. split; [reflexivity|]. split; [exact Hinv|].
      split; reflexivity.
    + destruct (H3 ltac:(unfold room in Hc2; lia)) as (m' & Hrun & Hinv).
      exists 0, (upd (grown (imp_init_state s) 4096) m'). split; [exact Hrun|].
      split; [intros; lia|]. split; [intros; lia|].
      intros _. split; [reflexivity|]. split; [reflexivity|]. split; [exact Hinv|].
      split; reflexivity.
Qed.

Lemma imp_mm_init_builds_heap_witness :
  exists r s',
    Implicit.mm_init imp0 = Ret r s' /\ r = 0 /\ globals s' = 4096 + 4 /\
    imp_inv s' [mkBlk (4096 + 12) 4096 false].
Proof.
  destruct (imp_mm_init_builds_heap imp0) as (r & s' & H1 & _ & _ & H2).
  - unfold region_ok. cbn. lia.
  - reflexivity.
  - destruct (H2 ltac:(cbn; lia)) as (Hr & Hg & Hinv & _).
    exists r, s'. exact (conj H1 (conj Hr (conj Hg Hinv))).
Defined.

(** X24.  [mm_init] of the segregated variant, on a region whose top is a
    multiple of 8, asks for the 552 bytes of the list heads, the prologue
    and the epilogue and then for the first chunk.  When both are granted
    it returns 0 and the heap is well formed: [seglist] is the old top,
    [heap_listp] the prologue behind the 16 heads, the only block is a
    free block of 4096 bytes and it is the only node of a list, that of
    class 7.  It returns -1 when the region refuses the 552 bytes, and
    also when the chunk is refused: the globals are set then and the heap
    is well formed, with no block and empty lists. *)
Theorem seg_mm_init_builds_heap (s : Segregated.st) :
  region_ok (heap s) -> mem_brk (heap s) mod 8 = 0 ->
  let start := mem_brk (heap s) in
  let room := mem_max_addr (heap s) - start in
  exists r s',
    Segregated.mm_init s = Ret r s' /\
    (room < 552 -> r = -1 /\ s' = refused s 552) /\
    (552 <= room < 552 + 4096 ->
     r = -1 /\ globals s' = Segregated.mkVars (start + 512) start /\
     seg_inv s' [] (fun _ => []) [] /\
     mem_brk (heap s') = start + 552 /\
     requests (heap s') = 4096 :: 552 :: requests (heap s)) /\
    (552 + 4096 <= room ->
     r = 0 /\ globals s' = Segregated.mkVars (start + 512) start /\
     (exists fl, seg_inv s' [mkBlk (start + 544) 4096 false] fl [] /\
                 fl 7 = [start + 544] /\ forall i, 0 <= i < 16 -> i <> 7 -> fl i = []) /\
     mem_brk (heap s') = start + 552 + 4096 /\
     requests (heap s') = 4096 :: 552 :: requests (heap s)).
Proof.
  intros Hr H8 start room.
  destruct (seg_mm_init_shape s Hr H8) as (H1 & H2 & H3). fold start in H1, H2, H3.
  destruct (Z.lt_ge_cases room 552) as [Hc1|Hc1].
  - exists (-1), (refused s 552). split; [apply H1; unfold room in Hc1; lia|].
    split; [intros _; split; reflexivity|]. split; intros; lia.
  - destruct (Z.lt_ge_cases room (552 + 4096)) as [Hc2|Hc2].
    + destruct (H2 ltac:(unfold room in Hc1; lia) ltac:(unfold room in Hc2; lia))
        as (Hrun & Hinv).
      exists (-1), (refused (seg_init_state s) 4096). split; [exact Hrun|].
      split; [intros; lia|]. split; [|intros; lia].
      intros _. split; [reflexivity|]. split; [reflexivity|]. split; [exact Hinv|].
      split; reflexivity.
    + destruct (H3 ltac:(unfold room in Hc2; lia)) as (m' & fl & Hrun & Hinv & Hfl).
      exists 0, (upd (grown (seg_init_state s) 4096) m'). split; [exact Hrun|].
      split; [intros; lia|]. split; [intros; lia|].
      intros _. split; [reflexivity|]. split; [reflexivity|].
      split; [exists fl; split; [exact Hinv | exact Hfl]|].
      split; reflexivity.
Qed.

Lemma seg_mm_init_builds_heap_witness :
  exists r s',
    Segregated.mm_init seg0 = Ret r s' /\ r = 0 /\
    globals s' = Segregated.mkVars (4096 + 512) 4096 /\
    exists fl, seg_inv s' [mkBlk (4096 + 544) 4096 false] fl [] /\ fl 7 = [4096 + 544].
Proof.
  destruct (seg_mm_init_builds_heap seg0) as (r & s' & H1 & _ & _ & H2).
  - unfold region_ok. cbn. lia.
  - reflexivity.
  - destruct (H2 ltac:(cbn; lia)) as (Hr & Hg & (fl & Hinv & Hfl & _) & _).
    exists r, s'. split; [exact H1|]. split; [exact Hr|]. split; [exact Hg|].
    exists fl. split; [exact Hinv | exact Hfl].
Defined.

(** * The first call of [malloc] *)

Lemma imp_malloc_after_init (s s1 : Implicit.st) (n r : Z) :
  n <> 0 -> globals s = NULL -> Implicit.mm_init s = Ret r s1 -> globals s1 <> NULL ->
  Implicit.malloc n s = Implicit.malloc n s1.
Proof.
  intros Hn Hg Hinit Hg1. unfold Implicit.malloc.
  destruct (Z.eqb_spec n 0) as [|_]; [contradiction|].
  rewrite !get_globals_bind. rewrite Hg. change (NULL =? NULL) with true. cbv iota.
  exec Hinit.
  destruct (Z.eqb_spec (globals s1) NULL) as [|_]; [contradiction|].
  rewrite ret_bind. reflexivity.
Qed.

Lemma seg_malloc_after_init (s s1 : Segregated.st) (n r : Z) :
  n <> 0 -> Segregated.heap_listp (globals s) = NULL ->
  Segregated.mm_init s = Ret r s1 -> Segregated.heap_listp (globals s1) <> NULL ->
  Segregated.malloc n s = Segregated.malloc n s1.
Proof.
  intros Hn Hg Hinit Hg1. unfold Segregated.malloc.
  destruct (Z.eqb_spec n 0) as [|_]; [contradiction|].
  rewrite !get_globals_bind. rewrite Hg. change (NULL =? NULL) with true. cbv iota.
  exec Hinit.
  destruct (Z.eqb_spec (Segregated.heap_listp (globals s1)) NULL) as [|_]; [contradiction|].
  rewrite ret_bind. reflexivity.
Qed.

Lemma singleton_split {A} (x b : A) (l1 l2 : list A) :
  [x] = l1 ++ b :: l2 -> l1 = [] /\ b = x /\ l2 = [].
Proof.
  intros E. destruct l1 as [|y l1].
  - cbn in E. injection E as -> <-. repeat split.
  - cbn in E. injection E as _ E. destruct l1; discriminate E.
Qed.

(** X25.  The first [malloc] initialises the heap.  With [heap_listp]
    null, on a region whose top is a multiple of 8 and that has room for
    what [mm_init] asks, a request that fits the first chunk returns the
    payload of the first block, 16 bytes (implicit) or 552 bytes
    (segregated) above the old top; the heap is well formed and the region
    was asked for the sentinels and for one chunk. *)
Theorem first_malloc_initialises (si : Implicit.st) (ss : Segregated.st) (n : Z) :
  globals si = NULL -> region_ok (heap si) -> mem_brk (heap si) mod 8 = 0 ->
  mem_brk (heap si) + 16 + 4096 <= mem_max_addr (heap si) ->
  Segregated.heap_listp (globals ss) = NULL ->
  region_ok (heap ss) -> mem_brk (heap ss) mod 8 = 0 ->
  mem_brk (heap ss) + 552 + 4096 <= mem_max_addr (heap ss) ->
  0 < n <= 4084 ->
  (exists s',
     Implicit.malloc n si = Ret (mem_brk (heap si) + 16) s' /\ imp_wf s' /\
     globals s' = mem_brk (heap si) + 4 /\
     requests (heap s') = 4096 :: 16 :: requests (heap si)) /\
  (exists s',
     Segregated.malloc n ss = Ret (mem_brk (heap ss) + 552) s' /\ seg_wf s' /\
     globals s' = Segregated.mkVars (mem_brk (heap ss) + 512) (mem_brk (heap ss)) /\
     requests (heap s') = 4096 :: 552 :: requests (heap ss)).
Proof.
  intros Gi Ri Ai Mi Gs Rs As Ms Hn. split.
  - destruct (imp_mm_init_shape si Ri Ai) as (_ & _ & H3).
    destruct (H3 Mi) as (m1 & Hinit & Hinv1).
    set (s1 := upd (grown (imp_init_state si) 4096) m1) in *.
    set (fb := mkBlk (mem_brk (heap si) + 12) 4096 false) in *.
    assert (Hg1 : globals s1 <> NULL).
    { change (globals s1) with (mem_brk (heap si) + 4).
      destruct Ri as (? & ? & _). unfold NULL. lia. }
    rewrite (imp_malloc_after_init si s1 n 0 ltac:(lia) Gi Hinit Hg1).
    destruct (imp_malloc_shape s1 [fb] n Hinv1 ltac:(lia) ltac:(lia))
      as (p & s' & Hm & Hg & Hres).
    assert (Hfits : exists b, In b [fb] /\ b_alloc b = false /\
                    wrap64 (Implicit.round_up n Implicit.dsize + Implicit.dsize) <= b_size b).
    { exists fb. split; [left; reflexivity|]. split; [reflexivity|].
      change Implicit.dsize with 8.
      change (Implicit.round_up n 8) with (Segregated.round_up n 8).
      rewrite (round_up_value n 8) by lia.
      rewrite wrap64_small by mlia. cbn [fb b_size]. mlia. }
    destruct Hres as [(_ & _ & _ & Hno & _) |
                      (Hp & bs' & sz' & Hinv' & _ & _ & _ & _ & _ & Hcase)];
      [contradiction|].
    destruct Hcase as [(Hs' & l1 & b & l2 & E & _ & _ & _ & Hpb & _) | (Hno & _)];
      [|contradiction].
    destruct (singleton_split _ _ _ _ E) as (_ & -> & _).
    exists s'. rewrite Hpb in Hm. cbn [fb b_addr] in Hm.
    replace (mem_brk (heap si) + 12 + 4) with (mem_brk (heap si) + 16) in Hm by lia.
    split; [exact Hm|]. split; [exists bs'; exact Hinv'|].
    split; [rewrite Hg; reflexivity | rewrite Hs'; reflexivity].
  - destruct (seg_mm_init_shape ss Rs As) as (_ & _ & H3).
    destruct (H3 Ms) as (m1 & fl1 & Hinit & Hinv1 & _).
    set (s1 := upd (grown (seg_init_state ss) 4096) m1) in *.
    set (fb := mkBlk (mem_brk (heap ss) + 544) 4096 false) in *.
    assert (Hg1 : Segregated.heap_listp (globals s1) <> NULL).
    { change (Segregated.heap_listp (globals s1)) with (mem_brk (heap ss) + 512).
      destruct Rs as (? & ? & _). unfold NULL. lia. }
    rewrite (seg_malloc_after_init ss s1 n 0 ltac:(lia) Gs Hinit Hg1).
    destruct (seg_malloc_shape s1 [fb] fl1 n Hinv1 ltac:(lia))
      as (p & s' & Hm & Hg & Hres).
    assert (Hfits : exists b, In b [fb] /\ b_alloc b = false /\
                    Segregated.get_asize n <= b_size b).
    { exists fb. split; [left; reflexivity|]. split; [reflexivity|].
      unfold Segregated.get_asize, Segregated.max.
      change Segregated.tsize with 12. change Segregated.dsize with 8.
      change Segregated.min_block_size with 32.
      rewrite (wrap64_small (n + 12)) by lia.
      rewrite round_up_value by lia. cbn [fb b_size].
      destruct (Z.gtb_spec (8 * ((n + 12 + (8 - 1)) / 8)) 32); mlia. }
    destruct Hres as [(_ & _ & _ & Hno & _) |
                      (Hp & bs' & fl' & sz' & Hinv' & _ & _ & _ & _ & _ & Hcase)];
      [contradiction|].
    destruct Hcase as [(Hs' & i & r1 & r2 & l1 & b & l2 & _ & _ & _ & _ & E & _ & _ & Hpb & _)
                      | (Hno & _)]; [|contradiction].
    destruct (singleton_split _ _ _ _ E) as (_ & -> & _).
    exists s'. rewrite Hpb in Hm. cbn [fb b_addr] in Hm.
    replace (mem_brk (heap ss) + 544 + 8) with (mem_brk (heap ss) + 552) in Hm by lia.
    split; [exact Hm|]. split; [exists bs', fl'; exact Hinv'|].
    split; [rewrite Hg; reflexivity | rewrite Hs'; reflexivity].
Qed.

Lemma first_malloc_initialises_witness :
  (exists s', Implicit.malloc 24 imp0 = Ret (4096 + 16) s' /\ imp_wf s') /\
  (exists s', Segregated.malloc 24 seg0 = Ret (4096 + 552) s' /\ seg_wf s').
Proof.
  assert (R : region_ok (fresh_region 4096 (4096 + 2 ^ 20))) by (unfold region_ok; cbn; lia).
  destruct (first_malloc_initialises imp0 seg0 24 eq_refl R eq_refl)
    as ((s' & H1 & H2 & _) & (t' & G1 & G2 & _));
    [cbn; lia | reflexivity | exact R | reflexivity | cbn; lia | lia |].
  split; [exists s' | exists t']; split; assumption.
Defined.

(** * [mm_checkheap] *)

(** X26.  [mm_checkheap] does not change the heap, returns [false] while
    [heap_listp] is null, and accepts every well-formed heap of its
    variant. *)
Theorem checkheap_accepts_well_formed
    (si : Implicit.st) (bsi : list blk)
    (ss : Segregated.st) (bss : list blk) (fl : Z -> list Z) (ex : list Z) (lineno : Z) :
  imp_inv si bsi -> seg_inv ss bss fl ex ->
  Implicit.mm_checkheap lineno si = Ret true si /\
  Segregated.mm_checkheap lineno ss = Ret true ss /\
  (forall s, globals s = NULL -> Implicit.mm_checkheap lineno s = Ret false s) /\
  (forall s, Segregated.heap_listp (globals s) = NULL ->
             Segregated.mm_checkheap lineno s = Ret false s).
Proof.
  intros Hi Hs.
  split; [exact (imp_checkheap_wf si bsi lineno Hi)|].
  split; [exact (seg_checkheap_wf ss bss fl ex lineno Hs)|].
  split.
  - intros s Hg. unfold Implicit.mm_checkheap. rewrite get_globals_bind, Hg. reflexivity.
  - intros s Hg. unfold Segregated.mm_checkheap. rewrite get_globals_bind, Hg. reflexivity.
Qed.

Lemma checkheap_accepts_well_formed_witness :
  Implicit.mm_checkheap 0 imp2 = Ret true imp2 /\
  Segregated.mm_checkheap 0 seg3 = Ret true seg3 /\
  Implicit.mm_checkheap 0 imp0 = Ret false imp0.
Proof.
  destruct (checkheap_accepts_well_formed imp2 imp2_blocks seg3 seg3_blocks seg3_lists [] 0
              imp2_inv seg3_inv) as (H1 & H2 & H3 & _).
  split; [exact H1|]. split; [exact H2|]. apply H3. reflexivity.
Defined.

(** X27.  What [mm_checkheap] compares.  On a heap whose headers hold the
    sizes of blocks that lie end to end from [heap_listp] to the epilogue
    (of 32 bytes at least, in the segregated variant), the walk compares
    the header of every block but the last one with its footer, and the
    result is [true] exactly when they all agree.  The loop stops as soon
    as the address one [block_t] above the next block is not below the
    last byte of the region: the tags of the last block are never
    compared. *)
Theorem checkheap_compares_all_but_last
    (si : Implicit.st) (p : blk) (l : list blk)
    (ss : Segregated.st) (q : blk) (k : list blk) (lineno : Z) :
  globals si <> NULL -> mem_start_brk (heap si) <= globals si ->
  chain (globals si) (p :: l) (mem_brk (heap si) - 4) ->
  (forall b, In b (p :: l) -> size_at (bytes (heap si)) (b_addr b) = b_size b) ->
  Segregated.heap_listp (globals ss) <> NULL ->
  mem_start_brk (heap ss) <= Segregated.heap_listp (globals ss) ->
  chain (Segregated.heap_listp (globals ss)) (q :: k) (mem_brk (heap ss) - 8) ->
  (forall b, In b (q :: k) -> size_at (bytes (heap ss)) (b_addr b) = b_size b) ->
  (forall b, In b k -> 32 <= b_size b) ->
  Implicit.mm_checkheap lineno si =
    Ret (forallb (tags_match (bytes (heap si))) (removelast (p :: l))) si /\
  Segregated.mm_checkheap lineno ss =
    Ret (forallb (tags_match (bytes (heap ss))) (removelast (q :: k))) ss.
Proof.
  intros Gi Li Ci Si Gs Ls Cs Ss Ms. split.
  - apply imp_checkheap_run; assumption.
  - apply seg_checkheap_run; assumption.
Qed.

(** The footer of the last block of [imp2] and of [seg2] overwritten with
    0: the heap is accepted although the tags of that block differ. *)
Lemma checkheap_compares_all_but_last_witness :
  (let s := upd imp2 (store32 (bytes (heap imp2)) (4140 + 4064 - 4) 0) in
   Implicit.mm_checkheap 0 s = Ret true s /\
   tags_match (bytes (heap s)) (mkBlk 4140 4064 false) = false) /\
  (let s := upd seg2 (store32 (bytes (heap seg2)) (4680 + 4056 - 4) 0) in
   Segregated.mm_checkheap 0 s = Ret true s /\
   tags_match (bytes (heap s)) (mkBlk 4680 4056 false) = false).
Proof.
  cbv zeta.
  destruct (checkheap_compares_all_but_last
              (upd imp2 (store32 (bytes (heap imp2)) (4140 + 4064 - 4) 0))
              (mkBlk 4100 8 true) imp2_blocks
              (upd seg2 (store32 (bytes (heap seg2)) (4680 + 4056 - 4) 0))
              (mkBlk 4608 32 true) seg2_blocks 0) as (H1 & H2).
  - vm_compute. discriminate.
  - vm_compute. discriminate.
  - vm_compute. repeat split; discriminate.
  - intros b [<-|[<-|[<-|[]]]]; vm_compute; reflexivity.
  - vm_compute. discriminate.
  - vm_compute. discriminate.
  - vm_compute. repeat split; discriminate.
  - intros b [<-|[<-|[<-|[]]]]; vm_compute; reflexivity.
  - intros b [<-|[<-|[]]]; vm_compute; discriminate.
  - split; (split; [|vm_compute; reflexivity]).
    + rewrite H1. f_equal.
    + rewrite H2. f_equal.
Defined.

(** * The free lists *)

(** X28.  [insert_free_block] is a LIFO insertion.  In a well-formed heap
    in which the free block [b] is on no list, the call returns and [b] is
    the first node of the list of its size class, before the nodes that
    were there: the head points to [b], [b] points back to the head and on
    to the node that was first.  The other lists, the tags and the bytes
    of the allocated blocks are unchanged. *)
Theorem insert_free_block_is_lifo
    (s : Segregated.st) (bs : list blk) (fl : Z -> list Z) (ex : list Z) (b sz : Z) :
  seg_inv s bs fl ex -> In (mkBlk b sz false) bs -> In b ex ->
  let i := Segregated.get_seglist_idx sz in
  let h := head_of s i in
  exists s',
    Segregated.insert_free_block b s = Ret tt s' /\ globals s' = globals s /\
    seg_inv s' bs (set_list fl i (b :: fl i)) (remove Z.eq_dec b ex) /\
    succ_of (bytes (heap s')) h = b /\ pred_of (bytes (heap s')) b = h /\
    succ_of (bytes (heap s')) b = succ_of (bytes (heap s)) h /\
    (forall a, In a bs -> b_alloc a = true ->
               same_bytes (bytes (heap s)) (bytes (heap s')) a).
Proof.
  intros Hinv Hb Hex i h.
  assert (Hex' : forall x, In x (remove Z.eq_dec b ex) <-> In x ex /\ x <> b).
  { intros x. split.
    - intros H. apply in_remove in H. exact H.
    - intros [H1 H2]. apply in_in_remove; assumption. }
  destruct (seg_link_lists s bs fl ex _ b sz Hinv Hb Hex Hex') as (Hrun & Hinv' & Hsame).
  fold i in Hrun, Hinv', Hsame. fold h in Hrun, Hinv', Hsame.
  set (m' := link_front (bytes (heap s)) h b) in *.
  destruct (seg_block_facts s bs fl ex Hinv _ (or_intror Hb)) as (_ & _ & Hsz & _).
  cbn [b_size] in Hsz.
  assert (Hi : 0 <= i < 16) by (apply seg_idx_range; lia).
  destruct (si_lists _ _ _ _ Hinv' i Hi) as [Hp' _].
  destruct (si_lists _ _ _ _ Hinv i Hi) as [Hp _].
  unfold set_list in Hp'. rewrite Z.eqb_refl in Hp'.
  change (head_of (upd s m') i) with h in Hp'. fold h in Hp.
  rewrite bytes_upd in Hp'. cbn [path] in Hp'. destruct Hp' as [[L1 L2] Hp'].
  exists (upd s m'). rewrite bytes_upd.
  split; [exact Hrun|]. split; [reflexivity|]. split; [exact Hinv'|].
  split; [exact L1|]. split; [exact L2|]. split; [|exact Hsame].
  rewrite (path_first _ _ _ _ Hp'), (path_first _ _ _ _ Hp). reflexivity.
Qed.

Lemma insert_free_block_is_lifo_witness :
  exists s',
    Segregated.insert_free_block 4640 seg1_off = Ret tt s' /\
    succ_of (bytes (heap s')) (head_of seg1_off 7) = 4640 /\
    pred_of (bytes (heap s')) 4640 = head_of seg1_off 7.
Proof.
  destruct (insert_free_block_is_lifo seg1_off seg1_blocks no_lists [4640] 4640 4096
              seg1_off_inv) as (s' & H1 & _ & _ & H2 & H3 & _);
    [left; reflexivity | left; reflexivity |].
  exists s'. split; [exact H1|]. split; [exact H2 | exact H3].
Defined.

(** X29.  [remove_from_free_list] takes a node out of its list and leaves
    everything else in place: in a well-formed heap the call returns, the
    list of the node is the same sequence without it, the other lists, the
    tags and the bytes of the allocated blocks are unchanged.  The block
    is still marked free; it is on no list until it is inserted again. *)
Theorem remove_from_free_list_unlinks
    (s : Segregated.st) (bs : list blk) (fl : Z -> list Z) (ex : list Z)
    (i n : Z) (l1 l2 : list Z) :
  seg_inv s bs fl ex -> 0 <= i < 16 -> fl i = l1 ++ n :: l2 ->
  exists s',
    Segregated.remove_from_free_list n s = Ret tt s' /\ globals s' = globals s /\
    seg_inv s' bs (set_list fl i (l1 ++ l2)) (n :: ex) /\
    size_at (bytes (heap s')) n = size_at (bytes (heap s)) n /\
    alloc_at (bytes (heap s')) n = false /\
    (forall a, In a bs -> b_alloc a = true ->
               same_bytes (bytes (heap s)) (bytes (heap s')) a).
Proof.
  intros Hinv Hi E.
  destruct (seg_unlink_lists s bs fl ex Hinv i n l1 l2 Hi E) as (Hrun & Hinv' & Hsame).
  set (m' := unlink (bytes (heap s)) n) in *.
  assert (Hn : In n (fl i)) by (rewrite E; apply in_or_app; right; left; reflexivity).
  destruct (seg_node_block s bs fl ex Hinv i n Hi Hn) as (b & Hb & Hba & Hbf & _).
  destruct (seg_block_read s bs fl ex Hinv b (or_intror Hb)) as (R1 & _).
  destruct (seg_block_read (upd s m') bs _ _ Hinv' b (or_intror Hb)) as (R1' & R2' & _).
  rewrite bytes_upd in R1', R2'. rewrite Hba in R1, R1', R2'.
  exists (upd s m'). rewrite bytes_upd.
  split; [exact Hrun|]. split; [reflexivity|]. split; [exact Hinv'|].
  split; [congruence|]. split; [congruence | exact Hsame].
Qed.

Lemma remove_from_free_list_unlinks_witness :
  exists s',
    Segregated.remove_from_free_list 4640 seg3 = Ret tt s' /\
    seg_inv s' seg3_blocks (set_list seg3_lists 0 ([] ++ [])) [4640].
Proof.
  destruct (remove_from_free_list_unlinks seg3 seg3_blocks seg3_lists [] 0 4640 [] []
              seg3_inv) as (s' & H1 & _ & H2 & _); [lia | reflexivity |].
  exists s'. split; [exact H1 | exact H2].
Defined.

(** * [extend_heap] *)

Lemma imp_extend_heap_round (s : Implicit.st) (size : Z) :
  0 <= size -> size + 7 < 2 ^ 64 ->
  Implicit.extend_heap size s = Implicit.extend_heap (Implicit.round_up size 8) s.
Proof.
  intros H0 Hb. unfold Implicit.extend_heap. change Implicit.dsize with 8.
  change (Implicit.round_up size 8) with (Segregated.round_up size 8).
  rewrite (round_up_multiple (Segregated.round_up size 8)); [reflexivity| |].
  - rewrite round_up_value by lia. mlia.
  - rewrite round_up_value by lia. mlia.
Qed.

Lemma seg_extend_heap_round (s : Segregated.st) (size : Z) :
  0 <= size -> size + 7 < 2 ^ 64 ->
  Segregated.extend_heap size s = Segregated.extend_heap (Segregated.round_up size 8) s.
Proof.
  intros H0 Hb. unfold Segregated.extend_heap. change Segregated.dsize with 8.
  rewrite (seg_round_up_multiple (Segregated.round_up size 8)); [reflexivity| |].
  - rewrite round_up_value by lia. mlia.
  - rewrite round_up_value by lia. mlia.
Qed.

(** X30.  [extend_heap(size)] asks the backing region for [size] rounded
    up to a multiple of 8.  When the region grants it, the call returns a
    free block of the new, well-formed heap that has as many bytes at
    least: it ends where the new epilogue starts and begins where the old
    epilogue was, or at the last block of the old heap when that one was
    free.  The allocated blocks keep their places and their bytes.  When
    the region refuses, the call returns null and only the record of the
    request has changed. *)
Theorem extend_heap_appends_free_block
    (si : Implicit.st) (bsi : list blk)
    (ss : Segregated.st) (bss : list blk) (fl : Z -> list Z) (size : Z) :
  imp_inv si bsi -> seg_inv ss bss fl [] -> 32 <= size -> size + 7 < 2 ^ 64 ->
  let rs := Segregated.round_up size 8 in
  (mem_brk (heap si) + rs <= mem_max_addr (heap si) ->
   exists s' bs' fb,
     Implicit.extend_heap size si = Ret (b_addr fb) s' /\ imp_inv s' bs' /\
     mem_brk (heap s') = mem_brk (heap si) + rs /\
     requests (heap s') = rs :: requests (heap si) /\
     In fb bs' /\ b_alloc fb = false /\ size <= b_size fb /\
     b_addr fb <= mem_brk (heap si) - 4 /\ b_addr fb + b_size fb = mem_brk (heap s') - 4 /\
     keeps (bytes (heap si)) (bytes (heap s')) bsi bs') /\
  (mem_max_addr (heap si) < mem_brk (heap si) + rs ->
   Implicit.extend_heap size si = Ret NULL (refused si rs)) /\
  (mem_brk (heap ss) + rs <= mem_max_addr (heap ss) ->
   exists s' bs' fl' fb,
     Segregated.extend_heap size ss = Ret (b_addr fb) s' /\ seg_inv s' bs' fl' [] /\
     mem_brk (heap s') = mem_brk (heap ss) + rs /\
     requests (heap s') = rs :: requests (heap ss) /\
     In fb bs' /\ b_alloc fb = false /\ size <= b_size fb /\
     b_addr fb <= mem_brk (heap ss) - 8 /\ b_addr fb + b_size fb = mem_brk (heap s') - 8 /\
     keeps (bytes (heap ss)) (bytes (heap s')) bss bs') /\
  (mem_max_addr (heap ss) < mem_brk (heap ss) + rs ->
   Segregated.extend_heap size ss = Ret NULL (refused ss rs)).
Proof.
  intros Hi Hs Hsz Hb rs.
  assert (Hrs : size <= rs < 2 ^ 64 /\ rs mod 8 = 0).
  { unfold rs. rewrite round_up_value by lia. mlia. }
  destruct Hrs as (Hrs1 & Hrs8).
  rewrite (imp_extend_heap_round si size ltac:(lia) Hb).
  rewrite (seg_extend_heap_round ss size ltac:(lia) Hb).
  change (Implicit.round_up size 8) with rs. fold rs.
  split; [|split; [|split]].
  - intros Hok.
    destruct (imp_extend_heap_shape si bsi rs Hi ltac:(lia) Hrs8 Hok)
      as (m' & bs' & fb & H1 & H2 & H3 & H4 & H5 & H6 & H7 & H8 & _).
    exists (upd (grown si rs) m'), bs', fb. rewrite bytes_upd.
    split; [exact H1|]. split; [exact H2|]. split; [reflexivity|]. split; [reflexivity|].
    split; [exact H3|]. split; [exact H4|]. split; [lia|]. split; [exact H7|].
    split; [exact H8 | exact H6].
  - intros Hno. apply imp_extend_heap_refused; [lia | exact Hrs8 | exact Hno].
  - intros Hok.
    destruct (seg_extend_heap_shape ss bss fl rs Hs ltac:(lia) Hrs8 Hok)
      as (m' & bs' & fl' & fb & H1 & H2 & H3 & H4 & H5 & H6 & H7 & H8 & _).
    exists (upd (grown ss rs) m'), bs', fl', fb. rewrite bytes_upd.
    split; [exact H1|]. split; [exact H2|]. split; [reflexivity|]. split; [reflexivity|].
    split; [exact H3|]. split; [exact H4|]. split; [lia|]. split; [exact H7|].
    split; [exact H8 | exact H6].
  - intros Hno. apply seg_extend_heap_refused; [lia | exact Hrs8 | exact Hno].
Qed.

Lemma extend_heap_appends_free_block_witness :
  (exists s' bs' fb,
     Implicit.extend_heap 100 imp2 = Ret (b_addr fb) s' /\ imp_inv s' bs' /\
     requests (heap s') = 104 :: requests (heap imp2) /\ In fb bs' /\ 100 <= b_size fb) /\
  (exists s' bs' fl' fb,
     Segregated.extend_heap 100 seg2 = Ret (b_addr fb) s' /\ seg_inv s' bs' fl' [] /\
     requests (heap s') = 104 :: requests (heap seg2) /\ In fb bs' /\ 100 <= b_size fb).
Proof.
  destruct (extend_heap_appends_free_block imp2 imp2_blocks seg2 seg2_blocks seg2_lists 100
              imp2_inv seg2_inv) as (H1 & _ & H2 & _); [lia | lia |].
  destruct (H1 ltac:(vm_compute; discriminate))
    as (s' & bs' & fb & A1 & A2 & _ & A3 & A4 & _ & A5 & _).
  destruct (H2 ltac:(vm_compute; discriminate))
    as (t' & cs' & fl' & gb & B1 & B2 & _ & B3 & B4 & _ & B5 & _).
  split.
  - exists s', bs', fb. exact (conj A1 (conj A2 (conj A3 (conj A4 A5)))).
  - exists t', cs', fl', gb. exact (conj B1 (conj B2 (conj B3 (conj B4 B5)))).
Defined.

